(** * A bilingual boolean retrieval engine: tokenizer, stemmer, index builder
      and query evaluator

    A shallow embedding of the C/C++ sources

    - [lab3/tokenize.cpp]     the codepoint-level tokenizer     (module [Tokenize])
    - [bool_index.cpp]        the index builder and lookup tool (module [BoolIndex])
    - [lab7/bool_search.cpp]  the index reader and query engine (module [BoolSearch])
    - [stem.c]                the English stemmer               (module [Stem])

    Conventions.  A [std::string] or a C string is a [list Z] of bytes in
    [0, 256) (a C string holds no zero byte); [size_t] indices are [nat];
    fixed-width unsigned values are [Z] with the wrap-around written out
    ([wrap32], [wrap64]); a growable array is a [list]; [die(...)] is the
    [Die] outcome of the small error monad below.  Array lengths are taken
    to fit their 32-bit counters. *)

From Stdlib Require Import ZArith List Lia Bool String Ascii Sorted.
From stdpp Require Import base numbers list sorting.

Local Open Scope Z_scope.

(* ===================================================================== *)
(** * Part I.  The embedding                                              *)
(* ===================================================================== *)

(** ** Bytes, strings and machine integers *)

Module Bytes.

Definition is_byte (b : Z) : Prop := 0 <= b < 256.

Definition wrap32 (x : Z) : Z := x mod 2 ^ 32.
Definition wrap64 (x : Z) : Z := x mod 2 ^ 64.

(** [(unsigned char)s[i]], read by the sources only where [i < s.size()]. *)
Definition byte_at (s : list Z) (i : nat) : Z := default 0 (s !! i).

(** [a[i]] on a [uint32_t] array, read only where [i] is in range. *)
Definition u32_at (a : list Z) (i : nat) : Z := default 0 (a !! i).

(** A string literal as the bytes of a C string. *)
Definition str (s : string) : list Z :=
  map (fun a => Z.of_nat (nat_of_ascii a)) (list_ascii_of_string s).

(** Byte-wise equality of two strings ([==] on [std::string], or
    [strcmp(..) == 0] on C strings). *)
Definition bytes_eqb (a b : list Z) : bool := bool_decide (a = b).

(** Outcome of a routine: [Done a] is normal completion; [Die msg] is a
    call of [die(msg)], which prints the diagnostic and ends the process
    with [exit(2)]; [Undefined] marks an execution the C++ standard leaves
    undefined (a write past a buffer, a read of uninitialised memory). *)
Inductive outcome (A : Type) : Type :=
| Die (msg : string)
| Undefined
| Done (a : A).
Arguments Die {A} msg.
Arguments Undefined {A}.
Arguments Done {A} a.

Definition outcome_bind {A B : Type} (x : outcome A) (k : A -> outcome B)
  : outcome B :=
  match x with
  | Die msg => Die msg
  | Undefined => Undefined
  | Done a => k a
  end.

(** *** [std::string] searching and slicing *)

Fixpoint is_prefix (p s : list Z) : bool :=
  match p, s with
  | [], _ => true
  | _ :: _, [] => false
  | x :: p', y :: s' => (x =? y) && is_prefix p' s'
  end.

(** [hay.find(needle)] scanning a suffix that starts at index [pos];
    [None] is [npos]. *)
Fixpoint find_sub_from (needle hay : list Z) (pos : nat) : option nat :=
  if is_prefix needle hay then Some pos
  else match hay with
       | [] => None
       | _ :: hay' => find_sub_from needle hay' (S pos)
       end.

Definition find_sub (needle hay : list Z) : option nat :=
  find_sub_from needle hay 0.

Definition contains (needle hay : list Z) : bool :=
  match find_sub needle hay with Some _ => true | None => false end.

(** [s.find(c, from)]. *)
Definition find_char (c : Z) (s : list Z) (from : nat) : option nat :=
  find_sub_from [c] (drop from s) from.

(** [s.substr(pos, len)] and [s.substr(pos)], for [pos <= s.size()]. *)
Definition substr (s : list Z) (pos len : nat) : list Z := take len (drop pos s).
Definition substr_from (s : list Z) (pos : nat) : list Z := drop pos s.

(** The lines [std::getline] delivers from a stream with the given content:
    a final line without its newline is still delivered, an empty remainder
    is not. *)
Fixpoint getlines_from (cur content : list Z) : list (list Z) :=
  match content with
  | [] => match cur with [] => [] | _ => [cur] end
  | c :: rest =>
      if c =? 10 then cur :: getlines_from [] rest
      else getlines_from (cur ++ [c]) rest
  end.

Definition getlines (content : list Z) : list (list Z) := getlines_from [] content.

(** *** [strtoul] / [strtoull] in base 10 (64-bit [unsigned long]) *)

Definition is_space_c (c : Z) : bool := (c =? 32) || ((9 <=? c) && (c <=? 13)).
Definition is_digit_c (c : Z) : bool := (48 <=? c) && (c <=? 57).

Fixpoint skip_spaces (s : list Z) : list Z :=
  match s with
  | c :: s' => if is_space_c c then skip_spaces s' else s
  | [] => []
  end.

(** Value of the longest prefix of decimal digits. *)
Fixpoint digits_value (acc : Z) (s : list Z) : Z :=
  match s with
  | c :: s' => if is_digit_c c then digits_value (acc * 10 + (c - 48)) s' else acc
  | [] => acc
  end.

Definition ULONG_MAX : Z := 2 ^ 64 - 1.

Definition strtoull (s : list Z) : Z :=
  let s1 := skip_spaces s in
  let '(neg, s2) :=
    match s1 with
    | c :: s' => if c =? 45 then (true, s') else if c =? 43 then (false, s') else (false, s1)
    | [] => (false, s1)
    end in
  let v := digits_value 0 s2 in
  if ULONG_MAX <? v then ULONG_MAX
  else if neg then wrap64 (- v) else v.

(** *** 32-bit values as stored in [postings.bin] (little-endian host) *)

Definition is_u32 (x : Z) : Prop := 0 <= x < 2 ^ 32.

Definition u32_bytes (x : Z) : list Z :=
  [x mod 256; (x / 256) mod 256; (x / 65536) mod 256; (x / 16777216) mod 256].

Definition u32_of_bytes (b0 b1 b2 b3 : Z) : Z :=
  b0 + 256 * b1 + 65536 * b2 + 16777216 * b3.

Definition u32_array_bytes (a : list Z) : list Z := flat_map u32_bytes a.

(** The [uint32_t] array held by a buffer of raw bytes; [None] when the
    byte count is not a multiple of four. *)
Fixpoint u32_array_of_bytes (bs : list Z) : option (list Z) :=
  match bs with
  | [] => Some []
  | b0 :: b1 :: b2 :: b3 :: rest =>
      match u32_array_of_bytes rest with
      | Some a => Some (u32_of_bytes b0 b1 b2 b3 :: a)
      | None => None
      end
  | _ => None
  end.

End Bytes.

(** ** [lab3/tokenize.cpp]: the codec and the codepoint-level tokenizer *)

Module Tokenize.
Import Bytes.

Definition is_ascii_upper (cp : Z) : bool := (65 <=? cp) && (cp <=? 90).
Definition is_ascii_digit (cp : Z) : bool := (48 <=? cp) && (cp <=? 57).

Definition is_cyr_upper (cp : Z) : bool :=
  ((0x0410 <=? cp) && (cp <=? 0x042F)) || (cp =? 0x0401).
Definition is_cyr_lower (cp : Z) : bool :=
  ((0x0430 <=? cp) && (cp <=? 0x044F)) || (cp =? 0x0451).
Definition is_greek (cp : Z) : bool := (0x0370 <=? cp) && (cp <=? 0x03FF).

Definition to_lower_cp (cp : Z) : Z :=
  if is_ascii_upper cp then cp + 32
  else if (0x0410 <=? cp) && (cp <=? 0x042F) then cp + 32
  else if cp =? 0x0401 then 0x0451
  else cp.

Definition is_letter (cp : Z) : bool :=
  if ((97 <=? cp) && (cp <=? 122)) || ((65 <=? cp) && (cp <=? 90)) then true
  else if is_cyr_lower cp || is_cyr_upper cp then true
  else if is_greek cp then true
  else if cp =? 0x00B5 then true
  else false.

Definition is_alnum (cp : Z) : bool := is_letter cp || is_ascii_digit cp.

Definition is_hyphen (cp : Z) : bool :=
  (cp =? 0x002D) || (cp =? 0x2010) || (cp =? 0x2011) || (cp =? 0x2012)
  || (cp =? 0x2212).
Definition is_apostrophe (cp : Z) : bool := (cp =? 0x0027) || (cp =? 0x2019).

(** [decode_utf8_next(s, i, out_cp)].  [None] is the [false] return (nothing
    left to decode); [Some (i', cp)] is the [true] return with the updated
    index and the codepoint stored in [out_cp].  The shifted values stay
    below [2^21], so the [uint32_t] arithmetic never wraps. *)
Definition decode_utf8_next (s : list Z) (i : nat) : option (nat * Z) :=
  if (length s <=? i)%nat then None else
  let c0 := byte_at s i in
  if c0 <? 0x80 then Some ((i + 1)%nat, c0) else
  if Z.land c0 0xE0 =? 0xC0 then
    if (length s <=? i + 1)%nat then Some ((i + 1)%nat, 0xFFFD) else
    let c1 := byte_at s (i + 1) in
    if negb (Z.land c1 0xC0 =? 0x80) then Some ((i + 1)%nat, 0xFFFD) else
    Some ((i + 2)%nat,
          Z.lor (Z.shiftl (Z.land c0 0x1F) 6) (Z.land c1 0x3F))
  else if Z.land c0 0xF0 =? 0xE0 then
    if (length s <=? i + 2)%nat then Some ((i + 1)%nat, 0xFFFD) else
    let c1 := byte_at s (i + 1) in
    let c2 := byte_at s (i + 2) in
    if negb (Z.land c1 0xC0 =? 0x80) || negb (Z.land c2 0xC0 =? 0x80)
    then Some ((i + 1)%nat, 0xFFFD) else
    Some ((i + 3)%nat,
          Z.lor (Z.lor (Z.shiftl (Z.land c0 0x0F) 12)
                       (Z.shiftl (Z.land c1 0x3F) 6))
                (Z.land c2 0x3F))
  else if Z.land c0 0xF8 =? 0xF0 then
    if (length s <=? i + 3)%nat then Some ((i + 1)%nat, 0xFFFD) else
    let c1 := byte_at s (i + 1) in
    let c2 := byte_at s (i + 2) in
    let c3 := byte_at s (i + 3) in
    if negb (Z.land c1 0xC0 =? 0x80) || negb (Z.land c2 0xC0 =? 0x80)
       || negb (Z.land c3 0xC0 =? 0x80)
    then Some ((i + 1)%nat, 0xFFFD) else
    Some ((i + 4)%nat,
          Z.lor (Z.lor (Z.lor (Z.shiftl (Z.land c0 0x07) 18)
                              (Z.shiftl (Z.land c1 0x3F) 12))
                       (Z.shiftl (Z.land c2 0x3F) 6))
                (Z.land c3 0x3F))
  else Some ((i + 1)%nat, 0xFFFD).

(** [append_utf8(out, cp)]: the bytes pushed onto [out]; each [(char)] cast
    keeps the low eight bits. *)
Definition utf8_bytes (cp : Z) : list Z :=
  if cp <=? 0x7F then [cp mod 256]
  else if cp <=? 0x7FF then
    [Z.lor 0xC0 (Z.land (Z.shiftr cp 6) 0x1F);
     Z.lor 0x80 (Z.land cp 0x3F)]
  else if cp <=? 0xFFFF then
    [Z.lor 0xE0 (Z.land (Z.shiftr cp 12) 0x0F);
     Z.lor 0x80 (Z.land (Z.shiftr cp 6) 0x3F);
     Z.lor 0x80 (Z.land cp 0x3F)]
  else
    [Z.lor 0xF0 (Z.land (Z.shiftr cp 18) 0x07);
     Z.lor 0x80 (Z.land (Z.shiftr cp 12) 0x3F);
     Z.lor 0x80 (Z.land (Z.shiftr cp 6) 0x3F);
     Z.lor 0x80 (Z.land cp 0x3F)].

Definition append_utf8 (out : list Z) (cp : Z) : list Z := out ++ utf8_bytes cp.

(** [tok.back()], read only when [tok] is not empty. *)
Definition back (tok : list Z) : Z := default 0 (last tok).

Definition is_empty (tok : list Z) : bool :=
  match tok with [] => true | _ => false end.

(** The [flush] lambda.  The emitted tokens (printed, and counted in
    [freq]) are collected in order; the counters of [Stats] are functions
    of that sequence and are left out. *)
Definition flush (tok : list Z) (emitted : list (list Z))
  : list Z * list (list Z) :=
  match tok with
  | [] => (tok, emitted)
  | _ => ([], emitted ++ [tok])
  end.

(** The [while (i < line.size())] loop of [tokenize_line]; every iteration
    advances [i] by at least one byte. *)
Fixpoint tokenize_loop (fuel : nat) (line : list Z) (i : nat)
         (tok : list Z) (emitted : list (list Z)) : list Z * list (list Z) :=
  match fuel with
  | O => (tok, emitted)
  | S fuel' =>
      if (length line <=? i)%nat then (tok, emitted)
      else
        match decode_utf8_next line i with
        | None => (tok, emitted)
        | Some (j, cp) =>
            let '(has_next, next) :=
              match decode_utf8_next line j with
              | Some (_, nx) => (true, nx)
              | None => (false, 0)
              end in
            if is_alnum cp then
              tokenize_loop fuel' line j (append_utf8 tok (to_lower_cp cp)) emitted
            else if is_hyphen cp && negb (is_empty tok) && has_next && is_alnum next then
              tokenize_loop fuel' line j (append_utf8 tok cp) emitted
            else if (cp =? 43) && negb (is_empty tok) && has_next && is_alnum next then
              tokenize_loop fuel' line j (append_utf8 tok cp) emitted
            else if (cp =? 46)
                    && (negb (is_empty tok) && is_ascii_digit (back tok))
                    && (has_next && is_ascii_digit next) then
              tokenize_loop fuel' line j (append_utf8 tok cp) emitted
            else if is_apostrophe cp && negb (is_empty tok) && has_next
                    && is_letter next then
              tokenize_loop fuel' line j (append_utf8 tok cp) emitted
            else
              let '(tok', emitted') := flush tok emitted in
              tokenize_loop fuel' line j tok' emitted'
        end
  end.

(** [tokenize_line(line, ...)]: the tokens it emits, in order. *)
Definition tokenize_line (line : list Z) : list (list Z) :=
  let '(tok, emitted) := tokenize_loop (length line) line 0 [] [] in
  snd (flush tok emitted).

(** Vocabulary for the decoder's contract.  [seq_len c0] is the length the
    lead byte [c0] announces (0 for a byte that cannot start a sequence);
    a sequence is truncated when the input ends before its last byte, and
    has a bad continuation when one of its trailing bytes present in the
    input is not of the form [10xxxxxx]; a stray lead is a byte that starts
    no sequence (a continuation byte [10xxxxxx] or a byte [11111xxx]).
    Malformed input is any of the three. *)
Definition seq_len (c0 : Z) : nat :=
  if c0 <? 0x80 then 1
  else if Z.land c0 0xE0 =? 0xC0 then 2
  else if Z.land c0 0xF0 =? 0xE0 then 3
  else if Z.land c0 0xF8 =? 0xF0 then 4
  else 0.

Definition is_continuation (b : Z) : bool := Z.land b 0xC0 =? 0x80.

Definition truncated (s : list Z) (i : nat) : Prop :=
  (length s < i + seq_len (byte_at s i))%nat.

Definition bad_continuation (s : list Z) (i : nat) : Prop :=
  exists k : nat,
    (1 <= k < seq_len (byte_at s i))%nat /\ (i + k < length s)%nat /\
    is_continuation (byte_at s (i + k)) = false.

Definition stray_lead (s : list Z) (i : nat) : Prop :=
  seq_len (byte_at s i) = 0%nat.

Definition malformed (s : list Z) (i : nat) : Prop :=
  truncated s i \/ bad_continuation s i \/ stray_lead s i.

End Tokenize.

(** ** [bool_index.cpp]: byte-level tokenizer, index builder, lookup *)

Module BoolIndex.
Import Bytes.

Definition is_ascii_alpha (c : Z) : bool :=
  ((65 <=? c) && (c <=? 90)) || ((97 <=? c) && (c <=? 122)).
Definition is_ascii_digit (c : Z) : bool := (48 <=? c) && (c <=? 57).

(** *** [lowercase_inplace] *)

(** First loop: ASCII [A-Z] to lower case, byte by byte. *)
Definition ascii_lower (c : Z) : Z :=
  if (65 <=? c) && (c <=? 90) then c + 32 else c.

(** Second loop, [for (i = 0; i + 1 < s.size(); i++)], at the point where
    [b0 = s[i]] (as left by the previous iteration) and [rest] holds
    [s[i+1..]]: the iteration fixes [s[i]], may rewrite [s[i+1]], and moves
    on. *)
Fixpoint cyr_fold_from (b0 : Z) (rest : list Z) : list Z :=
  match rest with
  | [] => [b0]
  | b1 :: rest' =>
      if b0 =? 0xD0 then
        if (0x90 <=? b1) && (b1 <=? 0x9F) then b0 :: cyr_fold_from (b1 + 0x20) rest'
        else if (0xA0 <=? b1) && (b1 <=? 0xAF) then 0xD1 :: cyr_fold_from (b1 - 0x20) rest'
        else if b1 =? 0x81 then 0xD1 :: cyr_fold_from 0x91 rest'
        else b0 :: cyr_fold_from b1 rest'
      else b0 :: cyr_fold_from b1 rest'
  end.

Definition cyr_fold (s : list Z) : list Z :=
  match s with
  | [] => []
  | b0 :: rest => cyr_fold_from b0 rest
  end.

Definition lowercase_inplace (s : list Z) : list Z := cyr_fold (map ascii_lower s).

(** *** [tokenize_line] (byte level) *)

Definition is_cyr2_start (line : list Z) (i : nat) : bool :=
  if (length line <=? i + 1)%nat then false
  else
    let b0 := byte_at line i in
    let b1 := byte_at line (i + 1) in
    if negb ((b0 =? 0xD0) || (b0 =? 0xD1)) then false
    else (0x80 <=? b1) && (b1 <=? 0xBF).

Definition is_ascii_alnum (c : Z) : bool := is_ascii_alpha c || is_ascii_digit c.

Definition is_tok_start (line : list Z) (i : nat) : bool :=
  if (length line <=? i)%nat then false
  else is_ascii_alnum (byte_at line i) || is_cyr2_start line i.

(** The [flush] lambda: the pending token and the output vector. *)
Definition flush (cur : list Z) (out_tokens : list (list Z))
  : list Z * list (list Z) :=
  match cur with
  | [] => (cur, out_tokens)
  | _ => ([], out_tokens ++ [lowercase_inplace cur])
  end.

(** [cur.back()], read only when [cur] is not empty. *)
Definition back (cur : list Z) : Z := default 0 (last cur).

Definition is_empty (cur : list Z) : bool :=
  match cur with [] => true | _ => false end.

(** The [while (i < line.size())] loop; every iteration advances [i], so
    [line.size()] iterations suffice. *)
Fixpoint tokenize_loop (fuel : nat) (line : list Z) (i : nat)
         (cur : list Z) (out_tokens : list (list Z)) : list Z * list (list Z) :=
  match fuel with
  | O => (cur, out_tokens)
  | S fuel' =>
      if (length line <=? i)%nat then (cur, out_tokens)
      else
        let c := byte_at line i in
        if is_ascii_alnum c then
          tokenize_loop fuel' line (i + 1) (cur ++ [c]) out_tokens
        else if is_cyr2_start line i then
          tokenize_loop fuel' line (i + 2)
                        (cur ++ [byte_at line i; byte_at line (i + 1)]) out_tokens
        else if negb (is_empty cur)
                && ((c =? 45) || (c =? 43) || (c =? 39))
                && is_tok_start line (i + 1) then
          tokenize_loop fuel' line (i + 1) (cur ++ [c]) out_tokens
        else if negb (is_empty cur) && (c =? 46)
                && is_ascii_digit (back cur)
                && (i + 1 <? length line)%nat
                && is_ascii_digit (byte_at line (i + 1)) then
          tokenize_loop fuel' line (i + 1) (cur ++ [46]) out_tokens
        else
          let '(cur', out') := flush cur out_tokens in
          tokenize_loop fuel' line (i + 1) cur' out'
  end.

(** [tokenize_line(line, out_tokens)] on a cleared [out_tokens]. *)
Definition tokenize_line (line : list Z) : list (list Z) :=
  let '(cur, out) := tokenize_loop (length line) line 0 [] [] in
  snd (flush cur out).

(** *** Document identifiers *)

(** [fs::path::filename()] and [fs::path::stem()] of the C++ standard
    library, on the generic form of a path: the file name is what follows
    the last [/]; the stem is the file name up to its last period, except
    that [.], [..] and names whose only period is the first character are
    kept whole. *)
Fixpoint rindex_from (c : Z) (s : list Z) (i : nat) (acc : option nat) : option nat :=
  match s with
  | [] => acc
  | x :: s' => rindex_from c s' (S i) (if x =? c then Some i else acc)
  end.

Definition rindex (c : Z) (s : list Z) : option nat := rindex_from c s 0 None.

Definition path_filename (p : list Z) : list Z :=
  match rindex 47 p with
  | Some k => drop (S k) p
  | None => p
  end.

Definition path_stem (p : list Z) : list Z :=
  let f := path_filename p in
  if bytes_eqb f (str ".") || bytes_eqb f (str "..") then f
  else match rindex 46 f with
       | Some (S k) => take (S k) f
       | _ => f
       end.

(** The loop of [parse_docid_from_name] over the characters of the stem. *)
Fixpoint docid_digits (v : Z) (stem : list Z) : Z :=
  match stem with
  | [] => v
  | c :: stem' =>
      if (c <? 48) || (57 <? c) then docid_digits v stem'
      else docid_digits (wrap32 (v * 10 + (c - 48))) stem'
  end.

Definition parse_docid_from_name (p : list Z) : Z := docid_digits 0 (path_stem p).

Inductive lang : Type := En | Ru | Unk.

Definition lang_name (l : lang) : list Z :=
  match l with En => str "en" | Ru => str "ru" | Unk => str "unk" end.

(** The language tag [build_index] derives from the generic path. *)
Definition lang_of_path (ps : list Z) : lang :=
  if contains (str "/enwiki/") ps then En
  else if contains (str "/ruwiki/") ps then Ru
  else Unk.

(** The [docid] that [build_index] assigns to the file at path [p]. *)
Definition assign_docid (p : list Z) : Z :=
  let docid_local := parse_docid_from_name p in
  wrap32 (docid_local + match lang_of_path p with Ru => 30000 | _ => 0 end).

(** *** The term table and the per-document seen set *)

(** A [TermEntry] with its [PostingList] ([a[0..n)], appended to by
    [pl_push]). *)
Record TermEntry : Type := mkTermEntry {
  term : list Z;
  df : Z;
  postings : list Z
}.

(** The chained hash table [TermTable] is a map from term bytes to entries:
    a bucket chain is searched with a full comparison of the term, and an
    entry lives in the bucket of its own hash.  The table is kept as the
    list of its entries in allocation order; a [TermEntry*] is the position
    of the entry in that list, and [tt->size] is its length. *)
Definition TermTable : Type := list TermEntry.

Definition tt_init : TermTable := [].

Definition tt_get_or_add (tt : TermTable) (t : list Z) : TermTable * nat :=
  match list_find (fun e => term e = t) tt with
  | Some (k, _) => (tt, k)
  | None => (tt ++ [mkTermEntry t 0 []], length tt)
  end.

(** [pl_push(&e->postings, docid); e->df += 1;] on the entry at [e]. *)
Definition record_posting (tt : TermTable) (e : nat) (docid : Z) : TermTable :=
  alter (fun x => mkTermEntry (term x) (wrap32 (df x + 1)) (postings x ++ [docid]))
        e tt.

(** [SeenSet]: [slots[i]] is [None] for a null pointer. *)
Record SeenSet : Type := mkSeenSet {
  slots : list (option nat);
  cap : Z
}.

Definition seen_init (cap_pow2 : Z) : SeenSet :=
  mkSeenSet (replicate (Z.to_nat cap_pow2) None) cap_pow2.

Definition seen_reset (ss : SeenSet) : SeenSet :=
  mkSeenSet (replicate (Z.to_nat (cap ss)) None) (cap ss).

Definition ptr_hash (p : Z) : Z :=
  let x := p in
  let x := Z.lxor x (Z.shiftr x 33) in
  let x := wrap64 (x * 0xff51afd7ed558ccd) in
  let x := Z.lxor x (Z.shiftr x 33) in
  let x := wrap64 (x * 0xc4ceb9fe1a85ec53) in
  Z.lxor x (Z.shiftr x 33).

Section Build.

(** [addr e] is the address [calloc] returned for the entry allocated
    [e]-th, the value [ptr_hash] is applied to. *)
Variable addr : nat -> Z.

(** The probe loop of [seen_insert], [steps] iterations from slot [i].  The
    index stays within [mask < cap], so the last case is never reached on a
    set built by [seen_init]. *)
Fixpoint seen_probe (steps : nat) (ss : SeenSet) (e : nat) (mask i : Z)
  : bool * SeenSet :=
  match steps with
  | O => (false, ss)
  | S steps' =>
      match slots ss !! Z.to_nat i with
      | Some None => (true, mkSeenSet (<[Z.to_nat i := Some e]> (slots ss)) (cap ss))
      | Some (Some cur) =>
          if (cur =? e)%nat then (false, ss)
          else seen_probe steps' ss e mask (Z.land (wrap32 (i + 1)) mask)
      | None => (false, ss)
      end
  end.

Definition seen_insert (ss : SeenSet) (e : nat) : bool * SeenSet :=
  let h := ptr_hash (addr e) in
  let mask := wrap32 (cap ss - 1) in
  let i := Z.land (wrap32 h) mask in
  seen_probe (Z.to_nat (cap ss)) ss e mask i.

Record BuildStats : Type := mkBuildStats {
  st_docs : Z;
  st_bytes : Z;
  st_tokens : Z;
  st_postings : Z
}.

Record BuildState : Type := mkBuildState {
  tt : TermTable;
  seen : SeenSet;
  st : BuildStats
}.

(** Body of the loop over the tokens of a line. *)
Definition index_token (docid : Z) (s : BuildState) (tok : list Z) : BuildState :=
  if is_empty tok then s
  else
    let st1 := mkBuildStats (st_docs (st s)) (st_bytes (st s))
                            (wrap64 (st_tokens (st s) + 1)) (st_postings (st s)) in
    let '(tt1, e) := tt_get_or_add (tt s) tok in
    let '(fresh, seen1) := seen_insert (seen s) e in
    if fresh then
      mkBuildState (record_posting tt1 e docid) seen1
                   (mkBuildStats (st_docs st1) (st_bytes st1) (st_tokens st1)
                                 (wrap64 (st_postings st1 + 1)))
    else mkBuildState tt1 seen1 st1.

(** Body of the [while (std::getline(in, line))] loop. *)
Definition index_line (docid : Z) (s : BuildState) (line : list Z) : BuildState :=
  let st1 := mkBuildStats (st_docs (st s))
                          (wrap64 (st_bytes (st s) + Z.of_nat (length line) + 1))
                          (st_tokens (st s)) (st_postings (st s)) in
  foldl (index_token docid) (mkBuildState (tt s) (seen s) st1) (tokenize_line line).

(** The body lines of one document, after [seen_reset]. *)
Definition index_body (docid : Z) (s : BuildState) (body : list (list Z)) : BuildState :=
  foldl (index_line docid) (mkBuildState (tt s) (seen_reset (seen s)) (st s)) body.

(** *** Documents *)

(** A corpus file: its generic path, and its content when it can be opened. *)
Record SrcFile : Type := mkSrcFile {
  path : list Z;
  content : option (list Z)
}.

(** A line of [docs.tsv]; the stream writes the fields tab-separated. *)
Record DocLine : Type := mkDocLine {
  dl_docid : Z;
  dl_lang : lang;
  dl_title : list Z;
  dl_url : list Z;
  dl_path : list Z
}.

(** [t.erase(0, 1)] when [t] starts with a space. *)
Definition trim_space (t : list Z) : list Z :=
  match t with
  | c :: t' => if c =? 32 then t' else t
  | [] => t
  end.

(** One iteration of the loop of [parse_header] on a header line. *)
Definition header_line (tu : list Z * list Z) (line : list Z) : list Z * list Z :=
  if is_prefix (str "Title:") line then (trim_space (substr_from line 6), snd tu)
  else if is_prefix (str "URL:") line then (fst tu, trim_space (substr_from line 4))
  else tu.

(** [parse_header]: title and URL from the first six lines. *)
Definition parse_header (lines : list (list Z)) : list Z * list Z :=
  foldl header_line ([], []) (take 6 lines).

(** Body of the loop over [files] for a file that opens. *)
Definition index_document (p : list Z) (text : list Z)
           (s : BuildState) (docs_out : list DocLine) : BuildState * list DocLine :=
  let lines := getlines text in
  let '(title, url) := parse_header lines in
  let docid := assign_docid p in
  let docs_out' := docs_out ++ [mkDocLine docid (lang_of_path p) title url p] in
  let s1 := index_body docid s (drop 6 lines) in
  (mkBuildState (tt s1) (seen s1)
                (mkBuildStats (wrap32 (st_docs (st s1) + 1)) (st_bytes (st s1))
                              (st_tokens (st s1)) (st_postings (st s1))),
   docs_out').

Definition index_file (acc : BuildState * list DocLine) (f : SrcFile)
  : BuildState * list DocLine :=
  match content f with
  | None => acc
  | Some text => index_document (path f) text (fst acc) (snd acc)
  end.

End Build.

(** *** Finalisation and the on-disk artifacts *)

(** The compaction loop
    [for (j = 0; j < n; j++) if (w == 0 || a[j] != a[w-1]) a[w++] = a[j];]
    run in place for [fuel] more iterations. *)
Fixpoint compact_loop (fuel : nat) (a : list Z) (w j : nat) : list Z * nat :=
  match fuel with
  | O => (a, w)
  | S fuel' =>
      if (w =? 0)%nat || negb (u32_at a j =? u32_at a (w - 1))
      then compact_loop fuel' (<[w := u32_at a j]> a) (S w) (S j)
      else compact_loop fuel' a w (S j)
  end.

(** [std::sort] of the postings, the compaction, and the update of
    [postings.n] and [df]. *)
Definition finalize_entry (e : TermEntry) : TermEntry :=
  let sorted := merge_sort Z.le (postings e) in
  let '(a, w) := compact_loop (length sorted) sorted 0 0 in
  mkTermEntry (term e) (wrap32 (Z.of_nat w)) (take w a).

(** A line of [terms.tsv]; the stream writes the fields tab-separated, the
    numbers in decimal. *)
Record DictLine : Type := mkDictLine {
  tl_term : list Z;
  tl_df : Z;
  tl_post_off : Z;
  tl_post_len : Z
}.

Record IndexFiles : Type := mkIndexFiles {
  terms_tsv : list DictLine;
  postings_bin : list Z;
  next_offset : Z
}.

(** Body of the loop that writes [terms.tsv] and [postings.bin]. *)
Definition write_entry (out : IndexFiles) (e : TermEntry) : IndexFiles :=
  let e' := finalize_entry e in
  let bytes_len := wrap64 (Z.of_nat (length (postings e')) * 4) in
  mkIndexFiles
    (terms_tsv out ++ [mkDictLine (term e') (df e') (next_offset out) bytes_len])
    (postings_bin out ++ u32_array_bytes (postings e'))
    (wrap64 (next_offset out + bytes_len)).

Definition write_index (arr : list TermEntry) : IndexFiles :=
  foldl write_entry (mkIndexFiles [] [] 0) arr.

(** What a reader gets from [len] bytes at offset [off] of a file, as a
    [uint32_t] array. *)
Definition read_u32_array (file : list Z) (off len : Z) : option (list Z) :=
  if Z.of_nat (length file) <? off + len then None
  else u32_array_of_bytes (take (Z.to_nat len) (drop (Z.to_nat off) file)).

(** *** [build_index] *)

(** [strcmp] on two terms (C strings, compared as unsigned bytes). *)
Fixpoint strcmp (x y : list Z) : comparison :=
  match x, y with
  | [], [] => Eq
  | [], _ :: _ => Lt
  | _ :: _, [] => Gt
  | a :: x', b :: y' =>
      match a ?= b with
      | Eq => strcmp x' y'
      | c => c
      end
  end.

Definition term_leb (x y : TermEntry) : bool :=
  match strcmp (term x) (term y) with Gt => false | _ => true end.

Definition term_le (x y : TermEntry) : Prop := term_leb x y = true.

#[global] Instance term_le_dec (x y : TermEntry) : Decision (term_le x y).
Proof. unfold term_le. apply _. Defined.

(** [std::qsort] of the collected entries with the [strcmp] comparator.  The
    terms of a table are pairwise different, so the sorted order does not
    depend on the order in which the buckets were walked. *)
Definition qsort_terms (arr : list TermEntry) : list TermEntry :=
  merge_sort term_le arr.

(** Whether the output directory and the three output files can be created. *)
Record OutDir : Type := mkOutDir {
  dir_ok : bool;
  docs_ok : bool;
  postings_ok : bool;
  terms_ok : bool
}.

Record BuildOutput : Type := mkBuildOutput {
  docs_tsv : list DocLine;
  index_files : IndexFiles;
  stats : BuildStats;
  unique_terms : Z
}.

(** [build_index(corpus, out_dir, limit)], on the vector [files] that
    [collect_text_files] returns (the [.txt] files under [/text/], sorted by
    path).  Memory is taken to suffice, so the out-of-memory exits are not
    part of the model. *)
Definition build_index (addr : nat -> Z) (out : OutDir) (files : list SrcFile)
           (limit : Z) : outcome BuildOutput :=
  if negb (dir_ok out) then Die "failed to create dir"
  else if bool_decide (files = []) then Die "no .txt files found under"
  else
    let files :=
      if negb (limit =? 0) && (limit <? Z.of_nat (length files))
      then take (Z.to_nat limit) files else files in
    if negb (docs_ok out) then Die "failed to open docs.tsv"
    else
      let s0 := mkBuildState tt_init (seen_init (2 ^ 15)) (mkBuildStats 0 0 0 0) in
      let '(s, docs) := foldl (index_file addr) (s0, []) files in
      let arr := qsort_terms (tt s) in
      if negb (postings_ok out) then Die "failed to open postings.bin"
      else if negb (terms_ok out) then Die "failed to open terms.tsv"
      else Done (mkBuildOutput docs (write_index arr) (st s)
                               (Z.of_nat (length (tt s)))).

(** *** [lookup_term] and the [lookup] command *)

(** The fields [(df, offset, bytes_len)] of the first line of [terms.tsv]
    whose first field is [t]; [Done None] when no line matches.  When [p2] is
    [npos], [p2 + 1] wraps to 0. *)
Fixpoint scan_terms (lines : list (list Z)) (t : list Z) : outcome (option (Z * Z * Z)) :=
  match lines with
  | [] => Done None
  | line :: rest =>
      match find_char 9 line 0 with
      | None => scan_terms rest t
      | Some p1 =>
          if negb (bytes_eqb (substr line 0 p1) t) then scan_terms rest t
          else
            let p2 := find_char 9 line (p1 + 1) in
            let p3 := find_char 9 line (match p2 with Some k => k + 1 | None => 0 end) in
            match p2, p3 with
            | Some p2, Some p3 =>
                Done (Some (wrap32 (strtoull (substr line (p1 + 1) (p2 - p1 - 1))),
                            strtoull (substr line (p2 + 1) (p3 - p2 - 1)),
                            strtoull (substr_from line (p3 + 1))))
            | _, _ => Die "bad terms.tsv format"
            end
      end
  end.

Inductive LookupOutput : Type :=
| NotFound
| Found (t : list Z) (df : Z) (shown : list Z) (more : Z).

(** The content of [std::vector<uint32_t> docs(df)] after
    [postings.read((char* )docs.data(), bytes_len)] at [offset]: the bytes the
    file delivers, over a zero-filled buffer.  Reading more than the buffer
    holds is undefined. *)
Definition read_docs (file : list Z) (df offset bytes_len : Z) : outcome (list Z) :=
  if 4 * df <? bytes_len then Undefined
  else
    let got := take (Z.to_nat bytes_len) (drop (Z.to_nat offset) file) in
    let buf := got ++ replicate (Z.to_nat (4 * df) - length got) 0 in
    match u32_array_of_bytes buf with
    | Some a => Done a
    | None => Undefined
    end.

Definition lookup_term (terms_file postings_file : option (list Z)) (t : list Z)
  : outcome LookupOutput :=
  match terms_file with
  | None => Die "cannot open terms.tsv"
  | Some terms =>
      outcome_bind (scan_terms (getlines terms) t) (fun hit =>
        match hit with
        | None => Done NotFound
        | Some (df, offset, bytes_len) =>
            match postings_file with
            | None => Die "cannot open postings.bin"
            | Some file =>
                outcome_bind (read_docs file df offset bytes_len) (fun docs =>
                  let show := Z.min df 30 in
                  Done (Found t df (take (Z.to_nat show) docs) (df - show)))
            end
        end)
  end.

(** What [main] does for [bool_index lookup --index <dir> --term <term>]:
    [None] is the usage message with exit code 2. *)
Definition lookup_command (index_arg : list Z)
           (terms_file postings_file : option (list Z)) (term_arg : list Z)
  : option (outcome LookupOutput) :=
  if is_empty index_arg || is_empty term_arg then None
  else Some (lookup_term terms_file postings_file (lowercase_inplace term_arg)).

(** *** Vocabulary for the statements about the seen set *)

(** Number of null slots of a seen set. *)
Fixpoint count_free (sl : list (option nat)) : nat :=
  match sl with
  | [] => 0
  | None :: sl' => S (count_free sl')
  | Some _ :: sl' => count_free sl'
  end.

Definition free_slots (ss : SeenSet) : nat := count_free (slots ss).

(** The terms that have an entry in the table. *)
Definition terms_of (tt : TermTable) : list (list Z) := map term tt.

(** The [n]-th of 65536 four-letter words over [a..p]. *)
Definition word4 (n : nat) : list Z :=
  let z := Z.of_nat n in
  [97 + (z / 4096) mod 16; 97 + (z / 256) mod 16; 97 + (z / 16) mod 16; 97 + z mod 16].

(** A document body of 32769 lines, each a different word. *)
Definition overfull_body : list (list Z) := map word4 (seq 0 (Z.to_nat 32769)).

(** *** Vocabulary for the statements about the written index *)

(** The array the compaction loop leaves in [a[0..w)]: each element that
    differs from the one kept last. *)
Fixpoint dedup_adj (prev : option Z) (rest : list Z) : list Z :=
  match rest with
  | [] => []
  | x :: r => if bool_decide (prev = Some x) then dedup_adj prev r
              else x :: dedup_adj (Some x) r
  end.

(** Representation invariant of an entry: its postings are 32-bit values and
    their count fits the 32-bit counter [postings.n]. *)
Definition wf_entry (e : TermEntry) : Prop :=
  Forall is_u32 (postings e) /\ Z.of_nat (length (postings e)) < 2 ^ 32.

Definition total_postings (arr : list TermEntry) : Z :=
  foldr (fun e n => Z.of_nat (length (postings e)) + n) 0 arr.

(** What a dictionary line promises about the postings file. *)
Definition line_ok (file : list Z) (l : DictLine) : Prop :=
  tl_post_len l = tl_df l * 4 /\ 0 <= tl_post_off l /\
  exists a, read_u32_array file (tl_post_off l) (tl_post_len l) = Some a /\
            Z.of_nat (length a) = tl_df l /\ StronglySorted Z.lt a /\ Forall is_u32 a.

End BoolIndex.

(** ** [stem.c]: the English stemmer *)

Module Stem.
Import Bytes.

(** Outcome of one stage of [stem_en]: [Return t] is the early [return]
    that leaves [stem_en] with the token [t]; [Next t] falls through to the
    following stage. *)
Inductive flow : Type :=
| Return (tok : list Z)
| Next (tok : list Z).

Definition andThen (f : flow) (k : list Z -> list Z) : list Z :=
  match f with
  | Return t => t
  | Next t => k t
  end.

(** [sizeof(tmp)] of the scratch buffers [char tmp[512]]. *)
Definition TMP_SIZE : nat := 512.

Definition ends_with_bytes (s suf : list Z) : bool :=
  let n := length s in
  let m := length suf in
  if (n <? m)%nat then false
  else bytes_eqb (drop (n - m) s) suf.

Definition cut_suffix (s : list Z) (suf_len : nat) : list Z :=
  let n := length s in
  if (n <? suf_len)%nat then s else take (n - suf_len) s.

Definition is_vowel_en (c : Z) : bool :=
  (c =? 97) || (c =? 101) || (c =? 105) || (c =? 111) || (c =? 117).

(** The loop of [has_vowel_en], started at index [i]. *)
Fixpoint has_vowel_en_from (i : nat) (s : list Z) : bool :=
  match s with
  | [] => false
  | c :: s' =>
      if is_vowel_en c then true
      else if (c =? 121) && (0 <? i)%nat then true
      else has_vowel_en_from (S i) s'
  end.

Definition has_vowel_en (s : list Z) : bool := has_vowel_en_from 0 s.

Definition is_consonant_en (c : Z) : bool :=
  if (c <? 97) || (122 <? c) then false
  else negb (is_vowel_en c) && negb (c =? 121).

Definition ends_with_double_consonant_en (s : list Z) : bool :=
  let n := length s in
  if (n <? 2)%nat then false
  else
    let a := byte_at s (n - 1) in
    let b := byte_at s (n - 2) in
    if negb (a =? b) then false else is_consonant_en a.

(** Stage 1 of [stem_en]: the plural suffixes. *)
Definition plural_step (tok : list Z) : flow :=
  let n := length tok in
  if ends_with_bytes tok (str "sses") then Next (cut_suffix tok 2)
  else if ends_with_bytes tok (str "ies") then Next (cut_suffix tok 2)
  else if ends_with_bytes tok (str "ss") then Next tok
  else if ends_with_bytes tok (str "s") && (3 <? n)%nat then
    if (TMP_SIZE <=? n)%nat then Return tok
    else
      let tmp := take (n - 1) tok in
      if has_vowel_en tmp then Next (cut_suffix tok 1) else Next tok
  else Next tok.

(** Stage 2 of [stem_en]: the verb suffixes [eed], [ed], [ing]. *)
Definition verb_step (tok : list Z) : flow :=
  if ends_with_bytes tok (str "eed") then
    if (4 <? length tok)%nat then Next (take (length tok - 1) tok)
    else Next tok
  else if ends_with_bytes tok (str "ed") then
    if (TMP_SIZE <=? length tok)%nat then Return tok
    else
      let tmp := cut_suffix tok 2 in
      if has_vowel_en tmp then Next (cut_suffix tok 2) else Next tok
  else if ends_with_bytes tok (str "ing") then
    if (TMP_SIZE <=? length tok)%nat then Return tok
    else
      let tmp := cut_suffix tok 3 in
      if has_vowel_en tmp then Next (cut_suffix tok 3) else Next tok
  else Next tok.

(** Stage 3: a stem ending in [at], [bl] or [iz] gets an [e] appended. *)
Definition tail_step (tok : list Z) : list Z :=
  let n := length tok in
  if (2 <=? n)%nat then
    let tail2 := drop (n - 2) tok in
    if bytes_eqb tail2 (str "at") || bytes_eqb tail2 (str "bl")
       || bytes_eqb tail2 (str "iz")
    then if (n + 1 <? 512)%nat then tok ++ [101] else tok
    else tok
  else tok.

(** Stage 4: a trailing double consonant other than [l], [s], [z] loses its
    last letter. *)
Definition double_step (tok : list Z) : list Z :=
  let n := length tok in
  if ends_with_double_consonant_en tok then
    let last := byte_at tok (n - 1) in
    if negb (last =? 108) && negb (last =? 115) && negb (last =? 122)
    then take (n - 1) tok
    else tok
  else tok.

(** Stage 5: a final [y] after a vowel becomes [i]. *)
Definition y_step (tok : list Z) : list Z :=
  let n := length tok in
  if (2 <=? n)%nat && (byte_at tok (n - 1) =? 121) then
    if (TMP_SIZE <=? n)%nat then tok
    else
      let tmp := take (n - 1) tok in
      if has_vowel_en tmp then <[(n - 1)%nat := 105]> tok else tok
  else tok.

Definition stem_en (tok : list Z) : list Z :=
  if (length tok <? 3)%nat then tok
  else
    andThen (plural_step tok) (fun t1 =>
      if (length t1 <? 3)%nat then t1
      else
        andThen (verb_step t1) (fun t2 =>
          y_step (double_step (tail_step t2)))).

(** Vocabulary for the fixed points of the stemmer: [rule_free tok] holds
    when none of the guards of the five stages matches [tok]. *)
Definition rule_free (tok : list Z) : bool :=
  let n := length tok in
  (n <? 3)%nat ||
  (negb (ends_with_bytes tok (str "sses"))
   && negb (ends_with_bytes tok (str "ies"))
   && (ends_with_bytes tok (str "ss")
       || negb (ends_with_bytes tok (str "s") && (3 <? n)%nat
                && has_vowel_en (take (n - 1) tok)))
   && negb (ends_with_bytes tok (str "eed") && (4 <? n)%nat)
   && (ends_with_bytes tok (str "eed")
       || negb (ends_with_bytes tok (str "ed")
                && has_vowel_en (cut_suffix tok 2)))
   && negb (ends_with_bytes tok (str "ing")
            && has_vowel_en (cut_suffix tok 3))
   && negb (bytes_eqb (drop (n - 2) tok) (str "at")
            || bytes_eqb (drop (n - 2) tok) (str "bl")
            || bytes_eqb (drop (n - 2) tok) (str "iz"))
   && negb (ends_with_double_consonant_en tok
            && negb (byte_at tok (n - 1) =? 108)
            && negb (byte_at tok (n - 1) =? 115)
            && negb (byte_at tok (n - 1) =? 122))
   && negb ((byte_at tok (n - 1) =? 121)
            && has_vowel_en (take (n - 1) tok))).

(** Vocabulary for the idempotence of the stemmer.  [stable_ending tok]
    holds of a token shorter than three bytes, of a token ending in [sses],
    [ies], [ss], [at], [bl] or [iz], and of a token whose last byte is not a
    consonant letter [b]..[z] (a vowel, [y], a digit, a byte outside
    [a]..[z]). *)
Definition stable_ending (tok : list Z) : bool :=
  (length tok <? 3)%nat
  || ends_with_bytes tok (str "sses")
  || ends_with_bytes tok (str "ies")
  || ends_with_bytes tok (str "ss")
  || ends_with_bytes tok (str "at")
  || ends_with_bytes tok (str "bl")
  || ends_with_bytes tok (str "iz")
  || negb (is_consonant_en (byte_at tok (length tok - 1))).

End Stem.

(** ** [lab7/bool_search.cpp]: the index reader and the query engine *)

Module BoolSearch.
Import Bytes.

(** *** Set algebra on posting lists *)

(** A [PostList] is the array [a[0..n)].  The merge loops below are written
    on the parts of the arrays still to be read: the state [(i, j)] of a loop
    is the pair of suffixes [A[i..]], [B[j..]], and [R.a[k++] = x] appends
    [x] to the result. *)
Fixpoint and_merge (A : list Z) : list Z -> list Z :=
  fix scan (B : list Z) : list Z :=
    match A, B with
    | a :: A', b :: B' =>
        if a =? b then a :: and_merge A' B'
        else if a <? b then and_merge A' B
        else scan B'
    | _, _ => []
    end.

Definition op_and (A B : list Z) : list Z :=
  match A, B with
  | [], _ => []
  | _, [] => []
  | _, _ => and_merge A B
  end.

Fixpoint op_or (A : list Z) : list Z -> list Z :=
  fix scan (B : list Z) : list Z :=
    match A, B with
    | a :: A', b :: B' =>
        if a =? b then a :: op_or A' B'
        else if a <? b then a :: op_or A' B
        else b :: scan B'
    | _, [] => A
    | [], _ => B
    end.

(** The inner loop [while (j < B.n && B.a[j] < u) j++]. *)
Fixpoint skip_below (u : Z) (B : list Z) : list Z :=
  match B with
  | b :: B' => if b <? u then skip_below u B' else B
  | [] => []
  end.

(** The outer loop of [op_not] over the universe. *)
Fixpoint not_scan (U B : list Z) : list Z :=
  match U with
  | [] => []
  | u :: U' =>
      let B1 := skip_below u B in
      match B1 with
      | b :: _ => if b =? u then not_scan U' B1 else u :: not_scan U' B1
      | [] => u :: not_scan U' B1
      end
  end.

Definition op_not (U B : list Z) : list Z :=
  match U with
  | [] => []
  | _ => not_scan U B
  end.

(** A posting list as the evaluator keeps it: strictly ascending. *)
Definition ascending (l : list Z) : Prop := StronglySorted Z.lt l.

End BoolSearch.

(** ** [lab7/bool_search.cpp]: the index reader *)

Module IndexReader.
Import Bytes.

Record DictEntry : Type := mkDictEntry {
  term_off : Z;
  term_len : Z;
  df : Z;
  post_off : Z;
  post_len : Z
}.

Record DocRec : Type := mkDocRec {
  docid : Z;
  lang : list Z;
  title : list Z;
  url : list Z
}.

(** [Index]; [postings] is the state of the stream [std::ifstream postings]:
    [Some file] is a stream in good state on a file with content [file];
    [None] is a stream that was never opened or that is in fail state, on
    which [seekg] and [read] do nothing. *)
Record Index : Type := mkIndex {
  term_pool : list Z;
  dict : list DictEntry;
  postings : option (list Z);
  docs_sorted : list DocRec;
  universe : list Z
}.

Definition empty_index : Index := mkIndex [] [] None [] [].

(** The [e.term_len] bytes at [dict_term_ptr(ix, e)]. *)
Definition entry_term (ix : Index) (e : DictEntry) : list Z :=
  take (Z.to_nat (term_len e)) (drop (Z.to_nat (term_off e)) (term_pool ix)).

(** [memcmp] of two buffers of the same length: the order of the first pair
    of bytes that differ. *)
Fixpoint memcmp (p q : list Z) : comparison :=
  match p, q with
  | a :: p', b :: q' =>
      match a ?= b with
      | Eq => memcmp p' q'
      | c => c
      end
  | _, _ => Eq
  end.

(** [term_cmp(ix, e, t)]: negative, zero or positive as [Lt], [Eq], [Gt]. *)
Definition term_cmp (ix : Index) (e : DictEntry) (t : list Z) : comparison :=
  let p := entry_term ix e in
  let n := length p in
  let m := length t in
  let k := Nat.min n m in
  match memcmp (take k p) (take k t) with
  | Eq => if (n <? m)%nat then Lt else if (m <? n)%nat then Gt else Eq
  | c => c
  end.

(** The dictionary entry at position [mid]; the loop only reads positions
    inside the vector. *)
Definition dict_at (ix : Index) (mid : Z) : DictEntry :=
  default (mkDictEntry 0 0 0 0 0) (dict ix !! Z.to_nat mid).

(** The loop of [binsearch_term]; the interval [lo..hi] shrinks in every
    iteration, so [dict.size()] iterations suffice. *)
Fixpoint binsearch_loop (fuel : nat) (ix : Index) (t : list Z) (lo hi : Z) : Z :=
  match fuel with
  | O => -1
  | S fuel' =>
      if hi <? lo then -1
      else
        let mid := lo + (hi - lo) / 2 in
        match term_cmp ix (dict_at ix mid) t with
        | Eq => mid
        | Lt => binsearch_loop fuel' ix t (mid + 1) hi
        | Gt => binsearch_loop fuel' ix t lo (mid - 1)
        end
  end.

Definition binsearch_term (ix : Index) (t : list Z) : Z :=
  binsearch_loop (length (dict ix)) ix t 0 (Z.of_nat (length (dict ix)) - 1).

(** The loop of [find_doc] on the half-open interval [lo, hi); [None] is the
    null pointer. *)
Fixpoint find_doc_loop (fuel : nat) (docs : list DocRec) (d : Z) (lo hi : nat)
  : option DocRec :=
  match fuel with
  | O => None
  | S fuel' =>
      if (hi <=? lo)%nat then None
      else
        let mid := (lo + (hi - lo) / 2)%nat in
        match docs !! mid with
        | None => None
        | Some rec =>
            if docid rec =? d then Some rec
            else if docid rec <? d then find_doc_loop fuel' docs d (mid + 1) hi
            else find_doc_loop fuel' docs d lo mid
        end
  end.

Definition find_doc (ix : Index) (d : Z) : option DocRec :=
  find_doc_loop (length (docs_sorted ix)) (docs_sorted ix) d 0 (length (docs_sorted ix)).

(** *** Loading *)

(** A line of [docs.tsv] with its four tabs, or [None] for a line that
    [load_docs] skips. *)
Definition parse_doc_line (line : list Z) : option DocRec :=
  match line with
  | [] => None
  | _ =>
      match find_char 9 line 0 with
      | None => None
      | Some p1 =>
          match find_char 9 line (p1 + 1) with
          | None => None
          | Some p2 =>
              match find_char 9 line (p2 + 1) with
              | None => None
              | Some p3 =>
                  match find_char 9 line (p3 + 1) with
                  | None => None
                  | Some p4 =>
                      Some (mkDocRec (wrap32 (strtoull (substr line 0 p1)))
                                     (substr line (p1 + 1) (p2 - p1 - 1))
                                     (substr line (p2 + 1) (p3 - p2 - 1))
                                     (substr line (p3 + 1) (p4 - p3 - 1)))
                  end
              end
          end
      end
  end.

Definition docid_le (a b : DocRec) : Prop := docid a <= docid b.

#[global] Instance docid_le_dec (a b : DocRec) : Decision (docid_le a b).
Proof. unfold docid_le. apply _. Defined.

(** [std::unique] followed by [erase]: of each run of equal neighbours the
    first is kept. *)
Fixpoint unique_from (prev : Z) (l : list Z) : list Z :=
  match l with
  | [] => []
  | x :: r => if x =? prev then unique_from prev r else x :: unique_from x r
  end.

Definition unique (l : list Z) : list Z :=
  match l with
  | [] => []
  | x :: r => x :: unique_from x r
  end.

(** [load_docs(ix, docs_tsv)]; [file] is [None] when the file cannot be
    opened.  [std::sort] leaves the order of records with equal docids
    open; [merge_sort] fixes one such order, which need not be the one of
    a run of [std::sort] and is not the order of the file; no statement
    below depends on the order among records with equal docids. *)
Definition load_docs (ix : Index) (file : option (list Z)) : outcome Index :=
  match file with
  | None => Die "cannot open docs.tsv"
  | Some content =>
      let recs := omap parse_doc_line (getlines content) in
      Done (mkIndex (term_pool ix) (dict ix) (postings ix)
                    (merge_sort docid_le recs)
                    (unique (merge_sort Z.le (map docid recs))))
  end.

(** The entry [load_dict] makes of a line with its three tabs, given the
    current size of the term pool, and the bytes appended to the pool. *)
Definition parse_dict_line (pool_size : nat) (line : list Z)
  : option (DictEntry * list Z) :=
  match line with
  | [] => None
  | _ =>
      match find_char 9 line 0 with
      | None => None
      | Some p1 =>
          match find_char 9 line (p1 + 1) with
          | None => None
          | Some p2 =>
              match find_char 9 line (p2 + 1) with
              | None => None
              | Some p3 =>
                  let t := substr line 0 p1 in
                  Some (mkDictEntry
                          (wrap32 (Z.of_nat pool_size))
                          (wrap32 (Z.of_nat (length t)))
                          (wrap32 (strtoull (substr line (p1 + 1) (p2 - p1 - 1))))
                          (strtoull (substr line (p2 + 1) (p3 - p2 - 1)))
                          (strtoull (substr_from line (p3 + 1))),
                        t)
              end
          end
      end
  end.

(** Body of the loop of [load_dict] on the pool and the dictionary. *)
Definition load_dict_line (acc : list Z * list DictEntry) (line : list Z)
  : list Z * list DictEntry :=
  match parse_dict_line (length (fst acc)) line with
  | None => acc
  | Some (e, t) => (fst acc ++ t, snd acc ++ [e])
  end.

Definition load_dict (ix : Index) (file : option (list Z)) : outcome Index :=
  match file with
  | None => Die "cannot open terms.tsv"
  | Some content =>
      let '(pool, d) := foldl load_dict_line ([], []) (getlines content) in
      Done (mkIndex pool d (postings ix) (docs_sorted ix) (universe ix))
  end.

Definition open_postings (ix : Index) (file : option (list Z)) : outcome Index :=
  match file with
  | None => Die "cannot open postings.bin"
  | Some content =>
      Done (mkIndex (term_pool ix) (dict ix) (Some content)
                    (docs_sorted ix) (universe ix))
  end.

(** The loading sequence of [main]. *)
Definition load_index (docs_tsv terms_tsv postings_bin : option (list Z))
  : outcome Index :=
  outcome_bind (load_docs empty_index docs_tsv) (fun ix1 =>
  outcome_bind (load_dict ix1 terms_tsv) (fun ix2 =>
  open_postings ix2 postings_bin)).

(** The value that [load_postings(ix, term)] returns.  The buffer has room
    for [df] values and is not initialised: reading [post_len] bytes into it
    is defined only when they fit, and the result is determined only when
    they fill it.  The effect of the call on the stream is in
    [load_postings_io] below. *)
Definition load_postings (ix : Index) (t : list Z) : outcome (list Z) :=
  let pos := binsearch_term ix t in
  if pos <? 0 then Done []
  else
    let e := dict_at ix pos in
    if (df e =? 0) || (post_len e =? 0) then Done []
    else
      match postings ix with
      | None => Undefined
      | Some file =>
          if 4 * df e <? post_len e then Undefined
          else
            let got := take (Z.to_nat (post_len e)) (drop (Z.to_nat (post_off e)) file) in
            if (Z.of_nat (length got) <? 4 * df e) then Undefined
            else match u32_array_of_bytes got with
                 | Some a => Done a
                 | None => Undefined
                 end
      end.

(** The index with its stream in fail state. *)
Definition failed_stream (ix : Index) : Index :=
  mkIndex (term_pool ix) (dict ix) None (docs_sorted ix) (universe ix).

(** [load_postings(ix, term)] with its effect on [ix.postings].  Nothing in
    the program clears the stream or tests its state: a [read] that finds
    fewer than [post_len] bytes behind [post_off] sets the fail state, and
    from then on every [seekg] and [read] does nothing, so that every later
    buffer stays as [malloc] left it.  A [read] that finds exactly the
    bytes it asks for, also at the end of the file, leaves the stream
    good. *)
Definition load_postings_io (ix : Index) (t : list Z) : outcome (list Z) * Index :=
  let pos := binsearch_term ix t in
  if pos <? 0 then (Done [], ix)
  else
    let e := dict_at ix pos in
    if (df e =? 0) || (post_len e =? 0) then (Done [], ix)
    else
      match postings ix with
      | None => (Undefined, ix)
      | Some file =>
          if 4 * df e <? post_len e then (Undefined, ix)
          else
            let got := take (Z.to_nat (post_len e)) (drop (Z.to_nat (post_off e)) file) in
            if Z.of_nat (length got) <? post_len e then (Undefined, failed_stream ix)
            else if (Z.of_nat (length got) <? 4 * df e) then (Undefined, ix)
            else match u32_array_of_bytes got with
                 | Some a => (Done a, ix)
                 | None => (Undefined, ix)
                 end
      end.

(** *** Vocabulary for the statements about the reader *)

Definition dict_terms (ix : Index) : list (list Z) := map (entry_term ix) (dict ix).

(** Byte-wise order on terms. *)
Definition term_lt (a b : list Z) : Prop := BoolIndex.strcmp a b = Lt.

(** The dictionary is strictly ascending by term bytes. *)
Definition dict_sorted (ix : Index) : Prop := StronglySorted term_lt (dict_terms ix).

(** The terms of the lines that [load_dict] keeps, in file order. *)
Definition dict_file_terms (content : list Z) : list (list Z) :=
  omap (fun line => snd <$> parse_dict_line 0 line) (getlines content).

(** The number of tab-separated fields of a line. *)
Definition fields (line : list Z) : nat := S (count_occ Z.eq_dec line 9).

(** The lines of a [terms.tsv] with at least four fields. *)
Definition dict_lines (content : list Z) : list (list Z) :=
  filter (fun line => (4 <= fields line)%nat) (getlines content).

(** A small index: the terms [ab] and [bc], two documents. *)
Definition demo_index : Index :=
  mkIndex (str "abbc")
          [mkDictEntry 0 2 1 0 4; mkDictEntry 2 2 2 4 8]
          (Some (u32_array_bytes [7; 7; 9]))
          [mkDocRec 7 (str "en") (str "Seven") (str "u7");
           mkDocRec 9 (str "ru") (str "Nine") (str "u9")]
          [7; 9].

End IndexReader.

(** ** [lab7/bool_search.cpp]: lexer, parser and evaluator *)

Module QueryEngine.
Import Bytes BoolSearch IndexReader.

Inductive TokType : Type := TT_TERM | TT_AND | TT_OR | TT_NOT | TT_LP | TT_RP | TT_END.

#[global] Instance TokType_eq_dec : EqDecision TokType.
Proof. solve_decision. Defined.

Record Tok : Type := mkTok {
  tok_t : TokType;
  tok_s : list Z
}.

Definition is_space (c : Z) : bool := (c =? 32) || (c =? 9) || (c =? 10) || (c =? 13).

(** A character that the word loop of [lex] steps over. *)
Definition is_word_char (c : Z) : bool :=
  negb (is_space c) && negb (c =? 40) && negb (c =? 41).

Fixpoint skip_while (f : Z -> bool) (q : list Z) : list Z :=
  match q with
  | c :: q' => if f c then skip_while f q' else q
  | [] => []
  end.

Fixpoint take_while (f : Z -> bool) (q : list Z) : list Z :=
  match q with
  | c :: q' => if f c then c :: take_while f q' else []
  | [] => []
  end.

(** The token [lex] makes of the word [w]; [lowercase_inplace] is the same
    function as in [bool_index.cpp]. *)
Definition word_tok (w : list Z) : Tok :=
  let wl := BoolIndex.lowercase_inplace w in
  if bytes_eqb wl (str "and") then mkTok TT_AND w
  else if bytes_eqb wl (str "or") then mkTok TT_OR w
  else if bytes_eqb wl (str "not") then mkTok TT_NOT w
  else mkTok TT_TERM w.

(** The outer loop of [lex] on the input still to be read, [q[i..]]; every
    iteration that does not stop consumes a character. *)
Fixpoint lex_loop (fuel : nat) (q : list Z) : list Tok :=
  match fuel with
  | O => []
  | S fuel' =>
      match skip_while is_space q with
      | [] => []
      | c :: rest =>
          if c =? 40 then mkTok TT_LP (str "(") :: lex_loop fuel' rest
          else if c =? 41 then mkTok TT_RP (str ")") :: lex_loop fuel' rest
          else if c =? 45 then mkTok TT_NOT (str "-") :: lex_loop fuel' rest
          else
            word_tok (take_while is_word_char (c :: rest))
            :: lex_loop fuel' (skip_while is_word_char (c :: rest))
      end
  end.

Definition lex (q : list Z) : list Tok := lex_loop (length q) q ++ [mkTok TT_END []].

Inductive Node : Type :=
| N_TERM (t : list Z)
| N_NOT (a : Node)
| N_AND (a b : Node)
| N_OR (a b : Node).

(** The parser state is the part of [toks] from [pos] on; [cur()] is its
    head, [eat] drops it.  [lex] ends every vector with [TT_END], which no
    parsing function eats, so the head always exists ([Undefined]
    otherwise).  The diagnostics keep their fixed part. *)
Definition parsed : Type := outcome (Node * list Tok).

(** [parse_primary] and [parse_unary], given the function for a
    parenthesised [parse_expr]. *)
Definition parse_primary_with (expr : list Tok -> parsed) (toks : list Tok) : parsed :=
  match toks with
  | [] => Undefined
  | c :: rest =>
      match tok_t c with
      | TT_TERM => Done (N_TERM (tok_s c), rest)
      | TT_LP =>
          outcome_bind (expr rest) (fun '(n, rest') =>
            match rest' with
            | [] => Undefined
            | c' :: rest'' =>
                match tok_t c' with
                | TT_RP => Done (n, rest'')
                | _ => Die "parse error: unexpected token near"
                end
            end)
      | _ => Die "parse error: expected term or '('"
      end
  end.

Fixpoint parse_unary_with (expr : list Tok -> parsed) (toks : list Tok) : parsed :=
  match toks with
  | [] => Undefined
  | c :: rest =>
      match tok_t c with
      | TT_NOT =>
          outcome_bind (parse_unary_with expr rest) (fun '(n, rest') =>
            Done (N_NOT n, rest'))
      | _ => parse_primary_with expr toks
      end
  end.

(** The [while (p.cur().t == TT_AND)] loop of [parse_and]. *)
Fixpoint and_loop (expr : list Tok -> parsed) (fuel : nat) (lhs : Node)
         (toks : list Tok) : parsed :=
  match toks with
  | [] => Undefined
  | c :: rest =>
      match tok_t c with
      | TT_AND =>
          match fuel with
          | O => Undefined
          | S fuel' =>
              outcome_bind (parse_unary_with expr rest) (fun '(b, rest') =>
                and_loop expr fuel' (N_AND lhs b) rest')
          end
      | _ => Done (lhs, toks)
      end
  end.

Definition parse_and_with (expr : list Tok -> parsed) (fuel : nat) (toks : list Tok)
  : parsed :=
  outcome_bind (parse_unary_with expr toks) (fun '(lhs, rest) =>
    and_loop expr fuel lhs rest).

(** The [while (p.cur().t == TT_OR)] loop of [parse_expr]. *)
Fixpoint or_loop (expr : list Tok -> parsed) (fuel : nat) (lhs : Node)
         (toks : list Tok) : parsed :=
  match toks with
  | [] => Undefined
  | c :: rest =>
      match tok_t c with
      | TT_OR =>
          match fuel with
          | O => Undefined
          | S fuel' =>
              outcome_bind (parse_and_with expr fuel' rest) (fun '(b, rest') =>
                or_loop expr fuel' (N_OR lhs b) rest')
          end
      | _ => Done (lhs, toks)
      end
  end.

(** [parse_expr]; [fuel] bounds the nesting of parentheses and the number of
    operators, the length of the token vector is enough. *)
Fixpoint parse_expr (fuel : nat) (toks : list Tok) : parsed :=
  match fuel with
  | O => Undefined
  | S fuel' =>
      outcome_bind (parse_and_with (parse_expr fuel') fuel' toks) (fun '(lhs, rest) =>
        or_loop (parse_expr fuel') fuel' lhs rest)
  end.

(** [eval(ix, n)] on a tree without null children. *)
Fixpoint eval (ix : Index) (n : Node) : outcome (list Z) :=
  match n with
  | N_TERM t => load_postings ix (BoolIndex.lowercase_inplace t)
  | N_NOT a =>
      outcome_bind (eval ix a) (fun A => Done (op_not (universe ix) A))
  | N_AND a b =>
      outcome_bind (eval ix a) (fun A =>
      outcome_bind (eval ix b) (fun B => Done (op_and A B)))
  | N_OR a b =>
      outcome_bind (eval ix a) (fun A =>
      outcome_bind (eval ix b) (fun B => Done (op_or A B)))
  end.

(** [run_query(ix, q)]. *)
Definition parse_query (q : list Z) : outcome Node :=
  let toks := lex q in
  outcome_bind (parse_expr (length toks) toks) (fun '(ast, rest) =>
    match rest with
    | [] => Undefined
    | c :: _ =>
        match tok_t c with
        | TT_END => Done ast
        | _ => Die "parse error: trailing tokens"
        end
    end).

Definition run_query (ix : Index) (q : list Z) : outcome (list Z) :=
  outcome_bind (parse_query q) (eval ix).

(** [eval] with the state of the stream threaded through the lookups, in
    the order of the calls: the left operand first. *)
Fixpoint eval_io (ix : Index) (n : Node) : outcome (list Z) * Index :=
  match n with
  | N_TERM t => load_postings_io ix (BoolIndex.lowercase_inplace t)
  | N_NOT a =>
      let '(ra, ix1) := eval_io ix a in
      (outcome_bind ra (fun A => Done (op_not (universe ix1) A)), ix1)
  | N_AND a b =>
      let '(ra, ix1) := eval_io ix a in
      let '(rb, ix2) := eval_io ix1 b in
      (outcome_bind ra (fun A => outcome_bind rb (fun B => Done (op_and A B))), ix2)
  | N_OR a b =>
      let '(ra, ix1) := eval_io ix a in
      let '(rb, ix2) := eval_io ix1 b in
      (outcome_bind ra (fun A => outcome_bind rb (fun B => Done (op_or A B))), ix2)
  end.

(** *** Vocabulary for the statements about the evaluator *)

(** The documents that satisfy a query tree, read as a boolean formula over
    the posting lists of the index. *)
Fixpoint sat (ix : Index) (n : Node) (x : Z) : Prop :=
  match n with
  | N_TERM t =>
      exists l, load_postings ix (BoolIndex.lowercase_inplace t) = Done l /\ x ∈ l
  | N_NOT a => x ∈ universe ix /\ ~ sat ix a x
  | N_AND a b => sat ix a x /\ sat ix b x
  | N_OR a b => sat ix a x \/ sat ix b x
  end.

(** Every term loads, as an ascending list. *)
Definition postings_ascending (ix : Index) : Prop :=
  forall t, exists l, load_postings ix t = Done l /\ ascending l.

(** Every posting is the identifier of a document of [docs.tsv]. *)
Definition postings_in_universe (ix : Index) : Prop :=
  forall t l, load_postings ix t = Done l -> forall x, x ∈ l -> x ∈ universe ix.

(** *** Vocabulary for the statements about the lexer and the parser *)

(** A word as the word loop of [lex] delimits it: not empty, free of blanks
    and parentheses, not starting with [-]. *)
Definition wordlike (w : list Z) : Prop :=
  match w with
  | [] => False
  | c :: _ => c <> 45
  end /\ forallb is_word_char w = true.

(** A word that [lex] reads as one [TT_TERM] token: it is not one of the
    operator words in any spelling. *)
Definition plain_word (w : list Z) : Prop :=
  wordlike w /\ word_tok w = mkTok TT_TERM w.

(** A token as [lex] produces it from its own text. *)
Definition lexable (c : Tok) : Prop :=
  c = mkTok TT_LP (str "(") \/ c = mkTok TT_RP (str ")") \/
  (wordlike (tok_s c) /\ word_tok (tok_s c) = c).

Fixpoint plain_terms (n : Node) : Prop :=
  match n with
  | N_TERM t => plain_word t
  | N_NOT a => plain_terms a
  | N_AND a b | N_OR a b => plain_terms a /\ plain_terms b
  end.

(** The tokens of a query tree written with every binary node in
    parentheses. *)
Fixpoint render (n : Node) : list Tok :=
  match n with
  | N_TERM t => [mkTok TT_TERM t]
  | N_NOT a => mkTok TT_NOT (str "NOT") :: render a
  | N_AND a b =>
      mkTok TT_LP (str "(") :: render a ++ mkTok TT_AND (str "AND") :: render b
        ++ [mkTok TT_RP (str ")")]
  | N_OR a b =>
      mkTok TT_LP (str "(") :: render a ++ mkTok TT_OR (str "OR") :: render b
        ++ [mkTok TT_RP (str ")")]
  end.

(** Fuel that parsing [render n] takes: two units for each level of binary
    nodes. *)
Fixpoint parse_depth (n : Node) : nat :=
  match n with
  | N_TERM _ => 0
  | N_NOT a => parse_depth a
  | N_AND a b | N_OR a b => 2 + Nat.max (parse_depth a) (parse_depth b)
  end.

(** A token that ends an operand: neither [AND] nor [OR]. *)
Definition closes (toks : list Tok) : Prop :=
  match toks with
  | c :: _ => tok_t c = TT_RP \/ tok_t c = TT_END
  | [] => False
  end.

(** A token vector as [lex] builds it: it ends with a [TT_END] token. *)
Definition ends_with_END (toks : list Tok) : Prop :=
  exists body e, toks = body ++ [e] /\ tok_t e = TT_END.

(** A parsing step on [toks] that stayed inside the vector: it stopped with a
    diagnostic, or it returned with the position moved forward by at least
    [moved] tokens and still in front of the final [TT_END]. *)
Definition in_bounds (moved : nat) (toks : list Tok) (r : parsed) : Prop :=
  match r with
  | Undefined => False
  | Die _ => True
  | Done (_, rest) =>
      ends_with_END rest /\ (length rest + moved <= length toks)%nat
  end.

(** [lex] without its final [TT_END]. *)
Definition lexall (q : list Z) : list Tok := lex_loop (length q) q.

(** The text of a token vector: each token's text followed by a blank. *)
Definition show_toks (toks : list Tok) : list Z :=
  flat_map (fun c => tok_s c ++ [32]) toks.

(** The query text of a tree. *)
Definition show (n : Node) : list Z := show_toks (render n).

End QueryEngine.

(** ** Vocabulary for the statements about case folding *)

Module CaseFold.
Import Bytes Tokenize BoolIndex.

(** The byte pairs that the second loop of [lowercase_inplace] rewrites
    follow a [0xD0] lead. *)
Definition upper_trail (b : Z) : bool :=
  ((0x90 <=? b) && (b <=? 0x9F)) || ((0xA0 <=? b) && (b <=? 0xAF)) || (b =? 0x81).

Fixpoint folded_from (b0 : Z) (rest : list Z) : bool :=
  match rest with
  | [] => true
  | b1 :: rest' => negb ((b0 =? 0xD0) && upper_trail b1) && folded_from b1 rest'
  end.

Definition no_ascii_upper (s : list Z) : Prop :=
  Forall (fun c => ascii_lower c = c) s.

(** The string built by successive calls of [append_utf8], as the
    codepoint-level tokenizer builds a token. *)
Definition encode (cps : list Z) : list Z := fold_left append_utf8 cps [].

End CaseFold.

(** ** Vocabulary for the statements about the byte-level tokens *)

Module TokenShape.
Import Bytes BoolIndex.

(** What one iteration of the loop of [tokenize_line] appends to [cur]. *)
Inductive piece : Type :=
| Alnum (c : Z)        (* an ASCII letter or digit *)
| Cyr (b0 b1 : Z)      (* a two-byte Cyrillic sequence *)
| Joiner (c : Z)       (* a hyphen, a plus or an apostrophe *)
| Dot.                 (* a period between two digits *)

Definition piece_bytes (p : piece) : list Z :=
  match p with
  | Alnum c => [c]
  | Cyr b0 b1 => [b0; b1]
  | Joiner c => [c]
  | Dot => [46]
  end.

Definition bytes_of (ps : list piece) : list Z := concat (map piece_bytes ps).

Definition piece_ok (p : piece) : bool :=
  match p with
  | Alnum c => is_ascii_alnum c
  | Cyr b0 b1 => ((b0 =? 0xD0) || (b0 =? 0xD1)) && ((0x80 <=? b1) && (b1 <=? 0xBF))
  | Joiner c => (c =? 45) || (c =? 43) || (c =? 39)
  | Dot => true
  end.

Definition starts (p : piece) : bool :=
  match p with Alnum _ | Cyr _ _ => true | _ => false end.

Definition is_digit_piece (p : piece) : bool :=
  match p with Alnum c => is_ascii_digit c | _ => false end.

(** Whether [p] may come after [prev] inside a token. *)
Definition follows (prev : option piece) (p : piece) : bool :=
  match p with
  | Alnum _ => match prev with Some Dot => is_digit_piece p | _ => true end
  | Cyr _ _ => match prev with Some Dot => false | _ => true end
  | Joiner _ => match prev with Some q => starts q | None => false end
  | Dot => match prev with Some q => is_digit_piece q | None => false end
  end.

Fixpoint shaped (prev : option piece) (ps : list piece) : bool :=
  match ps with
  | [] => true
  | p :: ps' => piece_ok p && follows prev p && shaped (Some p) ps'
  end.

(** A finished token ends with a letter or a digit. *)
Definition closed (ps : list piece) : bool :=
  match last ps with Some p => starts p | None => false end.

(** The tokens of the grammar: runs of letters and digits joined by single
    hyphens, pluses or apostrophes, and digits joined by periods. *)
Definition token (t : list Z) : Prop :=
  exists ps, shaped None ps = true /\ closed ps = true /\ t = bytes_of ps.

Definition lower_piece (p : piece) : piece :=
  match p with
  | Alnum c => Alnum (ascii_lower c)
  | Cyr b0 b1 =>
      if b0 =? 0xD0 then
        if (0x90 <=? b1) && (b1 <=? 0x9F) then Cyr b0 (b1 + 0x20)
        else if (0xA0 <=? b1) && (b1 <=? 0xAF) then Cyr 0xD1 (b1 - 0x20)
        else if b1 =? 0x81 then Cyr 0xD1 0x91
        else p
      else p
  | _ => p
  end.

(** What the last appended piece still asks of the input at index [i]. *)
Definition pending (line : list Z) (i : nat) (ps : list piece) : Prop :=
  match last ps with
  | Some (Joiner _) => is_tok_start line i = true
  | Some Dot => (i <? length line)%nat && is_ascii_digit (byte_at line i) = true
  | _ => True
  end.

(** The piece before the first piece of what follows [ps]. *)
Definition prev_of (prev : option piece) (ps : list piece) : option piece :=
  match last ps with Some q => Some q | None => prev end.

(** A token as [flush] emits it: of the grammar, and already folded. *)
Definition emitted (t : list Z) : Prop := token t /\ lowercase_inplace t = t.

End TokenShape.

(** ** Vocabulary for the statements about a build *)

Module BuildInv.
Import Bytes BoolIndex.

Definition ids_of (docs : list DocLine) : list Z := map dl_docid docs.

(** Representation invariant of the term table during a build over the
    documents with identifiers [ids]: one entry per term, and every posting
    is the 32-bit identifier of a document. *)
Definition table_ok (ids : list Z) (tt : TermTable) : Prop :=
  NoDup (terms_of tt)
  /\ Forall (fun e => Forall (fun d => d ∈ ids /\ is_u32 d) (postings e)) tt.

(** A small corpus: two files, the second one repeating a word. *)
Definition demo_files : list SrcFile :=
  [mkSrcFile (str "/c/enwiki/text/7.txt")
     (Some (str "Title: A" ++ [10] ++ str "URL: u" ++ [10; 10; 10; 10; 10]
            ++ str "red fox" ++ [10]));
   mkSrcFile (str "/c/ruwiki/text/2.txt")
     (Some (str "Title: B" ++ [10] ++ str "URL: v" ++ [10; 10; 10; 10; 10]
            ++ str "Fox fox ant" ++ [10]))].

Definition demo_out : OutDir := mkOutDir true true true true.

(** No posting list is longer than [n]. *)
Definition counts_ok (n : nat) (tt : TermTable) : Prop :=
  Forall (fun e => (length (postings e) <= n)%nat) tt.

End BuildInv.

(** ** Vocabulary for the statements about marks in the seen set *)

Module SeenMarks.
Import Bytes BoolIndex.

(** Whether the probe sequence of [seen_insert] from slot [i] meets the
    entry [e] before it meets a null slot. *)
Fixpoint probe_hits (steps : nat) (ss : SeenSet) (e : nat) (mask i : Z) : bool :=
  match steps with
  | O => false
  | S steps' =>
      match slots ss !! Z.to_nat i with
      | Some (Some cur) =>
          if (cur =? e)%nat then true
          else probe_hits steps' ss e mask (Z.land (wrap32 (i + 1)) mask)
      | _ => false
      end
  end.

(** The entry [e] is marked as seen in the current document. *)
Definition marked (addr : nat -> Z) (ss : SeenSet) (e : nat) : bool :=
  probe_hits (Z.to_nat (cap ss)) ss e (wrap32 (cap ss - 1))
             (Z.land (wrap32 (ptr_hash (addr e))) (wrap32 (cap ss - 1))).

(** The postings the entry at position [k] had before the document, none
    for an entry the document adds. *)
Definition before (tt0 : TermTable) (k : nat) : list Z :=
  from_option postings [] (tt0 !! k).

(** Invariant of the token loop inside one document started on the table
    [tt0]: an entry that is not marked still has the postings it had before
    the document, and a marked one has at most the document's id more. *)
Definition once_inv (addr : nat -> Z) (docid : Z) (tt0 : TermTable)
           (s : BuildState) : Prop :=
  (length tt0 <= length (tt s))%nat
  /\ forall k e1, tt s !! k = Some e1 ->
       (marked addr (seen s) k = false -> postings e1 = before tt0 k)
       /\ (postings e1 = before tt0 k \/ postings e1 = before tt0 k ++ [docid]).

End SeenMarks.

(** ** [stem.c]: the Russian stemmer and the language switch *)

Module StemRu.
Import Bytes Stem.

(** [has_cyrillic_utf8]: some byte of the token is [0xD0] or [0xD1]. *)
Fixpoint has_cyrillic_utf8 (s : list Z) : bool :=
  match s with
  | [] => false
  | p :: s' => if (p =? 0xD0) || (p =? 0xD1) then true else has_cyrillic_utf8 s'
  end.

Definition min_left_bytes_ru : nat := 4.

(** [strip_first_match_ru(tok, sufs, count)]: the return value and the
    token it leaves. *)
Fixpoint strip_first_match_ru (tok : list Z) (sufs : list (list Z))
  : bool * list Z :=
  match sufs with
  | [] => (false, tok)
  | suf :: rest =>
      let n := length tok in
      let m := length suf in
      if (m =? 0)%nat then strip_first_match_ru tok rest
      else if (m <? n)%nat && ends_with_bytes tok suf
              && (min_left_bytes_ru <=? n - m)%nat
      then (true, cut_suffix tok m)
      else strip_first_match_ru tok rest
  end.

(** The suffix tables of [stem_ru], as the UTF-8 bytes of the literals. *)
Definition reflexive : list (list Z) :=
  [str "ся"; str "сь"].

Definition adj : list (list Z) :=
  [str "ыми"; str "ими"; str "ого"; str "ему"; str "ому"; str "ее";
   str "ие"; str "ое"; str "ая"; str "яя"; str "ый"; str "ий"; str "ой";
   str "ые"; str "ие"; str "ых"; str "их"; str "ую"; str "юю"].

Definition verb : list (list Z) :=
  [str "ившись"; str "ывшись"; str "вшись"; str "иться"; str "ать";
   str "ять"; str "еть"; str "ить"; str "ыть"; str "нуть"; str "ала";
   str "яла"; str "ела"; str "ила"; str "ыла"; str "али"; str "яли";
   str "ели"; str "или"; str "ылы"; str "ает"; str "яет"; str "еет";
   str "ит"; str "ют"; str "уют"; str "яют"; str "ешь"; str "ишь";
   str "ем"; str "им"; str "ете"; str "ите"; str "ал"; str "ял"; str "ел";
   str "ил"; str "ыл"].

Definition noun : list (list Z) :=
  [str "иями"; str "ями"; str "ами"; str "ов"; str "ев"; str "ей";
   str "ам"; str "ям"; str "ах"; str "ях"; str "ом"; str "ем"; str "ой";
   str "ей"; str "ою"; str "ею"; str "а"; str "я"; str "у"; str "ю";
   str "е"; str "о"; str "ы"; str "и"; str "ь"].

Definition stem_ru (tok : list Z) : list Z :=
  let t1 := snd (strip_first_match_ru tok reflexive) in
  let '(is_adj, t2) := strip_first_match_ru t1 adj in
  if is_adj then snd (strip_first_match_ru t2 noun)
  else
    let '(is_verb, t3) := strip_first_match_ru t2 verb in
    if is_verb then t3 else snd (strip_first_match_ru t3 noun).

Definition stem_auto (tok : list Z) : list Z :=
  if has_cyrillic_utf8 tok then stem_ru tok else stem_en tok.

(** Vocabulary: the bytes a stage of the stemmer may put after the prefix
    of the token that it keeps ([e] appended, or [i] in place of [y]). *)
Definition en_tail (sfx : list Z) : Prop := sfx = [] \/ sfx = [101] \/ sfx = [105].

(** A non-empty prefix of the token. *)
Definition kept (tok t : list Z) : Prop :=
  exists k, (1 <= k <= length tok)%nat /\ t = take k tok.

End StemRu.

(** ** Vocabulary for the comparison of the two tokenizers *)

Module TokenizerAgreement.
Import Bytes.

(** The text both tokenizers were written for: ASCII characters and the
    Cyrillic letters of the Russian alphabet. *)
Definition plain_cp (cp : Z) : bool :=
  ((0 <=? cp) && (cp <? 0x80)) || Tokenize.is_cyr_lower cp || Tokenize.is_cyr_upper cp.

(** No apostrophe is directly followed by an ASCII digit. *)
Fixpoint apostrophe_safe (cps : list Z) : bool :=
  match cps with
  | a :: (b :: _) as rest =>
      negb ((a =? 39) && Tokenize.is_ascii_digit b) && apostrophe_safe rest
  | _ => true
  end.

(** The bytes of a sequence of codepoints. *)
Definition bytes_of_cps (cps : list Z) : list Z := concat (map Tokenize.utf8_bytes cps).

(** Whether the codepoint-level loop appends the character [cp] to the
    pending token [tok], given the character that follows. *)
Definition cp_joins (cp : Z) (tok : list Z) (nx : option Z) : bool :=
  let has_next := match nx with Some _ => true | None => false end in
  let next := default 0 nx in
  Tokenize.is_alnum cp
  || (Tokenize.is_hyphen cp && negb (Tokenize.is_empty tok) && has_next
      && Tokenize.is_alnum next)
  || ((cp =? 43) && negb (Tokenize.is_empty tok) && has_next && Tokenize.is_alnum next)
  || ((cp =? 46) && (negb (Tokenize.is_empty tok)
                     && Tokenize.is_ascii_digit (Tokenize.back tok))
      && (has_next && Tokenize.is_ascii_digit next))
  || (Tokenize.is_apostrophe cp && negb (Tokenize.is_empty tok) && has_next
      && Tokenize.is_letter next).

(** The pending tokens of the two loops hold the same characters, folded
    in one and raw in the other. *)
Definition same_pending (tok cur : list Z) : Prop :=
  exists cps, forallb plain_cp cps = true
              /\ tok = bytes_of_cps (map Tokenize.to_lower_cp cps)
              /\ cur = bytes_of_cps cps.

End TokenizerAgreement.

(* ===================================================================== *)
(** * Part II.  Properties                                                *)
(* ===================================================================== *)

(** ** Bit-level arithmetic used by the codec *)

Module BitFacts.

Lemma lor_le_add a b : 0 <= a -> 0 <= b -> 0 <= Z.lor a b <= a + b.
Proof.
  intros Ha Hb. split; [apply Z.lor_nonneg; auto|].
  pose proof (Z.add_lor_land a b) as H.
  assert (0 <= Z.land a b) by (apply Z.land_nonneg; auto). lia.
Qed.

Lemma land_ones_bound c k : 0 <= k -> 0 <= Z.land c (Z.ones k) < 2 ^ k.
Proof.
  intros Hk. rewrite Z.land_ones by lia.
  apply Z.mod_pos_bound, Z.pow_pos_nonneg; lia.
Qed.

Lemma land_1F c : 0 <= Z.land c 0x1F <= 31.
Proof. pose proof (land_ones_bound c 5 ltac:(lia)) as H.
  change (Z.ones 5) with 31 in H. change (2 ^ 5) with 32 in H. lia. Qed.

Lemma land_0F c : 0 <= Z.land c 0x0F <= 15.
Proof. pose proof (land_ones_bound c 4 ltac:(lia)) as H.
  change (Z.ones 4) with 15 in H. change (2 ^ 4) with 16 in H. lia. Qed.

Lemma land_07 c : 0 <= Z.land c 0x07 <= 7.
Proof. pose proof (land_ones_bound c 3 ltac:(lia)) as H.
  change (Z.ones 3) with 7 in H. change (2 ^ 3) with 8 in H. lia. Qed.

Lemma land_3F c : 0 <= Z.land c 0x3F <= 63.
Proof. pose proof (land_ones_bound c 6 ltac:(lia)) as H.
  change (Z.ones 6) with 63 in H. change (2 ^ 6) with 64 in H. lia. Qed.

Lemma shiftl_bound a n m : 0 <= n -> 0 <= a <= m ->
  0 <= Z.shiftl a n <= m * 2 ^ n.
Proof.
  intros Hn Ha. rewrite Z.shiftl_mul_pow2 by lia.
  assert (0 < 2 ^ n) by (apply Z.pow_pos_nonneg; lia). nia.
Qed.

End BitFacts.

Module TokenizeFacts.
Import Bytes Tokenize BitFacts.

Lemma byte_at_is_byte s i :
  Forall is_byte s -> (i < length s)%nat -> is_byte (byte_at s i).
Proof.
  intros Hs Hi. unfold byte_at.
  destruct (lookup_lt_is_Some_2 s i Hi) as [b Hb]. rewrite Hb. simpl.
  rewrite Forall_forall in Hs. apply Hs.
  eapply list_elem_of_lookup_2; eauto.
Qed.

(** Bounds on the values assembled by the two-, three- and four-byte
    branches. *)
Lemma cp2_bound c0 c1 :
  0 <= Z.lor (Z.shiftl (Z.land c0 0x1F) 6) (Z.land c1 0x3F) <= 0x7FF.
Proof.
  pose proof (shiftl_bound _ 6 31 ltac:(lia) (land_1F c0)) as H0.
  pose proof (land_3F c1) as H1.
  pose proof (lor_le_add _ _ (proj1 H0) (proj1 H1)). cbn in *. lia.
Qed.

Lemma cp3_bound c0 c1 c2 :
  0 <= Z.lor (Z.lor (Z.shiftl (Z.land c0 0x0F) 12)
                    (Z.shiftl (Z.land c1 0x3F) 6))
             (Z.land c2 0x3F) <= 0xFFFF.
Proof.
  pose proof (shiftl_bound _ 12 15 ltac:(lia) (land_0F c0)) as H0.
  pose proof (shiftl_bound _ 6 63 ltac:(lia) (land_3F c1)) as H1.
  pose proof (land_3F c2) as H2.
  pose proof (lor_le_add _ _ (proj1 H0) (proj1 H1)) as H01.
  pose proof (lor_le_add _ _ (proj1 H01) (proj1 H2)). cbn in *. lia.
Qed.

Lemma cp4_bound c0 c1 c2 c3 :
  0 <= Z.lor (Z.lor (Z.lor (Z.shiftl (Z.land c0 0x07) 18)
                           (Z.shiftl (Z.land c1 0x3F) 12))
                    (Z.shiftl (Z.land c2 0x3F) 6))
             (Z.land c3 0x3F) <= 0x1FFFFF.
Proof.
  pose proof (shiftl_bound _ 18 7 ltac:(lia) (land_07 c0)) as H0.
  pose proof (shiftl_bound _ 12 63 ltac:(lia) (land_3F c1)) as H1.
  pose proof (shiftl_bound _ 6 63 ltac:(lia) (land_3F c2)) as H2.
  pose proof (land_3F c3) as H3.
  pose proof (lor_le_add _ _ (proj1 H0) (proj1 H1)) as H01.
  pose proof (lor_le_add _ _ (proj1 H01) (proj1 H2)) as H012.
  pose proof (lor_le_add _ _ (proj1 H012) (proj1 H3)). cbn in *. lia.
Qed.

Example decode_ascii : decode_utf8_next (str "A") 0 = Some (1%nat, 65).
Proof. reflexivity. Qed.

Example decode_cyrillic_a :
  decode_utf8_next [0xD0; 0xB0] 0 = Some (2%nat, 0x0430).
Proof. reflexivity. Qed.

Example cp_tokenize_s1 :
  tokenize_line (str "Hello, world! 3.14 and don't stop-now")
  = [str "hello"; str "world"; str "3.14"; str "and"; str "don't"; str "stop-now"].
Proof. reflexivity. Qed.

Example decode_truncated : decode_utf8_next [0xE2; 0x80] 0 = Some (1%nat, 0xFFFD).
Proof. reflexivity. Qed.

Lemma seq_len_le_4 c0 : (seq_len c0 <= 4)%nat.
Proof. unfold seq_len. repeat case_match; lia. Qed.

(** Once the lead byte announces a sequence and every trailing byte of it
    is present and is a continuation byte, the sequence is not malformed. *)
Lemma not_malformed s i :
  (1 <= seq_len (byte_at s i))%nat ->
  (i + seq_len (byte_at s i) <= length s)%nat ->
  (forall k : nat, (1 <= k < seq_len (byte_at s i))%nat ->
                   is_continuation (byte_at s (i + k)) = true) ->
  ~ malformed s i.
Proof.
  intros Hlead Hlen Hcont [Ht | [(k & Hk & _ & Hbad) | Hs]].
  - unfold truncated in Ht. lia.
  - rewrite (Hcont k Hk) in Hbad. discriminate.
  - unfold stray_lead in Hs. lia.
Qed.

Local Ltac wellformed_case :=
  split; [lia|]; split; [lia|]; split; [lia|];
  intros Hm; exfalso; revert Hm; apply not_malformed.

(** C5 (as amended): the decoder is total on in-range indices, consumes
    between one and four bytes without running past the input, returns a
    value in [0, 0x1FFFFF], and answers every malformed sequence - a
    truncated one, one with a bad continuation byte, and a byte that cannot
    start a sequence - with U+FFFD and one byte consumed. *)
Theorem decode_utf8_next_total (s : list Z) (i : nat) :
  Forall is_byte s -> (i < length s)%nat ->
  exists (cp : Z) (n : nat),
    decode_utf8_next s i = Some ((i + n)%nat, cp) /\
    0 <= cp <= 0x1FFFFF /\ (1 <= n <= 4)%nat /\ (i + n <= length s)%nat /\
    (malformed s i -> cp = 0xFFFD /\ n = 1%nat).
Proof.
  intros Hs Hi. pose proof (byte_at_is_byte s i Hs Hi) as Hb0.
  unfold is_byte in Hb0. unfold decode_utf8_next.
  destruct (Nat.leb_spec (length s) i) as [?|_]; [lia|].
  destruct (Z.ltb_spec (byte_at s i) 0x80) as [Hlt|Hge].
  { exists (byte_at s i), 1%nat. split; [reflexivity|]. wellformed_case.
    all: unfold seq_len; destruct (Z.ltb_spec (byte_at s i) 0x80); lia. }
  destruct (Z.eqb_spec (Z.land (byte_at s i) 0xE0) 0xC0) as [H2|H2].
  { destruct (Nat.leb_spec (length s) (i + 1)) as [Hl|Hl].
    { exists 0xFFFD, 1%nat. repeat split; lia. }
    destruct (Z.eqb_spec (Z.land (byte_at s (i + 1)) 0xC0) 0x80) as [Hc1|Hc1];
      simpl.
    2: { exists 0xFFFD, 1%nat. repeat split; lia. }
    eexists _, 2%nat. split; [reflexivity|].
    pose proof (cp2_bound (byte_at s i) (byte_at s (i + 1))).
    wellformed_case.
    all: unfold seq_len;
      destruct (Z.ltb_spec (byte_at s i) 0x80); try lia;
      rewrite H2; simpl; try lia.
    all: intros k Hk; assert (k = 1%nat) as -> by lia;
      unfold is_continuation; rewrite Hc1; reflexivity. }
  destruct (Z.eqb_spec (Z.land (byte_at s i) 0xF0) 0xE0) as [H3|H3].
  { destruct (Nat.leb_spec (length s) (i + 2)) as [Hl|Hl].
    { exists 0xFFFD, 1%nat. repeat split; lia. }
    destruct (Z.eqb_spec (Z.land (byte_at s (i + 1)) 0xC0) 0x80) as [Hc1|Hc1];
      simpl.
    2: { exists 0xFFFD, 1%nat. repeat split; lia. }
    destruct (Z.eqb_spec (Z.land (byte_at s (i + 2)) 0xC0) 0x80) as [Hc2|Hc2];
      simpl.
    2: { exists 0xFFFD, 1%nat. repeat split; lia. }
    eexists _, 3%nat. split; [reflexivity|].
    pose proof (cp3_bound (byte_at s i) (byte_at s (i + 1)) (byte_at s (i + 2))).
    wellformed_case.
    all: unfold seq_len;
      destruct (Z.ltb_spec (byte_at s i) 0x80); try lia;
      destruct (Z.eqb_spec (Z.land (byte_at s i) 0xE0) 0xC0); try lia;
      rewrite H3; simpl; try lia.
    all: intros k Hk; assert (k = 1 \/ k = 2)%nat as [-> | ->] by lia;
      unfold is_continuation; [rewrite Hc1 | rewrite Hc2]; reflexivity. }
  destruct (Z.eqb_spec (Z.land (byte_at s i) 0xF8) 0xF0) as [H4|H4].
  { destruct (Nat.leb_spec (length s) (i + 3)) as [Hl|Hl].
    { exists 0xFFFD, 1%nat. repeat split; lia. }
    destruct (Z.eqb_spec (Z.land (byte_at s (i + 1)) 0xC0) 0x80) as [Hc1|Hc1];
      simpl.
    2: { exists 0xFFFD, 1%nat. repeat split; lia. }
    destruct (Z.eqb_spec (Z.land (byte_at s (i + 2)) 0xC0) 0x80) as [Hc2|Hc2];
      simpl.
    2: { exists 0xFFFD, 1%nat. repeat split; lia. }
    destruct (Z.eqb_spec (Z.land (byte_at s (i + 3)) 0xC0) 0x80) as [Hc3|Hc3];
      simpl.
    2: { exists 0xFFFD, 1%nat. repeat split; lia. }
    eexists _, 4%nat. split; [reflexivity|].
    pose proof (cp4_bound (byte_at s i) (byte_at s (i + 1))
                          (byte_at s (i + 2)) (byte_at s (i + 3))).
    wellformed_case.
    all: unfold seq_len;
      destruct (Z.ltb_spec (byte_at s i) 0x80); try lia;
      destruct (Z.eqb_spec (Z.land (byte_at s i) 0xE0) 0xC0); try lia;
      destruct (Z.eqb_spec (Z.land (byte_at s i) 0xF0) 0xE0); try lia;
      rewrite H4; simpl; try lia.
    all: intros k Hk; assert (k = 1 \/ k = 2 \/ k = 3)%nat as [-> | [-> | ->]] by lia;
      unfold is_continuation; [rewrite Hc1 | rewrite Hc2 | rewrite Hc3];
      reflexivity. }
  exists 0xFFFD, 1%nat. repeat split; lia.
Qed.

Lemma decode_utf8_next_total_witness :
  exists (cp : Z) (n : nat),
    decode_utf8_next [0xE2; 0x80] 0 = Some ((0 + n)%nat, cp) /\
    0 <= cp <= 0x1FFFFF /\ (1 <= n <= 4)%nat /\ (0 + n <= 2)%nat /\
    (malformed [0xE2; 0x80] 0 -> cp = 0xFFFD /\ n = 1%nat).
Proof.
  apply (decode_utf8_next_total [0xE2; 0x80] 0).
  - repeat constructor; unfold is_byte; lia.
  - simpl; lia.
Defined.

(** C5 as stated fails: the four-byte branch performs no range check, so
    the well-formed byte pattern F4 90 80 80 decodes to 0x110000, above
    the last Unicode scalar value. *)
Lemma decode_utf8_next_above_unicode :
  Forall is_byte [0xF4; 0x90; 0x80; 0x80] /\
  decode_utf8_next [0xF4; 0x90; 0x80; 0x80] 0 = Some (4%nat, 0x110000) /\
  ~ (0 <= 0x110000 <= 0x10FFFF).
Proof.
  split; [repeat constructor; unfold is_byte; lia|].
  split; [reflexivity | lia].
Qed.

End TokenizeFacts.

(** ** The English stemmer *)

Module StemFacts.
Import Bytes Stem.

Example stem_running : stem_en (str "running") = str "run".
Proof. reflexivity. Qed.
Example stem_ponies : stem_en (str "ponies") = str "poni".
Proof. reflexivity. Qed.
Example stem_caresses : stem_en (str "caresses") = str "caress".
Proof. reflexivity. Qed.
Example stem_happily : stem_en (str "happily") = str "happili".
Proof. reflexivity. Qed.
Example stem_agreed : stem_en (str "agreed") = str "agree".
Proof. reflexivity. Qed.
Example stem_feed : stem_en (str "feed") = str "feed".
Proof. reflexivity. Qed.

Example stem_cats : stem_en (str "cats") = str "cate".
Proof. reflexivity. Qed.

(** *** Suffix tests on a token written as prefix and suffix *)

Lemma ends_with_bytes_app pre suf : ends_with_bytes (pre ++ suf) suf = true.
Proof.
  unfold ends_with_bytes. rewrite length_app.
  destruct (Nat.ltb_spec (length pre + length suf) (length suf)); [lia|].
  replace (length pre + length suf - length suf)%nat with (length pre) by lia.
  rewrite drop_app_length. unfold bytes_eqb. apply bool_decide_eq_true_2.
  reflexivity.
Qed.

Lemma ends_with_bytes_inv s suf :
  ends_with_bytes s suf = true -> s = take (length s - length suf) s ++ suf.
Proof.
  unfold ends_with_bytes.
  destruct (Nat.ltb_spec (length s) (length suf)); [discriminate|].
  unfold bytes_eqb. intros Heq%bool_decide_eq_true_1.
  rewrite <- (take_drop (length s - length suf) s) at 1. now rewrite Heq.
Qed.

Lemma ends_with_bytes_last s suf c c' :
  last s = Some c -> last suf = Some c' -> c <> c' ->
  ends_with_bytes s suf = false.
Proof.
  intros Hs Hsuf Hne. destruct (ends_with_bytes s suf) eqn:E; [|reflexivity].
  apply ends_with_bytes_inv in E. rewrite E in Hs.
  destruct suf as [|x suf] using rev_ind; [discriminate|].
  rewrite app_assoc, last_snoc in Hs. rewrite last_snoc in Hsuf. congruence.
Qed.

Lemma byte_at_snoc pre c : byte_at (pre ++ [c]) (length (pre ++ [c]) - 1) = c.
Proof.
  unfold byte_at. rewrite length_app. simpl.
  replace (length pre + 1 - 1)%nat with (length pre + 0)%nat by lia.
  rewrite lookup_app_r by lia.
  replace (length pre + 0 - length pre)%nat with 0%nat by lia. reflexivity.
Qed.

Lemma byte_at_snoc2 pre b c :
  byte_at (pre ++ [b; c]) (length (pre ++ [b; c]) - 2) = b /\
  byte_at (pre ++ [b; c]) (length (pre ++ [b; c]) - 1) = c.
Proof.
  unfold byte_at. rewrite length_app. simpl. split.
  - rewrite lookup_app_r by lia.
    replace (length pre + 2 - 2 - length pre)%nat with 0%nat by lia. reflexivity.
  - rewrite lookup_app_r by lia.
    replace (length pre + 2 - 1 - length pre)%nat with 1%nat by lia. reflexivity.
Qed.

Lemma drop_suffix pre (suf : list Z) :
  drop (length (pre ++ suf) - length suf) (pre ++ suf) = suf.
Proof.
  rewrite length_app.
  replace (length pre + length suf - length suf)%nat with (length pre) by lia.
  apply drop_app_length.
Qed.

Lemma take_suffix pre (suf : list Z) :
  take (length (pre ++ suf) - length suf) (pre ++ suf) = pre.
Proof.
  rewrite length_app.
  replace (length pre + length suf - length suf)%nat with (length pre) by lia.
  apply take_app_length.
Qed.

(** *** The [eed] rule *)

Lemma plural_step_eed pre :
  plural_step (pre ++ str "eed") = Next (pre ++ str "eed").
Proof.
  unfold plural_step.
  assert (Hl : last (pre ++ str "eed") = Some 100)
    by (change (str "eed") with ([101; 101] ++ [100]);
        rewrite app_assoc; apply last_snoc).
  rewrite (ends_with_bytes_last _ (str "sses") 100 115 Hl) by (reflexivity || lia).
  rewrite (ends_with_bytes_last _ (str "ies") 100 115 Hl) by (reflexivity || lia).
  rewrite (ends_with_bytes_last _ (str "ss") 100 115 Hl) by (reflexivity || lia).
  rewrite (ends_with_bytes_last _ (str "s") 100 115 Hl) by (reflexivity || lia).
  reflexivity.
Qed.

Lemma later_steps_ee pre :
  y_step (double_step (tail_step (pre ++ str "ee"))) = pre ++ str "ee".
Proof.
  assert (Ht : tail_step (pre ++ str "ee") = pre ++ str "ee").
  { unfold tail_step. case_match; [|reflexivity].
    replace (drop (length (pre ++ str "ee") - 2) (pre ++ str "ee"))
      with (str "ee") by (symmetry; apply (drop_suffix pre (str "ee"))).
    reflexivity. }
  assert (Hd : double_step (pre ++ str "ee") = pre ++ str "ee").
  { unfold double_step, ends_with_double_consonant_en.
    destruct (byte_at_snoc2 pre 101 101) as [E1 E2].
    change (str "ee") with [101; 101]. rewrite E1, E2. simpl.
    destruct (_ <? 2)%nat; reflexivity. }
  assert (Hy : y_step (pre ++ str "ee") = pre ++ str "ee").
  { unfold y_step. destruct (byte_at_snoc2 pre 101 101) as [_ E2].
    change (str "ee") with [101; 101]. rewrite E2.
    rewrite andb_false_r. reflexivity. }
  rewrite Ht, Hd, Hy. reflexivity.
Qed.

(** C6 (as amended): on a token ending in [eed], the verb-suffix stage
    drops exactly the last character when the token is longer than four
    characters, and leaves a token of three or four characters unchanged;
    in the first case the whole stemmer returns the token without its last
    character, which ends in [ee]. *)
Theorem verb_step_eed (tok : list Z) :
  ends_with_bytes tok (str "eed") = true ->
  verb_step tok =
    Next (if (4 <? length tok)%nat then take (length tok - 1) tok else tok)
  /\ ((4 < length tok)%nat ->
      stem_en tok = take (length tok - 1) tok /\
      ends_with_bytes (stem_en tok) (str "ee") = true).
Proof.
  intros H. split.
  { unfold verb_step. rewrite H. destruct (4 <? length tok)%nat; reflexivity. }
  intros Hlen. pose proof (ends_with_bytes_inv _ _ H) as Htok.
  set (pre := take (length tok - length (str "eed")) tok) in Htok.
  assert (Hcut : take (length tok - 1) tok = pre ++ str "ee").
  { rewrite Htok at 2. change (str "eed") with (str "ee" ++ [100]).
    rewrite app_assoc. rewrite Htok at 1.
    change (str "eed") with (str "ee" ++ [100]). rewrite app_assoc.
    change 1%nat with (length [100]). apply take_suffix. }
  assert (Hstem : stem_en tok = pre ++ str "ee").
  { unfold stem_en.
    destruct (Nat.ltb_spec (length tok) 3); [lia|].
    rewrite Htok, plural_step_eed. simpl andThen. rewrite <- Htok.
    destruct (Nat.ltb_spec (length tok) 3); [lia|].
    unfold verb_step. rewrite H.
    destruct (Nat.ltb_spec 4 (length tok)); [|lia].
    simpl andThen. rewrite Hcut. apply later_steps_ee. }
  rewrite Hstem, Hcut. split; [reflexivity | apply ends_with_bytes_app].
Qed.

Lemma verb_step_eed_witness :
  verb_step (str "agreed") =
    Next (if (4 <? length (str "agreed"))%nat
          then take (length (str "agreed") - 1) (str "agreed")
          else str "agreed")
  /\ ((4 < length (str "agreed"))%nat ->
      stem_en (str "agreed") = take (length (str "agreed") - 1) (str "agreed") /\
      ends_with_bytes (stem_en (str "agreed")) (str "ee") = true).
Proof. apply (verb_step_eed (str "agreed")). reflexivity. Defined.

(** C6 as stated fails for tokens of length three and four: [feed] reaches
    the verb-suffix stage, ends in [eed], and keeps its last character. *)
Lemma verb_step_feed_unchanged :
  (3 <= length (str "feed"))%nat /\
  ends_with_bytes (str "feed") (str "eed") = true /\
  plural_step (str "feed") = Next (str "feed") /\
  verb_step (str "feed") = Next (str "feed") /\
  stem_en (str "feed") = str "feed" /\
  str "feed" <> take (length (str "feed") - 1) (str "feed").
Proof.
  repeat split; try reflexivity; [simpl; lia | vm_compute; discriminate].
Qed.

(** *** Fixed points and idempotence *)

Lemma cut_suffix_take tok k :
  (k <= length tok)%nat -> cut_suffix tok k = take (length tok - k) tok.
Proof.
  intros Hk. unfold cut_suffix.
  destruct (Nat.ltb_spec (length tok) k); [lia | reflexivity].
Qed.

(** A token matched by none of the stemmer's rules is a fixed point. *)
Lemma stem_en_rule_free_fixed (tok : list Z) :
  rule_free tok = true -> stem_en tok = tok.
Proof.
  unfold rule_free, stem_en. intros H.
  destruct (length tok <? 3)%nat eqn:Hn; [reflexivity|]. simpl in H.
  apply andb_true_iff in H as [H Hy]. apply andb_true_iff in H as [H Hdbl].
  apply andb_true_iff in H as [H Htail]. apply andb_true_iff in H as [H Hing].
  apply andb_true_iff in H as [H Hed]. apply andb_true_iff in H as [H Heed].
  apply andb_true_iff in H as [H Hs]. apply andb_true_iff in H as [Hsses Hies].
  apply negb_true_iff in Hy, Hdbl, Htail, Hing, Heed, Hsses, Hies.
  assert (Hp : plural_step tok = Next tok \/ plural_step tok = Return tok).
  { unfold plural_step. rewrite Hsses, Hies.
    destruct (ends_with_bytes tok (str "ss")); [now left|].
    destruct (ends_with_bytes tok (str "s") && (3 <? length tok)%nat) eqn:Es;
      [|now left].
    destruct (TMP_SIZE <=? length tok)%nat; [now right|].
    simpl in Hs. apply negb_true_iff in Hs. rewrite Hs. now left. }
  destruct Hp as [-> | ->]; [|reflexivity]. simpl andThen. rewrite Hn.
  assert (Hv : verb_step tok = Next tok \/ verb_step tok = Return tok).
  { unfold verb_step.
    destruct (ends_with_bytes tok (str "eed")) eqn:Eeed.
    { simpl in Heed. rewrite Heed. now left. }
    simpl in Hed. apply negb_true_iff in Hed.
    destruct (ends_with_bytes tok (str "ed")) eqn:Eed.
    { destruct (TMP_SIZE <=? length tok)%nat; [now right|].
      simpl in Hed. rewrite Hed. now left. }
    destruct (ends_with_bytes tok (str "ing")) eqn:Eing; [|now left].
    destruct (TMP_SIZE <=? length tok)%nat; [now right|].
    simpl in Hing. rewrite Hing. now left. }
  destruct Hv as [-> | ->]; [|reflexivity]. simpl andThen.
  assert (Ht : tail_step tok = tok).
  { unfold tail_step. destruct (2 <=? length tok)%nat; [|reflexivity].
    rewrite Htail. reflexivity. }
  assert (Hd : double_step tok = tok).
  { unfold double_step.
    destruct (ends_with_double_consonant_en tok); [|reflexivity].
    rewrite <- !andb_assoc in Hdbl. simpl in Hdbl.
    rewrite andb_assoc in Hdbl. rewrite Hdbl. reflexivity. }
  assert (Hy' : y_step tok = tok).
  { unfold y_step.
    destruct ((2 <=? length tok)%nat && (byte_at tok (length tok - 1) =? 121))
      eqn:Ey; [|reflexivity].
    apply andb_true_iff in Ey. destruct Ey as [_ Ey].
    destruct (TMP_SIZE <=? length tok)%nat; [reflexivity|].
    rewrite Ey in Hy. simpl in Hy. rewrite Hy. reflexivity. }
  rewrite Ht, Hd, Hy'. reflexivity.
Qed.


(** *** Suffix tests against a known ending *)

Lemma ends_with_bytes_longer pre suf1 suf2 :
  (length suf1 <= length suf2)%nat ->
  drop (length suf2 - length suf1) suf2 <> suf1 ->
  ends_with_bytes (pre ++ suf1) suf2 = false.
Proof.
  intros Hlen Hne. destruct (ends_with_bytes (pre ++ suf1) suf2) eqn:E;
    [|reflexivity].
  apply ends_with_bytes_inv in E. exfalso. apply Hne.
  set (x := take _ _) in E.
  rewrite <- (take_drop (length suf2 - length suf1) suf2) in E.
  rewrite app_assoc in E.
  apply app_inj_2 in E; [symmetry; apply E|].
  rewrite length_drop. lia.
Qed.

Lemma ends_with_bytes_shorter pre suf1 suf2 :
  (length suf2 <= length suf1)%nat ->
  ends_with_bytes (pre ++ suf1) suf2 = ends_with_bytes suf1 suf2.
Proof.
  intros Hlen. unfold ends_with_bytes. rewrite length_app.
  destruct (Nat.ltb_spec (length pre + length suf1) (length suf2)); [lia|].
  destruct (Nat.ltb_spec (length suf1) (length suf2)); [lia|].
  rewrite drop_app_ge by lia. f_equal. f_equal. lia.
Qed.

(** Decides a suffix test of a token with a known ending. *)
Local Ltac suffix_test :=
  first
    [ rewrite ends_with_bytes_longer by (simpl; lia || (vm_compute; congruence))
    | rewrite ends_with_bytes_shorter by (simpl; lia) ].

Lemma nonconsonant_cases c :
  is_consonant_en c = false ->
  c <> 115 /\ c <> 100 /\ c <> 103 /\ c <> 116 /\ c <> 108 /\ c <> 122.
Proof.
  intros H. repeat split; intros ->; discriminate H.
Qed.

Lemma ends_with_bytes_snoc pre c suf c' :
  last suf = Some c' -> c <> c' -> ends_with_bytes (pre ++ [c]) suf = false.
Proof.
  intros Hl Hne. apply (ends_with_bytes_last _ _ c c'); auto using last_snoc.
Qed.

(** *** Tokens whose last byte is not a consonant *)

Lemma plural_step_nonconsonant pre c :
  is_consonant_en c = false -> plural_step (pre ++ [c]) = Next (pre ++ [c]).
Proof.
  intros (Hs & _)%nonconsonant_cases. unfold plural_step.
  rewrite (ends_with_bytes_snoc pre c (str "sses") 115 eq_refl Hs).
  rewrite (ends_with_bytes_snoc pre c (str "ies") 115 eq_refl Hs).
  rewrite (ends_with_bytes_snoc pre c (str "ss") 115 eq_refl Hs).
  rewrite (ends_with_bytes_snoc pre c (str "s") 115 eq_refl Hs). reflexivity.
Qed.

Lemma verb_step_nonconsonant pre c :
  is_consonant_en c = false -> verb_step (pre ++ [c]) = Next (pre ++ [c]).
Proof.
  intros (_ & Hd & Hg & _)%nonconsonant_cases. unfold verb_step.
  rewrite (ends_with_bytes_snoc pre c (str "eed") 100 eq_refl Hd).
  rewrite (ends_with_bytes_snoc pre c (str "ed") 100 eq_refl Hd).
  rewrite (ends_with_bytes_snoc pre c (str "ing") 103 eq_refl Hg). reflexivity.
Qed.

Lemma tail_test pre c a c' :
  c <> c' ->
  bytes_eqb (drop (length (pre ++ [c]) - 2) (pre ++ [c])) [a; c'] = false.
Proof.
  intros Hne. unfold bytes_eqb. apply bool_decide_eq_false_2. intros E.
  assert (Hl : last (drop (length (pre ++ [c]) - 2) (pre ++ [c])) = Some c).
  { rewrite length_app. simpl.
    destruct (decide (length pre = 0)%nat) as [E0 | E0].
    - destruct pre; [|discriminate]. reflexivity.
    - rewrite drop_app_le by lia. apply last_snoc. }
  rewrite E in Hl. simpl in Hl. congruence.
Qed.

Lemma tail_step_nonconsonant pre c :
  is_consonant_en c = false -> tail_step (pre ++ [c]) = pre ++ [c].
Proof.
  intros (_ & _ & _ & Ht & Hl & Hz)%nonconsonant_cases. unfold tail_step.
  destruct (2 <=? _)%nat; [|reflexivity].
  change (str "at") with [97; 116]. change (str "bl") with [98; 108].
  change (str "iz") with [105; 122].
  rewrite !tail_test by assumption. reflexivity.
Qed.

Lemma double_step_nonconsonant pre c :
  is_consonant_en c = false -> double_step (pre ++ [c]) = pre ++ [c].
Proof.
  intros Hc. unfold double_step, ends_with_double_consonant_en.
  rewrite byte_at_snoc, Hc.
  destruct (_ <? 2)%nat; [reflexivity|]. destruct (negb _); reflexivity.
Qed.

Lemma y_step_other pre c : c <> 121 -> y_step (pre ++ [c]) = pre ++ [c].
Proof.
  intros Hc. unfold y_step. rewrite byte_at_snoc.
  destruct (Z.eqb_spec c 121); [contradiction|].
  rewrite andb_false_r. reflexivity.
Qed.

Lemma y_step_y pre :
  y_step (pre ++ [121]) = pre ++ [121] \/ y_step (pre ++ [121]) = pre ++ [105].
Proof.
  unfold y_step. destruct (_ && _); [|now left].
  destruct (_ <=? _)%nat; [now left|].
  destruct (has_vowel_en _); [|now left]. right.
  rewrite length_app. simpl.
  replace (length pre + 1 - 1)%nat with (length pre + 0)%nat by lia.
  rewrite insert_app_r. reflexivity.
Qed.

(** The stages after the plural one, on a token whose last byte is neither
    a consonant nor [y]. *)
Lemma later_steps_nonconsonant pre c :
  is_consonant_en c = false -> c <> 121 ->
  andThen (verb_step (pre ++ [c]))
          (fun t2 => y_step (double_step (tail_step t2))) = pre ++ [c].
Proof.
  intros Hc Hy. rewrite verb_step_nonconsonant by assumption. simpl andThen.
  rewrite tail_step_nonconsonant, double_step_nonconsonant by assumption.
  now apply y_step_other.
Qed.

Lemma stem_en_nonconsonant pre c :
  is_consonant_en c = false -> c <> 121 -> stem_en (pre ++ [c]) = pre ++ [c].
Proof.
  intros Hc Hy. unfold stem_en. destruct (_ <? 3)%nat eqn:E; [reflexivity|].
  rewrite plural_step_nonconsonant by assumption. simpl andThen. rewrite E.
  now apply later_steps_nonconsonant.
Qed.

Lemma stem_en_last_y pre :
  stem_en (pre ++ [121]) = pre ++ [121] \/ stem_en (pre ++ [121]) = pre ++ [105].
Proof.
  unfold stem_en. destruct (_ <? 3)%nat eqn:E; [now left|].
  rewrite plural_step_nonconsonant by reflexivity. simpl andThen. rewrite E.
  rewrite verb_step_nonconsonant by reflexivity. simpl andThen.
  rewrite tail_step_nonconsonant, double_step_nonconsonant by reflexivity.
  apply y_step_y.
Qed.

Lemma fixed_idempotent t : stem_en t = t -> stem_en (stem_en t) = stem_en t.
Proof. intros E. rewrite !E. reflexivity. Qed.

Lemma stem_to_fixed t r :
  stem_en t = r -> stem_en r = r -> stem_en (stem_en t) = stem_en t.
Proof. intros E1 E2. rewrite E1. exact E2. Qed.

Lemma idempotent_nonconsonant pre c :
  is_consonant_en c = false ->
  stem_en (stem_en (pre ++ [c])) = stem_en (pre ++ [c]).
Proof.
  intros Hc. destruct (Z.eq_dec c 121) as [-> | Hy].
  - destruct (stem_en_last_y pre) as [E | E].
    + now apply fixed_idempotent.
    + apply (stem_to_fixed _ _ E). apply stem_en_nonconsonant; [reflexivity | lia].
  - apply fixed_idempotent. now apply stem_en_nonconsonant.
Qed.

(** *** Tokens ending in [ss], [sses], [ies] *)

Lemma double_step_ss pre : double_step (pre ++ str "ss") = pre ++ str "ss".
Proof.
  unfold double_step, ends_with_double_consonant_en.
  destruct (byte_at_snoc2 pre 115 115) as [E1 E2].
  change (str "ss") with [115; 115]. rewrite E1, E2. simpl.
  destruct (_ <? 2)%nat; reflexivity.
Qed.

Lemma later_steps_ss pre :
  andThen (verb_step (pre ++ str "ss"))
          (fun t2 => y_step (double_step (tail_step t2))) = pre ++ str "ss".
Proof.
  assert (Hv : verb_step (pre ++ str "ss") = Next (pre ++ str "ss")).
  { unfold verb_step. repeat suffix_test. reflexivity. }
  rewrite Hv. simpl andThen.
  assert (Ht : tail_step (pre ++ str "ss") = pre ++ str "ss").
  { unfold tail_step. case_match; [|reflexivity].
    replace (drop (length (pre ++ str "ss") - 2) (pre ++ str "ss"))
      with (str "ss") by (symmetry; apply (drop_suffix pre (str "ss"))).
    reflexivity. }
  rewrite Ht, double_step_ss.
  change (str "ss") with ([115] ++ [115]). rewrite app_assoc.
  apply y_step_other. lia.
Qed.

Lemma stem_en_ss pre : stem_en (pre ++ str "ss") = pre ++ str "ss".
Proof.
  unfold stem_en. destruct (_ <? 3)%nat eqn:E; [reflexivity|].
  assert (Hp : plural_step (pre ++ str "ss") = Next (pre ++ str "ss")).
  { unfold plural_step. repeat suffix_test. reflexivity. }
  rewrite Hp. simpl andThen. rewrite E. apply later_steps_ss.
Qed.

Lemma stem_en_sses pre : stem_en (pre ++ str "sses") = pre ++ str "ss".
Proof.
  unfold stem_en.
  destruct (Nat.ltb_spec (length (pre ++ str "sses")) 3) as [E | _].
  { rewrite length_app in E. simpl in E. lia. }
  assert (Hp : plural_step (pre ++ str "sses") = Next (pre ++ str "ss")).
  { unfold plural_step. rewrite ends_with_bytes_app. f_equal.
    rewrite cut_suffix_take by (rewrite length_app; simpl; lia).
    change (str "sses") with (str "ss" ++ str "es"). rewrite app_assoc.
    apply (take_suffix (pre ++ str "ss") (str "es")). }
  rewrite Hp. simpl andThen.
  destruct (Nat.ltb (length (pre ++ str "ss")) 3); [reflexivity|].
  apply later_steps_ss.
Qed.

Lemma stem_en_ies pre : stem_en (pre ++ str "ies") = pre ++ [105].
Proof.
  unfold stem_en.
  destruct (Nat.ltb_spec (length (pre ++ str "ies")) 3) as [E | _].
  { rewrite length_app in E. simpl in E. lia. }
  assert (Hp : plural_step (pre ++ str "ies") = Next (pre ++ [105])).
  { unfold plural_step. suffix_test. rewrite ends_with_bytes_app. f_equal.
    rewrite cut_suffix_take by (rewrite length_app; simpl; lia).
    change (str "ies") with ([105] ++ str "es"). rewrite app_assoc.
    apply (take_suffix (pre ++ [105]) (str "es")). }
  rewrite Hp. simpl andThen.
  destruct (Nat.ltb (length (pre ++ [105])) 3); [reflexivity|].
  apply later_steps_nonconsonant; [reflexivity | lia].
Qed.

(** *** Tokens ending in [at], [bl], [iz] *)

Lemma double_step_distinct pre a b :
  a <> b -> double_step (pre ++ [a; b]) = pre ++ [a; b].
Proof.
  intros Hne. unfold double_step, ends_with_double_consonant_en.
  destruct (byte_at_snoc2 pre a b) as [E1 E2]. rewrite E1, E2.
  destruct (_ <? 2)%nat; [reflexivity|].
  destruct (Z.eqb_spec b a); [congruence | reflexivity].
Qed.

Lemma stem_en_tail pre a b :
  [a; b] = str "at" \/ [a; b] = str "bl" \/ [a; b] = str "iz" ->
  stem_en (pre ++ [a; b]) = pre ++ [a; b] \/
  stem_en (pre ++ [a; b]) = (pre ++ [a; b]) ++ [101].
Proof.
  intros Hab. unfold stem_en. destruct (_ <? 3)%nat eqn:E; [now left|].
  assert (Hne : a <> b /\ b <> 121)
    by (destruct Hab as [H | [H | H]]; vm_compute in H; injection H as Ha Hb;
        subst a b; lia).
  assert (Hp : plural_step (pre ++ [a; b]) = Next (pre ++ [a; b])).
  { unfold plural_step.
    destruct Hab as [H | [H | H]]; vm_compute in H; injection H as Ha Hb;
      subst a b; repeat suffix_test; reflexivity. }
  assert (Hv : verb_step (pre ++ [a; b]) = Next (pre ++ [a; b])).
  { unfold verb_step.
    destruct Hab as [H | [H | H]]; vm_compute in H; injection H as Ha Hb;
      subst a b; repeat suffix_test; reflexivity. }
  rewrite Hp. simpl andThen. rewrite E, Hv. simpl andThen.
  unfold tail_step. destruct (2 <=? _)%nat.
  2:{ left. rewrite double_step_distinct by tauto.
      change [a; b] with ([a] ++ [b]). rewrite app_assoc.
      apply y_step_other. tauto. }
  destruct (_ || _).
  2:{ left. rewrite double_step_distinct by tauto.
      change [a; b] with ([a] ++ [b]). rewrite app_assoc.
      apply y_step_other. tauto. }
  destruct (_ <? 512)%nat.
  - right. rewrite double_step_nonconsonant by reflexivity.
    apply y_step_other. lia.
  - left. rewrite double_step_distinct by tauto.
    change [a; b] with ([a] ++ [b]). rewrite app_assoc.
    apply y_step_other. tauto.
Qed.

Lemma idempotent_tail pre a b :
  [a; b] = str "at" \/ [a; b] = str "bl" \/ [a; b] = str "iz" ->
  stem_en (stem_en (pre ++ [a; b])) = stem_en (pre ++ [a; b]).
Proof.
  intros Hab. destruct (stem_en_tail pre a b Hab) as [E | E].
  - now apply fixed_idempotent.
  - apply (stem_to_fixed _ _ E). apply stem_en_nonconsonant; [reflexivity | lia].
Qed.

Lemma idempotent_suffix t suf :
  ends_with_bytes t suf = true ->
  (forall pre, stem_en (stem_en (pre ++ suf)) = stem_en (pre ++ suf)) ->
  stem_en (stem_en t) = stem_en t.
Proof.
  intros H%ends_with_bytes_inv Hall. rewrite H. apply Hall.
Qed.

Lemma byte_at_last_snoc t :
  t <> [] -> exists pre, t = pre ++ [byte_at t (length t - 1)].
Proof.
  intros Hne. destruct t as [|c t] using rev_ind; [contradiction|].
  exists t. now rewrite byte_at_snoc.
Qed.

(** C8 (as amended): a second application of the stemmer changes nothing on
    a token shorter than three bytes, on a token ending in [sses], [ies],
    [ss], [at], [bl] or [iz], on a token whose last byte is not a consonant
    letter, and on a token matched by none of the stemmer's rules. *)
Theorem stem_en_idempotent_on_stable (t : list Z) :
  stable_ending t || rule_free t = true -> stem_en (stem_en t) = stem_en t.
Proof.
  intros H. apply orb_true_iff in H as [H | H];
    [|now apply fixed_idempotent, stem_en_rule_free_fixed].
  unfold stable_ending in H.
  repeat (apply orb_true_iff in H as [H | H]).
  - apply fixed_idempotent. unfold stem_en. now rewrite H.
  - apply (idempotent_suffix _ _ H). intros pre.
    apply (stem_to_fixed _ _ (stem_en_sses pre)), stem_en_ss.
  - apply (idempotent_suffix _ _ H). intros pre.
    apply (stem_to_fixed _ _ (stem_en_ies pre)).
    apply stem_en_nonconsonant; [reflexivity | lia].
  - apply (idempotent_suffix _ _ H). intros pre.
    apply fixed_idempotent, stem_en_ss.
  - apply (idempotent_suffix _ _ H). intros pre. apply idempotent_tail. tauto.
  - apply (idempotent_suffix _ _ H). intros pre. apply idempotent_tail. tauto.
  - apply (idempotent_suffix _ _ H). intros pre. apply idempotent_tail. tauto.
  - apply negb_true_iff in H. destruct t as [|c0 t0] eqn:Et.
    { reflexivity. }
    rewrite <- Et in *. destruct (byte_at_last_snoc t) as [pre Hpre];
      [rewrite Et; discriminate|].
    rewrite Hpre. now apply idempotent_nonconsonant.
Qed.

Lemma stem_en_idempotent_on_stable_witness :
  stem_en (stem_en (str "caresses")) = stem_en (str "caresses").
Proof. apply (stem_en_idempotent_on_stable (str "caresses")). reflexivity. Defined.

(** C8 as stated fails: [biased] stems to [bias], whose final [s] is then
    removed by the plural stage of a second application. *)
Lemma stem_en_not_idempotent :
  stem_en (str "biased") = str "bias" /\
  stem_en (stem_en (str "biased")) = str "bia" /\
  stem_en (stem_en (str "biased")) <> stem_en (str "biased").
Proof. repeat split; try reflexivity. vm_compute. discriminate. Qed.

End StemFacts.

(** ** The byte-level tokenizer *)

Module BoolIndexFacts.
Import Bytes BoolIndex.

Example byte_tokenize_s1 :
  tokenize_line (str "Hello, world! 3.14 and don't stop-now")
  = [str "hello"; str "world"; str "3.14"; str "and"; str "don't"; str "stop-now"].
Proof. reflexivity. Qed.

(** "Привет, мир" in UTF-8. *)
Example tokenize_cyrillic :
  tokenize_line [0xD0; 0x9F; 0xD1; 0x80; 0xD0; 0xB8; 0xD0; 0xB2; 0xD0; 0xB5;
                 0xD1; 0x82; 44; 32; 0xD0; 0xBC; 0xD0; 0xB8; 0xD1; 0x80]
  = [[0xD0; 0xBF; 0xD1; 0x80; 0xD0; 0xB8; 0xD0; 0xB2; 0xD0; 0xB5; 0xD1; 0x82];
     [0xD0; 0xBC; 0xD0; 0xB8; 0xD1; 0x80]].
Proof. reflexivity. Qed.

(** *** Document identifiers *)

Example docid_en : assign_docid (str "corpus/enwiki/text/000123.txt") = 123.
Proof. reflexivity. Qed.
Example docid_ru : assign_docid (str "corpus/ruwiki/text/2.txt") = 30002.
Proof. reflexivity. Qed.

Lemma docid_digits_range v stem :
  0 <= v < 2 ^ 32 -> 0 <= docid_digits v stem < 2 ^ 32.
Proof.
  revert v. induction stem as [|c stem IH]; intros v Hv; simpl; [exact Hv|].
  destruct ((c <? 48) || (57 <? c)); [apply IH, Hv|].
  apply IH. unfold wrap32. apply Z.mod_pos_bound. lia.
Qed.

Lemma parse_docid_range p : 0 <= parse_docid_from_name p < 2 ^ 32.
Proof. apply docid_digits_range. lia. Qed.

(** C9 (as amended): an English and a Russian document get different
    docids as long as the English file-name number is below the offset
    30000 and adding the offset to the Russian file-name number stays
    within 32 bits. *)
Theorem docid_spaces_disjoint (p_en p_ru : list Z) :
  lang_of_path p_en = En -> lang_of_path p_ru = Ru ->
  parse_docid_from_name p_en < 30000 ->
  parse_docid_from_name p_ru < 2 ^ 32 - 30000 ->
  assign_docid p_en <> assign_docid p_ru.
Proof.
  intros Hen Hru Hlo Hhi. unfold assign_docid. rewrite Hen, Hru.
  pose proof (parse_docid_range p_en). pose proof (parse_docid_range p_ru).
  unfold wrap32. rewrite !Z.mod_small by lia. lia.
Qed.

Lemma docid_spaces_disjoint_witness :
  assign_docid (str "corpus/enwiki/text/7.txt")
  <> assign_docid (str "corpus/ruwiki/text/7.txt").
Proof.
  apply (docid_spaces_disjoint (str "corpus/enwiki/text/7.txt")
                               (str "corpus/ruwiki/text/7.txt"));
    vm_compute; reflexivity.
Defined.

(** C9 as stated fails: the English file [30001.txt] and the Russian file
    [1.txt] are both assigned docid 30001. *)
Lemma docid_spaces_collide :
  lang_of_path (str "corpus/enwiki/text/30001.txt") = En /\
  lang_of_path (str "corpus/ruwiki/text/1.txt") = Ru /\
  assign_docid (str "corpus/enwiki/text/30001.txt") = 30001 /\
  assign_docid (str "corpus/ruwiki/text/1.txt") = 30001.
Proof. repeat split; reflexivity. Qed.

(** *** Finalisation: sorting, compaction and the written files *)

Lemma u32_at_app_r (l1 l2 : list Z) k : u32_at (l1 ++ l2) (length l1 + k) = u32_at l2 k.
Proof. unfold u32_at. rewrite lookup_app_r by lia. f_equal. f_equal. lia. Qed.

Lemma u32_at_last (out : list Z) : out <> [] -> Some (u32_at out (length out - 1)) = last out.
Proof.
  destruct out as [|x out] using rev_ind; [congruence|]. intros _.
  rewrite last_snoc, length_app. simpl.
  replace (length out + 1 - 1)%nat with (length out + 0)%nat by lia.
  rewrite u32_at_app_r. reflexivity.
Qed.

Lemma keep_cond (out tl : list Z) x :
  ((length out =? 0)%nat || negb (x =? u32_at (out ++ tl) (length out - 1)))
  = negb (bool_decide (last out = Some x)).
Proof.
  destruct out as [|y out _] using rev_ind.
  - reflexivity.
  - rewrite last_snoc, length_app. simpl.
    replace (length out + 1 =? 0)%nat with false by (symmetry; apply Nat.eqb_neq; lia).
    rewrite <- !app_assoc. simpl.
    replace (length out + 1 - 1)%nat with (length out + 0)%nat by lia.
    rewrite u32_at_app_r. cbn [u32_at lookup list_lookup default from_option].
    simpl. destruct (Z.eqb_spec x y) as [->|Hne].
    + rewrite bool_decide_eq_true_2 by reflexivity. reflexivity.
    + rewrite bool_decide_eq_false_2 by congruence. reflexivity.
Qed.

Lemma insert_at_w (out junk : list Z) x rest :
  exists junk2,
    <[length out := x]> (out ++ junk ++ x :: rest) = (out ++ [x]) ++ junk2 ++ rest
    /\ length junk2 = length junk.
Proof.
  rewrite insert_app_r_alt by lia. rewrite Nat.sub_diag.
  destruct junk as [|z junk]; simpl.
  - exists []. rewrite <- app_assoc. split; reflexivity.
  - exists (junk ++ [x]). rewrite <- !app_assoc. simpl. split; [reflexivity|].
    rewrite length_app. simpl. lia.
Qed.

Lemma compact_loop_spec rest : forall out junk,
  exists junk',
    compact_loop (length rest) (out ++ junk ++ rest) (length out) (length out + length junk)
    = ((out ++ dedup_adj (last out) rest) ++ junk',
       length (out ++ dedup_adj (last out) rest)).
Proof.
  induction rest as [|x rest IH]; intros out junk.
  - simpl. exists junk. rewrite !app_nil_r. reflexivity.
  - cbn [length compact_loop dedup_adj].
    assert (Hj : u32_at (out ++ junk ++ x :: rest) (length out + length junk) = x).
    { rewrite app_assoc. rewrite <- length_app.
      replace (length (out ++ junk)) with (length (out ++ junk) + 0)%nat by lia.
      rewrite u32_at_app_r. reflexivity. }
    rewrite Hj, keep_cond.
    destruct (bool_decide (last out = Some x)) eqn:Hd; simpl negb; cbv iota.
    + specialize (IH out (junk ++ [x])).
      rewrite <- app_assoc in IH. simpl in IH.
      rewrite length_app in IH. simpl in IH.
      replace (length out + (length junk + 1))%nat
        with (S (length out + length junk)) in IH by lia.
      exact IH.
    + destruct (insert_at_w out junk x rest) as (junk2 & -> & Hlen).
      specialize (IH (out ++ [x]) junk2).
      rewrite last_snoc, length_app in IH. simpl in IH. rewrite Hlen in IH.
      replace (length out + 1)%nat with (S (length out)) in IH by lia.
      rewrite <- !app_assoc in IH. simpl in IH.
      rewrite <- !app_assoc. simpl. exact IH.
Qed.

Lemma dedup_adj_elem x prev l : x ∈ dedup_adj prev l -> x ∈ l.
Proof.
  revert prev. induction l as [|y l IH]; intros prev; simpl; [easy|].
  case_bool_decide.
  - intros H'. right. eapply IH, H'.
  - intros [->|H']%elem_of_cons; [left | right; eapply IH, H'].
Qed.

Lemma elem_dedup_adj x prev l : x ∈ l -> x ∈ dedup_adj prev l \/ prev = Some x.
Proof.
  revert prev. induction l as [|y l IH]; intros prev; simpl.
  - intros H'. inversion H'.
  - intros [->|H']%elem_of_cons; case_bool_decide; auto.
    + left. left.
    + destruct (IH (Some y) H') as [?|[= ->]]; left; [right; assumption | left].
Qed.

Lemma dedup_adj_length prev l : (length (dedup_adj prev l) <= length l)%nat.
Proof.
  revert prev. induction l as [|y l IH]; intros prev; simpl; [lia|].
  case_bool_decide; simpl; [specialize (IH prev) | specialize (IH (Some y))]; lia.
Qed.

Lemma dedup_adj_ascending l : forall p,
  StronglySorted Z.le l -> Forall (Z.le p) l ->
  StronglySorted Z.lt (dedup_adj (Some p) l) /\ Forall (Z.lt p) (dedup_adj (Some p) l).
Proof.
  induction l as [|y l IH]; intros p Hs Hp; simpl.
  - split; constructor.
  - apply StronglySorted_inv in Hs as [Hs Hy].
    apply Forall_cons in Hp as [Hpy Hp].
    case_bool_decide as Heq.
    + apply IH; assumption.
    + assert (p < y) by (assert (p <> y) by congruence; lia).
      destruct (IH y Hs Hy) as [IH1 IH2]. split.
      * constructor; assumption.
      * constructor; [assumption|].
        eapply Forall_impl; [exact IH2|]. simpl. intros; lia.
Qed.

Lemma dedup_adj_None_ascending l :
  StronglySorted Z.le l -> StronglySorted Z.lt (dedup_adj None l).
Proof.
  destruct l as [|y l]; simpl; [constructor|]. intros Hs.
  apply StronglySorted_inv in Hs as [Hs Hy].
  destruct (dedup_adj_ascending l y Hs Hy). constructor; assumption.
Qed.

Lemma u32_bytes_roundtrip x :
  is_u32 x ->
  u32_of_bytes (x mod 256) ((x / 256) mod 256) ((x / 65536) mod 256)
               ((x / 16777216) mod 256) = x.
Proof.
  unfold is_u32, u32_of_bytes. change (2 ^ 32) with 4294967296. intros Hx.
  Z.div_mod_to_equations. lia.
Qed.

Lemma u32_array_roundtrip a :
  Forall is_u32 a -> u32_array_of_bytes (u32_array_bytes a) = Some a.
Proof.
  induction 1 as [|x a Hx _ IH]; [reflexivity|].
  unfold u32_array_bytes in *. cbn [flat_map u32_bytes app u32_array_of_bytes].
  rewrite IH, u32_bytes_roundtrip by assumption. reflexivity.
Qed.

Lemma u32_array_bytes_length a :
  length (u32_array_bytes a) = (4 * length a)%nat.
Proof.
  unfold u32_array_bytes. induction a as [|x a IH]; [reflexivity|].
  cbn [flat_map u32_bytes app length]. lia.
Qed.

Lemma finalize_entry_postings e :
  postings (finalize_entry e) = dedup_adj None (merge_sort Z.le (postings e))
  /\ df (finalize_entry e)
     = wrap32 (Z.of_nat (length (dedup_adj None (merge_sort Z.le (postings e))))).
Proof.
  unfold finalize_entry.
  destruct (compact_loop_spec (merge_sort Z.le (postings e)) [] []) as [junk' H].
  simpl in H. rewrite H. simpl. rewrite take_app_length. split; reflexivity.
Qed.

Lemma finalize_entry_ok e :
  wf_entry e ->
  StronglySorted Z.lt (postings (finalize_entry e)) /\
  Forall is_u32 (postings (finalize_entry e)) /\
  df (finalize_entry e) = Z.of_nat (length (postings (finalize_entry e))) /\
  (length (postings (finalize_entry e)) <= length (postings e))%nat.
Proof.
  intros [Hu Hn]. destruct (finalize_entry_postings e) as [-> ->].
  assert (Hlen : (length (dedup_adj None (merge_sort Z.le (postings e)))
                  <= length (postings e))%nat).
  { etransitivity; [apply dedup_adj_length|].
    rewrite (Permutation_length (merge_sort_Permutation Z.le (postings e))). lia. }
  split; [|split; [|split]].
  - apply dedup_adj_None_ascending, StronglySorted_merge_sort; apply _.
  - apply Forall_forall. intros x Hx%dedup_adj_elem.
    rewrite (merge_sort_Permutation Z.le (postings e)) in Hx.
    rewrite Forall_forall in Hu. auto.
  - unfold wrap32. apply Z.mod_small. lia.
  - exact Hlen.
Qed.

Lemma read_u32_array_app file more off len :
  0 <= off -> 0 <= len -> off + len <= Z.of_nat (length file) ->
  read_u32_array (file ++ more) off len = read_u32_array file off len.
Proof.
  intros Ho Hl Hb. unfold read_u32_array. rewrite length_app.
  destruct (Z.ltb_spec (Z.of_nat (length file + length more)) (off + len)); [lia|].
  destruct (Z.ltb_spec (Z.of_nat (length file)) (off + len)); [lia|].
  rewrite drop_app_le by lia. rewrite take_app_le; [reflexivity|].
  rewrite length_drop. lia.
Qed.

Lemma read_u32_array_at_end file a :
  Forall is_u32 a ->
  read_u32_array (file ++ u32_array_bytes a) (Z.of_nat (length file))
                 (Z.of_nat (length a) * 4) = Some a.
Proof.
  intros Ha. unfold read_u32_array. rewrite length_app, u32_array_bytes_length.
  destruct (Z.ltb_spec (Z.of_nat (length file + 4 * length a))
                       (Z.of_nat (length file) + Z.of_nat (length a) * 4)); [lia|].
  rewrite Nat2Z.id, drop_app_length.
  rewrite take_ge by (rewrite u32_array_bytes_length; lia).
  apply u32_array_roundtrip, Ha.
Qed.

Lemma line_ok_app file more l : line_ok file l -> line_ok (file ++ more) l.
Proof.
  intros (Hlen & Hoff & a & Hr & Hdf & Hs & Hu). split; [exact Hlen|].
  split; [exact Hoff|]. exists a. split; [|auto].
  rewrite read_u32_array_app; [exact Hr | lia | lia |].
  unfold read_u32_array in Hr.
  destruct (Z.ltb_spec (Z.of_nat (length file)) (tl_post_off l + tl_post_len l));
    [discriminate | lia].
Qed.

Lemma write_index_inv arr : forall out,
  Forall wf_entry arr ->
  next_offset out = Z.of_nat (length (postings_bin out)) ->
  Z.of_nat (length (postings_bin out)) + 4 * total_postings arr < 2 ^ 64 ->
  (forall l, l ∈ terms_tsv out -> line_ok (postings_bin out) l) ->
  forall l, l ∈ terms_tsv (foldl write_entry out arr) ->
            line_ok (postings_bin (foldl write_entry out arr)) l.
Proof.
  induction arr as [|e arr IH]; intros out Hwf Hoff Hbound Hlines; [exact Hlines|].
  apply Forall_cons in Hwf as [He Hwf]. simpl foldl.
  destruct (finalize_entry_ok e He) as (Hs & Hu & Hdf & Hle).
  cbn [total_postings foldr] in Hbound. fold (total_postings arr) in Hbound.
  assert (Htot : 0 <= total_postings arr).
  { clear. induction arr as [|x arr IH]; simpl; [lia|].
    fold (total_postings arr). lia. }
  assert (Hlenb : wrap64 (Z.of_nat (length (postings (finalize_entry e))) * 4)
                  = Z.of_nat (length (postings (finalize_entry e))) * 4).
  { unfold wrap64. apply Z.mod_small. lia. }
  apply IH; clear IH; try assumption.
  - unfold write_entry. cbn [next_offset postings_bin].
    rewrite Hlenb, Hoff, length_app, u32_array_bytes_length.
    unfold wrap64. rewrite Z.mod_small by lia. lia.
  - unfold write_entry. cbn [postings_bin].
    rewrite length_app, u32_array_bytes_length. lia.
  - unfold write_entry. cbn [terms_tsv postings_bin]. rewrite Hlenb.
    intros l [Hl | ->%list_elem_of_singleton]%elem_of_app.
    + apply line_ok_app, Hlines, Hl.
    + split; [cbn [tl_post_len tl_df]; rewrite Hdf; lia|].
      split; [cbn [tl_post_off]; rewrite Hoff; lia|].
      exists (postings (finalize_entry e)). cbn [tl_post_off tl_post_len tl_df].
      rewrite Hoff. split; [apply read_u32_array_at_end, Hu|]. auto.
Qed.

Lemma write_index_lines_ok (arr : list TermEntry) :
  Forall wf_entry arr -> 4 * total_postings arr < 2 ^ 64 ->
  forall l, l ∈ terms_tsv (write_index arr) ->
    line_ok (postings_bin (write_index arr)) l.
Proof.
  intros Hwf Hb l Hl. unfold write_index in *.
  apply (write_index_inv arr (mkIndexFiles [] [] 0) Hwf); [reflexivity | | | exact Hl].
  - cbn [postings_bin length]. lia.
  - cbn [terms_tsv]. intros l' H'. inversion H'.
Qed.

(** *** The seen set bounds the postings of a document *)

Lemma count_free_replicate n : count_free (replicate n None) = n.
Proof. induction n; simpl; congruence. Qed.

Lemma count_free_insert sl i e :
  sl !! i = Some None -> S (count_free (<[i := Some e]> sl)) = count_free sl.
Proof.
  revert i. induction sl as [|o sl IH]; intros [|i] H; simpl in *; try discriminate.
  - injection H as ->. reflexivity.
  - destruct o; simpl; rewrite (IH i H); reflexivity.
Qed.

Section Seen.
Variable addr : nat -> Z.

Lemma seen_probe_free steps : forall ss e mask i,
  let r := seen_probe steps ss e mask i in
  (fst r = true -> S (free_slots (snd r)) = free_slots ss) /\
  (fst r = false -> snd r = ss).
Proof.
  induction steps as [|steps IH]; intros ss e mask i; simpl.
  - split; [discriminate | reflexivity].
  - destruct (slots ss !! Z.to_nat i) as [[cur|]|] eqn:Hs; simpl.
    + destruct (cur =? e)%nat; simpl; [split; [discriminate | reflexivity]|].
      apply IH.
    + split; [|discriminate]. intros _. unfold free_slots. simpl.
      apply count_free_insert, Hs.
    + split; [discriminate | reflexivity].
Qed.

Lemma seen_insert_free ss e :
  (fst (seen_insert addr ss e) = true ->
     S (free_slots (snd (seen_insert addr ss e))) = free_slots ss) /\
  (fst (seen_insert addr ss e) = false -> snd (seen_insert addr ss e) = ss).
Proof. unfold seen_insert. apply seen_probe_free. Qed.

Lemma total_postings_app a b :
  total_postings (a ++ b) = total_postings a + total_postings b.
Proof.
  unfold total_postings. induction a as [|e a IH]; simpl; [reflexivity|].
  rewrite IH. lia.
Qed.

Lemma total_postings_cons x tt :
  total_postings (x :: tt) = Z.of_nat (length (postings x)) + total_postings tt.
Proof. reflexivity. Qed.

Lemma total_postings_record tt e docid :
  total_postings (record_posting tt e docid) <= total_postings tt + 1.
Proof.
  unfold record_posting. revert e.
  induction tt as [|x tt IH]; intros [|e]; cbn [alter list_alter];
    rewrite ?total_postings_cons; try lia.
  - cbn [postings]. rewrite length_app. simpl length. lia.
  - specialize (IH e). cbn [alter] in IH. lia.
Qed.

Lemma tt_get_or_add_total tt t :
  total_postings (fst (tt_get_or_add tt t)) = total_postings tt.
Proof.
  unfold tt_get_or_add. destruct (list_find _ tt) as [[k ?]|]; simpl; [reflexivity|].
  rewrite total_postings_app. simpl. lia.
Qed.

(** Every posting recorded takes a free slot of the seen set. *)
Lemma index_token_budget docid s tok :
  total_postings (tt (index_token addr docid s tok))
    + Z.of_nat (free_slots (seen (index_token addr docid s tok)))
  <= total_postings (tt s) + Z.of_nat (free_slots (seen s)).
Proof.
  unfold index_token. destruct (is_empty tok); [lia|].
  pose proof (tt_get_or_add_total (tt s) tok) as Ht.
  destruct (tt_get_or_add (tt s) tok) as [tt1 e]. simpl in Ht.
  pose proof (seen_insert_free (seen s) e) as [Hf1 Hf2].
  destruct (seen_insert addr (seen s) e) as [[|] seen1]; simpl in *.
  - specialize (Hf1 eq_refl). pose proof (total_postings_record tt1 e docid). lia.
  - rewrite (Hf2 eq_refl). lia.
Qed.

Lemma index_tokens_budget docid toks : forall s,
  total_postings (tt (foldl (index_token addr docid) s toks))
    + Z.of_nat (free_slots (seen (foldl (index_token addr docid) s toks)))
  <= total_postings (tt s) + Z.of_nat (free_slots (seen s)).
Proof.
  induction toks as [|t toks IH]; intros s; simpl; [lia|].
  etransitivity; [apply IH | apply index_token_budget].
Qed.

Lemma index_line_budget docid s line :
  total_postings (tt (index_line addr docid s line))
    + Z.of_nat (free_slots (seen (index_line addr docid s line)))
  <= total_postings (tt s) + Z.of_nat (free_slots (seen s)).
Proof. unfold index_line. etransitivity; [apply index_tokens_budget|]. simpl. lia. Qed.

Lemma index_lines_budget docid body : forall s,
  total_postings (tt (foldl (index_line addr docid) s body))
    + Z.of_nat (free_slots (seen (foldl (index_line addr docid) s body)))
  <= total_postings (tt s) + Z.of_nat (free_slots (seen s)).
Proof.
  induction body as [|l body IH]; intros s; simpl; [lia|].
  etransitivity; [apply IH | apply index_line_budget].
Qed.

(** One document adds at most [cap] postings to the table. *)
Lemma index_body_budget docid s body :
  total_postings (tt (index_body addr docid s body))
  <= total_postings (tt s) + Z.of_nat (Z.to_nat (cap (seen s))).
Proof.
  unfold index_body.
  pose proof (index_lines_budget docid body
                (mkBuildState (tt s) (seen_reset (seen s)) (st s))) as H.
  simpl in H. unfold free_slots at 2 in H. simpl in H.
  rewrite count_free_replicate in H. lia.
Qed.

(** *** Terms present in the table *)

Lemma terms_of_record tt e docid : terms_of (record_posting tt e docid) = terms_of tt.
Proof.
  unfold record_posting, terms_of. revert e.
  induction tt as [|x tt IH]; intros [|e]; cbn [alter list_alter map]; try reflexivity.
  f_equal. apply IH.
Qed.

Lemma tt_get_or_add_terms tt t :
  t ∈ terms_of (fst (tt_get_or_add tt t)) /\
  (forall u, u ∈ terms_of tt -> u ∈ terms_of (fst (tt_get_or_add tt t))).
Proof.
  unfold tt_get_or_add, terms_of.
  destruct (list_find _ tt) as [[k x]|] eqn:Hf; simpl.
  - apply list_find_Some in Hf as (Hk & Hx & _). split; [|auto].
    rewrite <- Hx. apply list_elem_of_fmap_2. eapply list_elem_of_lookup_2, Hk.
  - rewrite map_app. simpl. split.
    + apply elem_of_app. right. left.
    + intros u Hu. apply elem_of_app. left. exact Hu.
Qed.

Lemma index_token_terms docid s tok :
  (tok <> [] -> tok ∈ terms_of (tt (index_token addr docid s tok))) /\
  (forall u, u ∈ terms_of (tt s) -> u ∈ terms_of (tt (index_token addr docid s tok))).
Proof.
  unfold index_token. destruct tok as [|c tok]; [split; [congruence | auto]|].
  cbn [is_empty].
  pose proof (tt_get_or_add_terms (tt s) (c :: tok)) as [H1 H2].
  destruct (tt_get_or_add (tt s) (c :: tok)) as [tt1 e]. simpl in H1, H2.
  destruct (seen_insert addr (seen s) e) as [[|] seen1]; cbn [tt];
    rewrite ?terms_of_record; auto.
Qed.

Lemma index_tokens_terms docid toks : forall s,
  (forall tok, tok ∈ toks -> tok <> [] ->
     tok ∈ terms_of (tt (foldl (index_token addr docid) s toks))) /\
  (forall u, u ∈ terms_of (tt s) ->
     u ∈ terms_of (tt (foldl (index_token addr docid) s toks))).
Proof.
  induction toks as [|t toks IH]; intros s; simpl.
  - split; [intros tok H; inversion H | auto].
  - destruct (IH (index_token addr docid s t)) as [IH1 IH2].
    destruct (index_token_terms docid s t) as [H1 H2]. split.
    + intros tok [->|Hin]%elem_of_cons Hne; auto.
    + auto.
Qed.

Lemma index_lines_terms docid body : forall s,
  (forall line tok, line ∈ body -> tok ∈ tokenize_line line -> tok <> [] ->
     tok ∈ terms_of (tt (foldl (index_line addr docid) s body))) /\
  (forall u, u ∈ terms_of (tt s) ->
     u ∈ terms_of (tt (foldl (index_line addr docid) s body))).
Proof.
  induction body as [|l body IH]; intros s; simpl.
  - split; [intros line tok H; inversion H | auto].
  - destruct (IH (index_line addr docid s l)) as [IH1 IH2].
    unfold index_line at 2 4.
    match goal with |- context [foldl (index_token addr docid) ?s0 _] =>
      destruct (index_tokens_terms docid (tokenize_line l) s0) as [H1 H2] end.
    split.
    + intros line tok [->|Hin]%elem_of_cons Htok Hne.
      * apply IH2. unfold index_line. apply H1; assumption.
      * eapply IH1; eassumption.
    + intros u Hu. apply IH2. unfold index_line. apply H2. exact Hu.
Qed.

(** Distinct terms with non-empty posting lists need that many postings. *)
Lemma total_postings_lower_bound ts : forall tt,
  NoDup ts ->
  (forall t, t ∈ ts -> exists e, e ∈ tt /\ term e = t /\ postings e <> []) ->
  Z.of_nat (length ts) <= total_postings tt.
Proof.
  induction ts as [|t ts IH]; intros tt Hnd Hall.
  - simpl. clear. induction tt as [|x tt IH]; [simpl; lia|].
    rewrite total_postings_cons. lia.
  - apply NoDup_cons in Hnd as [Hnotin Hnd].
    destruct (Hall t ltac:(left)) as (e & He & Hterm & Hne).
    apply list_elem_of_split in He as (l1 & l2 & ->).
    rewrite total_postings_app, total_postings_cons.
    assert (Z.of_nat (length ts) <= total_postings (l1 ++ l2)) as Hrec.
    { apply IH; [exact Hnd|]. intros t' Ht'.
      destruct (Hall t' ltac:(right; exact Ht')) as (e' & He' & Hterm' & Hne').
      exists e'. split; [|auto].
      apply elem_of_app in He' as [?|[->|?]%elem_of_cons];
        [apply elem_of_app; auto | | apply elem_of_app; auto].
      exfalso. apply Hnotin. congruence. }
    rewrite total_postings_app in Hrec.
    assert (1 <= Z.of_nat (length (postings e)))
      by (destruct (postings e); [congruence | simpl; lia]).
    simpl length. lia.
Qed.

Lemma word4_inj n m :
  Z.of_nat n < 65536 -> Z.of_nat m < 65536 -> word4 n = word4 m -> n = m.
Proof.
  unfold word4. intros Hn Hm [= H1 H2 H3 H4].
  apply Nat2Z.inj. revert Hn Hm H1 H2 H3 H4.
  generalize (Z.of_nat n) (Z.of_nat m) (Nat2Z.is_nonneg n) (Nat2Z.is_nonneg m).
  clear. intros a b Ha Hb Ha' Hb'.
  intros. Z.div_mod_to_equations. lia.
Qed.

Lemma overfull_body_NoDup : NoDup overfull_body.
Proof.
  unfold overfull_body. apply NoDup_fmap_2_strong; [|apply NoDup_seq].
  intros n m Hn%elem_of_seq Hm%elem_of_seq. apply word4_inj; lia.
Qed.

Lemma tokenize_line_word a b c d :
  97 <= a <= 122 -> 97 <= b <= 122 -> 97 <= c <= 122 -> 97 <= d <= 122 ->
  tokenize_line [a; b; c; d] = [[a; b; c; d]].
Proof.
  intros Ha Hb Hc Hd.
  assert (Hal : forall x, 97 <= x <= 122 -> is_ascii_alnum x = true).
  { intros x Hx. unfold is_ascii_alnum, is_ascii_alpha.
    destruct (Z.leb_spec 97 x); [|lia]. destruct (Z.leb_spec x 122); [|lia].
    simpl. now rewrite orb_true_r. }
  assert (Hlo : forall x, 97 <= x <= 122 -> ascii_lower x = x).
  { intros x Hx. unfold ascii_lower. destruct (Z.leb_spec x 90); [lia|].
    now rewrite andb_false_r. }
  assert (Hd0 : forall x, 97 <= x <= 122 -> (x =? 0xD0) = false).
  { intros x Hx. apply Z.eqb_neq. lia. }
  unfold tokenize_line. cbn [length tokenize_loop Nat.leb byte_at lookup list_lookup
                             default from_option Nat.add app].
  rewrite !Hal by assumption. cbn [flush app snd].
  unfold lowercase_inplace. cbn [map]. rewrite !Hlo by assumption.
  cbn [cyr_fold cyr_fold_from]. rewrite !Hd0 by assumption. reflexivity.
Qed.

Lemma tokenize_line_word4 n : tokenize_line (word4 n) = [word4 n].
Proof.
  unfold word4. apply tokenize_line_word;
    match goal with |- _ <= 97 + ?x mod 16 <= _ =>
      pose proof (Z.mod_pos_bound x 16 ltac:(lia)); lia end.
Qed.

(** A first document with more distinct single-word lines than the seen set
    has slots leaves one of its terms without the document's id. *)
Lemma overfull_document_loses_posting (docid c : Z) (st0 : BuildStats)
      (body : list (list Z)) :
  NoDup body ->
  (forall t, t ∈ body -> tokenize_line t = [t] /\ t <> []) ->
  0 <= c < Z.of_nat (length body) ->
  exists e, e ∈ tt (index_body addr docid (mkBuildState tt_init (seen_init c) st0) body)
            /\ term e ∈ body /\ (docid ∉ postings e)
            /\ (docid ∉ postings (finalize_entry e)).
Proof.
  intros Hnd Htok Hc.
  set (s0 := mkBuildState tt_init (seen_init c) st0).
  set (s := index_body addr docid s0 body).
  assert (Hbudget : total_postings (tt s) <= c).
  { pose proof (index_body_budget docid s0 body) as H.
    fold s in H. cbn [s0 tt seen cap seen_init] in H.
    change (total_postings tt_init) with 0 in H. lia. }
  assert (Hcover : forall t, t ∈ body -> t ∈ terms_of (tt s)).
  { intros t Ht. unfold s, index_body.
    match goal with |- context [foldl _ ?s1 _] =>
      destruct (index_lines_terms docid body s1) as [H1 _] end.
    destruct (Htok t Ht) as [Ht1 Ht2].
    apply (H1 t t Ht); [rewrite Ht1; left | exact Ht2]. }
  clearbody s. clear s0.
  destruct (decide (Exists (fun e => term e ∈ body /\ docid ∉ postings e)
                           (tt s))) as [Hex | Hnone].
  - apply Exists_exists in Hex as (e & He & Hterm & Hdoc).
    exists e. split; [exact He|]. split; [exact Hterm|]. split; [exact Hdoc|].
    destruct (finalize_entry_postings e) as [-> _].
    intros Hin%dedup_adj_elem.
    rewrite (merge_sort_Permutation Z.le (postings e)) in Hin. auto.
  - exfalso. apply not_Exists_Forall in Hnone; [|intros e; apply _].
    rewrite Forall_forall in Hnone.
    assert (Hlow : Z.of_nat (length body) <= total_postings (tt s)).
    { apply total_postings_lower_bound; [exact Hnd|].
      intros t Ht. pose proof (Hcover t Ht) as Hin.
      apply list_elem_of_fmap in Hin as (e & -> & He).
      exists e. split; [exact He|]. split; [reflexivity|].
      specialize (Hnone e He). cbv beta in Hnone.
      destruct (decide (docid ∈ postings e)) as [Hd|Hd].
      - intros Hnil. rewrite Hnil in Hd. inversion Hd.
      - exfalso. apply Hnone. auto. }
    lia.
Qed.

(** C3 fails on a document with more distinct terms than the seen set has
    slots.  Processed as the first document of a build, the body
    [overfull_body] (32769 lines, one distinct word each) leaves a term of
    the document whose entry does not hold the document's id, before and
    after finalisation: once the 32768 slots are taken, [seen_insert]
    answers [false] for every further term. *)
Theorem seen_set_overflow_loses_posting (docid : Z) :
  exists e,
    e ∈ tt (index_body addr docid
              (mkBuildState tt_init (seen_init (2 ^ 15)) (mkBuildStats 0 0 0 0))
              overfull_body)
    /\ term e ∈ overfull_body /\ (docid ∉ postings e)
    /\ (docid ∉ postings (finalize_entry e)).
Proof.
  apply overfull_document_loses_posting.
  - apply overfull_body_NoDup.
  - intros t (n & -> & _)%list_elem_of_fmap. split.
    + apply tokenize_line_word4.
    + discriminate.
  - unfold overfull_body. rewrite length_map, length_seq, Z2Nat.id by lia.
    change (2 ^ 15) with 32768. lia.
Qed.
End Seen.

End BoolIndexFacts.

(** ** Set algebra of the query engine *)

Module BoolSearchFacts.
Import Bytes BoolSearch.

Example op_and_example : op_and [1; 3; 5; 7] [3; 4; 7; 9] = [3; 7].
Proof. reflexivity. Qed.
Example op_or_example : op_or [1; 3; 5] [3; 4] = [1; 3; 4; 5].
Proof. reflexivity. Qed.
Example op_not_example : op_not [1; 2; 3; 4; 5] [2; 5] = [1; 3; 4].
Proof. reflexivity. Qed.

Lemma ascending_cons_inv x l :
  ascending (x :: l) -> ascending l /\ Forall (Z.lt x) l.
Proof. intros H. apply StronglySorted_inv in H. exact H. Qed.

Lemma ascending_NoDup l : ascending l -> NoDup l.
Proof.
  induction 1 as [|x l Hs IH Hx]; constructor; [|exact IH].
  intros Hin. rewrite Forall_forall in Hx. specialize (Hx x Hin). lia.
Qed.

(** Two ascending lists with the same members are the same list. *)
Lemma ascending_ext l1 l2 :
  ascending l1 -> ascending l2 -> (forall x, x ∈ l1 <-> x ∈ l2) -> l1 = l2.
Proof.
  intros H1 H2 Hm.
  apply (StronglySorted_unique_strong Z.lt); try assumption.
  - intros x1 x2 _ _ ? ?. lia.
  - apply NoDup_Permutation; auto using ascending_NoDup.
Qed.

(** Closes a membership case once the bounds that sortedness gives for the
    members of the two tails are in the context. *)
Local Ltac mem_cases Ha Hb :=
  repeat match goal with
         | H : _ ∈ _ |- _ =>
             first [ pose proof (Ha _ H) | pose proof (Hb _ H) ]; revert H
         end;
  intros; subst; auto; try lia.

Lemma and_merge_nil_l B : and_merge [] B = [].
Proof. destruct B; reflexivity. Qed.

Lemma and_merge_nil_r A : and_merge A [] = [].
Proof. destruct A; reflexivity. Qed.

Lemma and_merge_spec A : forall B,
  ascending A -> ascending B ->
  ascending (and_merge A B) /\
  (forall x, x ∈ and_merge A B <-> x ∈ A /\ x ∈ B).
Proof.
  induction A as [|a A IHA]; intros B HA HB.
  { rewrite and_merge_nil_l. split; [constructor|].
    intros x. split; [intros H | intros [H _]]; inversion H. }
  apply ascending_cons_inv in HA as [HA Ha].
  induction B as [|b B IHB].
  { rewrite and_merge_nil_r. split; [constructor|].
    intros x. split; [intros H | intros [_ H]]; inversion H. }
  pose proof HB as HB0.
  apply ascending_cons_inv in HB as [HB Hb].
  rewrite Forall_forall in Ha, Hb.
  cbn [and_merge]. destruct (Z.eqb_spec a b) as [->|Hne].
  - destruct (IHA B HA HB) as [Hs Hm]. split.
    + constructor; [exact Hs|]. apply Forall_forall. intros x Hx%Hm.
      apply Hb, Hx.
    + intros x. rewrite !elem_of_cons, Hm. split; [intuition|].
      intros [[->|Hx] [Hy|Hy]]; mem_cases Ha Hb.
  - destruct (Z.ltb_spec a b) as [Hlt|Hge].
    + destruct (IHA (b :: B) HA HB0) as [Hs Hm]. split; [exact Hs|].
      intros x. rewrite Hm, !elem_of_cons. split; [intuition|].
      intros [[->|Hx] [Hy|Hy]]; mem_cases Ha Hb.
    + destruct (IHB HB) as [Hs Hm]. split; [exact Hs|].
      intros x. rewrite Hm, !elem_of_cons.
      split; [intuition|].
      intros [[->|Hx] [Hy|Hy]]; mem_cases Ha Hb.
Qed.

Lemma op_and_inter (A B : list Z) :
  ascending A -> ascending B ->
  ascending (op_and A B) /\ (forall x, x ∈ op_and A B <-> x ∈ A /\ x ∈ B).
Proof.
  intros HA HB. replace (op_and A B) with (and_merge A B).
  - apply and_merge_spec; assumption.
  - destruct A, B; reflexivity.
Qed.

(** [op_and] on ascending lists is the intersection, again ascending. *)
Theorem op_and_spec (A B : list Z) :
  ascending A -> ascending B ->
  ascending (op_and A B) /\ (forall x, x ∈ op_and A B <-> x ∈ A /\ x ∈ B).
Proof.
  intros HA HB. destruct (op_and_inter A B HA HB) as [Hs Hm].
  split; [exact Hs|]. intros x. apply Hm.
Qed.

Lemma op_or_nil_l B : op_or [] B = B.
Proof. destruct B; reflexivity. Qed.

Lemma op_or_nil_r A : op_or A [] = A.
Proof. destruct A; reflexivity. Qed.

Lemma op_or_union (A : list Z) : forall B : list Z,
  ascending A -> ascending B ->
  ascending (op_or A B) /\ (forall x, x ∈ op_or A B <-> x ∈ A \/ x ∈ B).
Proof.
  induction A as [|a A IHA]; intros B HA HB.
  { rewrite op_or_nil_l. split; [exact HB|].
    intros x. split; [auto | intros [H|H]; [inversion H | exact H]]. }
  pose proof HA as HA0.
  apply ascending_cons_inv in HA as [HA Ha].
  induction B as [|b B IHB].
  { rewrite op_or_nil_r. split; [exact HA0|].
    intros x. split; [auto | intros [H|H]; [exact H | inversion H]]. }
  pose proof HB as HB0.
  apply ascending_cons_inv in HB as [HB Hb].
  rewrite Forall_forall in Ha, Hb.
  cbn [op_or]. destruct (Z.eqb_spec a b) as [->|Hne].
  - destruct (IHA B HA HB) as [Hs Hm]. split.
    + constructor; [exact Hs|]. apply Forall_forall.
      intros x [Hx|Hx]%Hm; auto.
    + intros x. rewrite !elem_of_cons, Hm. intuition.
  - destruct (Z.ltb_spec a b) as [Hlt|Hge].
    + destruct (IHA (b :: B) HA HB0) as [Hs Hm]. split.
      * constructor; [exact Hs|]. apply Forall_forall.
        intros x [Hx|[->|Hx]%elem_of_cons]%Hm; auto.
        specialize (Hb _ Hx). lia.
      * intros x. rewrite !elem_of_cons, Hm, !elem_of_cons. intuition.
    + destruct (IHB HB) as [Hs Hm]. split.
      * constructor; [exact Hs|]. apply Forall_forall.
        intros x [[->|Hx]%elem_of_cons|Hx]%Hm; auto; [lia|].
        specialize (Ha _ Hx). lia.
      * intros x. rewrite !elem_of_cons, Hm, !elem_of_cons. intuition.
Qed.

(** [op_or] on ascending lists is the union, again ascending. *)
Theorem op_or_spec (A : list Z) : forall B : list Z,
  ascending A -> ascending B ->
  ascending (op_or A B) /\ (forall x, x ∈ op_or A B <-> x ∈ A \/ x ∈ B).
Proof.
  intros B HA HB. destruct (op_or_union A B HA HB) as [Hs Hm].
  split; [exact Hs|]. intros x. apply Hm.
Qed.

Lemma skip_below_spec u B :
  ascending B ->
  ascending (skip_below u B) /\
  (forall x, x ∈ skip_below u B <-> x ∈ B /\ u <= x) /\
  Forall (Z.le u) (skip_below u B).
Proof.
  induction B as [|b B IH]; intros HB; simpl.
  { split; [constructor|]. split; [|constructor].
    intros x. split; [intros H | intros [H _]]; inversion H. }
  pose proof HB as HB0. apply ascending_cons_inv in HB as [HB Hb].
  destruct (Z.ltb_spec b u) as [Hlt|Hge].
  - destruct (IH HB) as (Hs & Hm & Hf). split; [exact Hs|]. split; [|exact Hf].
    intros x. rewrite Hm, elem_of_cons. split; [intuition|].
    intros [[->|Hx] Hu]; [lia | auto].
  - rewrite Forall_forall in Hb. split; [exact HB0|]. split.
    + intros x. split; [|tauto]. intros Hx. split; [exact Hx|].
      apply elem_of_cons in Hx as [->|Hx]; [lia|]. specialize (Hb _ Hx). lia.
    + constructor; [lia|]. apply Forall_forall. intros x Hx.
      specialize (Hb _ Hx). lia.
Qed.

Lemma not_scan_spec U : forall B,
  ascending U -> ascending B ->
  ascending (not_scan U B) /\
  (forall x, x ∈ not_scan U B <-> x ∈ U /\ x ∉ B).
Proof.
  induction U as [|u U IH]; intros B HU HB.
  { simpl. split; [constructor|].
    intros x. split; [intros H | intros [H _]]; inversion H. }
  apply ascending_cons_inv in HU as [HU Hu]. rewrite Forall_forall in Hu.
  destruct (skip_below_spec u B HB) as (Hs1 & Hm1 & Hf1).
  destruct (IH (skip_below u B) HU Hs1) as [Hs Hm].
  assert (Hkeep : forall x, x ∈ U -> (x ∈ skip_below u B <-> x ∈ B)).
  { intros x Hx. rewrite Hm1. specialize (Hu _ Hx). split; [tauto|].
    intros; split; [assumption | lia]. }
  assert (Hrest : forall x, x ∈ not_scan U (skip_below u B) <-> x ∈ U /\ x ∉ B).
  { intros x. rewrite Hm. split; intros [Hx Hn]; (split; [exact Hx|]);
      rewrite Hkeep in *; assumption. }
  assert (Hcons : ascending (u :: not_scan U (skip_below u B))).
  { constructor; [exact Hs|]. apply Forall_forall. intros x [Hx _]%Hrest. auto. }
  cbn [not_scan].
  destruct (skip_below u B) as [|b B1] eqn:HB1.
  - split; [exact Hcons|]. intros x. rewrite !elem_of_cons, Hrest.
    split; [|tauto]. intros [->|[Hx Hn]]; [|tauto]. split; [auto|].
    intros Hin. assert (u ∈ []) as Habs by (apply Hm1; split; [exact Hin | lia]).
    inversion Habs.
  - destruct (Z.eqb_spec b u) as [->|Hne].
    + split; [exact Hs|]. intros x. rewrite Hrest, elem_of_cons.
      split; [tauto|]. intros [[->|Hx] Hn]; [|tauto].
      exfalso. apply Hn. apply (Hm1 u). left.
    + split; [exact Hcons|]. intros x. rewrite !elem_of_cons, Hrest.
      split; [|tauto]. intros [->|[Hx Hn]]; [|tauto]. split; [auto|].
      intros Hin. assert (u ∈ b :: B1) as Hu' by (apply Hm1; split; [exact Hin | lia]).
      apply ascending_cons_inv in Hs1 as [_ Hb1]. rewrite Forall_forall in Hb1.
      apply Forall_cons in Hf1 as [Hbu _].
      apply elem_of_cons in Hu' as [->|Hu']; [congruence|].
      specialize (Hb1 _ Hu'). lia.
Qed.

Lemma op_not_diff (U B : list Z) :
  ascending U -> ascending B ->
  ascending (op_not U B) /\ (forall x, x ∈ op_not U B <-> x ∈ U /\ x ∉ B).
Proof.
  intros HU HB. replace (op_not U B) with (not_scan U B).
  - apply not_scan_spec; assumption.
  - destruct U; reflexivity.
Qed.

(** [op_not] on an ascending universe and an ascending list is the
    difference, again ascending. *)
Theorem op_not_spec (U B : list Z) :
  ascending U -> ascending B ->
  ascending (op_not U B) /\ (forall x, x ∈ op_not U B <-> x ∈ U /\ x ∉ B).
Proof.
  intros HU HB. destruct (op_not_diff U B HU HB) as [Hs Hm].
  split; [exact Hs|]. intros x. apply Hm.
Qed.

Local Ltac asc := repeat constructor; lia.

Lemma op_and_spec_witness :
  ascending (op_and [1; 3; 5] [3; 4; 5]) /\
  (forall x, x ∈ op_and [1; 3; 5] [3; 4; 5] <-> x ∈ [1; 3; 5] /\ x ∈ [3; 4; 5]).
Proof. apply (op_and_spec [1; 3; 5] [3; 4; 5]); asc. Defined.

Lemma op_or_spec_witness :
  ascending (op_or [1; 3; 5] [3; 4]) /\
  (forall x, x ∈ op_or [1; 3; 5] [3; 4] <-> x ∈ [1; 3; 5] \/ x ∈ [3; 4]).
Proof. apply (op_or_spec [1; 3; 5] [3; 4]); asc. Defined.

Lemma op_not_spec_witness :
  ascending (op_not [1; 2; 3; 4] [2; 4]) /\
  (forall x, x ∈ op_not [1; 2; 3; 4] [2; 4] <-> x ∈ [1; 2; 3; 4] /\ x ∉ [2; 4]).
Proof. apply (op_not_spec [1; 2; 3; 4] [2; 4]); asc. Defined.

(** *** Laws of the set algebra *)

(** [A AND B = B AND A] and [A OR B = B OR A], as sequences. *)
Theorem op_and_or_comm (A B : list Z) :
  ascending A -> ascending B ->
  op_and A B = op_and B A /\ op_or A B = op_or B A.
Proof.
  intros HA HB.
  destruct (op_and_inter A B HA HB) as [S1 M1].
  destruct (op_and_inter B A HB HA) as [S2 M2].
  destruct (op_or_union A B HA HB) as [S3 M3].
  destruct (op_or_union B A HB HA) as [S4 M4].
  split; apply ascending_ext; try assumption; intros x.
  - rewrite M1, M2. tauto.
  - rewrite M3, M4. tauto.
Qed.

Lemma op_and_or_comm_witness :
  op_and [1; 3; 5] [3; 4; 5] = op_and [3; 4; 5] [1; 3; 5] /\
  op_or [1; 3; 5] [3; 4; 5] = op_or [3; 4; 5] [1; 3; 5].
Proof. apply (op_and_or_comm [1; 3; 5] [3; 4; 5]); asc. Defined.

(** [(A AND B) AND C = A AND (B AND C)] and the same for [OR]. *)
Theorem op_and_or_assoc (A B C : list Z) :
  ascending A -> ascending B -> ascending C ->
  op_and (op_and A B) C = op_and A (op_and B C) /\
  op_or (op_or A B) C = op_or A (op_or B C).
Proof.
  intros HA HB HC.
  destruct (op_and_inter A B HA HB) as [Sab Mab].
  destruct (op_and_inter B C HB HC) as [Sbc Mbc].
  destruct (op_and_inter _ C Sab HC) as [S1 M1].
  destruct (op_and_inter A _ HA Sbc) as [S2 M2].
  destruct (op_or_union A B HA HB) as [Tab Nab].
  destruct (op_or_union B C HB HC) as [Tbc Nbc].
  destruct (op_or_union _ C Tab HC) as [T1 N1].
  destruct (op_or_union A _ HA Tbc) as [T2 N2].
  split; apply ascending_ext; try assumption; intros x.
  - rewrite M1, M2, Mab, Mbc. tauto.
  - rewrite N1, N2, Nab, Nbc. tauto.
Qed.

Lemma op_and_or_assoc_witness :
  op_and (op_and [1; 3; 5] [3; 5]) [5; 6] = op_and [1; 3; 5] (op_and [3; 5] [5; 6]) /\
  op_or (op_or [1; 3; 5] [3; 5]) [5; 6] = op_or [1; 3; 5] (op_or [3; 5] [5; 6]).
Proof. apply (op_and_or_assoc [1; 3; 5] [3; 5] [5; 6]); asc. Defined.

(** [A AND (B OR C) = (A AND B) OR (A AND C)] and
    [A OR (B AND C) = (A OR B) AND (A OR C)]. *)
Theorem op_and_or_distr (A B C : list Z) :
  ascending A -> ascending B -> ascending C ->
  op_and A (op_or B C) = op_or (op_and A B) (op_and A C) /\
  op_or A (op_and B C) = op_and (op_or A B) (op_or A C).
Proof.
  intros HA HB HC.
  destruct (op_and_inter A B HA HB) as [Sab Mab].
  destruct (op_and_inter A C HA HC) as [Sac Mac].
  destruct (op_and_inter B C HB HC) as [Sbc Mbc].
  destruct (op_or_union A B HA HB) as [Tab Nab].
  destruct (op_or_union A C HA HC) as [Tac Nac].
  destruct (op_or_union B C HB HC) as [Tbc Nbc].
  destruct (op_and_inter A _ HA Tbc) as [S1 M1].
  destruct (op_or_union _ _ Sab Sac) as [S2 M2].
  destruct (op_or_union A _ HA Sbc) as [S3 M3].
  destruct (op_and_inter _ _ Tab Tac) as [S4 M4].
  split; apply ascending_ext; try assumption; intros x.
  - rewrite M1, M2, Mab, Mac, Nbc. tauto.
  - rewrite M3, M4, Mbc, Nab, Nac. tauto.
Qed.

Lemma op_and_or_distr_witness :
  op_and [1; 3; 5] (op_or [3] [5; 6]) = op_or (op_and [1; 3; 5] [3]) (op_and [1; 3; 5] [5; 6]) /\
  op_or [1; 3; 5] (op_and [3] [5; 6]) = op_and (op_or [1; 3; 5] [3]) (op_or [1; 3; 5] [5; 6]).
Proof. apply (op_and_or_distr [1; 3; 5] [3] [5; 6]); asc. Defined.

(** De Morgan over the universe [U]:
    [NOT (A AND B) = (NOT A) OR (NOT B)] and
    [NOT (A OR B) = (NOT A) AND (NOT B)]. *)
Theorem op_not_de_morgan (U A B : list Z) :
  ascending U -> ascending A -> ascending B ->
  op_not U (op_and A B) = op_or (op_not U A) (op_not U B) /\
  op_not U (op_or A B) = op_and (op_not U A) (op_not U B).
Proof.
  intros HU HA HB.
  destruct (op_and_inter A B HA HB) as [Sab Mab].
  destruct (op_or_union A B HA HB) as [Tab Nab].
  destruct (op_not_diff U A HU HA) as [Sa Ma].
  destruct (op_not_diff U B HU HB) as [Sb Mb].
  destruct (op_not_diff U _ HU Sab) as [S1 M1].
  destruct (op_not_diff U _ HU Tab) as [S2 M2].
  destruct (op_or_union _ _ Sa Sb) as [S3 M3].
  destruct (op_and_inter _ _ Sa Sb) as [S4 M4].
  split; apply ascending_ext; try assumption; intros x.
  - rewrite M1, M3, Ma, Mb, Mab.
    destruct (decide (x ∈ A)), (decide (x ∈ B)); tauto.
  - rewrite M2, M4, Ma, Mb, Nab. tauto.
Qed.

Lemma op_not_de_morgan_witness :
  op_not [1; 2; 3; 4] (op_and [1; 2] [2; 3]) = op_or (op_not [1; 2; 3; 4] [1; 2]) (op_not [1; 2; 3; 4] [2; 3]) /\
  op_not [1; 2; 3; 4] (op_or [1; 2] [2; 3]) = op_and (op_not [1; 2; 3; 4] [1; 2]) (op_not [1; 2; 3; 4] [2; 3]).
Proof. apply (op_not_de_morgan [1; 2; 3; 4] [1; 2] [2; 3]); asc. Defined.

(** Complementing twice gives back a list drawn from the universe. *)
Theorem op_not_involutive (U A : list Z) :
  ascending U -> ascending A -> (forall x, x ∈ A -> x ∈ U) ->
  op_not U (op_not U A) = A.
Proof.
  intros HU HA Hsub.
  destruct (op_not_diff U A HU HA) as [Sa Ma].
  destruct (op_not_diff U _ HU Sa) as [S1 M1].
  apply ascending_ext; try assumption. intros x. rewrite M1, Ma.
  destruct (decide (x ∈ A)) as [Hin|Hout]; [|tauto].
  split; [tauto|]. intros _. split; [auto | tauto].
Qed.

Lemma op_not_involutive_witness :
  op_not [1; 2; 3; 4] (op_not [1; 2; 3; 4] [2; 4]) = [2; 4].
Proof.
  apply (op_not_involutive [1; 2; 3; 4] [2; 4]); [asc | asc |].
  intros x Hx. apply list_elem_of_In in Hx. apply list_elem_of_In.
  simpl in *. intuition.
Defined.

End BoolSearchFacts.

(** ** The index reader *)

Module IndexReaderFacts.
Import Bytes IndexReader.

(** *** The byte order on terms *)

Lemma strcmp_refl a : BoolIndex.strcmp a a = Eq.
Proof. induction a as [|x a IH]; simpl; [reflexivity|]. now rewrite Z.compare_refl. Qed.

Lemma strcmp_eq a : forall b, BoolIndex.strcmp a b = Eq -> a = b.
Proof.
  induction a as [|x a IH]; intros [|y b]; simpl; try discriminate; [reflexivity|].
  destruct (Z.compare_spec x y); try discriminate. intros Heq. subst. f_equal. auto.
Qed.

Lemma strcmp_antisym a : forall b,
  BoolIndex.strcmp b a = CompOpp (BoolIndex.strcmp a b).
Proof.
  induction a as [|x a IH]; intros [|y b]; simpl; try reflexivity.
  rewrite (Z.compare_antisym x y). destruct (x ?= y); simpl; auto.
Qed.

Lemma strcmp_trans a : forall b c,
  BoolIndex.strcmp a b = Lt -> BoolIndex.strcmp b c = Lt -> BoolIndex.strcmp a c = Lt.
Proof.
  induction a as [|x a IH]; intros [|y b] [|z c]; simpl; try discriminate; auto.
  destruct (Z.compare_spec x y), (Z.compare_spec y z); try discriminate; subst.
  - rewrite Z.compare_refl. apply IH.
  - intros _ _. destruct (Z.compare_spec z z); try lia.
    destruct (Z.compare_spec y z); try lia. reflexivity.
  - intros _ _. destruct (Z.compare_spec x z); try lia. reflexivity.
  - intros _ _. destruct (Z.compare_spec x z); try lia. reflexivity.
Qed.

(** [term_cmp] is the lexicographic comparison of the entry's term with
    [t]. *)
Lemma memcmp_lex p : forall t,
  match memcmp (take (Nat.min (length p) (length t)) p)
               (take (Nat.min (length p) (length t)) t) with
  | Eq => if (length p <? length t)%nat then Lt
          else if (length t <? length p)%nat then Gt else Eq
  | c => c
  end = BoolIndex.strcmp p t.
Proof.
  induction p as [|a p IH]; intros [|b t]; simpl; try reflexivity.
  destruct (a ?= b); try reflexivity. apply IH.
Qed.

Lemma term_cmp_strcmp ix e t : term_cmp ix e t = BoolIndex.strcmp (entry_term ix e) t.
Proof. unfold term_cmp. apply memcmp_lex. Qed.

(** *** Binary search in the dictionary *)

Lemma sorted_lookup_lt {A} (R : relation A) (l : list A) : forall i j x y,
  StronglySorted R l -> l !! i = Some x -> l !! j = Some y -> (i < j)%nat -> R x y.
Proof.
  induction l as [|a l IH]; intros i j x y Hs Hi Hj Hlt; [discriminate|].
  apply StronglySorted_inv in Hs as [Hs Ha]. destruct j as [|j]; [lia|].
  destruct i as [|i]; simpl in *.
  - injection Hi as ->. rewrite Forall_forall in Ha. apply Ha.
    eapply list_elem_of_lookup_2, Hj.
  - eapply IH; eauto. lia.
Qed.

Lemma term_lt_irrefl t : ~ term_lt t t.
Proof. unfold term_lt. rewrite strcmp_refl. discriminate. Qed.

(** In a sorted dictionary a term sits at one position at most, and the
    positions of smaller terms come first. *)
Lemma dict_sorted_order ix i j x y :
  dict_sorted ix -> dict_terms ix !! i = Some x -> dict_terms ix !! j = Some y ->
  term_lt x y -> (i < j)%nat.
Proof.
  intros Hs Hi Hj Hxy. destruct (Nat.lt_trichotomy i j) as [?|[->|Hji]]; [assumption| |].
  - rewrite Hi in Hj. injection Hj as ->. destruct (term_lt_irrefl _ Hxy).
  - pose proof (sorted_lookup_lt _ _ _ _ _ _ Hs Hj Hi Hji) as Hyx.
    destruct (term_lt_irrefl x). unfold term_lt in *. eapply strcmp_trans; eauto.
Qed.

Lemma dict_at_term ix (k : nat) :
  (k < length (dict ix))%nat ->
  dict_terms ix !! k = Some (entry_term ix (dict_at ix (Z.of_nat k))).
Proof.
  intros Hk. unfold dict_terms, dict_at. rewrite list_lookup_fmap, Nat2Z.id.
  destruct (lookup_lt_is_Some_2 (dict ix) k Hk) as [e ->]. reflexivity.
Qed.

Lemma binsearch_loop_spec ix t fuel : forall lo hi,
  dict_sorted ix ->
  0 <= lo -> hi < Z.of_nat (length (dict ix)) -> hi - lo + 1 <= Z.of_nat fuel ->
  (forall k : nat, dict_terms ix !! k = Some t -> lo <= Z.of_nat k <= hi) ->
  (forall k : nat, dict_terms ix !! k = Some t ->
                   binsearch_loop fuel ix t lo hi = Z.of_nat k) /\
  (t ∉ dict_terms ix -> binsearch_loop fuel ix t lo hi = -1).
Proof.
  induction fuel as [|fuel IH]; intros lo hi Hs Hlo Hhi Hfuel Hwin.
  { simpl. split; [|reflexivity]. intros k Hk. specialize (Hwin k Hk). lia. }
  cbn [binsearch_loop]. destruct (Z.ltb_spec hi lo) as [Hempty|Hne].
  { split; [|reflexivity]. intros k Hk. specialize (Hwin k Hk). lia. }
  set (mid := lo + (hi - lo) / 2).
  assert (Hmid : lo <= mid <= hi).
  { unfold mid. assert (0 <= (hi - lo) / 2 <= hi - lo); [|lia].
    split; [apply Z.div_pos; lia | apply Z.div_le_upper_bound; lia]. }
  assert (Hm : dict_terms ix !! Z.to_nat mid = Some (entry_term ix (dict_at ix mid))).
  { rewrite <- (Z2Nat.id mid) at 2 by lia. apply dict_at_term. lia. }
  rewrite term_cmp_strcmp.
  destruct (BoolIndex.strcmp (entry_term ix (dict_at ix mid)) t) eqn:Hc.
  - apply strcmp_eq in Hc. rewrite Hc in Hm. split.
    + intros k Hk. destruct (Nat.lt_trichotomy k (Z.to_nat mid)) as [Hlt|[->|Hgt]].
      * pose proof (sorted_lookup_lt _ _ _ _ _ _ Hs Hk Hm Hlt) as Habs.
        destruct (term_lt_irrefl _ Habs).
      * lia.
      * pose proof (sorted_lookup_lt _ _ _ _ _ _ Hs Hm Hk Hgt) as Habs.
        destruct (term_lt_irrefl _ Habs).
    + intros Hnot. destruct Hnot. eapply list_elem_of_lookup_2, Hm.
  - apply IH; try assumption; try lia.
    intros k Hk. pose proof (dict_sorted_order ix _ _ _ _ Hs Hm Hk Hc).
    specialize (Hwin k Hk). lia.
  - apply IH; try assumption; try lia.
    assert (Hc' : term_lt t (entry_term ix (dict_at ix mid))).
    { unfold term_lt. rewrite strcmp_antisym, Hc. reflexivity. }
    intros k Hk. pose proof (dict_sorted_order ix _ _ _ _ Hs Hk Hm Hc').
    specialize (Hwin k Hk). lia.
Qed.

Lemma binsearch_term_pos (ix : Index) (t : list Z) :
  dict_sorted ix ->
  (forall k : nat, dict_terms ix !! k = Some t -> binsearch_term ix t = Z.of_nat k) /\
  (t ∉ dict_terms ix -> binsearch_term ix t = -1).
Proof.
  intros Hs. unfold binsearch_term. apply binsearch_loop_spec; try assumption; try lia.
  intros k Hk. apply lookup_lt_Some in Hk. unfold dict_terms in Hk.
  rewrite length_map in Hk. lia.
Qed.

(** On a dictionary sorted strictly by term bytes, [binsearch_term] returns
    the position of the term when it is present, and -1 when it is not. *)
Theorem binsearch_term_spec (ix : Index) (t : list Z) :
  dict_sorted ix ->
  (forall k : nat, dict_terms ix !! k = Some t -> binsearch_term ix t = Z.of_nat k) /\
  (t ∉ dict_terms ix -> binsearch_term ix t = -1).
Proof.
  intros Hs. destruct (binsearch_term_pos ix t Hs) as [Hhit Hmiss].
  split; [intros k Hk; now apply Hhit | exact Hmiss].
Qed.

Lemma binsearch_term_spec_witness :
  (forall k : nat, dict_terms demo_index !! k = Some (str "bc") ->
                   binsearch_term demo_index (str "bc") = Z.of_nat k) /\
  (str "bc" ∉ dict_terms demo_index -> binsearch_term demo_index (str "bc") = -1).
Proof.
  apply (binsearch_term_spec demo_index (str "bc")).
  repeat (constructor; try reflexivity).
Defined.

(** *** Binary search in the document directory *)

Lemma find_doc_loop_spec docs d fuel : forall lo hi,
  StronglySorted docid_le docs ->
  (hi <= length docs)%nat -> (hi - lo <= fuel)%nat ->
  (forall k r, docs !! k = Some r -> docid r = d -> (lo <= k < hi)%nat) ->
  match find_doc_loop fuel docs d lo hi with
  | Some r => r ∈ docs /\ docid r = d
  | None => forall r, r ∈ docs -> docid r <> d
  end.
Proof.
  induction fuel as [|fuel IH]; intros lo hi Hs Hhi Hfuel Hwin.
  { simpl. intros r [k Hk]%list_elem_of_lookup_1 Hd. specialize (Hwin k r Hk Hd). lia. }
  cbn [find_doc_loop]. destruct (Nat.leb_spec hi lo) as [Hempty|Hne].
  { intros r [k Hk]%list_elem_of_lookup_1 Hd. specialize (Hwin k r Hk Hd). lia. }
  set (mid := (lo + (hi - lo) / 2)%nat).
  assert (Hmid : (lo <= mid < hi)%nat).
  { unfold mid. pose proof (Nat.div_mod_eq (hi - lo) 2).
    pose proof (Nat.mod_upper_bound (hi - lo) 2). lia. }
  destruct (lookup_lt_is_Some_2 docs mid ltac:(lia)) as [rec Hrec]. rewrite Hrec.
  destruct (Z.eqb_spec (docid rec) d) as [Heq|Hneq].
  { split; [eapply list_elem_of_lookup_2, Hrec | exact Heq]. }
  destruct (Z.ltb_spec (docid rec) d) as [Hlt|Hge].
  - apply IH; try assumption; try lia.
    intros k r Hk Hd. specialize (Hwin k r Hk Hd).
    destruct (Nat.lt_trichotomy k mid) as [Hkm|[->|Hkm]]; [| |lia].
    + pose proof (sorted_lookup_lt _ _ _ _ _ _ Hs Hk Hrec Hkm) as Hle.
      unfold docid_le in Hle. lia.
    + rewrite Hrec in Hk. injection Hk as ->. lia.
  - apply IH; try assumption; try lia.
    intros k r Hk Hd. specialize (Hwin k r Hk Hd).
    destruct (Nat.lt_trichotomy k mid) as [Hkm|[->|Hkm]]; [lia| |].
    + rewrite Hrec in Hk. injection Hk as ->. lia.
    + pose proof (sorted_lookup_lt _ _ _ _ _ _ Hs Hrec Hk Hkm) as Hle.
      unfold docid_le in Hle. lia.
Qed.

Lemma find_doc_sound (ix : Index) (d : Z) :
  StronglySorted docid_le (docs_sorted ix) ->
  match find_doc ix d with
  | Some r => r ∈ docs_sorted ix /\ docid r = d
  | None => forall r, r ∈ docs_sorted ix -> docid r <> d
  end.
Proof.
  intros Hs. unfold find_doc. apply find_doc_loop_spec; try assumption; try lia.
  intros k r Hk _. apply lookup_lt_Some in Hk. lia.
Qed.

(** On a directory sorted by docid, [find_doc] returns a record of the
    requested docid when there is one, and the null pointer only when there
    is none. *)
Theorem find_doc_spec (ix : Index) (d : Z) :
  StronglySorted docid_le (docs_sorted ix) ->
  match find_doc ix d with
  | Some r => r ∈ docs_sorted ix /\ docid r = d
  | None => forall r, r ∈ docs_sorted ix -> docid r <> d
  end.
Proof.
  intros Hs. pose proof (find_doc_sound ix d Hs) as H.
  destruct (find_doc ix d) as [r|]; [destruct H as [Hin Hd]; split; assumption|].
  intros r Hr. now apply H.
Qed.

Lemma find_doc_spec_witness :
  match find_doc demo_index 9 with
  | Some r => r ∈ docs_sorted demo_index /\ docid r = 9
  | None => forall r, r ∈ docs_sorted demo_index -> docid r <> 9
  end.
Proof.
  apply (find_doc_spec demo_index 9).
  repeat (constructor; try (unfold docid_le; simpl; lia)).
Defined.

(** *** Loading the document directory *)

#[local] Instance docid_le_trans : Transitive docid_le.
Proof. unfold docid_le. intros a b c ? ?. lia. Qed.

#[local] Instance docid_le_total : Total docid_le.
Proof. unfold docid_le. intros a b. lia. Qed.

Lemma unique_from_spec l : forall p,
  StronglySorted Z.le l -> Forall (Z.le p) l ->
  StronglySorted Z.lt (unique_from p l) /\ Forall (Z.lt p) (unique_from p l) /\
  (forall x, x ∈ unique_from p l <-> x ∈ l /\ x <> p).
Proof.
  induction l as [|y l IH]; intros p Hs Hp; simpl.
  { split; [constructor|]. split; [constructor|].
    intros x. split; [intros H | intros [H _]]; inversion H. }
  apply StronglySorted_inv in Hs as [Hs Hy]. apply Forall_cons in Hp as [Hpy Hp].
  destruct (Z.eqb_spec y p) as [->|Hne].
  - destruct (IH p Hs Hp) as (H1 & H2 & H3). split; [exact H1|]. split; [exact H2|].
    intros x. rewrite H3, elem_of_cons. split; [tauto|]. intros [[->|Hx] Hn]; tauto.
  - destruct (IH y Hs Hy) as (H1 & H2 & H3). split; [|split].
    + constructor; assumption.
    + constructor; [lia|]. eapply Forall_impl; [exact H2|]. simpl. intros; lia.
    + intros x. rewrite !elem_of_cons, H3. split.
      * intros [->|[Hx Hxy]]; [tauto|]. split; [tauto|].
        rewrite Forall_forall in Hy. specialize (Hy _ Hx). lia.
      * intros [[->|Hx] Hn]; [tauto|].
        destruct (Z.eq_dec x y); [tauto | right; tauto].
Qed.

(** [std::unique] after [std::sort]: strictly ascending, same members. *)
Lemma unique_sorted_spec l :
  StronglySorted Z.le l ->
  StronglySorted Z.lt (unique l) /\ (forall x, x ∈ unique l <-> x ∈ l).
Proof.
  destruct l as [|y l]; simpl; intros Hs.
  { split; [constructor | tauto]. }
  apply StronglySorted_inv in Hs as [Hs Hy].
  destruct (unique_from_spec l y Hs Hy) as (H1 & H2 & H3). split.
  - constructor; assumption.
  - intros x. rewrite !elem_of_cons, H3. split; [tauto|].
    intros [->|Hx]; [tauto|]. destruct (Z.eq_dec x y); tauto.
Qed.

(** Whatever [docs.tsv] holds, [load_docs] completes once the file opens:
    the directory is a rearrangement of the well-formed lines sorted by
    docid, the universe is strictly ascending and holds exactly the docids
    of the directory, [find_doc] finds every docid of the universe, and the
    dictionary and postings are left alone. *)
Theorem load_docs_spec (ix0 : Index) (content : list Z) :
  match load_docs ix0 (Some content) with
  | Done ix =>
      docs_sorted ix ≡ₚ omap parse_doc_line (getlines content) /\
      StronglySorted docid_le (docs_sorted ix) /\
      StronglySorted Z.lt (universe ix) /\
      (forall d, d ∈ universe ix <-> exists r, r ∈ docs_sorted ix /\ docid r = d) /\
      (forall d, d ∈ universe ix -> exists r, find_doc ix d = Some r /\ docid r = d) /\
      term_pool ix = term_pool ix0 /\ dict ix = dict ix0 /\ postings ix = postings ix0
  | _ => False
  end.
Proof.
  cbn [load_docs]. set (recs := omap parse_doc_line (getlines content)).
  cbn [docs_sorted universe term_pool dict postings].
  assert (Hperm : merge_sort docid_le recs ≡ₚ recs) by apply merge_sort_Permutation.
  assert (Hsorted : StronglySorted docid_le (merge_sort docid_le recs))
    by (apply StronglySorted_merge_sort; apply _).
  destruct (unique_sorted_spec (merge_sort Z.le (map docid recs))) as [Hu Hm].
  { apply StronglySorted_merge_sort; apply _. }
  assert (Hmem : forall d, d ∈ unique (merge_sort Z.le (map docid recs)) <->
                           exists r, r ∈ merge_sort docid_le recs /\ docid r = d).
  { intros d. rewrite Hm, (merge_sort_Permutation Z.le (map docid recs)).
    rewrite list_elem_of_fmap. split; intros (r & H1 & H2).
    - exists r. rewrite Hperm. auto.
    - exists r. rewrite Hperm in H1. auto. }
  repeat (split; [assumption || reflexivity|]).
  split; [|repeat split].
  intros d (r & Hr & Hd)%Hmem.
  pose proof (find_doc_sound
                (mkIndex (term_pool ix0) (dict ix0) (postings ix0)
                         (merge_sort docid_le recs)
                         (unique (merge_sort Z.le (map docid recs)))) d Hsorted) as Hf.
  destruct (find_doc _ d) as [r'|].
  - exists r'. split; [reflexivity | apply Hf].
  - destruct (Hf r Hr Hd).
Qed.

(** *** Loading the dictionary *)

Lemma parse_dict_line_term n line :
  snd <$> parse_dict_line n line = snd <$> parse_dict_line 0 line.
Proof.
  unfold parse_dict_line. destruct line; [reflexivity|].
  repeat (case_match; try reflexivity).
Qed.

Lemma parse_dict_line_entry n line e t :
  parse_dict_line n line = Some (e, t) ->
  term_off e = wrap32 (Z.of_nat n) /\ term_len e = wrap32 (Z.of_nat (length t)).
Proof.
  unfold parse_dict_line. destruct line; [discriminate|].
  repeat (case_match; try discriminate). intros [= <- <-]. split; reflexivity.
Qed.

Lemma omap_cons {A B} (f : A -> option B) x l :
  omap f (x :: l) = match f x with Some y => y :: omap f l | None => omap f l end.
Proof. reflexivity. Qed.

Lemma load_dict_fold lines : forall pool d,
  let r := foldl load_dict_line (pool, d) lines in
  let ts := omap (fun line => snd <$> parse_dict_line 0 line) lines in
  let rd := fun e => take (Z.to_nat (term_len e))
                          (drop (Z.to_nat (term_off e)) (fst r)) in
  fst r = pool ++ concat ts /\
  (Z.of_nat (length (fst r)) < 2 ^ 32 -> map rd (snd r) = map rd d ++ ts).
Proof.
  induction lines as [|line lines IH]; intros pool d; cbn [foldl];
    [|rewrite omap_cons].
  { simpl. rewrite !app_nil_r. split; reflexivity. }
  assert (Hstep : load_dict_line (pool, d) line
                  = match parse_dict_line (length pool) line with
                    | Some (e, t) => (pool ++ t, d ++ [e])
                    | None => (pool, d)
                    end).
  { unfold load_dict_line. cbn [fst snd].
    destruct (parse_dict_line _ _) as [[? ?]|]; reflexivity. }
  rewrite Hstep. clear Hstep.
  pose proof (parse_dict_line_term (length pool) line) as Hterm.
  destruct (parse_dict_line (length pool) line) as [[e t]|] eqn:Hp.
  - destruct (parse_dict_line 0 line) as [[e0 t0]|]; [|discriminate].
    cbn in Hterm. injection Hterm as <-. cbn [fmap option_fmap option_map snd].
    specialize (IH (pool ++ t) (d ++ [e])). cbn zeta in IH. destruct IH as [IH1 IH2].
    cbn [concat].
    split; [rewrite IH1, <- app_assoc; reflexivity|].
    intros Hsmall. rewrite (IH2 Hsmall).
    rewrite map_app, <- !app_assoc. f_equal. cbn [map app]. f_equal.
    destruct (parse_dict_line_entry _ _ _ _ Hp) as [-> ->].
    rewrite IH1 in *. rewrite <- app_assoc, !length_app in Hsmall.
    unfold wrap32. rewrite !Z.mod_small by lia. rewrite !Nat2Z.id.
    rewrite <- !app_assoc, drop_app_length, take_app_length. reflexivity.
  - destruct (parse_dict_line 0 line) as [[e0 t0]|]; [discriminate|].
    cbn [fmap option_fmap option_map].
    apply (IH pool d).
Qed.

(** Once [terms.tsv] opens, [load_dict] completes; when the terms it keeps
    fit a pool of less than [2^32] bytes, each dictionary entry points at
    the bytes of its own term: the terms read back through the pool are the
    first fields of the kept lines, in file order. *)
Theorem load_dict_terms (ix0 : Index) (content : list Z) :
  Z.of_nat (length (concat (dict_file_terms content))) < 2 ^ 32 ->
  match load_dict ix0 (Some content) with
  | Done ix =>
      dict_terms ix = dict_file_terms content /\
      length (dict ix) = length (dict_file_terms content) /\
      docs_sorted ix = docs_sorted ix0 /\ universe ix = universe ix0 /\
      postings ix = postings ix0
  | _ => False
  end.
Proof.
  intros Hsmall. cbn [load_dict].
  pose proof (load_dict_fold (getlines content) [] []) as H. cbn zeta in H.
  destruct (foldl load_dict_line ([], []) (getlines content)) as [pool d].
  cbn [fst snd] in H. destruct H as [Hpool Hterms]. cbn [app] in Hpool.
  unfold dict_terms. cbn [dict docs_sorted universe postings].
  assert (Hd : map (entry_term (mkIndex pool d (postings ix0) (docs_sorted ix0)
                                        (universe ix0))) d
               = dict_file_terms content).
  { unfold entry_term. cbn [term_pool].
    rewrite (Hterms ltac:(rewrite Hpool; exact Hsmall)). reflexivity. }
  split; [exact Hd|]. split; [|auto].
  rewrite <- Hd, length_map. reflexivity.
Qed.

Lemma load_dict_terms_witness :
  match load_dict empty_index (Some (str "ab" ++ [9; 49; 9; 48; 9; 52; 10]
                                     ++ str "bc" ++ [9; 50; 9; 52; 9; 56; 10])) with
  | Done ix =>
      dict_terms ix = dict_file_terms (str "ab" ++ [9; 49; 9; 48; 9; 52; 10]
                                       ++ str "bc" ++ [9; 50; 9; 52; 9; 56; 10]) /\
      length (dict ix) = length (dict_file_terms (str "ab" ++ [9; 49; 9; 48; 9; 52; 10]
                                       ++ str "bc" ++ [9; 50; 9; 52; 9; 56; 10])) /\
      docs_sorted ix = docs_sorted empty_index /\ universe ix = universe empty_index /\
      postings ix = postings empty_index
  | _ => False
  end.
Proof.
  apply (load_dict_terms empty_index (str "ab" ++ [9; 49; 9; 48; 9; 52; 10]
                                      ++ str "bc" ++ [9; 50; 9; 52; 9; 56; 10])).
  vm_compute. reflexivity.
Defined.

Example load_dict_demo :
  load_dict empty_index (Some (str "ab" ++ [9; 49; 9; 48; 9; 52; 10]
                               ++ str "bc" ++ [9; 50; 9; 52; 9; 56; 10]))
  = Done (mkIndex (str "abbc") [mkDictEntry 0 2 1 0 4; mkDictEntry 2 2 2 4 8]
                  None [] []).
Proof. vm_compute. reflexivity. Qed.

(** *** Lines that [load_dict] skips *)

Lemma find_sub_from_count c hay : forall pos,
  match find_sub_from [c] hay pos with
  | Some p =>
      (pos <= p)%nat /\
      count_occ Z.eq_dec hay c = S (count_occ Z.eq_dec (drop (S (p - pos)) hay) c)
  | None => count_occ Z.eq_dec hay c = 0%nat
  end.
Proof.
  induction hay as [|y hay IH]; intros pos; cbn [find_sub_from is_prefix].
  - reflexivity.
  - rewrite andb_true_r. destruct (Z.eqb_spec c y) as [->|Hne].
    + split; [lia|]. rewrite Nat.sub_diag. cbn [drop count_occ].
      destruct (Z.eq_dec y y); [reflexivity | contradiction].
    + specialize (IH (S pos)). destruct (find_sub_from [c] hay (S pos)) as [p|].
      * destruct IH as [Hp IH]. split; [lia|]. cbn [count_occ].
        destruct (Z.eq_dec y c); [congruence|]. rewrite IH.
        replace (p - pos)%nat with (S (p - S pos)) by lia. reflexivity.
      * cbn [count_occ]. destruct (Z.eq_dec y c); [congruence | exact IH].
Qed.

Lemma find_char_count c s from :
  match find_char c s from with
  | Some p =>
      count_occ Z.eq_dec (drop from s) c = S (count_occ Z.eq_dec (drop (p + 1) s) c)
  | None => count_occ Z.eq_dec (drop from s) c = 0%nat
  end.
Proof.
  unfold find_char. pose proof (find_sub_from_count c (drop from s) from) as H.
  destruct (find_sub_from [c] (drop from s) from) as [p|]; [|exact H].
  destruct H as [Hp H]. rewrite H, drop_drop. do 3 f_equal. lia.
Qed.

(** [load_dict] keeps a line exactly when it has at least four fields. *)
Lemma parse_dict_line_fields n line :
  parse_dict_line n line = None <-> (fields line < 4)%nat.
Proof.
  unfold fields, parse_dict_line.
  destruct line as [|c0 line0] eqn:El; [cbn; split; [lia | reflexivity]|].
  rewrite <- El. clear El c0 line0.
  pose proof (find_char_count 9 line 0) as H1. rewrite drop_0 in H1.
  destruct (find_char 9 line 0) as [p1|]; [|split; [lia | reflexivity]].
  pose proof (find_char_count 9 line (p1 + 1)) as H2.
  destruct (find_char 9 line (p1 + 1)) as [p2|]; [|split; [lia | reflexivity]].
  pose proof (find_char_count 9 line (p2 + 1)) as H3.
  destruct (find_char 9 line (p2 + 1)) as [p3|]; [|split; [lia | reflexivity]].
  split; [discriminate | lia].
Qed.

Lemma load_dict_line_skips acc line :
  (fields line < 4)%nat -> load_dict_line acc line = acc.
Proof.
  intros H. unfold load_dict_line.
  now rewrite (proj2 (parse_dict_line_fields _ line) H).
Qed.

Lemma load_dict_line_keeps acc line :
  (4 <= fields line)%nat -> length (snd (load_dict_line acc line)) = S (length (snd acc)).
Proof.
  intros H. unfold load_dict_line.
  destruct (parse_dict_line (length (fst acc)) line) as [[e t]|] eqn:E.
  - cbn [snd]. rewrite length_app. cbn. lia.
  - apply parse_dict_line_fields in E. lia.
Qed.

Lemma load_dict_fold_filter lines : forall acc,
  foldl load_dict_line acc lines
  = foldl load_dict_line acc (filter (fun line => (4 <= fields line)%nat) lines)
  /\ length (snd (foldl load_dict_line acc lines))
     = (length (snd acc)
        + length (filter (fun line => (4 <= fields line)%nat) lines))%nat.
Proof.
  induction lines as [|l lines IH]; intros acc; cbn [foldl].
  - split; [reflexivity | cbn; lia].
  - destruct (IH (load_dict_line acc l)) as [IH1 IH2].
    destruct (decide (4 <= fields l)%nat) as [Hk | Hs].
    + rewrite filter_cons_True by exact Hk. cbn [foldl length].
      split; [exact IH1|]. rewrite IH2, load_dict_line_keeps by exact Hk. lia.
    + rewrite filter_cons_False by exact Hs.
      rewrite load_dict_line_skips in IH1, IH2 by lia.
      rewrite load_dict_line_skips by lia. split; assumption.
Qed.

(** C4 (as amended): [load_dict] stops with a diagnostic only when
    [terms.tsv] cannot be opened, and ends normally on every [terms.tsv]
    that opens.  A line with fewer than four tab-separated fields is
    skipped without a diagnostic: the pool and the dictionary are those of
    the file with such lines removed, with one entry for each line of four
    fields or more. *)
Theorem load_dict_skips_malformed (ix : Index) (content : list Z) :
  load_dict ix None = Die "cannot open terms.tsv"
  /\ exists pool d,
       load_dict ix (Some content)
         = Done (mkIndex pool d (postings ix) (docs_sorted ix) (universe ix))
       /\ (pool, d) = foldl load_dict_line ([], []) (dict_lines content)
       /\ length d = length (dict_lines content)
       /\ forall acc line, (fields line < 4)%nat -> load_dict_line acc line = acc.
Proof.
  split; [reflexivity|].
  destruct (load_dict_fold_filter (getlines content) ([], [])) as [H1 H2].
  cbn [load_dict]. unfold dict_lines.
  destruct (foldl load_dict_line ([], []) (getlines content)) as [pool d].
  exists pool, d. split; [reflexivity|]. split; [exact H1|].
  split; [exact H2|]. apply load_dict_line_skips.
Qed.

(** C4 as stated fails: a [terms.tsv] whose first line has two fields
    loads, with the entry of its second line. *)
Lemma load_dict_malformed_not_fatal :
  let content := str "fox" ++ [9] ++ str "2" ++ [10]
                 ++ str "ab" ++ [9; 49; 9; 48; 9; 52; 10] in
  getlines content = [str "fox" ++ [9] ++ str "2"; str "ab" ++ [9; 49; 9; 48; 9; 52]]
  /\ fields (str "fox" ++ [9] ++ str "2") = 2%nat
  /\ load_dict empty_index (Some content)
     = Done (mkIndex (str "ab") [mkDictEntry 0 2 1 0 4] None [] [])
  /\ forall msg, load_dict empty_index (Some content) <> Die msg.
Proof.
  cbv zeta. repeat split; try (vm_compute; reflexivity).
  intros msg. vm_compute. discriminate.
Qed.

(** *** Loading a posting list *)

Lemma load_postings_absent (ix : Index) (t : list Z) :
  dict_sorted ix -> t ∉ dict_terms ix -> load_postings ix t = Done [].
Proof.
  intros Hs Hmiss. unfold load_postings.
  destruct (binsearch_term_pos ix t Hs) as [_ H]. rewrite (H Hmiss). reflexivity.
Qed.

(** A term that is not in a sorted dictionary has the empty posting list:
    the lookup never fails and never touches the postings file. *)
Theorem load_postings_miss (ix : Index) (t : list Z) :
  dict_sorted ix -> t ∉ dict_terms ix -> load_postings ix t = Done [].
Proof.
  intros Hs Hmiss. rewrite (load_postings_absent ix t Hs Hmiss). reflexivity.
Qed.

Lemma load_postings_miss_witness : load_postings demo_index (str "zz") = Done [].
Proof.
  apply (load_postings_miss demo_index (str "zz")).
  - repeat (constructor; try reflexivity).
  - vm_compute. intros H. apply list_elem_of_In in H. simpl in H.
    destruct H as [H|[H|[]]]; discriminate.
Defined.

(** On a good stream, the value loaded for a term of a sorted dictionary
    whose entry has [df > 0] and [post_len = 4 * df], with the bytes present
    in the postings file, is the [df] values stored at [post_off]. *)
Lemma load_postings_value (ix : Index) (k : nat) (e : DictEntry) (file : list Z) :
  dict_sorted ix -> dict ix !! k = Some e -> postings ix = Some file ->
  0 < df e -> post_len e = 4 * df e ->
  0 <= post_off e -> post_off e + post_len e <= Z.of_nat (length file) ->
  exists a,
    load_postings ix (entry_term ix e) = Done a /\
    BoolIndex.read_u32_array file (post_off e) (post_len e) = Some a /\
    Z.of_nat (length a) = df e.
Proof.
  intros Hs Hk Hfile Hdf Hlen Hoff Hfit. unfold load_postings.
  destruct (binsearch_term_pos ix (entry_term ix e) Hs) as [H _].
  assert (Hterm : dict_terms ix !! k = Some (entry_term ix e))
    by (unfold dict_terms; rewrite list_lookup_fmap, Hk; reflexivity).
  rewrite (H k Hterm).
  destruct (Z.ltb_spec (Z.of_nat k) 0); [lia|].
  assert (Hat : dict_at ix (Z.of_nat k) = e)
    by (unfold dict_at; rewrite Nat2Z.id, Hk; reflexivity).
  rewrite Hat.
  destruct (Z.eqb_spec (df e) 0); [lia|].
  destruct (Z.eqb_spec (post_len e) 0); [lia|]. cbn [orb]. rewrite Hfile.
  destruct (Z.ltb_spec (4 * df e) (post_len e)); [lia|].
  set (got := take (Z.to_nat (post_len e)) (drop (Z.to_nat (post_off e)) file)).
  assert (Hgot : length got = Z.to_nat (post_len e)).
  { unfold got. rewrite length_take, length_drop. lia. }
  destruct (Z.ltb_spec (Z.of_nat (length got)) (4 * df e)); [lia|].
  unfold BoolIndex.read_u32_array.
  destruct (Z.ltb_spec (Z.of_nat (length file)) (post_off e + post_len e)); [lia|].
  fold got.
  assert (Harr : forall bs n, length bs = (4 * n)%nat ->
                   exists a, u32_array_of_bytes bs = Some a /\ length a = n).
  { clear. intros bs n. revert bs. induction n as [|n IH]; intros bs Hn.
    - destruct bs; [|discriminate]. exists []. split; reflexivity.
    - destruct bs as [|b0 [|b1 [|b2 [|b3 bs]]]]; simpl in Hn; try lia.
      destruct (IH bs ltac:(lia)) as (a & Ha & Hl).
      exists (u32_of_bytes b0 b1 b2 b3 :: a). cbn [u32_array_of_bytes].
      rewrite Ha. split; [reflexivity | simpl; lia]. }
  destruct (Harr got (Z.to_nat (df e)) ltac:(lia)) as (a & Ha & Hl).
  exists a. rewrite Ha. split; [reflexivity|]. split; [reflexivity | lia].
Qed.

(** *** The state of the postings stream *)

(** A call either leaves the stream as it was and returns the value
    [load_postings], or it reads short: the value is undetermined and the
    stream is left in fail state. *)
Lemma load_postings_io_cases (ix : Index) (t : list Z) :
  load_postings_io ix t = (load_postings ix t, ix) \/
  (load_postings ix t = Undefined /\
   load_postings_io ix t = (Undefined, failed_stream ix)).
Proof.
  unfold load_postings_io, load_postings.
  destruct (_ <? 0); [now left|].
  set (e := dict_at ix (binsearch_term ix t)).
  destruct (_ || _); [now left|].
  destruct (postings ix) as [file|]; [|now left].
  destruct (Z.ltb_spec (4 * df e) (post_len e)); [now left|].
  set (got := take (Z.to_nat (post_len e)) (drop (Z.to_nat (post_off e)) file)).
  destruct (Z.ltb_spec (Z.of_nat (length got)) (post_len e)).
  - right. destruct (Z.ltb_spec (Z.of_nat (length got)) (4 * df e)); [|lia].
    split; reflexivity.
  - left. destruct (Z.ltb_spec (Z.of_nat (length got)) (4 * df e)); [reflexivity|].
    destruct (u32_array_of_bytes got); reflexivity.
Qed.

Lemma load_postings_io_done (ix : Index) (t l : list Z) :
  load_postings ix t = Done l -> load_postings_io ix t = (Done l, ix).
Proof.
  intros H. destruct (load_postings_io_cases ix t) as [E | [E _]].
  - rewrite E, H. reflexivity.
  - rewrite E in H. discriminate.
Qed.

(** Nothing brings a failed stream back. *)
Lemma failed_stream_stays (ix : Index) (t : list Z) :
  snd (load_postings_io (failed_stream ix) t) = failed_stream ix.
Proof.
  unfold load_postings_io.
  destruct (_ <? 0); [reflexivity|]. destruct (_ || _); reflexivity.
Qed.

(** The lookup of a dictionary entry with postings goes to the stream. *)
Lemma load_postings_io_entry (ix : Index) (k : nat) (e : DictEntry) :
  dict_sorted ix -> dict ix !! k = Some e -> df e <> 0 -> post_len e <> 0 ->
  load_postings_io ix (entry_term ix e) =
    match postings ix with
    | None => (Undefined, ix)
    | Some file =>
        if 4 * df e <? post_len e then (Undefined, ix)
        else
          let got := take (Z.to_nat (post_len e)) (drop (Z.to_nat (post_off e)) file) in
          if Z.of_nat (length got) <? post_len e then (Undefined, failed_stream ix)
          else if Z.of_nat (length got) <? 4 * df e then (Undefined, ix)
          else match u32_array_of_bytes got with
               | Some a => (Done a, ix)
               | None => (Undefined, ix)
               end
    end.
Proof.
  intros Hs Hk Hdf Hlen. unfold load_postings_io.
  destruct (binsearch_term_pos ix (entry_term ix e) Hs) as [H _].
  assert (Hterm : dict_terms ix !! k = Some (entry_term ix e))
    by (unfold dict_terms; rewrite list_lookup_fmap, Hk; reflexivity).
  rewrite (H k Hterm).
  destruct (Z.ltb_spec (Z.of_nat k) 0); [lia|].
  assert (Hat : dict_at ix (Z.of_nat k) = e)
    by (unfold dict_at; rewrite Nat2Z.id, Hk; reflexivity).
  rewrite Hat.
  destruct (Z.eqb_spec (df e) 0); [lia|].
  destruct (Z.eqb_spec (post_len e) 0); [lia|]. reflexivity.
Qed.

(** [load_postings] and the stream, for a term of a sorted dictionary whose
    entry has [df > 0] and [post_len = 4 * df].  On a good stream with the
    bytes present in the postings file, the call returns the [df] values
    stored at [post_off] and leaves the stream good.  On a good stream
    whose file ends before [post_off + post_len], the read comes up short:
    the result is undetermined and the stream is left in fail state.  On a
    stream in fail state nothing is read: the result is undetermined, also
    when the bytes are in the file, and the stream stays failed. *)
Theorem load_postings_io_spec (ix : Index) (k : nat) (e : DictEntry) :
  dict_sorted ix -> dict ix !! k = Some e ->
  0 < df e -> post_len e = 4 * df e -> 0 <= post_off e ->
  (forall file, postings ix = Some file ->
     post_off e + post_len e <= Z.of_nat (length file) ->
     exists a,
       load_postings_io ix (entry_term ix e) = (Done a, ix) /\
       BoolIndex.read_u32_array file (post_off e) (post_len e) = Some a /\
       Z.of_nat (length a) = df e) /\
  (forall file, postings ix = Some file ->
     Z.of_nat (length file) < post_off e + post_len e ->
     load_postings_io ix (entry_term ix e) = (Undefined, failed_stream ix)) /\
  (postings ix = None ->
     load_postings_io ix (entry_term ix e) = (Undefined, ix)) /\
  load_postings_io (failed_stream ix) (entry_term ix e)
    = (Undefined, failed_stream ix).
Proof.
  intros Hs Hk Hdf Hlen Hoff.
  pose proof (load_postings_io_entry ix k e Hs Hk ltac:(lia) ltac:(lia)) as Hio.
  repeat split.
  - intros file Hfile Hfit.
    destruct (load_postings_value ix k e file Hs Hk Hfile Hdf Hlen Hoff Hfit)
      as (a & Ha & Hread & Hn).
    exists a. split; [|split; assumption]. now apply load_postings_io_done.
  - intros file Hfile Hshort. rewrite Hio, Hfile. cbv zeta.
    destruct (Z.ltb_spec (4 * df e) (post_len e)); [lia|].
    rewrite length_take, length_drop.
    destruct (Z.ltb_spec (Z.of_nat (Z.to_nat (post_len e)
                `min` (length file - Z.to_nat (post_off e)))) (post_len e));
      [reflexivity | lia].
  - intros Hnone. rewrite Hio, Hnone. reflexivity.
  - apply (load_postings_io_entry (failed_stream ix) k e); [exact Hs | exact Hk | lia | lia].
Qed.

Lemma load_postings_io_spec_witness :
  (forall file, postings demo_index = Some file ->
     4 + 8 <= Z.of_nat (length file) ->
     exists a,
       load_postings_io demo_index (str "bc") = (Done a, demo_index) /\
       BoolIndex.read_u32_array file 4 8 = Some a /\
       Z.of_nat (length a) = 2) /\
  (forall file, postings demo_index = Some file ->
     Z.of_nat (length file) < 4 + 8 ->
     load_postings_io demo_index (str "bc") = (Undefined, failed_stream demo_index)) /\
  (postings demo_index = None ->
     load_postings_io demo_index (str "bc") = (Undefined, demo_index)) /\
  load_postings_io (failed_stream demo_index) (str "bc")
    = (Undefined, failed_stream demo_index).
Proof.
  apply (load_postings_io_spec demo_index 1 (mkDictEntry 2 2 2 4 8));
    try reflexivity; try (simpl; lia).
  repeat (constructor; try reflexivity).
Defined.

(** A short read spoils the later lookups: the postings of [bc] lie past
    the end of the file, and after their lookup [ab] no longer loads. *)
Example short_read_persists :
  let ix := mkIndex (str "abbc")
                    [mkDictEntry 0 2 1 0 4; mkDictEntry 2 2 2 4 8]
                    (Some (u32_array_bytes [7; 7]))
                    [] [7; 9] in
  load_postings_io ix (str "ab") = (Done [7], ix) /\
  load_postings_io ix (str "bc") = (Undefined, failed_stream ix) /\
  load_postings_io (failed_stream ix) (str "ab") = (Undefined, failed_stream ix).
Proof. vm_compute. repeat split. Qed.
End IndexReaderFacts.

(** ** The query engine *)

Module QueryEngineFacts.
Import Bytes BoolSearch IndexReader QueryEngine BoolSearchFacts IndexReaderFacts.

Example lex_example :
  map tok_t (lex (str "(alpha OR beta) AND -gamma"))
  = [TT_LP; TT_TERM; TT_OR; TT_TERM; TT_RP; TT_AND; TT_NOT; TT_TERM; TT_END].
Proof. vm_compute. reflexivity. Qed.

Example parse_precedence :
  parse_query (str "a OR b AND NOT c")
  = Done (N_OR (N_TERM (str "a")) (N_AND (N_TERM (str "b")) (N_NOT (N_TERM (str "c"))))).
Proof. vm_compute. reflexivity. Qed.

Example parse_left_assoc :
  parse_query (str "a AND b AND c")
  = Done (N_AND (N_AND (N_TERM (str "a")) (N_TERM (str "b"))) (N_TERM (str "c"))).
Proof. vm_compute. reflexivity. Qed.

Example parse_unclosed : parse_query (str "(a OR b") = Die "parse error: unexpected token near".
Proof. vm_compute. reflexivity. Qed.

Example run_query_demo :
  run_query demo_index (str "BC and not ab") = Done [9].
Proof. vm_compute. reflexivity. Qed.

(** *** The evaluator *)

(** On an index whose universe and posting lists are strictly ascending,
    [eval] completes on every query tree, its result is strictly ascending,
    and it holds exactly the documents that satisfy the tree read as a
    boolean formula ([NOT] taken within the universe). *)
Theorem eval_spec (ix : Index) (n : Node) :
  ascending (universe ix) -> postings_ascending ix ->
  exists r, eval ix n = Done r /\ ascending r /\ (forall x, x ∈ r <-> sat ix n x).
Proof.
  intros HU HP. induction n as [t | a IHa | a IHa b IHb | a IHa b IHb]; cbn [eval sat].
  - destruct (HP (BoolIndex.lowercase_inplace t)) as (l & Hl & Hasc).
    exists l. rewrite Hl. split; [reflexivity|]. split; [exact Hasc|].
    intros x. split.
    + intros Hx. exists l. auto.
    + intros (l' & Hl' & Hx). congruence.
  - destruct IHa as (A & -> & HA & MA). cbn [outcome_bind].
    destruct (op_not_diff (universe ix) A HU HA) as [Hs Hm].
    eexists. split; [reflexivity|]. split; [exact Hs|].
    intros x. rewrite Hm, MA. tauto.
  - destruct IHa as (A & -> & HA & MA). destruct IHb as (B & -> & HB & MB).
    cbn [outcome_bind]. destruct (op_and_inter A B HA HB) as [Hs Hm].
    eexists. split; [reflexivity|]. split; [exact Hs|].
    intros x. rewrite Hm, MA, MB. tauto.
  - destruct IHa as (A & -> & HA & MA). destruct IHb as (B & -> & HB & MB).
    cbn [outcome_bind]. destruct (op_or_union A B HA HB) as [Hs Hm].
    eexists. split; [reflexivity|]. split; [exact Hs|].
    intros x. rewrite Hm, MA, MB. tauto.
Qed.

Lemma demo_index_postings_ascending : postings_ascending demo_index.
Proof.
  assert (Hs : dict_sorted demo_index) by (repeat (constructor; try reflexivity)).
  intros t. destruct (decide (t ∈ dict_terms demo_index)) as [Hin|Hout].
  - apply list_elem_of_In in Hin. vm_compute in Hin.
    destruct Hin as [<-|[<-|[]]]; eexists; (split; [vm_compute; reflexivity|]);
      repeat constructor; lia.
  - exists []. split; [apply load_postings_absent; assumption | constructor].
Qed.

Lemma eval_spec_witness :
  exists r, eval demo_index (N_AND (N_TERM (str "bc")) (N_NOT (N_TERM (str "ab")))) = Done r
            /\ ascending r
            /\ (forall x, x ∈ r <->
                  sat demo_index (N_AND (N_TERM (str "bc")) (N_NOT (N_TERM (str "ab")))) x).
Proof.
  apply (eval_spec demo_index (N_AND (N_TERM (str "bc")) (N_NOT (N_TERM (str "ab"))))).
  - repeat constructor; lia.
  - apply demo_index_postings_ascending.
Defined.

(** *** The lexer *)

Lemma skip_while_length f q : (length (skip_while f q) <= length q)%nat.
Proof. induction q as [|c q IH]; simpl; [lia|]. destruct (f c); simpl; lia. Qed.

Lemma skip_while_head f q c rest : skip_while f q = c :: rest -> f c = false.
Proof.
  induction q as [|x q IH]; simpl; [discriminate|].
  destruct (f x) eqn:Hx; [exact IH|]. intros [= <- <-]. exact Hx.
Qed.

(** More fuel than the length of the input changes nothing. *)
Lemma lex_loop_fuel f1 : forall q f2,
  (length q <= f1)%nat -> (length q <= f2)%nat -> lex_loop f1 q = lex_loop f2 q.
Proof.
  induction f1 as [|f1 IH]; intros q f2 H1 H2.
  { destruct q; [|simpl in H1; lia]. destruct f2; reflexivity. }
  destruct f2 as [|f2].
  { destruct q; [reflexivity | simpl in H2; lia]. }
  cbn [lex_loop]. pose proof (skip_while_length is_space q) as Hs.
  destruct (skip_while is_space q) as [|c rest] eqn:Hq; [reflexivity|].
  simpl in Hs. apply skip_while_head in Hq.
  destruct (c =? 40) eqn:H40; [f_equal; apply IH; lia|].
  destruct (c =? 41) eqn:H41; [f_equal; apply IH; lia|].
  destruct (c =? 45); [f_equal; apply IH; lia|].
  f_equal. cbn [skip_while]. unfold is_word_char at 1 3. rewrite Hq, H40, H41.
  cbn [negb andb]. pose proof (skip_while_length is_word_char rest).
  apply IH; lia.
Qed.

Lemma lexall_blank q : lexall (32 :: q) = lexall q.
Proof.
  unfold lexall. cbn [length lex_loop skip_while]. change (is_space 32) with true.
  cbv iota. destruct q as [|c q]; [reflexivity|].
  rewrite (lex_loop_fuel (length (c :: q)) (c :: q) (S (length (c :: q)))) by lia.
  reflexivity.
Qed.

Lemma lexall_paren q :
  lexall (40 :: 32 :: q) = mkTok TT_LP (str "(") :: lexall q /\
  lexall (41 :: 32 :: q) = mkTok TT_RP (str ")") :: lexall q.
Proof.
  split; rewrite <- (lexall_blank q); unfold lexall; reflexivity.
Qed.

Lemma wordlike_scan w q :
  forallb is_word_char w = true ->
  take_while is_word_char (w ++ 32 :: q) = w /\
  skip_while is_word_char (w ++ 32 :: q) = 32 :: q.
Proof.
  induction w as [|c w IH]; simpl; [intros _; split; reflexivity|].
  intros [Hc Hw]%andb_true_iff. rewrite Hc. destruct (IH Hw) as [-> ->].
  split; reflexivity.
Qed.

Lemma lexall_word w q :
  wordlike w -> lexall (w ++ 32 :: q) = word_tok w :: lexall q.
Proof.
  intros [Hhead Hall]. destruct w as [|c w]; [destruct Hhead|].
  rewrite <- (lexall_blank q). unfold lexall at 1.
  cbn [app length lex_loop]. pose proof Hall as Hall0.
  cbn [forallb] in Hall. apply andb_true_iff in Hall as [Hc Hw].
  unfold is_word_char in Hc.
  destruct (is_space c) eqn:Hsp; [discriminate|].
  destruct (c =? 40) eqn:H40; [discriminate|].
  destruct (c =? 41) eqn:H41; [discriminate|].
  assert (Hskip : skip_while is_space (c :: w ++ 32 :: q) = c :: w ++ 32 :: q)
    by (cbn [skip_while]; rewrite Hsp; reflexivity).
  rewrite Hskip, H40, H41.
  destruct (Z.eqb_spec c 45) as [->|_]; [congruence|].
  change (c :: w ++ 32 :: q) with ((c :: w) ++ 32 :: q).
  destruct (wordlike_scan (c :: w) q Hall0) as [-> ->].
  f_equal. apply lex_loop_fuel; rewrite ?length_app; simpl; lia.
Qed.

(** Lexing the text of a token vector gives the vector back. *)
Lemma lexall_show_toks toks :
  Forall lexable toks -> lexall (show_toks toks) = toks.
Proof.
  induction 1 as [|c toks Hc _ IH]; [reflexivity|].
  unfold show_toks in *. cbn [flat_map]. rewrite <- app_assoc. cbn [app].
  destruct Hc as [-> | [-> | [Hw Htok]]].
  - cbn [tok_s]. change (str "(" ++ 32 :: ?q) with (40 :: 32 :: q).
    destruct (lexall_paren (flat_map (fun c => tok_s c ++ [32]) toks)) as [-> _].
    now rewrite IH.
  - cbn [tok_s]. change (str ")" ++ 32 :: ?q) with (41 :: 32 :: q).
    destruct (lexall_paren (flat_map (fun c => tok_s c ++ [32]) toks)) as [_ ->].
    now rewrite IH.
  - rewrite (lexall_word _ _ Hw), Htok, IH. reflexivity.
Qed.

(** *** The parser *)

Lemma and_loop_stops expr fuel lhs c rest :
  tok_t c <> TT_AND -> and_loop expr fuel lhs (c :: rest) = Done (lhs, c :: rest).
Proof. intros H. destruct fuel; simpl; destruct (tok_t c); congruence. Qed.

Lemma and_loop_closes expr fuel lhs toks :
  closes toks -> and_loop expr fuel lhs toks = Done (lhs, toks).
Proof.
  destruct toks as [|c rest]; [intros []|].
  intros [H | H]; apply and_loop_stops; congruence.
Qed.

Lemma or_loop_closes expr fuel lhs toks :
  closes toks -> or_loop expr fuel lhs toks = Done (lhs, toks).
Proof.
  destruct toks as [|c rest]; [intros []|]. destruct fuel; simpl; intros [-> | ->]; reflexivity.
Qed.

Lemma parse_expr_S fuel toks :
  parse_expr (S fuel) toks
  = outcome_bind (parse_and_with (parse_expr fuel) fuel toks) (fun '(lhs, rest) =>
      or_loop (parse_expr fuel) fuel lhs rest).
Proof. reflexivity. Qed.

Lemma parse_unary_LP expr c rest :
  tok_t c = TT_LP ->
  parse_unary_with expr (c :: rest)
  = outcome_bind (expr rest) (fun '(n, rest') =>
      match rest' with
      | [] => Undefined
      | c' :: rest'' =>
          match tok_t c' with
          | TT_RP => Done (n, rest'')
          | _ => Die "parse error: unexpected token near"
          end
      end).
Proof. intros H. cbn [parse_unary_with parse_primary_with]. rewrite H. reflexivity. Qed.

Lemma and_loop_AND expr fuel lhs c rest :
  tok_t c = TT_AND ->
  and_loop expr (S fuel) lhs (c :: rest)
  = outcome_bind (parse_unary_with expr rest) (fun '(b, rest') =>
      and_loop expr fuel (N_AND lhs b) rest').
Proof. intros H. cbn [and_loop]. rewrite H. reflexivity. Qed.

Lemma or_loop_OR expr fuel lhs c rest :
  tok_t c = TT_OR ->
  or_loop expr (S fuel) lhs (c :: rest)
  = outcome_bind (parse_and_with expr fuel rest) (fun '(b, rest') =>
      or_loop expr fuel (N_OR lhs b) rest').
Proof. intros H. cbn [or_loop]. rewrite H. reflexivity. Qed.

(** [parse_unary] reads back the rendering of a tree, whatever follows. *)
Lemma parse_unary_render n : forall fuel rest,
  (parse_depth n <= fuel)%nat ->
  parse_unary_with (parse_expr fuel) (render n ++ rest) = Done (n, rest).
Proof.
  induction n as [t | a IHa | a IHa b IHb | a IHa b IHb]; intros fuel rest Hfuel;
    cbn [render parse_depth] in *.
  - reflexivity.
  - cbn [app parse_unary_with tok_t]. rewrite IHa by lia. reflexivity.
  - destruct fuel as [|[|fuel]]; try lia.
    cbn [app]. rewrite <- app_assoc. cbn [app]. rewrite <- app_assoc. cbn [app].
    rewrite parse_unary_LP by reflexivity. rewrite parse_expr_S.
    unfold parse_and_with. rewrite IHa by lia. cbn [outcome_bind].
    rewrite and_loop_AND by reflexivity. rewrite IHb by lia. cbn [outcome_bind].
    rewrite and_loop_closes by (left; reflexivity). cbn [outcome_bind].
    rewrite or_loop_closes by (left; reflexivity). reflexivity.
  - destruct fuel as [|[|fuel]]; try lia.
    cbn [app]. rewrite <- app_assoc. cbn [app]. rewrite <- app_assoc. cbn [app].
    rewrite parse_unary_LP by reflexivity. rewrite parse_expr_S.
    unfold parse_and_with at 1. rewrite IHa by lia. cbn [outcome_bind].
    rewrite and_loop_stops by discriminate.
    cbn [outcome_bind]. rewrite or_loop_OR by reflexivity.
    unfold parse_and_with. rewrite IHb by lia. cbn [outcome_bind].
    rewrite and_loop_closes by (left; reflexivity). cbn [outcome_bind].
    rewrite or_loop_closes by (left; reflexivity). reflexivity.
Qed.

Lemma parse_depth_render n : (parse_depth n < length (render n ++ [mkTok TT_END []]))%nat.
Proof.
  assert (H : (parse_depth n < length (render n) + 1)%nat).
  { induction n; cbn [parse_depth render length]; rewrite ?length_app;
      cbn [length]; rewrite ?length_app; cbn [length]; lia. }
  rewrite length_app. exact H.
Qed.

Lemma render_lexable n : plain_terms n -> Forall lexable (render n).
Proof.
  induction n as [t | a IHa | a IHa b IHb | a IHa b IHb]; cbn [plain_terms render].
  - intros [Hw Htok]. constructor; [|constructor]. right. right. split; assumption.
  - intros Ha. constructor; [|auto]. right. right.
    split; [split; [discriminate | reflexivity] | reflexivity].
  - intros [Ha Hb]. constructor; [left; reflexivity|].
    apply Forall_app. split; [auto|]. constructor.
    + right. right. split; [split; [discriminate | reflexivity] | reflexivity].
    + apply Forall_app. split; [auto|]. constructor; [right; left; reflexivity|constructor].
  - intros [Ha Hb]. constructor; [left; reflexivity|].
    apply Forall_app. split; [auto|]. constructor.
    + right. right. split; [split; [discriminate | reflexivity] | reflexivity].
    + apply Forall_app. split; [auto|]. constructor; [right; left; reflexivity|constructor].
Qed.

(** Every query tree over plain words has a query text, [show n], that the
    lexer and the parser read back to that tree; [run_query] on the text
    is [eval] on the tree. *)
Theorem run_query_show (ix : Index) (n : Node) :
  plain_terms n ->
  lex (show n) = render n ++ [mkTok TT_END []] /\
  parse_query (show n) = Done n /\
  run_query ix (show n) = eval ix n.
Proof.
  intros Hplain.
  assert (Hlex : lex (show n) = render n ++ [mkTok TT_END []]).
  { unfold lex, show. fold (lexall (show_toks (render n))).
    rewrite lexall_show_toks by (apply render_lexable, Hplain). reflexivity. }
  assert (Hparse : parse_query (show n) = Done n).
  { unfold parse_query. cbv zeta. rewrite Hlex.
    pose proof (parse_depth_render n) as Hd.
    destruct (length (render n ++ [mkTok TT_END []])) as [|fuel] eqn:Hlen; [lia|].
    rewrite parse_expr_S. unfold parse_and_with.
    rewrite parse_unary_render by lia. cbn [outcome_bind].
    rewrite and_loop_closes by (right; reflexivity). cbn [outcome_bind].
    rewrite or_loop_closes by (right; reflexivity). reflexivity. }
  split; [exact Hlex|]. split; [exact Hparse|].
  unfold run_query. rewrite Hparse. reflexivity.
Qed.

Lemma run_query_show_witness :
  lex (show (N_AND (N_TERM (str "bc")) (N_NOT (N_TERM (str "ab")))))
  = render (N_AND (N_TERM (str "bc")) (N_NOT (N_TERM (str "ab")))) ++ [mkTok TT_END []] /\
  parse_query (show (N_AND (N_TERM (str "bc")) (N_NOT (N_TERM (str "ab")))))
  = Done (N_AND (N_TERM (str "bc")) (N_NOT (N_TERM (str "ab")))) /\
  run_query demo_index (show (N_AND (N_TERM (str "bc")) (N_NOT (N_TERM (str "ab")))))
  = eval demo_index (N_AND (N_TERM (str "bc")) (N_NOT (N_TERM (str "ab")))).
Proof.
  apply (run_query_show demo_index (N_AND (N_TERM (str "bc")) (N_NOT (N_TERM (str "ab"))))).
  repeat split; try discriminate; vm_compute; reflexivity.
Defined.

Example show_example :
  show (N_AND (N_TERM (str "bc")) (N_NOT (N_TERM (str "ab")))) = str "( bc AND NOT ab ) ".
Proof. vm_compute. reflexivity. Qed.

(** *** The parser stays inside the token vector *)

Lemma ends_with_END_tail c rest :
  ends_with_END (c :: rest) -> tok_t c <> TT_END -> ends_with_END rest.
Proof.
  intros (body & e & Heq & He) Hc. destruct body as [|b body].
  - injection Heq as -> ->. congruence.
  - injection Heq as -> ->. exists body, e. split; [reflexivity | exact He].
Qed.

Lemma ends_with_END_nonempty toks : ends_with_END toks -> toks <> [].
Proof. intros (body & e & -> & _). destruct body; discriminate. Qed.

Section ParserBounds.

(** The function used for a parenthesised expression stays in bounds on
    vectors of at most [bound] tokens. *)
Variable expr : list Tok -> parsed.
Variable bound : nat.
Hypothesis expr_ok : forall toks,
  ends_with_END toks -> (length toks <= bound)%nat -> in_bounds 1 toks (expr toks).

Lemma parse_primary_in_bounds toks :
  ends_with_END toks -> (length toks <= S bound)%nat ->
  in_bounds 1 toks (parse_primary_with expr toks).
Proof.
  intros Hend Hlen. destruct toks as [|c rest]; [destruct (ends_with_END_nonempty _ Hend eq_refl)|].
  cbn [parse_primary_with]. destruct (tok_t c) eqn:Hc; try exact I.
  - split; [apply (ends_with_END_tail c); [assumption | congruence] | simpl; lia].
  - assert (Hrest : ends_with_END rest)
      by (apply (ends_with_END_tail c); [assumption | congruence]).
    pose proof (expr_ok rest Hrest ltac:(simpl in Hlen; lia)) as Hok.
    destruct (expr rest) as [msg| |[n rest']]; cbn [outcome_bind in_bounds] in *; try tauto.
    destruct Hok as [Hend' Hlen'].
    destruct rest' as [|c' rest'']; [destruct (ends_with_END_nonempty _ Hend' eq_refl)|].
    destruct (tok_t c') eqn:Hc'; try exact I.
    split; [apply (ends_with_END_tail c'); [assumption | congruence] | simpl in *; lia].
Qed.

Lemma parse_unary_in_bounds toks :
  ends_with_END toks -> (length toks <= S bound)%nat ->
  in_bounds 1 toks (parse_unary_with expr toks).
Proof.
  induction toks as [|c rest IH]; intros Hend Hlen;
    [destruct (ends_with_END_nonempty _ Hend eq_refl)|].
  cbn [parse_unary_with].
  destruct (tok_t c) eqn:Hc;
    try exact (parse_primary_in_bounds (c :: rest) Hend Hlen).
  assert (Hrest : ends_with_END rest)
    by (apply (ends_with_END_tail c); [assumption | congruence]).
  specialize (IH Hrest ltac:(simpl in Hlen; lia)).
  destruct (parse_unary_with expr rest) as [msg| |[n rest']];
    cbn [outcome_bind in_bounds] in *; try tauto.
  destruct IH as [? ?]. split; [assumption | simpl; lia].
Qed.

Lemma and_loop_in_bounds fuel : forall lhs toks,
  ends_with_END toks -> (length toks <= S bound)%nat -> (length toks <= S fuel)%nat ->
  in_bounds 0 toks (and_loop expr fuel lhs toks).
Proof.
  induction fuel as [|fuel IH]; intros lhs toks Hend Hlen Hfuel;
    (destruct toks as [|c rest]; [destruct (ends_with_END_nonempty _ Hend eq_refl)|]);
    cbn [and_loop]; destruct (tok_t c) eqn:Hc;
    try (split; [assumption | lia]).
  - (* no fuel: only the final token is left, and it is not [AND] *)
    destruct rest; [|simpl in Hfuel; lia].
    destruct Hend as (body & e & Heq & He). destruct body as [|? [|? ?]]; try discriminate.
    injection Heq as ->. congruence.
  - assert (Hrest : ends_with_END rest)
      by (apply (ends_with_END_tail c); [assumption | congruence]).
    pose proof (parse_unary_in_bounds rest Hrest ltac:(simpl in Hlen; lia)) as Hu.
    destruct (parse_unary_with expr rest) as [msg| |[b rest']];
      cbn [outcome_bind in_bounds] in *; try tauto.
    destruct Hu as [Hend' Hlen'].
    specialize (IH (N_AND lhs b) rest' Hend' ltac:(simpl in *; lia) ltac:(simpl in *; lia)).
    destruct (and_loop expr fuel (N_AND lhs b) rest') as [msg| |[n r]];
      cbn [in_bounds] in *; try tauto.
    destruct IH as [? ?]. split; [assumption | simpl in *; lia].
Qed.

Lemma parse_and_in_bounds fuel toks :
  ends_with_END toks -> (length toks <= S bound)%nat -> (length toks <= S (S fuel))%nat ->
  in_bounds 1 toks (parse_and_with expr fuel toks).
Proof.
  intros Hend Hlen Hfuel. unfold parse_and_with.
  pose proof (parse_unary_in_bounds toks Hend Hlen) as Hu.
  destruct (parse_unary_with expr toks) as [msg| |[lhs rest]];
    cbn [outcome_bind in_bounds] in *; try tauto.
  destruct Hu as [Hend' Hlen'].
  pose proof (and_loop_in_bounds fuel lhs rest Hend' ltac:(lia) ltac:(lia)) as Ha.
  destruct (and_loop expr fuel lhs rest) as [msg| |[n r]]; cbn [in_bounds] in *; try tauto.
  destruct Ha as [? ?]. split; [assumption | lia].
Qed.

Lemma or_loop_in_bounds fuel : forall lhs toks,
  ends_with_END toks -> (length toks <= S bound)%nat -> (length toks <= S fuel)%nat ->
  in_bounds 0 toks (or_loop expr fuel lhs toks).
Proof.
  induction fuel as [|fuel IH]; intros lhs toks Hend Hlen Hfuel;
    (destruct toks as [|c rest]; [destruct (ends_with_END_nonempty _ Hend eq_refl)|]);
    cbn [or_loop]; destruct (tok_t c) eqn:Hc;
    try (split; [assumption | lia]).
  - destruct rest; [|simpl in Hfuel; lia].
    destruct Hend as (body & e & Heq & He). destruct body as [|? [|? ?]]; try discriminate.
    injection Heq as ->. congruence.
  - assert (Hrest : ends_with_END rest)
      by (apply (ends_with_END_tail c); [assumption | congruence]).
    pose proof (parse_and_in_bounds fuel rest Hrest ltac:(simpl in Hlen; lia)
                                    ltac:(simpl in Hfuel; lia)) as Hu.
    destruct (parse_and_with expr fuel rest) as [msg| |[b rest']];
      cbn [outcome_bind in_bounds] in *; try tauto.
    destruct Hu as [Hend' Hlen'].
    specialize (IH (N_OR lhs b) rest' Hend' ltac:(simpl in *; lia) ltac:(simpl in *; lia)).
    destruct (or_loop expr fuel (N_OR lhs b) rest') as [msg| |[n r]];
      cbn [in_bounds] in *; try tauto.
    destruct IH as [? ?]. split; [assumption | simpl in *; lia].
Qed.

End ParserBounds.

Lemma parse_expr_in_bounds fuel : forall toks,
  ends_with_END toks -> (length toks <= fuel)%nat ->
  in_bounds 1 toks (parse_expr fuel toks).
Proof.
  induction fuel as [|fuel IH]; intros toks Hend Hlen.
  { destruct toks; [destruct (ends_with_END_nonempty _ Hend eq_refl) | simpl in Hlen; lia]. }
  rewrite parse_expr_S.
  pose proof (parse_and_in_bounds (parse_expr fuel) fuel IH fuel toks Hend Hlen
                                  ltac:(lia)) as Ha.
  destruct (parse_and_with (parse_expr fuel) fuel toks) as [msg| |[lhs rest]];
    cbn [outcome_bind in_bounds] in *; try tauto.
  destruct Ha as [Hend' Hlen'].
  pose proof (or_loop_in_bounds (parse_expr fuel) fuel IH fuel lhs rest Hend'
                                ltac:(lia) ltac:(lia)) as Ho.
  destruct (or_loop (parse_expr fuel) fuel lhs rest) as [msg| |[n r]];
    cbn [in_bounds] in *; try tauto.
  destruct Ho as [? ?]. split; [assumption | lia].
Qed.

(** On every query text the parser runs inside the token vector that [lex]
    built: [parse_query] ends with a tree or with a parse error, never by
    reading [cur()] past the final [TT_END]. *)
Theorem parse_query_in_bounds (q : list Z) : parse_query q <> Undefined.
Proof.
  unfold parse_query. cbv zeta.
  assert (Hend : ends_with_END (lex q)).
  { unfold lex. eexists _, _. split; reflexivity. }
  pose proof (parse_expr_in_bounds (length (lex q)) (lex q) Hend (Nat.le_refl _)) as H.
  destruct (parse_expr (length (lex q)) (lex q)) as [msg| |[ast rest]];
    cbn [outcome_bind in_bounds] in *; [discriminate | destruct H |].
  destruct H as [Hrest _].
  destruct rest as [|c rest]; [destruct (ends_with_END_nonempty _ Hrest eq_refl)|].
  destruct (tok_t c); discriminate.
Qed.

(** While every lookup of the index loads, the evaluator leaves the stream
    as it found it and returns the value [eval]. *)
Lemma eval_io_good (ix : Index) (n : Node) :
  (forall t, exists l, load_postings ix t = Done l) ->
  eval_io ix n = (eval ix n, ix).
Proof.
  intros H. induction n as [t | a IHa | a IHa b IHb | a IHa b IHb]; simpl.
  - destruct (H (BoolIndex.lowercase_inplace t)) as [l Hl].
    rewrite Hl. now apply load_postings_io_done.
  - rewrite IHa. reflexivity.
  - rewrite IHa, IHb. reflexivity.
  - rewrite IHa, IHb. reflexivity.
Qed.

(** *** A query and its complement *)

Lemma eval_in_universe (ix : Index) (n : Node) :
  ascending (universe ix) -> postings_ascending ix -> postings_in_universe ix ->
  exists r, eval ix n = Done r /\ ascending r /\ (forall x, x ∈ r -> x ∈ universe ix).
Proof.
  intros HU HP HI. induction n as [t | a IHa | a IHa b IHb | a IHa b IHb]; cbn [eval].
  - destruct (HP (BoolIndex.lowercase_inplace t)) as (l & Hl & Hasc).
    exists l. split; [exact Hl|]. split; [exact Hasc|]. exact (HI _ _ Hl).
  - destruct IHa as (A & -> & HA & _). cbn [outcome_bind].
    destruct (op_not_diff (universe ix) A HU HA) as [Hs Hm].
    eexists. split; [reflexivity|]. split; [exact Hs|].
    intros x Hx. now apply Hm in Hx.
  - destruct IHa as (A & -> & HA & MA). destruct IHb as (B & -> & HB & _).
    cbn [outcome_bind]. destruct (op_and_inter A B HA HB) as [Hs Hm].
    eexists. split; [reflexivity|]. split; [exact Hs|].
    intros x Hx. apply Hm in Hx. now apply MA.
  - destruct IHa as (A & -> & HA & MA). destruct IHb as (B & -> & HB & MB).
    cbn [outcome_bind]. destruct (op_or_union A B HA HB) as [Hs Hm].
    eexists. split; [reflexivity|]. split; [exact Hs|].
    intros x Hx. apply Hm in Hx. destruct Hx; auto.
Qed.

(** C2: on an index whose universe and posting lists are strictly ascending
    and whose postings are documents of the universe, a query and its
    negation evaluate - with the stream left as it was - to two strictly
    ascending lists whose union by [op_or] is the universe and whose
    intersection by [op_and] is empty. *)
Theorem eval_complement (ix : Index) (q : Node) :
  ascending (universe ix) -> postings_ascending ix -> postings_in_universe ix ->
  exists A B,
    eval_io ix q = (Done A, ix) /\ eval_io ix (N_NOT q) = (Done B, ix)
    /\ ascending A /\ ascending B
    /\ op_or A B = universe ix /\ op_and A B = [].
Proof.
  intros HU HP HI.
  assert (Hload : forall t, exists l, load_postings ix t = Done l).
  { intros t. destruct (HP t) as (l & Hl & _). now exists l. }
  destruct (eval_in_universe ix q HU HP HI) as (A & HA & HsA & HinA).
  destruct (op_not_diff (universe ix) A HU HsA) as [HsB HmB].
  exists A, (op_not (universe ix) A).
  rewrite !eval_io_good by assumption. cbn [eval]. rewrite HA. cbn [outcome_bind].
  split; [reflexivity|]. split; [reflexivity|]. split; [exact HsA|]. split; [exact HsB|].
  destruct (op_or_union A _ HsA HsB) as [Hso Hmo].
  destruct (op_and_inter A _ HsA HsB) as [Hsa Hma].
  split.
  - apply ascending_ext; [exact Hso | exact HU |].
    intros x. rewrite Hmo, HmB. split.
    + intros [Hx | [Hx _]]; auto.
    + intros Hx. destruct (decide (x ∈ A)); auto.
  - apply ascending_ext; [exact Hsa | constructor |].
    intros x. rewrite Hma, HmB. split.
    + intros [Hx [_ Hn]]. contradiction.
    + intros Hx. inversion Hx.
Qed.

Lemma demo_index_postings_in_universe : postings_in_universe demo_index.
Proof.
  assert (Hs : dict_sorted demo_index) by (repeat (constructor; try reflexivity)).
  intros t l Hl x Hx. destruct (decide (t ∈ dict_terms demo_index)) as [Hin|Hout].
  - apply list_elem_of_In in Hin. vm_compute in Hin.
    destruct Hin as [<-|[<-|[]]]; vm_compute in Hl; injection Hl as <-;
      apply list_elem_of_In in Hx; apply list_elem_of_In; simpl in *; tauto.
  - rewrite (load_postings_absent _ _ Hs Hout) in Hl. injection Hl as <-.
    inversion Hx.
Qed.

Lemma eval_complement_witness :
  exists A B,
    eval_io demo_index (N_OR (N_TERM (str "AB")) (N_TERM (str "zz"))) = (Done A, demo_index)
    /\ eval_io demo_index (N_NOT (N_OR (N_TERM (str "AB")) (N_TERM (str "zz"))))
       = (Done B, demo_index)
    /\ ascending A /\ ascending B
    /\ op_or A B = universe demo_index /\ op_and A B = [].
Proof.
  apply (eval_complement demo_index (N_OR (N_TERM (str "AB")) (N_TERM (str "zz")))).
  - repeat constructor; lia.
  - apply demo_index_postings_ascending.
  - apply demo_index_postings_in_universe.
Defined.

(** A query of blanks only is a parse error, not an empty result. *)
Example parse_blank_query : parse_query (str "   ") = Die "parse error: expected term or '('".
Proof. vm_compute. reflexivity. Qed.

End QueryEngineFacts.

(** ** The codec: encoding and decoding *)

Module CodecFacts.
Import Bytes Tokenize BitFacts TokenizeFacts.

(** A property checked on every value below [n]. *)
Lemma check_below (n : nat) (f : Z -> bool) :
  forallb f (map Z.of_nat (seq 0 n)) = true ->
  forall x, 0 <= x < Z.of_nat n -> f x = true.
Proof.
  intros H x Hx. rewrite forallb_forall in H. apply H.
  apply in_map_iff. exists (Z.to_nat x). split; [lia|].
  apply in_seq. lia.
Qed.

Lemma land_shiftl_low hi lo k :
  0 <= k -> 0 <= lo < 2 ^ k -> Z.land (Z.shiftl hi k) lo = 0.
Proof.
  intros Hk Hlo. apply Z.bits_inj'. intros n Hn.
  rewrite Z.land_spec, Z.bits_0.
  destruct (Z.lt_ge_cases n k) as [Hlt|Hge].
  - rewrite Z.shiftl_spec_low by assumption. reflexivity.
  - rewrite andb_comm.
    destruct (Z.eq_dec lo 0) as [->|Hne]; [now rewrite Z.bits_0|].
    rewrite Z.bits_above_log2; [reflexivity | lia |].
    apply Z.log2_lt_pow2; [lia|].
    apply Z.lt_le_trans with (2 ^ k); [lia|]. apply Z.pow_le_mono_r; lia.
Qed.

Lemma lor_shiftl_add hi lo k :
  0 <= k -> 0 <= lo < 2 ^ k -> Z.lor (Z.shiftl hi k) lo = hi * 2 ^ k + lo.
Proof.
  intros Hk Hlo. pose proof (Z.add_lor_land (Z.shiftl hi k) lo) as H.
  rewrite land_shiftl_low in H by assumption.
  rewrite Z.shiftl_mul_pow2 in * by assumption. lia.
Qed.

(** The lead and continuation bytes written by [append_utf8], and what the
    decoder reads off them. *)
Lemma cont_byte lo :
  0 <= lo < 64 ->
  Z.lor 0x80 lo = 128 + lo /\ Z.land (128 + lo) 0xC0 = 0x80 /\
  Z.land (128 + lo) 0x3F = lo.
Proof.
  intros H.
  pose proof (check_below 64
    (fun x => (Z.lor 0x80 x =? 128 + x) && (Z.land (128 + x) 0xC0 =? 0x80)
              && (Z.land (128 + x) 0x3F =? x)) eq_refl lo H) as Hc.
  cbv beta in Hc. apply andb_true_iff in Hc as [Hc H3].
  apply andb_true_iff in Hc as [H1 H2]. lia.
Qed.

Lemma lead2_byte hi :
  0 <= hi < 32 ->
  Z.lor 0xC0 hi = 192 + hi /\ Z.land (192 + hi) 0xE0 = 0xC0 /\
  Z.land (192 + hi) 0x1F = hi.
Proof.
  intros H.
  pose proof (check_below 32
    (fun x => (Z.lor 0xC0 x =? 192 + x) && (Z.land (192 + x) 0xE0 =? 0xC0)
              && (Z.land (192 + x) 0x1F =? x)) eq_refl hi H) as Hc.
  cbv beta in Hc. apply andb_true_iff in Hc as [Hc H3].
  apply andb_true_iff in Hc as [H1 H2]. lia.
Qed.

Lemma lead3_byte hi :
  0 <= hi < 16 ->
  Z.lor 0xE0 hi = 224 + hi /\ Z.land (224 + hi) 0xE0 = 0xE0 /\
  Z.land (224 + hi) 0xF0 = 0xE0 /\ Z.land (224 + hi) 0x0F = hi.
Proof.
  intros H.
  pose proof (check_below 16
    (fun x => (Z.lor 0xE0 x =? 224 + x) && (Z.land (224 + x) 0xE0 =? 0xE0)
              && (Z.land (224 + x) 0xF0 =? 0xE0) && (Z.land (224 + x) 0x0F =? x))
    eq_refl hi H) as Hc.
  cbv beta in Hc. apply andb_true_iff in Hc as [Hc H4].
  apply andb_true_iff in Hc as [Hc H3]. apply andb_true_iff in Hc as [H1 H2]. lia.
Qed.

Lemma lead4_byte hi :
  0 <= hi < 8 ->
  Z.lor 0xF0 hi = 240 + hi /\ Z.land (240 + hi) 0xE0 = 0xE0 /\
  Z.land (240 + hi) 0xF0 = 0xF0 /\ Z.land (240 + hi) 0xF8 = 0xF0 /\
  Z.land (240 + hi) 0x07 = hi.
Proof.
  intros H.
  pose proof (check_below 8
    (fun x => (Z.lor 0xF0 x =? 240 + x) && (Z.land (240 + x) 0xE0 =? 0xE0)
              && (Z.land (240 + x) 0xF0 =? 0xF0) && (Z.land (240 + x) 0xF8 =? 0xF0)
              && (Z.land (240 + x) 0x07 =? x))
    eq_refl hi H) as Hc.
  cbv beta in Hc. apply andb_true_iff in Hc as [Hc H5].
  apply andb_true_iff in Hc as [Hc H4]. apply andb_true_iff in Hc as [Hc H3].
  apply andb_true_iff in Hc as [H1 H2]. lia.
Qed.

Lemma byte_at_app_r (pre l : list Z) k :
  byte_at (pre ++ l) (length pre + k) = byte_at l k.
Proof. unfold byte_at. now rewrite lookup_app_r, Nat.add_comm, Nat.add_sub by lia. Qed.

Lemma land_low_bits cp : 0 <= cp -> Z.land cp 0x3F = cp mod 64.
Proof. intros _. change 0x3F with (Z.ones 6). now rewrite Z.land_ones by lia. Qed.

Lemma shiftr_land cp k m j :
  0 <= k -> 0 <= j -> m = Z.ones j ->
  Z.land (Z.shiftr cp k) m = (cp / 2 ^ k) mod 2 ^ j.
Proof.
  intros Hk Hj ->. now rewrite Z.land_ones, Z.shiftr_div_pow2 by assumption.
Qed.

(** Decoding at the end of a prefix only looks at what follows it. *)
Lemma decode_utf8_next_2 pre b0 b1 post :
  Z.land b0 0xE0 = 0xC0 -> 0x80 <= b0 -> Z.land b1 0xC0 = 0x80 ->
  decode_utf8_next (pre ++ b0 :: b1 :: post) (length pre)
  = Some ((length pre + 2)%nat,
          Z.lor (Z.shiftl (Z.land b0 0x1F) 6) (Z.land b1 0x3F)).
Proof.
  intros H0 Hge H1. unfold decode_utf8_next.
  rewrite length_app. cbn [length].
  destruct (Nat.leb_spec (length pre + S (S (length post))) (length pre)); [lia|].
  pose proof (byte_at_app_r pre (b0 :: b1 :: post) 0) as E0.
  pose proof (byte_at_app_r pre (b0 :: b1 :: post) 1) as E1.
  rewrite Nat.add_0_r in E0. cbn in E0, E1. rewrite E0, E1.
  destruct (Z.ltb_spec b0 0x80); [lia|].
  rewrite H0, H1. cbn [Z.eqb Pos.eqb negb].
  destruct (Nat.leb_spec (length pre + S (S (length post))) (length pre + 1)); [lia|].
  reflexivity.
Qed.

Lemma decode_utf8_next_3 pre b0 b1 b2 post :
  Z.land b0 0xE0 = 0xE0 -> Z.land b0 0xF0 = 0xE0 -> 0x80 <= b0 ->
  Z.land b1 0xC0 = 0x80 -> Z.land b2 0xC0 = 0x80 ->
  decode_utf8_next (pre ++ b0 :: b1 :: b2 :: post) (length pre)
  = Some ((length pre + 3)%nat,
          Z.lor (Z.lor (Z.shiftl (Z.land b0 0x0F) 12)
                       (Z.shiftl (Z.land b1 0x3F) 6))
                (Z.land b2 0x3F)).
Proof.
  intros H0 H0' Hge H1 H2. unfold decode_utf8_next.
  rewrite length_app. cbn [length].
  destruct (Nat.leb_spec (length pre + S (S (S (length post)))) (length pre)); [lia|].
  pose proof (byte_at_app_r pre (b0 :: b1 :: b2 :: post) 0) as E0.
  pose proof (byte_at_app_r pre (b0 :: b1 :: b2 :: post) 1) as E1.
  pose proof (byte_at_app_r pre (b0 :: b1 :: b2 :: post) 2) as E2.
  rewrite Nat.add_0_r in E0. cbn in E0, E1, E2. rewrite E0, E1, E2.
  destruct (Z.ltb_spec b0 0x80); [lia|].
  rewrite H0, H0', H1, H2. cbn [Z.eqb Pos.eqb negb orb].
  destruct (Nat.leb_spec (length pre + S (S (S (length post)))) (length pre + 2)); [lia|].
  reflexivity.
Qed.

Lemma decode_utf8_next_4 pre b0 b1 b2 b3 post :
  Z.land b0 0xE0 = 0xE0 -> Z.land b0 0xF0 = 0xF0 -> Z.land b0 0xF8 = 0xF0 ->
  0x80 <= b0 ->
  Z.land b1 0xC0 = 0x80 -> Z.land b2 0xC0 = 0x80 -> Z.land b3 0xC0 = 0x80 ->
  decode_utf8_next (pre ++ b0 :: b1 :: b2 :: b3 :: post) (length pre)
  = Some ((length pre + 4)%nat,
          Z.lor (Z.lor (Z.lor (Z.shiftl (Z.land b0 0x07) 18)
                              (Z.shiftl (Z.land b1 0x3F) 12))
                       (Z.shiftl (Z.land b2 0x3F) 6))
                (Z.land b3 0x3F)).
Proof.
  intros H0 H0' H0'' Hge H1 H2 H3. unfold decode_utf8_next.
  rewrite length_app. cbn [length].
  destruct (Nat.leb_spec (length pre + S (S (S (S (length post))))) (length pre)); [lia|].
  pose proof (byte_at_app_r pre (b0 :: b1 :: b2 :: b3 :: post) 0) as E0.
  pose proof (byte_at_app_r pre (b0 :: b1 :: b2 :: b3 :: post) 1) as E1.
  pose proof (byte_at_app_r pre (b0 :: b1 :: b2 :: b3 :: post) 2) as E2.
  pose proof (byte_at_app_r pre (b0 :: b1 :: b2 :: b3 :: post) 3) as E3.
  rewrite Nat.add_0_r in E0. cbn in E0, E1, E2, E3. rewrite E0, E1, E2, E3.
  destruct (Z.ltb_spec b0 0x80); [lia|].
  rewrite H0, H0', H0'', H1, H2, H3. cbn [Z.eqb Pos.eqb negb orb].
  destruct (Nat.leb_spec (length pre + S (S (S (S (length post))))) (length pre + 3)); [lia|].
  reflexivity.
Qed.

(** Decoding what [append_utf8] wrote gives the codepoint back: for
    every codepoint below [2^21], at the position where its bytes start,
    [decode_utf8_next] returns that codepoint and the index just past its
    bytes, whatever precedes and follows them. *)
Theorem decode_append_utf8 (out post : list Z) (cp : Z) :
  0 <= cp < 0x200000 ->
  decode_utf8_next (append_utf8 out cp ++ post) (length out)
  = Some ((length out + length (utf8_bytes cp))%nat, cp).
Proof.
  intros Hcp. unfold append_utf8. rewrite <- app_assoc. unfold utf8_bytes.
  destruct (Z.leb_spec cp 0x7F) as [H1|H1].
  - rewrite Z.mod_small by lia. cbn [app length].
    unfold decode_utf8_next. rewrite length_app. cbn [length].
    destruct (Nat.leb_spec (length out + S (length post)) (length out)); [lia|].
    pose proof (byte_at_app_r out (cp :: post) 0) as E0.
    rewrite Nat.add_0_r in E0. cbn in E0. rewrite E0.
    destruct (Z.ltb_spec cp 0x80); [reflexivity | lia].
  - destruct (Z.leb_spec cp 0x7FF) as [H2|H2].
    + cbn [app length].
      rewrite (shiftr_land cp 6 0x1F 5), land_low_bits by (lia || reflexivity).
      change (2 ^ 6) with 64. change (2 ^ 5) with 32.
      assert (Hq : 0 <= cp / 64 < 32)
        by (split; [apply Z.div_pos | apply Z.div_lt_upper_bound]; lia).
      rewrite (Z.mod_small (cp / 64)) by lia.
      pose proof (Z.mod_pos_bound cp 64 ltac:(lia)) as Hr.
      destruct (lead2_byte _ Hq) as (-> & L1 & L2).
      destruct (cont_byte _ Hr) as (-> & C1 & C2).
      rewrite decode_utf8_next_2 by (assumption || lia).
      rewrite L2, C2, lor_shiftl_add by lia.
      do 2 f_equal. change (2 ^ 6) with 64.
      pose proof (Z.div_mod cp 64 ltac:(lia)). lia.
    + destruct (Z.leb_spec cp 0xFFFF) as [H3|H3].
      * cbn [app length].
        rewrite (shiftr_land cp 12 0x0F 4), (shiftr_land cp 6 0x3F 6),
          land_low_bits by (lia || reflexivity).
        change (2 ^ 6) with 64. change (2 ^ 12) with 4096. change (2 ^ 4) with 16.
        assert (Hq : 0 <= cp / 4096 < 16)
          by (split; [apply Z.div_pos | apply Z.div_lt_upper_bound]; lia).
        rewrite (Z.mod_small (cp / 4096)) by lia.
        pose proof (Z.mod_pos_bound cp 64 ltac:(lia)) as Hr.
        pose proof (Z.mod_pos_bound (cp / 64) 64 ltac:(lia)) as Hm.
        destruct (lead3_byte _ Hq) as (-> & L1 & L2 & L3).
        destruct (cont_byte _ Hr) as (-> & C1 & C2).
        destruct (cont_byte _ Hm) as (-> & M1 & M2).
        rewrite decode_utf8_next_3 by (assumption || lia).
        rewrite L3, C2, M2.
        rewrite (Z.shiftl_mul_pow2 ((cp / 64) mod 64) 6) by lia.
        rewrite (lor_shiftl_add (cp / 4096) _ 12) by (change (2 ^ 6) with 64; change (2 ^ 12) with 4096; lia).
        change (2 ^ 6) with 64. change (2 ^ 12) with 4096.
        replace (cp / 4096 * 4096 + (cp / 64) mod 64 * 64)
          with (Z.shiftl (cp / 4096 * 64 + (cp / 64) mod 64) 6)
          by (rewrite Z.shiftl_mul_pow2 by lia; change (2 ^ 6) with 64; lia).
        rewrite lor_shiftl_add by (change (2 ^ 6) with 64; lia).
        change (2 ^ 6) with 64. do 2 f_equal.
        pose proof (Z.div_mod cp 64 ltac:(lia)).
        pose proof (Z.div_mod (cp / 64) 64 ltac:(lia)).
        rewrite Z.div_div in * by lia. change (64 * 64) with 4096 in *. lia.
      * cbn [app length].
        rewrite (shiftr_land cp 18 0x07 3), (shiftr_land cp 12 0x3F 6),
          (shiftr_land cp 6 0x3F 6), land_low_bits by (lia || reflexivity).
        change (2 ^ 6) with 64. change (2 ^ 12) with 4096.
        change (2 ^ 18) with 262144. change (2 ^ 3) with 8.
        assert (Hq : 0 <= cp / 262144 < 8)
          by (split; [apply Z.div_pos | apply Z.div_lt_upper_bound]; lia).
        rewrite (Z.mod_small (cp / 262144)) by lia.
        pose proof (Z.mod_pos_bound cp 64 ltac:(lia)) as Hr.
        pose proof (Z.mod_pos_bound (cp / 64) 64 ltac:(lia)) as Hm.
        pose proof (Z.mod_pos_bound (cp / 4096) 64 ltac:(lia)) as Hn.
        destruct (lead4_byte _ Hq) as (-> & L1 & L2 & L3 & L4).
        destruct (cont_byte _ Hr) as (-> & C1 & C2).
        destruct (cont_byte _ Hm) as (-> & M1 & M2).
        destruct (cont_byte _ Hn) as (-> & N1 & N2).
        rewrite decode_utf8_next_4 by (assumption || lia).
        rewrite L4, C2, M2, N2.
        rewrite (Z.shiftl_mul_pow2 ((cp / 4096) mod 64) 12) by lia.
        rewrite (lor_shiftl_add (cp / 262144) _ 18)
          by (change (2 ^ 18) with 262144; change (2 ^ 12) with 4096; lia).
        change (2 ^ 18) with 262144. change (2 ^ 12) with 4096.
        rewrite (Z.shiftl_mul_pow2 ((cp / 64) mod 64) 6) by lia.
        change (2 ^ 6) with 64.
        replace (cp / 262144 * 262144 + (cp / 4096) mod 64 * 4096)
          with (Z.shiftl (cp / 262144 * 64 + (cp / 4096) mod 64) 12)
          by (rewrite Z.shiftl_mul_pow2 by lia; change (2 ^ 12) with 4096; lia).
        rewrite lor_shiftl_add by (change (2 ^ 12) with 4096; lia).
        change (2 ^ 12) with 4096.
        replace ((cp / 262144 * 64 + (cp / 4096) mod 64) * 4096 + (cp / 64) mod 64 * 64)
          with (Z.shiftl ((cp / 262144 * 64 + (cp / 4096) mod 64) * 64 + (cp / 64) mod 64) 6)
          by (rewrite Z.shiftl_mul_pow2 by lia; change (2 ^ 6) with 64; lia).
        rewrite lor_shiftl_add by (change (2 ^ 6) with 64; lia).
        change (2 ^ 6) with 64. do 2 f_equal.
        pose proof (Z.div_mod cp 64 ltac:(lia)).
        pose proof (Z.div_mod (cp / 64) 64 ltac:(lia)).
        pose proof (Z.div_mod (cp / 4096) 64 ltac:(lia)).
        assert (cp / 64 / 64 = cp / 4096) by (rewrite Z.div_div by lia; reflexivity).
        assert (cp / 4096 / 64 = cp / 262144) by (rewrite Z.div_div by lia; reflexivity).
        lia.
Qed.

Lemma decode_append_utf8_witness :
  0 <= 0x44F < 0x200000 /\
  decode_utf8_next (append_utf8 (str "ab") 0x44F ++ str "c") 2
  = Some (4%nat, 0x44F).
Proof.
  split; [lia|]. exact (decode_append_utf8 (str "ab") (str "c") 0x44F ltac:(lia)).
Defined.

End CodecFacts.

(** ** Case folding at the byte level *)

Module CaseFoldFacts.
Import Bytes Tokenize BoolIndex CaseFold BitFacts CodecFacts.

Lemma ascii_lower_idem c : ascii_lower (ascii_lower c) = ascii_lower c.
Proof. unfold ascii_lower. repeat case_match; lia. Qed.

Lemma cyr_fold_from_length rest : forall b0,
  length (cyr_fold_from b0 rest) = S (length rest).
Proof.
  induction rest as [|b1 rest IH]; intros b0; cbn [cyr_fold_from length]; [reflexivity|].
  repeat case_match; cbn [length]; now rewrite IH.
Qed.

Lemma cyr_fold_from_fixed rest : forall b0,
  folded_from b0 rest = true -> cyr_fold_from b0 rest = b0 :: rest.
Proof.
  induction rest as [|b1 rest IH]; intros b0 H; cbn [cyr_fold_from folded_from] in *;
    [reflexivity|].
  apply andb_true_iff in H as [H1 H2]. unfold upper_trail in H1.
  rewrite (IH _ H2).
  destruct (b0 =? 0xD0); [|reflexivity].
  destruct ((0x90 <=? b1) && (b1 <=? 0x9F)); [discriminate|].
  destruct ((0xA0 <=? b1) && (b1 <=? 0xAF)); [discriminate|].
  destruct (b1 =? 0x81); [discriminate|reflexivity].
Qed.

Lemma upper_trail_spec b :
  upper_trail b = true <-> (0x90 <= b <= 0xAF \/ b = 0x81).
Proof. unfold upper_trail. rewrite !orb_true_iff, !andb_true_iff. lia. Qed.

Lemma folded_from_cons b0 h tl :
  (b0 = 0xD0 -> upper_trail h = false) -> folded_from h tl = true ->
  folded_from b0 (h :: tl) = true.
Proof.
  intros Hp Hf. cbn [folded_from]. rewrite Hf, andb_true_r.
  destruct (Z.eqb_spec b0 0xD0) as [E|E]; [now rewrite (Hp E)|reflexivity].
Qed.

Lemma upper_trail_false b : ~ (0x90 <= b <= 0xAF \/ b = 0x81) -> upper_trail b = false.
Proof.
  intros H. destruct (upper_trail b) eqn:E; [|reflexivity].
  apply upper_trail_spec in E. tauto.
Qed.

(** The second loop leaves no pair for a second run: the head of its output
    is the byte left in [s[i]] (the input byte, or [0xD1] in place of a
    [0xD0]) and no [0xD0] in the output is followed by an upper-case
    trail byte. *)
Lemma cyr_fold_from_folded rest : forall b0,
  exists h tl, cyr_fold_from b0 rest = h :: tl
               /\ (h = b0 \/ (b0 = 0xD0 /\ h = 0xD1))
               /\ folded_from h tl = true.
Proof.
  induction rest as [|b1 rest IH]; intros b0; cbn [cyr_fold_from].
  - exists b0, []. auto.
  - destruct (Z.eqb_spec b0 0xD0) as [E0|E0].
    + destruct (Z.leb_spec 0x90 b1), (Z.leb_spec b1 0x9F); cbn [andb].
      1: { destruct (IH (b1 + 0x20)) as (h & tl & -> & Hh & Hf).
           exists b0, (h :: tl). split; [reflexivity|]. split; [auto|].
           apply folded_from_cons; [|assumption].
           intros _. apply upper_trail_false. lia. }
      all: destruct (Z.leb_spec 0xA0 b1), (Z.leb_spec b1 0xAF); cbn [andb]; try lia.
      all: try (destruct (IH (b1 - 0x20)) as (h & tl & -> & Hh & Hf);
                exists 0xD1, (h :: tl); split; [reflexivity|]; split; [auto|];
                apply folded_from_cons; [discriminate|assumption]).
      all: destruct (Z.eqb_spec b1 0x81) as [E1|E1].
      all: try (destruct (IH 0x91) as (h & tl & -> & Hh & Hf);
                exists 0xD1, (h :: tl); split; [reflexivity|]; split; [auto|];
                apply folded_from_cons; [discriminate|assumption]).
      all: destruct (IH b1) as (h & tl & -> & Hh & Hf);
           exists b0, (h :: tl); (split; [reflexivity|]); (split; [auto|]);
           apply folded_from_cons; [|assumption];
           intros _; apply upper_trail_false; lia.
    + destruct (IH b1) as (h & tl & -> & Hh & Hf).
      exists b0, (h :: tl). split; [reflexivity|]. split; [auto|].
      apply folded_from_cons; [contradiction|assumption].
Qed.

Lemma cyr_fold_idem s : cyr_fold (cyr_fold s) = cyr_fold s.
Proof.
  destruct s as [|b0 rest]; [reflexivity|]. cbn [cyr_fold].
  destruct (cyr_fold_from_folded rest b0) as (h & tl & -> & _ & Hf).
  cbn [cyr_fold]. now apply cyr_fold_from_fixed.
Qed.

(** The second loop writes no ASCII byte. *)
Lemma cyr_fold_from_no_upper rest : forall b0,
  no_ascii_upper (b0 :: rest) -> no_ascii_upper (cyr_fold_from b0 rest).
Proof.
  unfold no_ascii_upper.
  induction rest as [|b1 rest IH]; intros b0 H; cbn [cyr_fold_from]; [assumption|].
  inversion H as [|? ? H0 H']; subst. inversion H' as [|? ? H1 H'']; subst.
  assert (Hn : forall b, ascii_lower b = b -> Forall (fun c => ascii_lower c = c) (cyr_fold_from b rest))
    by (intros b Hb; apply IH; constructor; assumption).
  assert (Hd : ascii_lower 0xD1 = 0xD1) by reflexivity.
  destruct (b0 =? 0xD0); [|constructor; auto].
  destruct (Z.leb_spec 0x90 b1), (Z.leb_spec b1 0x9F); cbn [andb].
  1: { constructor; [assumption|]. apply Hn. unfold ascii_lower.
       destruct (Z.leb_spec 65 (b1 + 32)), (Z.leb_spec (b1 + 32) 90); cbn [andb]; lia. }
  all: destruct (Z.leb_spec 0xA0 b1), (Z.leb_spec b1 0xAF); cbn [andb]; try lia.
  all: try (constructor; [assumption|]; apply Hn; unfold ascii_lower;
            destruct (Z.leb_spec 65 (b1 - 32)), (Z.leb_spec (b1 - 32) 90); cbn [andb]; lia).
  all: destruct (b1 =? 0x81); constructor; auto.
Qed.

Lemma map_ascii_lower_fixed s : no_ascii_upper s -> map ascii_lower s = s.
Proof.
  induction 1 as [|c s Hc _ IH]; cbn [map]; [reflexivity|]. now rewrite Hc, IH.
Qed.

Lemma map_ascii_lower_no_upper s : no_ascii_upper (map ascii_lower s).
Proof.
  unfold no_ascii_upper. apply Forall_forall. intros c Hc.
  apply list_elem_of_fmap in Hc as (x & -> & _). apply ascii_lower_idem.
Qed.

Lemma lowercase_inplace_no_upper s : no_ascii_upper (lowercase_inplace s).
Proof.
  unfold lowercase_inplace. pose proof (map_ascii_lower_no_upper s) as H.
  destruct (map ascii_lower s) as [|b0 rest]; [constructor|].
  now apply cyr_fold_from_no_upper.
Qed.

Lemma lowercase_inplace_length s : length (lowercase_inplace s) = length s.
Proof.
  unfold lowercase_inplace. rewrite <- (length_map ascii_lower s).
  destruct (map ascii_lower s) as [|b0 rest]; [reflexivity|].
  apply cyr_fold_from_length.
Qed.

(** [lowercase_inplace] keeps the length of the string, leaves no ASCII
    capital in it, and does nothing when applied a second time, on every
    byte string (well-formed UTF-8 or not). *)
Theorem lowercase_inplace_idempotent (s : list Z) :
  length (lowercase_inplace s) = length s
  /\ Forall (fun c => is_ascii_upper c = false) (lowercase_inplace s)
  /\ lowercase_inplace (lowercase_inplace s) = lowercase_inplace s.
Proof.
  split; [apply lowercase_inplace_length|]. split.
  - pose proof (lowercase_inplace_no_upper s) as H.
    unfold no_ascii_upper in H. eapply Forall_impl; [exact H|].
    intros c Hc. cbv beta in Hc. unfold ascii_lower, is_ascii_upper in *.
    destruct ((65 <=? c) && (c <=? 90)); [lia|reflexivity].
  - unfold lowercase_inplace at 1.
    rewrite (map_ascii_lower_fixed _ (lowercase_inplace_no_upper s)).
    unfold lowercase_inplace. apply cyr_fold_idem.
Qed.

(** *** Agreement with the codepoint-level folding *)

Ltac cons_lia := repeat (apply (f_equal2 (@cons Z)); [lia|]); try reflexivity.

Lemma encode_concat cps : encode cps = concat (map utf8_bytes cps).
Proof.
  unfold encode.
  assert (H : forall acc, fold_left append_utf8 cps acc = acc ++ concat (map utf8_bytes cps)).
  { induction cps as [|cp cps IH]; intros acc; cbn [fold_left map concat].
    - now rewrite app_nil_r.
    - rewrite IH. unfold append_utf8. now rewrite <- app_assoc. }
  apply (H []).
Qed.

Lemma utf8_bytes_1 cp : 0 <= cp <= 0x7F -> utf8_bytes cp = [cp].
Proof.
  intros H. unfold utf8_bytes. destruct (Z.leb_spec cp 0x7F); [|lia].
  now rewrite Z.mod_small by lia.
Qed.

Lemma utf8_bytes_2 cp :
  0x7F < cp <= 0x7FF -> utf8_bytes cp = [192 + cp / 64; 128 + cp mod 64].
Proof.
  intros H. unfold utf8_bytes.
  destruct (Z.leb_spec cp 0x7F); [lia|]. destruct (Z.leb_spec cp 0x7FF); [|lia].
  rewrite (shiftr_land cp 6 0x1F 5), land_low_bits by (lia || reflexivity).
  change (2 ^ 6) with 64. change (2 ^ 5) with 32.
  assert (Hq : 0 <= cp / 64 < 32)
    by (split; [apply Z.div_pos | apply Z.div_lt_upper_bound]; lia).
  rewrite (Z.mod_small (cp / 64)) by lia.
  pose proof (Z.mod_pos_bound cp 64 ltac:(lia)) as Hr.
  destruct (lead2_byte _ Hq) as (-> & _). destruct (cont_byte _ Hr) as (-> & _).
  reflexivity.
Qed.

Lemma utf8_bytes_3 cp :
  0x7FF < cp <= 0xFFFF ->
  exists h m l, utf8_bytes cp = [224 + h; 128 + m; 128 + l]
                /\ 0 <= h < 16 /\ 0 <= m < 64 /\ 0 <= l < 64.
Proof.
  intros H. unfold utf8_bytes.
  destruct (Z.leb_spec cp 0x7F); [lia|]. destruct (Z.leb_spec cp 0x7FF); [lia|].
  destruct (Z.leb_spec cp 0xFFFF); [|lia].
  pose proof (land_0F (Z.shiftr cp 12)) as Hh.
  pose proof (land_3F (Z.shiftr cp 6)) as Hm.
  pose proof (land_3F cp) as Hl.
  destruct (lead3_byte (Z.land (Z.shiftr cp 12) 0x0F) ltac:(lia)) as (-> & _).
  destruct (cont_byte (Z.land (Z.shiftr cp 6) 0x3F) ltac:(lia)) as (-> & _).
  destruct (cont_byte (Z.land cp 0x3F) ltac:(lia)) as (-> & _).
  eexists _, _, _. split; [reflexivity|]. lia.
Qed.

Lemma utf8_bytes_4 cp :
  0xFFFF < cp ->
  exists h a m l, utf8_bytes cp = [240 + h; 128 + a; 128 + m; 128 + l]
                  /\ 0 <= h < 8 /\ 0 <= a < 64 /\ 0 <= m < 64 /\ 0 <= l < 64.
Proof.
  intros H. unfold utf8_bytes.
  destruct (Z.leb_spec cp 0x7F); [lia|]. destruct (Z.leb_spec cp 0x7FF); [lia|].
  destruct (Z.leb_spec cp 0xFFFF); [lia|].
  pose proof (land_07 (Z.shiftr cp 18)) as Hh.
  pose proof (land_3F (Z.shiftr cp 12)) as Ha.
  pose proof (land_3F (Z.shiftr cp 6)) as Hm.
  pose proof (land_3F cp) as Hl.
  destruct (lead4_byte (Z.land (Z.shiftr cp 18) 0x07) ltac:(lia)) as (-> & _).
  destruct (cont_byte (Z.land (Z.shiftr cp 12) 0x3F) ltac:(lia)) as (-> & _).
  destruct (cont_byte (Z.land (Z.shiftr cp 6) 0x3F) ltac:(lia)) as (-> & _).
  destruct (cont_byte (Z.land cp 0x3F) ltac:(lia)) as (-> & _).
  eexists _, _, _, _. split; [reflexivity|]. lia.
Qed.

Lemma cyr_fold_cons_other b0 rest :
  b0 <> 0xD0 -> cyr_fold (b0 :: rest) = b0 :: cyr_fold rest.
Proof.
  intros H. cbn [cyr_fold]. destruct rest as [|b1 rest]; cbn [cyr_fold_from cyr_fold];
    [reflexivity|].
  destruct (Z.eqb_spec b0 0xD0); [contradiction|reflexivity].
Qed.

Lemma cyr_fold_from_other b0 rest :
  b0 <> 0xD0 -> cyr_fold_from b0 rest = b0 :: cyr_fold rest.
Proof. intros H. now rewrite <- cyr_fold_cons_other. Qed.

Lemma ascii_lower_high c : 128 <= c -> ascii_lower c = c.
Proof.
  intros H. unfold ascii_lower.
  destruct (Z.leb_spec 65 c), (Z.leb_spec c 90); cbn [andb]; lia.
Qed.

(** One encoded codepoint at the head of the string: both loops of
    [lowercase_inplace] turn its bytes into the bytes of the folded
    codepoint and go on with what follows. *)
Lemma fold_one_codepoint cp rest :
  0 <= cp ->
  cyr_fold (map ascii_lower (utf8_bytes cp) ++ rest)
  = utf8_bytes (to_lower_cp cp) ++ cyr_fold rest.
Proof.
  intros Hcp. unfold to_lower_cp, is_ascii_upper.
  destruct (Z.le_gt_cases cp 0x7F) as [H1|H1].
  - rewrite utf8_bytes_1 by lia. cbn [map app].
    assert (Hl : 0 <= ascii_lower cp <= 0x7F)
      by (unfold ascii_lower; destruct (Z.leb_spec 65 cp), (Z.leb_spec cp 90); cbn [andb]; lia).
    rewrite cyr_fold_cons_other by lia.
    replace (if (65 <=? cp) && (cp <=? 90) then cp + 32
             else if (1040 <=? cp) && (cp <=? 1071) then cp + 32
             else if cp =? 1025 then 1105 else cp) with (ascii_lower cp).
    + rewrite utf8_bytes_1 by lia. reflexivity.
    + unfold ascii_lower.
      destruct (Z.leb_spec 65 cp), (Z.leb_spec cp 90); cbn [andb]; try reflexivity.
      all: destruct (Z.leb_spec 1040 cp), (Z.leb_spec cp 1071); cbn [andb]; try lia.
      all: destruct (Z.eqb_spec cp 1025); lia.
  - destruct (Z.leb_spec 65 cp), (Z.leb_spec cp 90); cbn [andb]; try lia.
    destruct (Z.le_gt_cases cp 0x7FF) as [H2|H2].
    + rewrite (utf8_bytes_2 cp) by lia. cbn [map app].
      pose proof (Z.mod_pos_bound cp 64 ltac:(lia)) as Hr.
      pose proof (Z.div_mod cp 64 ltac:(lia)) as Hdm.
      assert (Hq : 2 <= cp / 64 < 32)
        by (split; [apply Z.div_le_lower_bound | apply Z.div_lt_upper_bound]; lia).
      rewrite !ascii_lower_high by lia.
      cbn [cyr_fold cyr_fold_from].
      destruct (Z.eqb_spec (192 + cp / 64) 0xD0) as [E|E].
      * assert (Eq : cp / 64 = 16) by lia.
        destruct (Z.leb_spec 0x90 (128 + cp mod 64)), (Z.leb_spec (128 + cp mod 64) 0x9F);
          cbn [andb].
        1: { destruct (Z.leb_spec 1040 cp), (Z.leb_spec cp 1071); cbn [andb]; try lia.
             rewrite cyr_fold_from_other by lia.
             rewrite (utf8_bytes_2 (cp + 32)) by lia.
             replace ((cp + 32) / 64) with 16
               by (apply Z.div_unique with (cp mod 64 + 32); lia).
             replace ((cp + 32) mod 64) with (cp mod 64 + 32)
               by (apply Z.mod_unique with 16; lia).
             cbn [app]. cons_lia. }
        all: destruct (Z.leb_spec 0xA0 (128 + cp mod 64)), (Z.leb_spec (128 + cp mod 64) 0xAF);
          cbn [andb]; try lia.
        all: try (destruct (Z.leb_spec 1040 cp), (Z.leb_spec cp 1071); cbn [andb]; try lia;
             rewrite cyr_fold_from_other by lia;
             rewrite (utf8_bytes_2 (cp + 32)) by lia;
             replace ((cp + 32) / 64) with 17
               by (apply Z.div_unique with (cp mod 64 - 32); lia);
             replace ((cp + 32) mod 64) with (cp mod 64 - 32)
               by (apply Z.mod_unique with 17; lia);
             cbn [app]; cons_lia).
        all: destruct (Z.eqb_spec (128 + cp mod 64) 0x81) as [E1|E1].
        all: destruct (Z.leb_spec 1040 cp), (Z.leb_spec cp 1071); cbn [andb]; try lia.
        all: destruct (Z.eqb_spec cp 1025); try lia.
        all: rewrite cyr_fold_from_other by lia.
        all: try (rewrite (utf8_bytes_2 cp) by lia; cbn [app]; cons_lia).
        all: reflexivity.
      * rewrite cyr_fold_from_other by lia.
        destruct (Z.leb_spec 1040 cp), (Z.leb_spec cp 1071); cbn [andb]; try lia.
        all: destruct (Z.eqb_spec cp 1025); try lia.
        all: rewrite (utf8_bytes_2 cp) by lia; reflexivity.
    + destruct (Z.leb_spec 1040 cp), (Z.leb_spec cp 1071); cbn [andb]; try lia.
      destruct (Z.eqb_spec cp 1025); try lia.
      destruct (Z.le_gt_cases cp 0xFFFF) as [Hb|Hb].
      * destruct (utf8_bytes_3 cp ltac:(lia)) as (h & m & l & -> & Hh & Hm & Hl).
        cbn [map app]. rewrite !ascii_lower_high by lia.
        rewrite !cyr_fold_cons_other by lia. reflexivity.
      * destruct (utf8_bytes_4 cp ltac:(lia)) as (h & a & m & l & -> & Hh & Ha & Hm & Hl).
        cbn [map app]. rewrite !ascii_lower_high by lia.
        rewrite !cyr_fold_cons_other by lia. reflexivity.
Qed.

(** The byte-level folding of [bool_index.cpp] and the codepoint-level
    folding of [tokenize.cpp] agree on encoded text: folding the bytes of
    a string built by [append_utf8] gives the string built from the folded
    codepoints. *)
Theorem lowercase_inplace_encode (cps : list Z) :
  Forall (fun cp => 0 <= cp < 2 ^ 32) cps ->
  lowercase_inplace (encode cps) = encode (map to_lower_cp cps).
Proof.
  intros H. rewrite !encode_concat. unfold lowercase_inplace.
  induction H as [|cp cps Hcp _ IH]; [reflexivity|].
  cbn [map concat]. rewrite map_app, fold_one_codepoint by lia.
  now rewrite IH.
Qed.

Lemma lowercase_inplace_encode_witness :
  lowercase_inplace (encode [0x41; 0x401; 0x42F; 0x20AC])
  = encode (map to_lower_cp [0x41; 0x401; 0x42F; 0x20AC]).
Proof.
  apply lowercase_inplace_encode. repeat constructor; lia.
Defined.

End CaseFoldFacts.

(** ** The byte-level tokenizer *)

Module ByteTokenizerFacts.
Import Bytes BoolIndex CaseFold TokenShape CodecFacts CaseFoldFacts.

Lemma bytes_of_snoc ps p : bytes_of (ps ++ [p]) = bytes_of ps ++ piece_bytes p.
Proof. unfold bytes_of. rewrite map_app, concat_app. cbn. now rewrite app_nil_r. Qed.

Lemma bytes_of_app ps qs : bytes_of (ps ++ qs) = bytes_of ps ++ bytes_of qs.
Proof. unfold bytes_of. now rewrite map_app, concat_app. Qed.

Lemma piece_bytes_nonempty p : piece_bytes p <> [].
Proof. destruct p; discriminate. Qed.

Lemma bytes_of_nil ps : bytes_of ps = [] -> ps = [].
Proof.
  destruct ps as [|p ps]; [reflexivity|]. unfold bytes_of. cbn [map concat].
  intros H. apply app_eq_nil in H as [H _]. destruct p; discriminate H.
Qed.

Lemma shaped_app prev ps qs :
  shaped prev (ps ++ qs) = shaped prev ps && shaped (prev_of prev ps) qs.
Proof.
  revert prev. induction ps as [|p ps IH]; intros prev; [reflexivity|].
  cbn [app shaped]. rewrite IH, <- !andb_assoc. do 3 f_equal.
  - unfold prev_of. destruct ps as [|p' ps]; [reflexivity|].
    rewrite last_cons_cons. destruct (last (p' :: ps)) eqn:E; [reflexivity|].
    apply last_None in E. discriminate.
Qed.

Lemma shaped_snoc ps p :
  shaped None (ps ++ [p])
  = shaped None ps && (piece_ok p && follows (last ps) p).
Proof.
  rewrite shaped_app. cbn [shaped]. rewrite andb_true_r. do 2 f_equal.
  unfold prev_of. now destruct (last ps).
Qed.

(** [cur.back()] is the last byte of the last piece. *)
Lemma back_bytes_of ps p :
  BoolIndex.back (bytes_of (ps ++ [p]))
  = match p with Alnum c => c | Cyr _ b1 => b1 | Joiner c => c | Dot => 46 end.
Proof.
  rewrite bytes_of_snoc. unfold BoolIndex.back.
  destruct p; cbn [piece_bytes];
    [| change [b0; b1] with ([b0] ++ [b1]); rewrite app_assoc | |];
    now rewrite last_snoc.
Qed.

(** *** Case folding acts piece by piece *)

Lemma alnum_bounds c : is_ascii_alnum c = true -> 48 <= c <= 122.
Proof.
  unfold is_ascii_alnum, is_ascii_alpha, BoolIndex.is_ascii_digit.
  rewrite !orb_true_iff, !andb_true_iff. lia.
Qed.

Lemma digit_lower c :
  BoolIndex.is_ascii_digit (ascii_lower c) = BoolIndex.is_ascii_digit c.
Proof.
  unfold ascii_lower, BoolIndex.is_ascii_digit.
  destruct (Z.leb_spec 65 c), (Z.leb_spec c 90); cbn [andb]; try reflexivity.
  destruct (Z.leb_spec 48 (c + 32)), (Z.leb_spec (c + 32) 57),
    (Z.leb_spec 48 c), (Z.leb_spec c 57); cbn [andb]; lia.
Qed.

Lemma alnum_lower c :
  is_ascii_alnum c = true -> is_ascii_alnum (ascii_lower c) = true.
Proof.
  intros H. unfold ascii_lower.
  destruct ((65 <=? c) && (c <=? 90)) eqn:E; [|exact H].
  apply andb_true_iff in E as [E1 E2]. apply Z.leb_le in E1, E2.
  unfold is_ascii_alnum, is_ascii_alpha.
  rewrite !orb_true_iff, !andb_true_iff, !Z.leb_le. lia.
Qed.

Lemma piece_ok_lower p : piece_ok p = true -> piece_ok (lower_piece p) = true.
Proof.
  destruct p as [c|b0 b1|c|]; intros H; cbn [lower_piece]; try exact H.
  - now apply alnum_lower.
  - destruct (Z.eqb_spec b0 0xD0) as [->|E]; [|exact H].
    destruct (Z.leb_spec 0x90 b1), (Z.leb_spec b1 0x9F); cbn [andb].
    1: { cbn [piece_ok]. rewrite !andb_true_iff, !Z.leb_le. cbn. lia. }
    all: destruct (Z.leb_spec 0xA0 b1), (Z.leb_spec b1 0xAF); cbn [andb]; try lia.
    all: try (cbn [piece_ok]; rewrite !andb_true_iff, !Z.leb_le; cbn; lia).
    all: destruct (Z.eqb_spec b1 0x81); [reflexivity|exact H].
Qed.

Lemma starts_lower p : starts (lower_piece p) = starts p.
Proof. destruct p; cbn [lower_piece starts]; repeat case_match; reflexivity. Qed.

Lemma is_digit_piece_lower p : is_digit_piece (lower_piece p) = is_digit_piece p.
Proof.
  destruct p; cbn [lower_piece is_digit_piece]; repeat case_match;
    try reflexivity. apply digit_lower.
Qed.

Lemma follows_lower prev p :
  follows prev p = true ->
  follows (lower_piece <$> prev) (lower_piece p) = true.
Proof.
  assert (Hd : forall q, lower_piece q = Dot <-> q = Dot).
  { intros [c|b0 b1|c|]; cbn [lower_piece]; repeat case_match; split; congruence. }
  destruct p as [c|b0 b1|c|].
  - cbn [lower_piece follows]. destruct prev as [q|]; cbn [fmap option_fmap option_map]; [|tauto].
    destruct q; cbn [lower_piece]; repeat case_match; try tauto; try discriminate.
    cbn [is_digit_piece]. now rewrite digit_lower.
  - intros H.
    assert (Hc : exists c0 c1, lower_piece (Cyr b0 b1) = Cyr c0 c1)
      by (cbn [lower_piece]; repeat case_match; eauto).
    destruct Hc as (c0 & c1 & ->). cbn [follows].
    destruct prev as [q|]; cbn [fmap option_fmap option_map]; [|reflexivity].
    destruct (lower_piece q) eqn:E'; try reflexivity.
    apply (proj1 (Hd q)) in E'. subst q. discriminate H.
  - cbn [lower_piece follows]. destruct prev as [q|]; cbn [fmap option_fmap option_map]; [|tauto].
    now rewrite starts_lower.
  - cbn [lower_piece follows]. destruct prev as [q|]; cbn [fmap option_fmap option_map]; [|tauto].
    now rewrite is_digit_piece_lower.
Qed.

Lemma shaped_lower ps : forall prev,
  shaped prev ps = true ->
  shaped (lower_piece <$> prev) (lower_piece <$> ps) = true.
Proof.
  induction ps as [|p ps IH]; intros prev H; [reflexivity|].
  cbn [shaped fmap list_fmap] in *.
  apply andb_true_iff in H as [H H3]. apply andb_true_iff in H as [H1 H2].
  rewrite (piece_ok_lower _ H1), (follows_lower _ _ H2). apply (IH (Some p) H3).
Qed.

Lemma closed_lower ps : closed (lower_piece <$> ps) = closed ps.
Proof.
  unfold closed. rewrite fmap_last. destruct (last ps); cbn; [apply starts_lower|reflexivity].
Qed.

Lemma shaped_pieces_ok ps : forall prev,
  shaped prev ps = true -> Forall (fun p => piece_ok p = true) ps.
Proof.
  induction ps as [|p ps IH]; intros prev H; [constructor|].
  cbn [shaped] in H. apply andb_true_iff in H as [H H3].
  apply andb_true_iff in H as [H1 _]. constructor; eauto.
Qed.

Lemma fold_one_piece p rest :
  piece_ok p = true ->
  cyr_fold (map ascii_lower (piece_bytes p) ++ rest)
  = piece_bytes (lower_piece p) ++ cyr_fold rest.
Proof.
  destruct p as [c|b0 b1|c|]; cbn [piece_ok piece_bytes lower_piece map app]; intros H.
  - apply alnum_bounds in H.
    assert (ascii_lower c <= 122)
      by (unfold ascii_lower; destruct (Z.leb_spec 65 c), (Z.leb_spec c 90); cbn [andb]; lia).
    now rewrite cyr_fold_cons_other by lia.
  - apply andb_true_iff in H as [H0 H1]. apply andb_true_iff in H1 as [H1 H2].
    apply Z.leb_le in H1, H2. apply orb_true_iff in H0.
    rewrite (ascii_lower_high b0), (ascii_lower_high b1) by lia.
    cbn [cyr_fold cyr_fold_from].
    destruct (Z.eqb_spec b0 0xD0) as [->|E].
    + destruct (Z.leb_spec 0x90 b1), (Z.leb_spec b1 0x9F); cbn [andb].
      1: { rewrite cyr_fold_from_other by lia. reflexivity. }
      all: destruct (Z.leb_spec 0xA0 b1), (Z.leb_spec b1 0xAF); cbn [andb]; try lia.
      all: try (rewrite cyr_fold_from_other by lia; reflexivity).
      all: destruct (Z.eqb_spec b1 0x81); rewrite cyr_fold_from_other by lia; reflexivity.
    + rewrite cyr_fold_from_other by lia. reflexivity.
  - assert (Hc : c = 45 \/ c = 43 \/ c = 39) by (rewrite !orb_true_iff, !Z.eqb_eq in H; tauto).
    replace (ascii_lower c) with c by (destruct Hc as [->|[->| ->]]; reflexivity).
    now rewrite cyr_fold_cons_other by lia.
  - change (ascii_lower 46) with 46. now rewrite cyr_fold_cons_other by lia.
Qed.

Lemma lowercase_bytes_of ps :
  Forall (fun p => piece_ok p = true) ps ->
  lowercase_inplace (bytes_of ps) = bytes_of (lower_piece <$> ps).
Proof.
  unfold lowercase_inplace, bytes_of.
  induction 1 as [|p ps Hp _ IH]; [reflexivity|].
  cbn [map concat fmap list_fmap]. rewrite map_app, fold_one_piece by assumption.
  now rewrite IH.
Qed.

(** Case folding maps tokens of the grammar to tokens of the grammar. *)
Lemma token_lower ps :
  shaped None ps = true -> closed ps = true ->
  token (lowercase_inplace (bytes_of ps)).
Proof.
  intros Hs Hc. exists (lower_piece <$> ps). split; [|split].
  - apply (shaped_lower ps None Hs).
  - now rewrite closed_lower.
  - apply lowercase_bytes_of. eapply shaped_pieces_ok, Hs.
Qed.

Lemma lowercase_inplace_fixed s :
  lowercase_inplace (lowercase_inplace s) = lowercase_inplace s.
Proof.
  unfold lowercase_inplace at 1.
  rewrite (map_ascii_lower_fixed _ (lowercase_inplace_no_upper s)).
  unfold lowercase_inplace. apply cyr_fold_idem.
Qed.

Lemma emitted_lower ps :
  shaped None ps = true -> closed ps = true ->
  emitted (lowercase_inplace (bytes_of ps)).
Proof.
  intros Hs Hc. split; [now apply token_lower | apply lowercase_inplace_fixed].
Qed.

(** *** The loop builds tokens of the grammar *)

Lemma digit_alnum c : BoolIndex.is_ascii_digit c = true -> is_ascii_alnum c = true.
Proof. unfold is_ascii_alnum. intros ->. apply orb_true_r. Qed.

(** When the loop is past the input, or looks at a byte that starts
    nothing, the last appended piece was a letter or a digit. *)
Lemma pending_closed line i ps :
  pending line i ps ->
  (length line <= i)%nat
  \/ (is_ascii_alnum (byte_at line i) = false /\ is_cyr2_start line i = false) ->
  ps = [] \/ closed ps = true.
Proof.
  unfold pending, closed. intros Hp Hc.
  destruct (last ps) as [q|] eqn:E; [|left; now apply last_None].
  right. destruct q as [c|b0 b1|c|]; try reflexivity; exfalso.
  - unfold is_tok_start in Hp.
    destruct (Nat.leb_spec (length line) i); [discriminate|].
    destruct Hc as [Hc|[Ha Hb]]; [lia|]. rewrite Ha, Hb in Hp. discriminate.
  - apply andb_true_iff in Hp as [Hi Hd]. apply Nat.ltb_lt in Hi.
    destruct Hc as [Hc|[Ha Hb]]; [lia|]. apply digit_alnum in Hd. congruence.
Qed.

Lemma closed_last ps : closed ps = true -> exists ps0 q, ps = ps0 ++ [q] /\ starts q = true.
Proof.
  unfold closed. destruct (last ps) as [q|] eqn:E; [|discriminate].
  apply last_Some in E as [ps0 ->]. eauto.
Qed.

Lemma is_empty_bytes_of ps : BoolIndex.is_empty (bytes_of ps) = true -> ps = [].
Proof.
  intros H. apply bytes_of_nil. now destruct (bytes_of ps).
Qed.

Lemma tokenize_loop_emitted fuel : forall line i cur out ps,
  (length line - i <= fuel)%nat ->
  cur = bytes_of ps -> shaped None ps = true -> pending line i ps ->
  Forall emitted out ->
  exists ps', fst (BoolIndex.tokenize_loop fuel line i cur out) = bytes_of ps'
              /\ shaped None ps' = true /\ (ps' = [] \/ closed ps' = true)
              /\ Forall emitted (snd (BoolIndex.tokenize_loop fuel line i cur out)).
Proof.
  induction fuel as [|fuel IH]; intros line i cur out ps Hf Hcur Hs Hp Ho.
  - cbn [BoolIndex.tokenize_loop fst snd]. exists ps. repeat split; try assumption.
    apply (pending_closed line i ps Hp). left. lia.
  - cbn [BoolIndex.tokenize_loop].
    destruct (Nat.leb_spec (length line) i) as [Hi|Hi].
    { cbn [fst snd]. exists ps. repeat split; try assumption.
      apply (pending_closed line i ps Hp). now left. }
    destruct (is_ascii_alnum (byte_at line i)) eqn:Ea.
    { apply (IH line (i + 1)%nat _ out (ps ++ [Alnum (byte_at line i)])); try assumption.
      - lia.
      - now rewrite bytes_of_snoc, Hcur.
      - rewrite shaped_snoc, Hs. cbn [andb piece_ok follows]. rewrite Ea. cbn [andb].
        unfold pending in Hp. destruct (last ps) as [[| | |]|]; try reflexivity.
        apply andb_true_iff in Hp as [_ Hd]. exact Hd.
      - unfold pending. now rewrite last_snoc. }
    destruct (is_cyr2_start line i) eqn:Ec.
    { apply (IH line (i + 2)%nat _ out
               (ps ++ [Cyr (byte_at line i) (byte_at line (i + 1))])); try assumption.
      - lia.
      - now rewrite bytes_of_snoc, Hcur.
      - rewrite shaped_snoc, Hs. cbn [andb piece_ok follows].
        unfold is_cyr2_start in Ec.
        destruct (length line <=? i + 1)%nat; [discriminate|].
        destruct ((byte_at line i =? 208) || (byte_at line i =? 209)); [|discriminate].
        cbn [negb] in Ec. rewrite Ec. cbn [andb].
        unfold pending in Hp. destruct (last ps) as [[| | |]|]; try reflexivity.
        apply andb_true_iff in Hp as [_ Hd]. apply digit_alnum in Hd. congruence.
      - unfold pending. now rewrite last_snoc. }
    assert (Hcl : ps = [] \/ closed ps = true)
      by (apply (pending_closed line i ps Hp); now right).
    destruct (negb (BoolIndex.is_empty cur)
              && ((byte_at line i =? 45) || (byte_at line i =? 43) || (byte_at line i =? 39))
              && is_tok_start line (i + 1)) eqn:Ej.
    { apply andb_true_iff in Ej as [Ej Ht]. apply andb_true_iff in Ej as [Hne Hc].
      apply (IH line (i + 1)%nat _ out (ps ++ [Joiner (byte_at line i)])); try assumption.
      - lia.
      - now rewrite bytes_of_snoc, Hcur.
      - rewrite shaped_snoc, Hs. cbn [andb piece_ok follows]. rewrite Hc. cbn [andb].
        destruct Hcl as [->|Hcl]; [subst cur; discriminate Hne|].
        unfold closed in Hcl. now destruct (last ps).
      - unfold pending. now rewrite last_snoc. }
    destruct (negb (BoolIndex.is_empty cur) && (byte_at line i =? 46)
              && BoolIndex.is_ascii_digit (BoolIndex.back cur)
              && (i + 1 <? length line)%nat
              && BoolIndex.is_ascii_digit (byte_at line (i + 1))) eqn:Ed.
    { apply andb_true_iff in Ed as [Ed Hn]. apply andb_true_iff in Ed as [Ed Hl].
      apply andb_true_iff in Ed as [Ed Hb]. apply andb_true_iff in Ed as [Hne Hc].
      apply (IH line (i + 1)%nat _ out (ps ++ [Dot])); try assumption.
      - lia.
      - now rewrite bytes_of_snoc, Hcur.
      - rewrite shaped_snoc, Hs. cbn [andb piece_ok follows].
        destruct Hcl as [->|Hcl]; [subst cur; discriminate Hne|].
        apply closed_last in Hcl as (ps0 & q & -> & Hq). rewrite last_snoc.
        subst cur. rewrite back_bytes_of in Hb.
        destruct q as [c|b0 b1|c|]; try discriminate Hq; [exact Hb|].
        rewrite shaped_snoc in Hs. apply andb_true_iff in Hs as [_ Hs].
        apply andb_true_iff in Hs as [Hs _]. cbn [piece_ok] in Hs.
        apply andb_true_iff in Hs as [_ Hs]. apply andb_true_iff in Hs as [Hs _].
        apply Z.leb_le in Hs. unfold BoolIndex.is_ascii_digit in Hb.
        apply andb_true_iff in Hb as [_ Hb]. apply Z.leb_le in Hb. lia.
      - unfold pending. rewrite last_snoc. now rewrite Hl, Hn. }
    destruct Hcl as [->|Hcl].
    + subst cur. cbn [bytes_of map concat BoolIndex.flush].
      apply (IH line (i + 1)%nat [] out []); try assumption; try reflexivity;
        try lia; exact I.
    + assert (Hflush : BoolIndex.flush cur out = ([], out ++ [lowercase_inplace cur])).
      { unfold BoolIndex.flush. destruct cur as [|b cur']; [|reflexivity].
        symmetry in Hcur. apply bytes_of_nil in Hcur. subst ps. discriminate Hcl. }
      rewrite Hflush.
      apply (IH line (i + 1)%nat [] _ []); try reflexivity; try lia; try exact I.
      apply Forall_app. split; [assumption|]. constructor; [|constructor].
        subst cur. now apply emitted_lower.
Qed.

(** *** Tokenizing a token *)

Lemma byte_at_pre0 (pre : list Z) x l : byte_at (pre ++ x :: l) (length pre) = x.
Proof.
  pose proof (byte_at_app_r pre (x :: l) 0) as H. now rewrite Nat.add_0_r in H.
Qed.

Lemma byte_at_pre1 (pre : list Z) x y l :
  byte_at (pre ++ x :: y :: l) (length pre + 1) = y.
Proof. apply (byte_at_app_r pre (x :: y :: l) 1). Qed.

Lemma byte_at_pre2 (pre : list Z) x y z l :
  byte_at (pre ++ x :: y :: z :: l) (length pre + 2) = z.
Proof. apply (byte_at_app_r pre (x :: y :: z :: l) 2). Qed.

Lemma cyr_not_alnum b0 :
  (b0 =? 0xD0) || (b0 =? 0xD1) = true -> is_ascii_alnum b0 = false.
Proof.
  rewrite orb_true_iff, !Z.eqb_eq. intros [-> | ->]; reflexivity.
Qed.

Lemma is_cyr2_start_pre pre b0 b1 post :
  piece_ok (Cyr b0 b1) = true ->
  is_cyr2_start (pre ++ b0 :: b1 :: post) (length pre) = true.
Proof.
  cbn [piece_ok]. intros H. apply andb_true_iff in H as [H0 H1].
  unfold is_cyr2_start. rewrite length_app. cbn [length].
  destruct (Nat.leb_spec (length pre + S (S (length post))) (length pre + 1)); [lia|].
  now rewrite byte_at_pre0, byte_at_pre1, H0.
Qed.

(** The byte after a joiner or a period starts the next piece. *)
Lemma is_tok_start_pre pre x p qs :
  piece_ok p = true -> starts p = true ->
  is_tok_start (pre ++ x :: bytes_of (p :: qs)) (length pre + 1) = true.
Proof.
  intros Hok Hst. unfold is_tok_start, bytes_of. cbn [map concat].
  rewrite length_app. cbn [length].
  destruct p as [c|b0 b1|c|]; try discriminate Hst; cbn [piece_bytes app length].
  - destruct (Nat.leb_spec (length pre + S (S (length (concat (map piece_bytes qs)))))
                (length pre + 1)); [lia|].
    rewrite byte_at_pre1. cbn [piece_ok] in Hok. now rewrite Hok.
  - destruct (Nat.leb_spec (length pre + S (S (S (length (concat (map piece_bytes qs))))))
                (length pre + 1)); [lia|].
    apply orb_true_iff. right.
    pose proof (is_cyr2_start_pre (pre ++ [x]) b0 b1 (concat (map piece_bytes qs)) Hok) as H'.
    rewrite <- app_assoc, length_app in H'. exact H'.
Qed.

Lemma joiner_not_start pre c post :
  (c =? 45) || (c =? 43) || (c =? 39) || (c =? 46) = true ->
  is_ascii_alnum c = false /\ is_cyr2_start (pre ++ c :: post) (length pre) = false.
Proof.
  rewrite !orb_true_iff, !Z.eqb_eq. intros H. split.
  - destruct H as [[[-> | ->] | ->] | ->]; reflexivity.
  - unfold is_cyr2_start. destruct (length (pre ++ c :: post) <=? length pre + 1)%nat;
      [reflexivity|].
    rewrite byte_at_pre0. destruct H as [[[-> | ->] | ->] | ->]; reflexivity.
Qed.

Lemma bytes_of_empty ps : ps <> [] -> BoolIndex.is_empty (bytes_of ps) = false.
Proof.
  intros H. destruct (bytes_of ps) eqn:E; [|reflexivity].
  apply bytes_of_nil in E. contradiction.
Qed.

(** Run on a token of the grammar, the loop appends piece after piece and
    flushes nothing before the end. *)
Lemma tokenize_loop_replay ps2 : forall ps1 fuel,
  shaped None (ps1 ++ ps2) = true -> closed (ps1 ++ ps2) = true ->
  (length (bytes_of ps2) <= fuel)%nat ->
  BoolIndex.tokenize_loop fuel (bytes_of (ps1 ++ ps2)) (length (bytes_of ps1))
                          (bytes_of ps1) []
  = (bytes_of (ps1 ++ ps2), []).
Proof.
  induction ps2 as [|p ps2 IH]; intros ps1 fuel Hs Hc Hf.
  - rewrite app_nil_r. destruct fuel; cbn [BoolIndex.tokenize_loop]; [reflexivity|].
    now rewrite Nat.leb_refl.
  - assert (Hstep : BoolIndex.tokenize_loop fuel (bytes_of (ps1 ++ p :: ps2))
                      (length (bytes_of ps1)) (bytes_of ps1) []
                    = BoolIndex.tokenize_loop (Nat.pred fuel) (bytes_of (ps1 ++ p :: ps2))
                        (length (bytes_of (ps1 ++ [p]))) (bytes_of (ps1 ++ [p])) []).
    { pose proof Hs as Hs'. rewrite shaped_app in Hs'.
      apply andb_true_iff in Hs' as [_ Hs']. cbn [shaped] in Hs'.
      apply andb_true_iff in Hs' as [Hs' Hrest]. apply andb_true_iff in Hs' as [Hok Hfol].
      assert (Hprev : prev_of None ps1 = last ps1)
        by (unfold prev_of; now destruct (last ps1)).
      rewrite Hprev in Hfol.
      assert (Hnext : starts p = false ->
                      exists p' ps2', ps2 = p' :: ps2' /\ piece_ok p' = true
                                      /\ follows (Some p) p' = true).
      { intros Hst. destruct ps2 as [|p' ps2'].
        - unfold closed in Hc. rewrite last_snoc in Hc. congruence.
        - cbn [shaped] in Hrest. apply andb_true_iff in Hrest as [Hr _].
          apply andb_true_iff in Hr as [? ?]. eauto. }
      rewrite bytes_of_app, bytes_of_snoc.
      change (bytes_of (p :: ps2)) with (piece_bytes p ++ bytes_of ps2) in Hf |- *.
      rewrite length_app.
      destruct fuel as [|fuel];
        [rewrite length_app in Hf; destruct p; cbn in Hf; lia|].
      cbn [Nat.pred BoolIndex.tokenize_loop].
      destruct (Nat.leb_spec (length (bytes_of ps1 ++ piece_bytes p ++ bytes_of ps2))
                  (length (bytes_of ps1))) as [Hl|Hl];
        [rewrite !length_app in Hl; destruct p; cbn in Hl; lia|].
      destruct p as [c|b0 b1|c|]; cbn [piece_bytes app length] in *.
      - rewrite byte_at_pre0. cbn [piece_ok] in Hok. now rewrite Hok.
      - rewrite byte_at_pre0.
        pose proof Hok as Hok'. cbn [piece_ok] in Hok'.
        apply andb_true_iff in Hok' as [H0 _].
        rewrite (cyr_not_alnum _ H0), (is_cyr2_start_pre _ _ _ _ Hok).
        now rewrite byte_at_pre1.
      - rewrite byte_at_pre0. cbn [piece_ok] in Hok.
        destruct (joiner_not_start (bytes_of ps1) c (bytes_of ps2)) as [-> ->];
          [now rewrite Hok|].
        rewrite Hok.
        destruct (last ps1) as [q|] eqn:El; [|discriminate Hfol].
        assert (Hne : ps1 <> []) by (intros ->; discriminate El).
        rewrite (bytes_of_empty _ Hne). cbn [negb andb].
        destruct (Hnext eq_refl) as (p' & ps2' & -> & Hok' & Hfol').
        assert (Hst' : starts p' = true) by (now destruct p').
        now rewrite (is_tok_start_pre _ _ _ _ Hok' Hst').
      - rewrite byte_at_pre0.
        destruct (joiner_not_start (bytes_of ps1) 46 (bytes_of ps2)) as [-> ->];
          [reflexivity|].
        cbn [Z.eqb Pos.eqb orb andb].
        destruct (last ps1) as [q|] eqn:El; [|discriminate Hfol].
        apply last_Some in El as [ps0 ->].
        rewrite (bytes_of_empty (ps0 ++ [q])) by (now destruct ps0).
        rewrite back_bytes_of.
        destruct q as [d| | |]; try discriminate Hfol. cbn [follows is_digit_piece] in Hfol.
        rewrite Hfol. cbn [negb andb].
        destruct (Hnext eq_refl) as (p' & ps2' & -> & Hok' & Hfol').
        destruct p' as [d'| | |]; try discriminate Hfol'. cbn [follows is_digit_piece] in Hfol'.
        change (bytes_of (Alnum d' :: ps2')) with (d' :: bytes_of ps2').
        rewrite byte_at_pre1, Hfol'.
        rewrite length_app. cbn [length].
        destruct (Nat.ltb_spec (length (bytes_of (ps0 ++ [Alnum d])) + 1)
                    (length (bytes_of (ps0 ++ [Alnum d])) + S (S (length (bytes_of ps2')))));
          [reflexivity|lia]. }
    rewrite Hstep.
    replace (ps1 ++ p :: ps2) with ((ps1 ++ [p]) ++ ps2) in * by now rewrite <- app_assoc.
    apply IH; try assumption.
    change (bytes_of (p :: ps2)) with (piece_bytes p ++ bytes_of ps2) in Hf.
    rewrite length_app in Hf. destruct p; cbn [piece_bytes length] in Hf; lia.
Qed.

Lemma tokenize_line_token ps :
  shaped None ps = true -> closed ps = true ->
  BoolIndex.tokenize_line (bytes_of ps) = [lowercase_inplace (bytes_of ps)].
Proof.
  intros Hs Hc. unfold BoolIndex.tokenize_line.
  pose proof (tokenize_loop_replay ps [] (length (bytes_of ps)) Hs Hc (le_n _)) as H.
  cbn [app bytes_of map concat length] in H. fold (bytes_of ps) in H. rewrite H.
  unfold BoolIndex.flush. destruct (bytes_of ps) eqn:E; [|reflexivity].
  apply bytes_of_nil in E. subst ps. discriminate Hc.
Qed.

(** Every token that [tokenize_line] emits is not empty, is left unchanged
    by [lowercase_inplace], and is a fixed point of tokenization: the line
    made of that token alone is tokenized to exactly that token. *)
Theorem tokenize_line_stable (line t : list Z) :
  t ∈ BoolIndex.tokenize_line line ->
  t <> [] /\ lowercase_inplace t = t /\ BoolIndex.tokenize_line t = [t].
Proof.
  intros Ht.
  assert (He : emitted t).
  { unfold BoolIndex.tokenize_line in Ht.
    destruct (tokenize_loop_emitted (length line) line 0 [] [] []) as (ps & Hc & Hs & Hcl & Ho);
      try reflexivity; try lia; try exact I; [constructor|].
    destruct (BoolIndex.tokenize_loop (length line) line 0 [] []) as [cur out].
    cbn [fst snd] in Hc, Ho. subst cur.
    destruct Hcl as [->|Hcl].
    - cbn in Ht. rewrite Forall_forall in Ho. now apply Ho.
    - assert (Hflush : BoolIndex.flush (bytes_of ps) out
                       = ([], out ++ [lowercase_inplace (bytes_of ps)])).
      { unfold BoolIndex.flush. destruct (bytes_of ps) eqn:E; [|reflexivity].
        apply bytes_of_nil in E. subst ps. discriminate Hcl. }
      rewrite Hflush in Ht. cbn [snd] in Ht.
      apply elem_of_app in Ht as [Ht|Ht].
      + rewrite Forall_forall in Ho. now apply Ho.
      + apply list_elem_of_singleton in Ht. subst t. now apply emitted_lower. }
  destruct He as [(ps & Hs & Hc & ->) Hl]. split; [|split].
  - intros E. apply bytes_of_nil in E. subst ps. discriminate Hc.
  - exact Hl.
  - rewrite (tokenize_line_token ps Hs Hc). now rewrite Hl.
Qed.

Lemma tokenize_line_stable_witness :
  str "o'neil" ∈ BoolIndex.tokenize_line (str "Mr. O'Neil, 3.14!") /\
  BoolIndex.tokenize_line (str "o'neil") = [str "o'neil"].
Proof.
  assert (H : str "o'neil" ∈ BoolIndex.tokenize_line (str "Mr. O'Neil, 3.14!"))
    by (vm_compute; apply list_elem_of_In; cbn; tauto).
  split; [exact H|]. exact (proj2 (proj2 (tokenize_line_stable _ _ H))).
Defined.

End ByteTokenizerFacts.

(** ** The index builder *)

Module BuildFacts.
Import Bytes BoolIndex BuildInv BoolIndexFacts IndexReaderFacts.

(** *** Finalisation of an entry *)

Lemma finalize_entry_term e : term (finalize_entry e) = term e.
Proof.
  unfold finalize_entry.
  now destruct (compact_loop _ _ 0 0) as [a w].
Qed.

Lemma finalize_entry_members e d :
  d ∈ postings (finalize_entry e) <-> d ∈ postings e.
Proof.
  destruct (finalize_entry_postings e) as [-> _]. split.
  - intros H%dedup_adj_elem. now rewrite (merge_sort_Permutation Z.le (postings e)) in H.
  - intros H. rewrite <- (merge_sort_Permutation Z.le (postings e)) in H.
    destruct (elem_dedup_adj d None _ H) as [?|?]; [assumption|discriminate].
Qed.

(** The finalisation loop leaves in an entry the set of its docids, each
    once, in strictly ascending order, with [df] their number; the term is
    untouched. *)
Theorem finalize_entry_spec (e : TermEntry) :
  Z.of_nat (length (postings e)) < 2 ^ 32 ->
  term (finalize_entry e) = term e
  /\ StronglySorted Z.lt (postings (finalize_entry e))
  /\ (forall d, d ∈ postings (finalize_entry e) <-> d ∈ postings e)
  /\ df (finalize_entry e) = Z.of_nat (length (postings (finalize_entry e))).
Proof.
  intros Hn. split; [apply finalize_entry_term|].
  split; [|split; [intros d; apply finalize_entry_members|]].
  - destruct (finalize_entry_postings e) as [-> _].
    apply dedup_adj_None_ascending, StronglySorted_merge_sort; apply _.
  - destruct (finalize_entry_postings e) as [-> ->].
    unfold wrap32. apply Z.mod_small. split; [lia|].
    eapply Z.le_lt_trans; [|exact Hn]. apply inj_le.
    etransitivity; [apply dedup_adj_length|].
    now rewrite (Permutation_length (merge_sort_Permutation Z.le (postings e))).
Qed.

Lemma finalize_entry_spec_witness :
  postings (finalize_entry (mkTermEntry (str "ab") 4 [7; 3; 7; 5])) = [3; 5; 7]
  /\ df (finalize_entry (mkTermEntry (str "ab") 4 [7; 3; 7; 5])) = 3.
Proof.
  destruct (finalize_entry_spec (mkTermEntry (str "ab") 4 [7; 3; 7; 5]))
    as (_ & _ & _ & Hdf); [cbn; lia|].
  split; [reflexivity|]. rewrite Hdf. reflexivity.
Defined.

(** *** The written files *)

Lemma write_fold_prefix arr : forall out,
  exists ls bs,
    terms_tsv (foldl write_entry out arr) = terms_tsv out ++ ls
    /\ postings_bin (foldl write_entry out arr) = postings_bin out ++ bs
    /\ length ls = length arr
    /\ map tl_term ls = map term arr.
Proof.
  induction arr as [|e arr IH]; intros out; cbn [foldl].
  - exists [], []. now rewrite !app_nil_r.
  - destruct (IH (write_entry out e)) as (ls & bs & Ht & Hp & Hl & Hm).
    rewrite Ht, Hp. unfold write_entry at 1 2. cbn [terms_tsv postings_bin].
    rewrite <- !app_assoc. cbn [app].
    eexists (_ :: ls), (_ ++ bs).
    split; [reflexivity|]. split; [reflexivity|]. split; [cbn; now rewrite Hl|].
    cbn [map tl_term]. now rewrite Hm, finalize_entry_term.
Qed.

Lemma total_postings_nonneg arr : 0 <= total_postings arr.
Proof.
  induction arr as [|x arr IH]; [cbn; lia|]. rewrite total_postings_cons. lia.
Qed.

(** The line written for the [k]-th entry, and what its offset and length
    deliver from the finished postings file. *)
Lemma write_fold_nth arr : forall out k e,
  Forall wf_entry arr ->
  next_offset out = Z.of_nat (length (postings_bin out)) ->
  Z.of_nat (length (postings_bin out)) + 4 * total_postings arr < 2 ^ 64 ->
  arr !! k = Some e ->
  exists l,
    terms_tsv (foldl write_entry out arr) !! (length (terms_tsv out) + k)%nat = Some l
    /\ tl_term l = term e
    /\ tl_df l = Z.of_nat (length (postings (finalize_entry e)))
    /\ tl_post_len l = 4 * tl_df l
    /\ read_u32_array (postings_bin (foldl write_entry out arr))
                      (tl_post_off l) (tl_post_len l)
       = Some (postings (finalize_entry e)).
Proof.
  induction arr as [|x arr IH]; intros out k e Hwf Hoff Hb Hk; [discriminate|].
  apply Forall_cons in Hwf as [Hx Hwf]. cbn [foldl].
  destruct (finalize_entry_ok x Hx) as (Hs & Hu & Hdf & Hle).
  rewrite total_postings_cons in Hb. pose proof (total_postings_nonneg arr) as Hnn.
  assert (Hlenb : wrap64 (Z.of_nat (length (postings (finalize_entry x))) * 4)
                  = Z.of_nat (length (postings (finalize_entry x))) * 4)
    by (unfold wrap64; apply Z.mod_small; lia).
  assert (Hoff1 : next_offset (write_entry out x)
                  = Z.of_nat (length (postings_bin (write_entry out x)))).
  { unfold write_entry. cbn [next_offset postings_bin].
    rewrite Hlenb, Hoff, length_app, u32_array_bytes_length.
    unfold wrap64. rewrite Z.mod_small by lia. lia. }
  assert (Hb1 : Z.of_nat (length (postings_bin (write_entry out x)))
                + 4 * total_postings arr < 2 ^ 64).
  { unfold write_entry. cbn [postings_bin].
    rewrite length_app, u32_array_bytes_length. lia. }
  destruct k as [|k]; cbn [lookup list_lookup] in Hk.
  - injection Hk as ->.
    destruct (write_fold_prefix arr (write_entry out e)) as (ls & bs & Ht & Hp & _).
    rewrite Ht, Hp. unfold write_entry. cbn [terms_tsv postings_bin].
    eexists. split.
    { rewrite <- app_assoc. rewrite Nat.add_0_r.
      rewrite lookup_app_r by lia. rewrite Nat.sub_diag. reflexivity. }
    cbn [tl_term tl_df tl_post_len tl_post_off]. rewrite Hlenb, Hdf, Hoff.
    split; [apply finalize_entry_term|]. split; [reflexivity|]. split; [lia|].
    rewrite read_u32_array_app.
    + apply read_u32_array_at_end, Hu.
    + lia.
    + lia.
    + rewrite length_app, u32_array_bytes_length. lia.
  - destruct (IH (write_entry out x) k e Hwf Hoff1 Hb1 Hk) as (l & Hl & Hrest).
    exists l. split; [|exact Hrest].
    rewrite <- Hl. f_equal. unfold write_entry. cbn [terms_tsv].
    rewrite length_app. cbn [length]. lia.
Qed.

(** Every entry handed to the writing loop gets the line at its own
    position in [terms.tsv], with its term, [df] the number of its distinct
    docids and [post_len = 4 * df]; reading [post_len] bytes at [post_off]
    of [postings.bin] gives back its finalised posting list. *)
Theorem write_index_round_trip (arr : list TermEntry) (k : nat) (e : TermEntry) :
  Forall wf_entry arr -> 4 * total_postings arr < 2 ^ 64 ->
  arr !! k = Some e ->
  length (terms_tsv (write_index arr)) = length arr
  /\ exists l,
       terms_tsv (write_index arr) !! k = Some l
       /\ tl_term l = term e
       /\ tl_df l = Z.of_nat (length (postings (finalize_entry e)))
       /\ tl_post_len l = 4 * tl_df l
       /\ read_u32_array (postings_bin (write_index arr)) (tl_post_off l) (tl_post_len l)
          = Some (postings (finalize_entry e)).
Proof.
  intros Hwf Hb Hk. unfold write_index. split.
  - destruct (write_fold_prefix arr (mkIndexFiles [] [] 0)) as (ls & bs & -> & _ & Hl & _).
    exact Hl.
  - apply (write_fold_nth arr (mkIndexFiles [] [] 0) k e Hwf); [reflexivity| |exact Hk].
    cbn [postings_bin length]. lia.
Qed.

Lemma write_index_round_trip_witness :
  Forall wf_entry [mkTermEntry (str "ab") 2 [9; 4]; mkTermEntry (str "b") 1 [4]]
  /\ exists l,
       terms_tsv (write_index [mkTermEntry (str "ab") 2 [9; 4]; mkTermEntry (str "b") 1 [4]])
         !! 1%nat = Some l
       /\ tl_term l = str "b" /\ tl_post_len l = 4 * tl_df l
       /\ read_u32_array
            (postings_bin (write_index [mkTermEntry (str "ab") 2 [9; 4];
                                        mkTermEntry (str "b") 1 [4]]))
            (tl_post_off l) (tl_post_len l) = Some [4].
Proof.
  assert (Hwf : Forall wf_entry [mkTermEntry (str "ab") 2 [9; 4]; mkTermEntry (str "b") 1 [4]]).
  { repeat constructor; unfold is_u32; cbn; lia. }
  split; [exact Hwf|].
  destruct (write_index_round_trip _ 1 (mkTermEntry (str "b") 1 [4]) Hwf)
    as (_ & l & Hl & Ht & _ & Hlen & Hr); [cbn; lia | reflexivity |].
  exists l. repeat split; assumption.
Defined.

(** *** The term table during a build *)

Lemma table_ok_mono ids ids' tt :
  (forall d, d ∈ ids -> d ∈ ids') -> table_ok ids tt -> table_ok ids' tt.
Proof.
  intros Hsub [Hnd Hall]. split; [exact Hnd|].
  eapply Forall_impl; [exact Hall|]. intros e He. cbv beta in *.
  eapply Forall_impl; [exact He|]. intros d [Hd Hu]. split; auto.
Qed.

Lemma tt_get_or_add_ok ids tt t :
  table_ok ids tt -> table_ok ids (fst (tt_get_or_add tt t)).
Proof.
  intros [Hnd Hall]. unfold tt_get_or_add.
  destruct (list_find (fun e => term e = t) tt) as [[k x]|] eqn:Hf; cbn [fst];
    [split; assumption|].
  apply list_find_None in Hf. split.
  - unfold terms_of. rewrite map_app. cbn [map term]. apply NoDup_app.
    split; [exact Hnd|]. split; [|apply NoDup_singleton].
    intros u Hu Hin. apply list_elem_of_singleton in Hin. subst u.
    apply list_elem_of_fmap in Hu as (e & He & Hin).
    rewrite Forall_forall in Hf. apply (Hf e Hin). now symmetry.
  - apply Forall_app. split; [exact Hall|]. repeat constructor.
Qed.

Lemma record_posting_ok ids tt e d :
  table_ok ids tt -> d ∈ ids -> is_u32 d -> table_ok ids (record_posting tt e d).
Proof.
  intros [Hnd Hall] Hd Hu. split; [now rewrite terms_of_record|].
  unfold record_posting. apply Forall_alter; [exact Hall|].
  intros x _ Hx. cbn [postings]. apply Forall_app. split; [exact Hx|].
  constructor; [split; assumption | constructor].
Qed.

Section Table.
Variable addr : nat -> Z.

Lemma seen_probe_cap steps : forall ss e mask i,
  cap (snd (seen_probe steps ss e mask i)) = cap ss.
Proof.
  induction steps as [|steps IH]; intros ss e mask i; cbn [seen_probe]; [reflexivity|].
  destruct (slots ss !! Z.to_nat i) as [[cur|]|]; cbn [snd cap]; try reflexivity.
  destruct (cur =? e)%nat; [reflexivity|apply IH].
Qed.

Lemma index_token_ok ids docid s tok :
  docid ∈ ids -> is_u32 docid -> table_ok ids (tt s) ->
  table_ok ids (tt (index_token addr docid s tok))
  /\ cap (seen (index_token addr docid s tok)) = cap (seen s).
Proof.
  intros Hd Hu Hok. unfold index_token. destruct (BoolIndex.is_empty tok); [auto|].
  pose proof (tt_get_or_add_ok ids (tt s) tok Hok) as Hok1.
  destruct (tt_get_or_add (tt s) tok) as [tt1 e]. cbn [fst] in Hok1.
  pose proof (seen_probe_cap (Z.to_nat (cap (seen s))) (seen s) e
                (wrap32 (cap (seen s) - 1))
                (Z.land (wrap32 (ptr_hash (addr e))) (wrap32 (cap (seen s) - 1)))) as Hcap.
  fold (seen_insert addr (seen s) e) in Hcap.
  destruct (seen_insert addr (seen s) e) as [[|] seen1]; cbn [snd tt seen] in *.
  - split; [now apply record_posting_ok | exact Hcap].
  - split; [exact Hok1 | exact Hcap].
Qed.

Lemma index_tokens_ok ids docid toks : forall s,
  docid ∈ ids -> is_u32 docid -> table_ok ids (tt s) ->
  table_ok ids (tt (foldl (index_token addr docid) s toks))
  /\ cap (seen (foldl (index_token addr docid) s toks)) = cap (seen s).
Proof.
  induction toks as [|t toks IH]; intros s Hd Hu Hok; cbn [foldl]; [auto|].
  destruct (index_token_ok ids docid s t Hd Hu Hok) as [H1 H2].
  destruct (IH _ Hd Hu H1) as [H3 H4]. split; [exact H3|congruence].
Qed.

Lemma index_lines_ok ids docid body : forall s,
  docid ∈ ids -> is_u32 docid -> table_ok ids (tt s) ->
  table_ok ids (tt (foldl (index_line addr docid) s body))
  /\ cap (seen (foldl (index_line addr docid) s body)) = cap (seen s).
Proof.
  induction body as [|l body IH]; intros s Hd Hu Hok; cbn [foldl]; [auto|].
  assert (H12 : table_ok ids (tt (index_line addr docid s l))
                /\ cap (seen (index_line addr docid s l)) = cap (seen s)).
  { unfold index_line.
    match goal with |- context [foldl _ ?s0 _] =>
      apply (index_tokens_ok ids docid (tokenize_line l) s0 Hd Hu Hok) end. }
  destruct H12 as [H1 H2].
  destruct (IH _ Hd Hu H1) as [H3 H4]. split; [exact H3|congruence].
Qed.

Lemma assign_docid_u32 p : is_u32 (assign_docid p).
Proof. unfold assign_docid, wrap32, is_u32. apply Z.mod_pos_bound. lia. Qed.

(** One document: the table stays well formed over the extended directory
    and grows by at most [cap] postings. *)
Lemma index_document_ok p text s docs :
  table_ok (ids_of docs) (tt s) ->
  let r := index_document addr p text s docs in
  table_ok (ids_of (snd r)) (tt (fst r))
  /\ cap (seen (fst r)) = cap (seen s)
  /\ total_postings (tt (fst r)) <= total_postings (tt s) + Z.of_nat (Z.to_nat (cap (seen s)))
  /\ length (snd r) = S (length docs).
Proof.
  intros Hok. unfold index_document.
  destruct (parse_header (getlines text)) as [title url]. cbn [fst snd tt seen].
  set (docid := assign_docid p).
  set (docs' := docs ++ [mkDocLine docid (lang_of_path p) title url p]).
  assert (Hin : docid ∈ ids_of docs').
  { unfold ids_of, docs'. rewrite map_app. apply elem_of_app. right. left. }
  assert (Hok' : table_ok (ids_of docs') (tt s)).
  { eapply table_ok_mono; [|exact Hok]. intros d Hd. unfold ids_of, docs'.
    rewrite map_app. apply elem_of_app. now left. }
  destruct (index_lines_ok (ids_of docs') docid (drop 6 (getlines text))
              (mkBuildState (tt s) (seen_reset (seen s)) (st s)) Hin
              (assign_docid_u32 p) Hok') as [H1 H2].
  split; [exact H1|]. split; [exact H2|]. split.
  - apply (index_body_budget addr docid s).
  - unfold docs'. rewrite length_app. cbn [length]. lia.
Qed.

Lemma index_files_ok files : forall acc,
  table_ok (ids_of (snd acc)) (tt (fst acc)) ->
  0 <= cap (seen (fst acc)) ->
  let r := foldl (index_file addr) acc files in
  table_ok (ids_of (snd r)) (tt (fst r))
  /\ total_postings (tt (fst r))
     <= total_postings (tt (fst acc)) + Z.of_nat (length files) * cap (seen (fst acc)).
Proof.
  induction files as [|f files IH]; intros acc Hok Hcap; cbn [foldl].
  - split; [exact Hok|]. cbn [length]. lia.
  - assert (Hstep : table_ok (ids_of (snd (index_file addr acc f))) (tt (fst (index_file addr acc f)))
                    /\ cap (seen (fst (index_file addr acc f))) = cap (seen (fst acc))
                    /\ total_postings (tt (fst (index_file addr acc f)))
                       <= total_postings (tt (fst acc)) + cap (seen (fst acc))).
    { unfold index_file. destruct (content f) as [text|].
      - destruct (index_document_ok (path f) text (fst acc) (snd acc) Hok)
          as (H1 & H2 & H3 & _).
        rewrite Z2Nat.id in H3 by assumption. auto.
      - split; [exact Hok|]. split; [reflexivity|]. lia. }
    destruct Hstep as (H1 & H2 & H3).
    destruct (IH (index_file addr acc f) H1 ltac:(rewrite H2; assumption)) as [H4 H5].
    split; [exact H4|]. rewrite H2 in H5. cbn [length]. lia.
Qed.

End Table.

(** *** Sorting the dictionary *)

#[local] Instance term_le_total : Total term_le.
Proof.
  intros x y. unfold term_le, term_leb.
  rewrite (strcmp_antisym (term x) (term y)).
  destruct (strcmp (term x) (term y)); cbn; auto.
Qed.

#[local] Instance term_le_trans : Transitive term_le.
Proof.
  intros x y z. unfold term_le, term_leb.
  destruct (strcmp (term x) (term y)) eqn:Hxy; try discriminate;
    destruct (strcmp (term y) (term z)) eqn:Hyz; try discriminate; intros _ _.
  - apply strcmp_eq in Hxy, Hyz. rewrite Hxy, Hyz, strcmp_refl. reflexivity.
  - apply strcmp_eq in Hxy. rewrite Hxy, Hyz. reflexivity.
  - apply strcmp_eq in Hyz. rewrite <- Hyz, Hxy. reflexivity.
  - now rewrite (strcmp_trans _ _ _ Hxy Hyz).
Qed.

(** Sorted with [strcmp], entries with pairwise different terms are in
    strictly ascending order of their terms. *)
Lemma sorted_terms_strict arr :
  StronglySorted term_le arr -> NoDup (map term arr) ->
  StronglySorted IndexReader.term_lt (map term arr).
Proof.
  induction 1 as [|x arr Hs IH Hx]; intros Hnd; cbn [map]; [constructor|].
  cbn [map] in Hnd. apply NoDup_cons in Hnd as [Hnotin Hnd].
  constructor; [auto|]. apply Forall_forall. intros t Ht.
  apply list_elem_of_fmap in Ht as (y & -> & Hy).
  rewrite Forall_forall in Hx. specialize (Hx y Hy).
  unfold term_le, term_leb in Hx. unfold IndexReader.term_lt.
  destruct (strcmp (term x) (term y)) eqn:E; [|reflexivity|discriminate].
  apply strcmp_eq in E. exfalso. apply Hnotin. rewrite E.
  now apply list_elem_of_fmap_2.
Qed.

Lemma total_postings_perm a b : a ≡ₚ b -> total_postings a = total_postings b.
Proof.
  induction 1 as [|x a b _ IH|x y a|a b c _ IH1 _ IH2];
    rewrite ?total_postings_cons; try lia; reflexivity.
Qed.

Lemma postings_le_total tt e :
  e ∈ tt -> Z.of_nat (length (postings e)) <= total_postings tt.
Proof.
  intros (l1 & l2 & ->)%list_elem_of_split.
  rewrite total_postings_app, total_postings_cons.
  pose proof (total_postings_nonneg l1). pose proof (total_postings_nonneg l2). lia.
Qed.

(** *** [build_index] *)

(** A build over fewer than [2^17] files that runs to completion leaves a
    well-formed index: the dictionary is strictly ascending in the byte
    order of [strcmp] and has one line per term of the table; each line has
    [post_len = 4 * df], and [post_len] bytes at [post_off] of [postings.bin]
    are a strictly ascending array of [df] identifiers, each the identifier
    of a line of [docs.tsv]. *)
Theorem build_index_wellformed (addr : nat -> Z) (out : OutDir)
        (files : list SrcFile) (limit : Z) (o : BuildOutput) :
  Z.of_nat (length files) < 2 ^ 17 ->
  build_index addr out files limit = Done o ->
  StronglySorted IndexReader.term_lt (map tl_term (terms_tsv (index_files o)))
  /\ unique_terms o = Z.of_nat (length (terms_tsv (index_files o)))
  /\ forall l, l ∈ terms_tsv (index_files o) ->
       tl_post_len l = 4 * tl_df l
       /\ exists a,
            read_u32_array (postings_bin (index_files o)) (tl_post_off l) (tl_post_len l)
            = Some a
            /\ Z.of_nat (length a) = tl_df l
            /\ StronglySorted Z.lt a
            /\ forall d, d ∈ a -> d ∈ map dl_docid (docs_tsv o).
Proof.
  intros Hn Hb. unfold build_index in Hb.
  destruct (negb (dir_ok out)); [discriminate|].
  destruct (bool_decide (files = [])); [discriminate|].
  set (fs := if negb (limit =? 0) && (limit <? Z.of_nat (length files))
             then take (Z.to_nat limit) files else files) in Hb.
  assert (Hfs : Z.of_nat (length fs) < 2 ^ 17).
  { unfold fs. destruct (negb (limit =? 0) && (limit <? Z.of_nat (length files)));
      [rewrite length_take|]; lia. }
  destruct (negb (docs_ok out)); [discriminate|].
  set (s0 := mkBuildState tt_init (seen_init (2 ^ 15)) (mkBuildStats 0 0 0 0)) in Hb.
  destruct (index_files_ok addr fs (s0, [])) as [Hok Htot].
  { split; [constructor|constructor]. }
  { cbn. lia. }
  destruct (foldl (index_file addr) (s0, []) fs) as [s docs].
  cbn [fst snd] in Hok, Htot.
  destruct (negb (postings_ok out)); [discriminate|].
  destruct (negb (terms_ok out)); [discriminate|].
  injection Hb as <-. cbn [index_files unique_terms docs_tsv].
  change (total_postings (tt s0)) with 0 in Htot.
  change (cap (seen s0)) with (2 ^ 15) in Htot.
  destruct Hok as [Hnd Hall].
  set (arr := qsort_terms (tt s)).
  assert (Hperm : arr ≡ₚ tt s) by apply merge_sort_Permutation.
  assert (Hsorted : StronglySorted term_le arr)
    by (apply StronglySorted_merge_sort; apply _).
  assert (Hnd' : NoDup (map term arr)).
  { unfold terms_of in Hnd. now rewrite Hperm. }
  assert (Htot' : total_postings arr < 2 ^ 32).
  { rewrite (total_postings_perm _ _ Hperm).
    change (2 ^ 32) with (2 ^ 17 * 2 ^ 15). nia. }
  assert (Hwf : Forall wf_entry arr).
  { apply Forall_forall. intros e He. split.
    - rewrite Forall_forall in Hall. rewrite Hperm in He.
      eapply Forall_impl; [exact (Hall e He)|]. now intros d [_ ?].
    - pose proof (postings_le_total arr e He). lia. }
  destruct (write_fold_prefix arr (mkIndexFiles [] [] 0)) as (ls & bs & Hls & _ & Hlen & Hterms).
  fold (write_index arr) in Hls. cbn [terms_tsv app] in Hls.
  split; [|split].
  - rewrite Hls, Hterms. now apply sorted_terms_strict.
  - rewrite Hls, Hlen. now rewrite (Permutation_length Hperm).
  - intros l Hl. apply list_elem_of_lookup_1 in Hl as [k Hk].
    assert (Hlt : (k < length arr)%nat).
    { rewrite <- Hlen, <- Hls. eapply lookup_lt_Some, Hk. }
    destruct (lookup_lt_is_Some_2 arr k Hlt) as [e He].
    destruct (write_fold_nth arr (mkIndexFiles [] [] 0) k e Hwf eq_refl) as
      (l' & Hl' & _ & Hdf & Hpl & Hread); [cbn [postings_bin length]; lia | exact He |].
    fold (write_index arr) in Hl', Hread. cbn [terms_tsv length Nat.add] in Hl'.
    rewrite Hk in Hl'. injection Hl' as <-.
    split; [exact Hpl|]. exists (postings (finalize_entry e)).
    split; [exact Hread|]. split; [now rewrite Hdf|].
    assert (Hin : e ∈ arr) by (eapply list_elem_of_lookup_2, He).
    rewrite Forall_forall in Hwf. destruct (finalize_entry_ok e (Hwf e Hin)) as (Hs & _).
    split; [exact Hs|].
    intros d Hd. apply (proj1 (finalize_entry_members e d)) in Hd.
    rewrite Forall_forall in Hall. rewrite Hperm in Hin.
    specialize (Hall e Hin). rewrite Forall_forall in Hall.
    now destruct (Hall d Hd).
Qed.

Lemma build_index_wellformed_witness :
  match build_index (fun e => Z.of_nat e * 64) demo_out demo_files 0 with
  | Done o =>
      map tl_term (terms_tsv (index_files o)) = [str "ant"; str "fox"; str "red"]
      /\ StronglySorted IndexReader.term_lt (map tl_term (terms_tsv (index_files o)))
      /\ unique_terms o = Z.of_nat (length (terms_tsv (index_files o)))
  | _ => False
  end.
Proof.
  pose proof (build_index_wellformed (fun e => Z.of_nat e * 64) demo_out demo_files 0) as H.
  destruct (build_index (fun e => Z.of_nat e * 64) demo_out demo_files 0) as [msg| |o] eqn:E.
  - vm_compute in E. discriminate E.
  - vm_compute in E. discriminate E.
  - destruct (H o) as (Hs & Hu & _); [cbn; lia | reflexivity |].
    split; [|split; assumption].
    vm_compute in E. injection E as <-. reflexivity.
Defined.

End BuildFacts.

(** ** Marks in the seen set *)

Module SeenMarksFacts.
Import Bytes BoolIndex SeenMarks BoolIndexFacts.

Lemma probe_hits_refuses steps : forall ss e mask i,
  probe_hits steps ss e mask i = true -> seen_probe steps ss e mask i = (false, ss).
Proof.
  induction steps as [|steps IH]; intros ss e mask i; cbn [probe_hits seen_probe];
    [discriminate|].
  destruct (slots ss !! Z.to_nat i) as [[cur|]|]; try discriminate.
  destruct (cur =? e)%nat; [reflexivity|apply IH].
Qed.

(** A successful insertion fills one null slot and changes nothing else. *)
Lemma seen_probe_fills steps : forall ss e mask i ss',
  seen_probe steps ss e mask i = (true, ss') ->
  exists j, slots ss !! j = Some None
            /\ ss' = mkSeenSet (<[j := Some e]> (slots ss)) (cap ss).
Proof.
  induction steps as [|steps IH]; intros ss e mask i ss'; cbn [seen_probe];
    [discriminate|].
  destruct (slots ss !! Z.to_nat i) as [[cur|]|] eqn:Hs; try discriminate.
  - destruct (cur =? e)%nat; [discriminate|apply IH].
  - intros [= <-]. eauto.
Qed.

Lemma probe_hits_stable steps : forall ss e mask i j x,
  probe_hits steps ss e mask i = true -> slots ss !! j = Some None ->
  probe_hits steps (mkSeenSet (<[j := Some x]> (slots ss)) (cap ss)) e mask i = true.
Proof.
  induction steps as [|steps IH]; intros ss e mask i j x; cbn [probe_hits slots];
    [discriminate|].
  destruct (slots ss !! Z.to_nat i) as [[cur|]|] eqn:Hs; try discriminate.
  intros Hh Hj.
  assert (Hne : j <> Z.to_nat i) by (intros ->; congruence).
  rewrite list_lookup_insert_ne, Hs by assumption.
  destruct (cur =? e)%nat; [reflexivity|]. now apply IH.
Qed.

Lemma seen_probe_marks steps : forall ss e mask i ss',
  seen_probe steps ss e mask i = (true, ss') -> probe_hits steps ss' e mask i = true.
Proof.
  induction steps as [|steps IH]; intros ss e mask i ss'; cbn [seen_probe];
    [discriminate|].
  destruct (slots ss !! Z.to_nat i) as [[cur|]|] eqn:Hs; try discriminate.
  - destruct (cur =? e)%nat eqn:Ece; [discriminate|]. intros Hp.
    pose proof (IH _ _ _ _ _ Hp) as Hh.
    apply seen_probe_fills in Hp as (j & Hj & ->).
    cbn [probe_hits slots].
    assert (Hne : j <> Z.to_nat i) by (intros ->; congruence).
    rewrite list_lookup_insert_ne, Hs, Ece by assumption. exact Hh.
  - intros [= <-]. cbn [probe_hits slots].
    rewrite list_lookup_insert_eq by (eapply lookup_lt_Some, Hs).
    now rewrite Nat.eqb_refl.
Qed.

Section Marks.
Variable addr : nat -> Z.

Lemma seen_insert_cap ss e : cap (snd (seen_insert addr ss e)) = cap ss.
Proof.
  unfold seen_insert.
  destruct (seen_probe _ ss e _ _) as [[|] ss'] eqn:Hp; cbn [snd].
  - apply seen_probe_fills in Hp as (j & _ & ->). reflexivity.
  - pose proof (seen_probe_free (Z.to_nat (cap ss)) ss e (wrap32 (cap ss - 1))
                  (Z.land (wrap32 (ptr_hash (addr e))) (wrap32 (cap ss - 1)))) as [_ H].
    rewrite Hp in H. cbn [fst snd] in H. now rewrite (H eq_refl).
Qed.

Lemma marked_refuses ss e :
  marked addr ss e = true -> seen_insert addr ss e = (false, ss).
Proof. unfold marked, seen_insert. apply probe_hits_refuses. Qed.

Lemma seen_insert_marks ss e ss' :
  seen_insert addr ss e = (true, ss') -> marked addr ss' e = true.
Proof.
  unfold marked, seen_insert. intros Hp.
  pose proof (seen_probe_marks _ _ _ _ _ _ Hp) as Hh.
  apply seen_probe_fills in Hp as (j & _ & ->). exact Hh.
Qed.

Lemma marked_stable ss e e' :
  marked addr ss e = true -> marked addr (snd (seen_insert addr ss e')) e = true.
Proof.
  intros Hm. destruct (seen_insert addr ss e') as [[|] ss'] eqn:Hp; cbn [snd].
  - unfold seen_insert in Hp. apply seen_probe_fills in Hp as (j & Hj & ->).
    unfold marked in *. cbn [cap]. now apply probe_hits_stable.
  - pose proof (seen_insert_free addr ss e') as [_ H].
    rewrite Hp in H. cbn [fst snd] in H. now rewrite (H eq_refl).
Qed.

Lemma marked_reset ss e : marked addr (seen_reset ss) e = false.
Proof.
  unfold marked, seen_reset. cbn [cap slots].
  destruct (Z.to_nat (cap ss)) as [|n] eqn:E; [reflexivity|].
  cbn [probe_hits slots].
  destruct (replicate (S n) None !! _) as [[cur|]|] eqn:Hs; try reflexivity.
  apply lookup_replicate_1 in Hs as [? _]. discriminate.
Qed.

Lemma index_token_once docid tt0 s tok :
  once_inv addr docid tt0 s -> once_inv addr docid tt0 (index_token addr docid s tok).
Proof.
  intros [Hlen Hinv]. unfold index_token. destruct (BoolIndex.is_empty tok); [split; assumption|].
  assert (Hadd : exists tt1 e,
            tt_get_or_add (tt s) tok = (tt1, e)
            /\ (length tt0 <= length tt1)%nat
            /\ forall k e1, tt1 !! k = Some e1 ->
                 (marked addr (seen s) k = false -> postings e1 = before tt0 k)
                 /\ (postings e1 = before tt0 k \/ postings e1 = before tt0 k ++ [docid])).
  { unfold tt_get_or_add.
    destruct (list_find (fun e => term e = tok) (tt s)) as [[e x]|].
    - exists (tt s), e. auto.
    - exists (tt s ++ [mkTermEntry tok 0 []]), (length (tt s)).
      split; [reflexivity|]. split; [rewrite length_app; lia|].
      intros k e1 Hk. apply lookup_snoc_Some in Hk as [[_ Hk]|[-> <-]]; [auto|].
      cbn [postings]. unfold before.
      assert (E : tt0 !! length (tt s) = None) by (apply lookup_ge_None_2; lia).
      rewrite E. cbn. auto. }
  destruct Hadd as (tt1 & e & -> & Hlen1 & Hinv1).
  destruct (seen_insert addr (seen s) e) as [[|] seen1] eqn:Hp.
  - split; cbn [tt seen].
    { assert (El : length (record_posting tt1 e docid) = length tt1)
        by (unfold record_posting; apply length_alter).
      now rewrite El. }
    intros k e1 Hk. unfold record_posting in Hk.
    destruct (decide (e = k)) as [->|Hne].
    + pose proof (list_lookup_alter_eq
                    (fun x => mkTermEntry (term x) (wrap32 (df x + 1)) (postings x ++ [docid]))
                    tt1 k) as Ea.
      pose proof (eq_trans (eq_sym Ea) Hk) as Hk'. clear Ea Hk. rename Hk' into Hk.
      apply fmap_Some in Hk as (x & Hx & ->). cbn [postings].
      destruct (Hinv1 k x Hx) as [H1 _].
      assert (Hm : marked addr (seen s) k = false).
      { destruct (marked addr (seen s) k) eqn:Hm; [|reflexivity].
        rewrite (marked_refuses _ _ Hm) in Hp. discriminate. }
      rewrite (H1 Hm). split; [|auto].
      rewrite (seen_insert_marks _ _ _ Hp). discriminate.
    + pose proof (list_lookup_alter_ne
                    (fun x => mkTermEntry (term x) (wrap32 (df x + 1)) (postings x ++ [docid]))
                    tt1 e k Hne) as Ea.
      pose proof (eq_trans (eq_sym Ea) Hk) as Hk'. clear Ea Hk. rename Hk' into Hk.
      destruct (Hinv1 k e1 Hk) as [H1 H2]. split; [|exact H2].
      intros Hm. apply H1.
      destruct (marked addr (seen s) k) eqn:Hm0; [|reflexivity].
      pose proof (marked_stable (seen s) k e Hm0) as Hst.
      rewrite Hp in Hst. cbn [snd] in Hst. congruence.
  - pose proof (seen_insert_free addr (seen s) e) as [_ H].
    rewrite Hp in H. cbn [fst snd] in H. rewrite (H eq_refl).
    split; cbn [tt seen]; assumption.
Qed.

Lemma index_tokens_once docid tt0 toks : forall s,
  once_inv addr docid tt0 s ->
  once_inv addr docid tt0 (foldl (index_token addr docid) s toks).
Proof.
  induction toks as [|t toks IH]; intros s H; cbn [foldl]; [exact H|].
  apply IH, index_token_once, H.
Qed.

Lemma index_lines_once docid tt0 body : forall s,
  once_inv addr docid tt0 s ->
  once_inv addr docid tt0 (foldl (index_line addr docid) s body).
Proof.
  induction body as [|l body IH]; intros s H; cbn [foldl]; [exact H|].
  apply IH. unfold index_line. apply index_tokens_once. exact H.
Qed.

(** One document adds its identifier to a posting list at most once, at
    the end of the list, and to at most [cap] lists: after the document
    every entry holds the postings it had before (none for a new entry),
    followed by at most one occurrence of the document's identifier, and
    the table has grown by at most [cap] postings. *)
Theorem document_adds_docid_once (docid : Z) (s : BuildState)
        (body : list (list Z)) (k : nat) (e1 : TermEntry) :
  tt (index_body addr docid s body) !! k = Some e1 ->
  (postings e1 = before (tt s) k \/ postings e1 = before (tt s) k ++ [docid])
  /\ total_postings (tt (index_body addr docid s body))
     <= total_postings (tt s) + Z.of_nat (Z.to_nat (cap (seen s))).
Proof.
  intros Hk. split; [|apply index_body_budget].
  assert (H0 : once_inv addr docid (tt s)
                 (mkBuildState (tt s) (seen_reset (seen s)) (st s))).
  { split; cbn [tt seen]; [lia|]. intros j e Hj. unfold before. rewrite Hj. cbn. auto. }
  destruct (index_lines_once docid (tt s) body _ H0) as [_ Hinv].
  now destruct (Hinv k e1 Hk).
Qed.

End Marks.

Lemma document_adds_docid_once_witness :
  exists e1,
    tt (index_body (fun e => Z.of_nat e * 64) 7
          (mkBuildState tt_init (seen_init 4) (mkBuildStats 0 0 0 0))
          [str "to be or not to be"]) !! 0%nat = Some e1
    /\ term e1 = str "to" /\ postings e1 = [7].
Proof.
  eexists. split; [vm_compute; reflexivity|]. split; [reflexivity|].
  destruct (document_adds_docid_once (fun e => Z.of_nat e * 64) 7
              (mkBuildState tt_init (seen_init 4) (mkBuildStats 0 0 0 0))
              [str "to be or not to be"] 0
              (mkTermEntry (str "to") 1 [7])) as [[H|H] _];
    [vm_compute; reflexivity | discriminate H | exact H].
Defined.

End SeenMarksFacts.

(** ** The Russian stemmer and the language switch *)

Module StemRuFacts.
Import Bytes Stem StemRu StemFacts.

(** A stripping pass keeps a prefix of the token; when it strips, the
    prefix is proper, at least four bytes long, and what was cut is a
    suffix of the table. *)
Lemma strip_first_match_ru_spec sufs : forall tok,
  let r := strip_first_match_ru tok sufs in
  (fst r = false /\ snd r = tok)
  \/ (fst r = true
      /\ exists suf, suf ∈ sufs /\ suf <> [] /\ tok = snd r ++ suf
                     /\ (4 <= length (snd r))%nat).
Proof.
  induction sufs as [|suf sufs IH]; intros tok; cbn [strip_first_match_ru].
  - left. split; reflexivity.
  - destruct (Nat.eqb_spec (length suf) 0) as [E0|E0].
    + destruct (IH tok) as [H|(Ht & s & Hs & Hrest)]; [left; exact H|].
      right. split; [exact Ht|]. exists s. split; [now right|exact Hrest].
    + destruct ((length suf <? length tok)%nat && ends_with_bytes tok suf
                && (min_left_bytes_ru <=? length tok - length suf)%nat) eqn:Ec.
      * apply andb_true_iff in Ec as [Ec Hmin]. apply andb_true_iff in Ec as [Hlt Hends].
        apply Nat.ltb_lt in Hlt. apply Nat.leb_le in Hmin. unfold min_left_bytes_ru in Hmin.
        right. cbn [fst snd]. split; [reflexivity|]. exists suf.
        split; [now left|]. split; [now destruct suf|].
        rewrite cut_suffix_take by lia.
        split; [now apply ends_with_bytes_inv|]. rewrite length_take. lia.
      * destruct (IH tok) as [H|(Ht & s & Hs & Hrest)]; [left; exact H|].
        right. split; [exact Ht|]. exists s. split; [now right|exact Hrest].
Qed.

Lemma has_cyrillic_app a b :
  has_cyrillic_utf8 (a ++ b) = has_cyrillic_utf8 a || has_cyrillic_utf8 b.
Proof.
  induction a as [|x a IH]; cbn [app has_cyrillic_utf8]; [reflexivity|].
  destruct ((x =? 208) || (x =? 209)); [reflexivity|exact IH].
Qed.

(** Every suffix of the four tables has a Cyrillic lead byte and at least
    two bytes. *)
Lemma tables_cyrillic suf :
  suf ∈ reflexive ++ adj ++ verb ++ noun ->
  has_cyrillic_utf8 suf = true /\ (2 <= length suf)%nat.
Proof.
  assert (H : forallb (fun s => has_cyrillic_utf8 s && (2 <=? length s)%nat)
                      (reflexive ++ adj ++ verb ++ noun) = true)
    by (vm_compute; reflexivity).
  rewrite forallb_forall in H. intros Hin. apply list_elem_of_In in Hin.
  specialize (H suf Hin). apply andb_true_iff in H as [H1 H2].
  apply Nat.leb_le in H2. auto.
Qed.

(** One pass, on a table made of suffixes of the four tables. *)
Lemma strip_pass sufs tok :
  (forall suf, suf ∈ sufs -> suf ∈ reflexive ++ adj ++ verb ++ noun) ->
  let t := snd (strip_first_match_ru tok sufs) in
  (exists k, t = take k tok)
  /\ (t = tok \/ (4 <= length t /\ length t + 2 <= length tok
                  /\ has_cyrillic_utf8 tok = true))%nat.
Proof.
  intros Hsub. cbn zeta.
  destruct (strip_first_match_ru_spec sufs tok) as [[_ ->]|(_ & suf & Hs & _ & Ht & Hlen)].
  - split; [exists (length tok); now rewrite take_ge by lia | now left].
  - destruct (tables_cyrillic suf (Hsub suf Hs)) as [Hc Hl2].
    set (t := snd (strip_first_match_ru tok sufs)) in *. split.
    + exists (length t). rewrite Ht. now rewrite take_app_length.
    + right. split; [exact Hlen|]. split.
      * rewrite Ht. rewrite length_app. lia.
      * rewrite Ht, has_cyrillic_app, Hc. apply orb_true_r.
Qed.

Lemma sub_reflexive suf : suf ∈ reflexive -> suf ∈ reflexive ++ adj ++ verb ++ noun.
Proof. intros H. apply elem_of_app. now left. Qed.

Lemma sub_adj suf : suf ∈ adj -> suf ∈ reflexive ++ adj ++ verb ++ noun.
Proof. intros H. apply elem_of_app. right. apply elem_of_app. now left. Qed.

Lemma sub_verb suf : suf ∈ verb -> suf ∈ reflexive ++ adj ++ verb ++ noun.
Proof.
  intros H. apply elem_of_app. right. apply elem_of_app. right.
  apply elem_of_app. now left.
Qed.

Lemma sub_noun suf : suf ∈ noun -> suf ∈ reflexive ++ adj ++ verb ++ noun.
Proof.
  intros H. apply elem_of_app. right. apply elem_of_app. right.
  apply elem_of_app. now right.
Qed.

(** Composition of two passes. *)
Lemma strip_pass_then tok t1 t2 :
  ((exists k, t1 = take k tok)
   /\ (t1 = tok \/ (4 <= length t1 /\ length t1 + 2 <= length tok
                    /\ has_cyrillic_utf8 tok = true))%nat) ->
  ((exists k, t2 = take k t1)
   /\ (t2 = t1 \/ (4 <= length t2 /\ length t2 + 2 <= length t1
                   /\ has_cyrillic_utf8 t1 = true))%nat) ->
  (exists k, t2 = take k tok)
  /\ (t2 = tok \/ (4 <= length t2 /\ length t2 + 2 <= length tok
                   /\ has_cyrillic_utf8 tok = true))%nat.
Proof.
  intros [[k1 Hk1] H1] [[k2 Hk2] H2]. split.
  - exists (Nat.min k2 k1). rewrite Hk2, Hk1. apply take_take.
  - destruct H2 as [->|(Ha & Hb & Hc)]; [exact H1|].
    right. destruct H1 as [->|(Ha1 & Hb1 & Hc1)]; [auto|].
    split; [exact Ha|]. split; [lia|exact Hc1].
Qed.

(** [stem_ru] only cuts: its result is a prefix of the token, and when it
    differs from the token at least four bytes are left, at least two were
    cut, and the token has a Cyrillic lead byte.  So a token shorter than
    six bytes, or one without such a byte, is returned as it is, and
    [stem_auto] agrees with [stem_ru] wherever [stem_ru] changes
    something. *)
Theorem stem_ru_cuts (tok : list Z) :
  (exists k, stem_ru tok = take k tok)
  /\ (stem_ru tok = tok
      \/ (4 <= length (stem_ru tok) /\ length (stem_ru tok) + 2 <= length tok
          /\ has_cyrillic_utf8 tok = true /\ stem_auto tok = stem_ru tok))%nat.
Proof.
  assert (H : (exists k, stem_ru tok = take k tok)
              /\ (stem_ru tok = tok
                  \/ (4 <= length (stem_ru tok) /\ length (stem_ru tok) + 2 <= length tok
                      /\ has_cyrillic_utf8 tok = true))%nat).
  { unfold stem_ru.
    pose proof (strip_pass reflexive tok sub_reflexive) as P1. cbn zeta in P1.
    set (t1 := snd (strip_first_match_ru tok reflexive)) in *.
    pose proof (strip_pass adj t1 sub_adj) as P2. cbn zeta in P2.
    destruct (strip_first_match_ru t1 adj) as [is_adj t2] eqn:E2. cbn [snd] in P2.
    pose proof (strip_pass_then tok t1 t2 P1 P2) as P12.
    destruct is_adj.
    - pose proof (strip_pass noun t2 sub_noun) as P3. cbn zeta in P3.
      exact (strip_pass_then tok t2 _ P12 P3).
    - pose proof (strip_pass verb t2 sub_verb) as P3. cbn zeta in P3.
      destruct (strip_first_match_ru t2 verb) as [is_verb t3] eqn:E3. cbn [snd] in P3.
      pose proof (strip_pass_then tok t2 t3 P12 P3) as P123.
      destruct is_verb; [exact P123|].
      pose proof (strip_pass noun t3 sub_noun) as P4. cbn zeta in P4.
      exact (strip_pass_then tok t3 _ P123 P4). }
  destruct H as [Hk Hc]. split; [exact Hk|].
  destruct Hc as [Heq|(Ha & Hb & Hcyr)]; [now left|].
  right. repeat split; try assumption. unfold stem_auto. now rewrite Hcyr.
Qed.

Example stem_ru_noun : stem_ru (str "книгами") = str "книг".
Proof. vm_compute. reflexivity. Qed.

Example stem_ru_reflexive_verb : stem_ru (str "умывались") = str "умыв".
Proof. vm_compute. reflexivity. Qed.

Example stem_auto_english : stem_auto (str "running") = str "run".
Proof. vm_compute. reflexivity. Qed.

(** *** The shape of an English stem *)

Lemma kept_refl tok : tok <> [] -> kept tok tok.
Proof.
  intros H. exists (length tok). split; [|now rewrite take_ge by lia].
  destruct tok; [contradiction|cbn; lia].
Qed.

Lemma kept_take tok t j :
  kept tok t -> (1 <= j <= length t)%nat -> kept tok (take j t).
Proof.
  intros (k & Hk & ->) Hj. rewrite length_take in Hj.
  exists (Nat.min j k). split; [lia|]. apply take_take.
Qed.

Lemma kept_length tok t : kept tok t -> (1 <= length t)%nat.
Proof. intros (k & Hk & ->). rewrite length_take. lia. Qed.

Lemma kept_cut tok t m :
  kept tok t -> (m < length t)%nat -> kept tok (cut_suffix t m).
Proof.
  intros Hk Hm. rewrite cut_suffix_take by lia. apply kept_take; [exact Hk|lia].
Qed.

Lemma has_vowel_cut t m :
  (m <= length t)%nat -> has_vowel_en (cut_suffix t m) = true -> (m < length t)%nat.
Proof.
  intros Hm. unfold cut_suffix. destruct (Nat.ltb_spec (length t) m) as [Hlt|Hge].
  - lia.
  - destruct (Nat.eq_dec m (length t)) as [->|Hne]; [|lia].
    rewrite Nat.sub_diag, take_0. discriminate.
Qed.

Lemma plural_step_kept tok :
  (3 <= length tok)%nat ->
  match plural_step tok with Return t | Next t => kept tok t end.
Proof.
  intros Hn. assert (Hne : tok <> []) by (intros ->; cbn in Hn; lia).
  unfold plural_step.
  destruct (ends_with_bytes tok (str "sses")); [apply kept_cut; [now apply kept_refl|lia]|].
  destruct (ends_with_bytes tok (str "ies")); [apply kept_cut; [now apply kept_refl|lia]|].
  destruct (ends_with_bytes tok (str "ss")); [now apply kept_refl|].
  destruct (ends_with_bytes tok (str "s") && (3 <? length tok)%nat);
    [|now apply kept_refl].
  destruct (TMP_SIZE <=? length tok)%nat; [now apply kept_refl|].
  destruct (has_vowel_en (take (length tok - 1) tok)); [|now apply kept_refl].
  apply kept_cut; [now apply kept_refl|lia].
Qed.

Lemma verb_step_kept tok t1 :
  kept tok t1 -> (3 <= length t1)%nat ->
  match verb_step t1 with Return t | Next t => kept tok t end.
Proof.
  intros Hk Hn. unfold verb_step.
  destruct (ends_with_bytes t1 (str "eed")).
  { destruct (4 <? length t1)%nat; [apply kept_take; [exact Hk|lia]|exact Hk]. }
  destruct (ends_with_bytes t1 (str "ed")).
  { destruct (TMP_SIZE <=? length t1)%nat; [exact Hk|].
    destruct (has_vowel_en (cut_suffix t1 2)) eqn:Hv; [|exact Hk].
    apply kept_cut; [exact Hk|apply has_vowel_cut; [lia|exact Hv]]. }
  destruct (ends_with_bytes t1 (str "ing")); [|exact Hk].
  destruct (TMP_SIZE <=? length t1)%nat; [exact Hk|].
  destruct (has_vowel_en (cut_suffix t1 3)) eqn:Hv; [|exact Hk].
  apply kept_cut; [exact Hk|apply has_vowel_cut; [lia|exact Hv]].
Qed.

Lemma byte_at_last t c : byte_at (t ++ [c]) (length (t ++ [c]) - 1) = c.
Proof.
  unfold byte_at. rewrite length_app. cbn [length].
  replace (length t + 1 - 1)%nat with (length t) by lia.
  now rewrite list_lookup_middle.
Qed.

(** After the stage that appends [e], the last two stages change nothing. *)
Lemma later_steps_e t : y_step (double_step (t ++ [101])) = t ++ [101].
Proof.
  assert (Hd : double_step (t ++ [101]) = t ++ [101]).
  { unfold double_step, ends_with_double_consonant_en.
    destruct (Nat.ltb (length (t ++ [101])) 2); [reflexivity|].
    rewrite byte_at_last.
    destruct (negb (101 =? byte_at (t ++ [101]) (length (t ++ [101]) - 2)));
      reflexivity. }
  rewrite Hd. unfold y_step. rewrite byte_at_last.
  now rewrite andb_false_r.
Qed.

Lemma insert_last (pre : list Z) c x :
  <[(length (pre ++ [c]) - 1)%nat := x]> (pre ++ [c]) = pre ++ [x].
Proof.
  rewrite length_app. cbn [length].
  replace (length pre + 1 - 1)%nat with (length pre + 0)%nat by lia.
  now rewrite insert_app_r.
Qed.

Lemma double_step_kept tok t : kept tok t -> kept tok (double_step t).
Proof.
  intros Hk. unfold double_step, ends_with_double_consonant_en.
  destruct (Nat.ltb_spec (length t) 2); [exact Hk|].
  destruct (negb (_ =? _)); [exact Hk|].
  destruct (is_consonant_en _); [|exact Hk].
  destruct (negb _ && negb _ && negb _); [|exact Hk].
  apply kept_take; [exact Hk|lia].
Qed.

Lemma y_step_kept tok t :
  kept tok t -> exists t' sfx, y_step t = t' ++ sfx /\ kept tok t' /\ en_tail sfx.
Proof.
  intros Hk. unfold y_step.
  destruct (Nat.leb_spec 2 (length t)); cbn [andb].
  2: { exists t, []. rewrite app_nil_r. unfold en_tail. auto. }
  destruct (byte_at t (length t - 1) =? 121).
  2: { exists t, []. rewrite app_nil_r. unfold en_tail. auto. }
  destruct (TMP_SIZE <=? length t)%nat.
  { exists t, []. rewrite app_nil_r. unfold en_tail. auto. }
  destruct (has_vowel_en (take (length t - 1) t)).
  2: { exists t, []. rewrite app_nil_r. unfold en_tail. auto. }
  exists (take (length t - 1) t), [105]. split; [|split].
  - pose proof (take_drop (length t - 1) t) as Hsplit.
    destruct (drop (length t - 1) t) as [|c [|c' r]] eqn:Ed.
    + apply (f_equal length) in Ed. rewrite length_drop in Ed. cbn in Ed. lia.
    + set (pre := take (length t - 1) t) in *. rewrite <- Hsplit.
      apply insert_last.
    + apply (f_equal length) in Ed. rewrite length_drop in Ed. cbn in Ed. lia.
  - apply kept_take; [exact Hk|lia].
  - unfold en_tail. auto.
Qed.

(** [stem_en] keeps a non-empty prefix of the token and puts after it
    nothing, an [e], or an [i] (for the [y] it replaces).  So the stem of a
    non-empty token is not empty, starts with the same byte, and is at
    most one byte longer than the token. *)
Theorem stem_en_shape (tok : list Z) :
  tok <> [] ->
  exists k sfx,
    stem_en tok = take k tok ++ sfx
    /\ (1 <= k <= length tok)%nat /\ en_tail sfx.
Proof.
  intros Hne.
  assert (Hfin : forall t, kept tok t ->
            exists k sfx, t = take k tok ++ sfx
                          /\ (1 <= k <= length tok)%nat /\ en_tail sfx).
  { intros t (k & Hk & ->). exists k, []. rewrite app_nil_r. unfold en_tail. auto. }
  unfold stem_en.
  destruct (Nat.ltb_spec (length tok) 3) as [Hlt|Hge];
    [now apply Hfin, kept_refl|].
  pose proof (plural_step_kept tok Hge) as Hp.
  destruct (plural_step tok) as [t1|t1]; cbn [andThen]; [now apply Hfin|].
  destruct (Nat.ltb_spec (length t1) 3) as [Hlt1|Hge1]; [now apply Hfin|].
  pose proof (verb_step_kept tok t1 Hp Hge1) as Hv.
  destruct (verb_step t1) as [t2|t2]; cbn [andThen]; [now apply Hfin|].
  assert (Htail : tail_step t2 = t2 \/ tail_step t2 = t2 ++ [101]).
  { unfold tail_step. destruct (2 <=? length t2)%nat; [|now left].
    destruct (_ || _ || _); [|now left].
    destruct (length t2 + 1 <? 512)%nat; [now right|now left]. }
  destruct Htail as [-> | ->].
  - destruct (y_step_kept tok _ (double_step_kept tok t2 Hv))
      as (t' & sfx & -> & (k & Hk & ->) & Hs).
    exists k, sfx. auto.
  - rewrite later_steps_e. destruct Hv as (k & Hk & ->).
    exists k, [101]. unfold en_tail. auto.
Qed.

Lemma stem_en_shape_witness :
  str "happy" <> [] /\
  exists k sfx, stem_en (str "happy") = take k (str "happy") ++ sfx
                /\ (1 <= k <= length (str "happy"))%nat /\ en_tail sfx.
Proof.
  split; [discriminate|]. apply stem_en_shape. discriminate.
Defined.

End StemRuFacts.

(** ** The two tokenizers on ASCII and Cyrillic text *)

Module TokenizerAgreementFacts.
Import Bytes TokenizerAgreement BitFacts CodecFacts CaseFoldFacts ByteTokenizerFacts.

Lemma plain_cases cp :
  plain_cp cp = true ->
  (0 <= cp < 0x80) \/ (0x410 <= cp <= 0x44F \/ cp = 0x401 \/ cp = 0x451).
Proof.
  unfold plain_cp, Tokenize.is_cyr_lower, Tokenize.is_cyr_upper.
  rewrite !orb_true_iff, !andb_true_iff, !Z.leb_le, !Z.ltb_lt, !Z.eqb_eq. lia.
Qed.

(** The two bytes of a Cyrillic letter. *)
Lemma cyr_bytes cp :
  (0x410 <= cp <= 0x44F \/ cp = 0x401 \/ cp = 0x451) ->
  exists b0 b1, Tokenize.utf8_bytes cp = [b0; b1]
                /\ (b0 = 0xD0 \/ b0 = 0xD1) /\ 0x80 <= b1 <= 0xBF
                /\ b0 = 192 + cp / 64 /\ b1 = 128 + cp mod 64.
Proof.
  intros H. rewrite utf8_bytes_2 by lia.
  exists (192 + cp / 64), (128 + cp mod 64).
  split; [reflexivity|].
  pose proof (Z.mod_pos_bound cp 64 ltac:(lia)).
  assert (cp / 64 = 16 \/ cp / 64 = 17).
  { destruct (Z.le_gt_cases 0x440 cp).
    - right. symmetry. apply Z.div_unique with (cp - 17 * 64); lia.
    - left. symmetry. apply Z.div_unique with (cp - 16 * 64); lia. }
  repeat split; lia.
Qed.

Lemma cyr_is_letter cp :
  (0x410 <= cp <= 0x44F \/ cp = 0x401 \/ cp = 0x451) ->
  Tokenize.is_letter cp = true /\ Tokenize.is_alnum cp = true
  /\ Tokenize.is_ascii_digit cp = false.
Proof.
  intros H.
  assert (Hl : Tokenize.is_letter cp = true).
  { unfold Tokenize.is_letter, Tokenize.is_cyr_lower, Tokenize.is_cyr_upper.
    destruct (((97 <=? cp) && (cp <=? 122)) || ((65 <=? cp) && (cp <=? 90)));
      [reflexivity|].
    replace (((1072 <=? cp) && (cp <=? 1103) || (cp =? 1105))
             || ((1040 <=? cp) && (cp <=? 1071) || (cp =? 1025))) with true;
      [reflexivity|].
    symmetry. rewrite !orb_true_iff, !andb_true_iff, !Z.leb_le, !Z.eqb_eq. lia. }
  split; [exact Hl|]. split; [unfold Tokenize.is_alnum; now rewrite Hl|].
  unfold Tokenize.is_ascii_digit.
  destruct (Z.leb_spec 48 cp), (Z.leb_spec cp 57); cbn [andb]; try reflexivity; lia.
Qed.

(** On ASCII the two notions of letter-or-digit coincide. *)
Lemma ascii_alnum cp :
  0 <= cp < 0x80 -> Tokenize.is_alnum cp = BoolIndex.is_ascii_alnum cp.
Proof.
  intros H. unfold Tokenize.is_alnum, Tokenize.is_letter, BoolIndex.is_ascii_alnum,
    BoolIndex.is_ascii_alpha, Tokenize.is_ascii_digit, BoolIndex.is_ascii_digit,
    Tokenize.is_cyr_lower, Tokenize.is_cyr_upper, Tokenize.is_greek.
  destruct (Z.leb_spec 97 cp), (Z.leb_spec cp 122), (Z.leb_spec 65 cp), (Z.leb_spec cp 90);
    cbn [andb orb]; try reflexivity; try lia.
  all: destruct (Z.leb_spec 1072 cp), (Z.leb_spec 1040 cp), (Z.leb_spec 880 cp);
    try lia; cbn [andb orb].
  all: destruct (Z.eqb_spec cp 1105), (Z.eqb_spec cp 1025), (Z.eqb_spec cp 181);
    try lia; cbn [andb orb]; reflexivity.
Qed.

(** Decoding a character of the text where its bytes start. *)
Lemma decode_plain pre cp post :
  plain_cp cp = true ->
  Tokenize.decode_utf8_next (pre ++ Tokenize.utf8_bytes cp ++ post) (length pre)
  = Some ((length pre + length (Tokenize.utf8_bytes cp))%nat, cp).
Proof.
  intros [Ha|Hc]%plain_cases.
  - rewrite utf8_bytes_1 by lia. cbn [app length].
    unfold Tokenize.decode_utf8_next. rewrite length_app. cbn [length].
    destruct (Nat.leb_spec (length pre + S (length post)) (length pre)); [lia|].
    rewrite byte_at_pre0. destruct (Z.ltb_spec cp 0x80); [reflexivity|lia].
  - destruct (cyr_bytes cp Hc) as (b0 & b1 & -> & H0 & H1 & E0 & E1).
    cbn [app length].
    assert (Hq : 0 <= cp / 64 < 32) by lia.
    assert (Hr : 0 <= cp mod 64 < 64) by lia.
    destruct (lead2_byte _ Hq) as (_ & L1 & L2).
    destruct (cont_byte _ Hr) as (_ & C1 & C2).
    rewrite <- E0 in L1, L2. rewrite <- E1 in C1, C2.
    rewrite decode_utf8_next_2 by (assumption || lia).
    rewrite L2, C2, lor_shiftl_add by lia. do 2 f_equal.
    change (2 ^ 6) with 64. pose proof (Z.div_mod cp 64 ltac:(lia)). lia.
Qed.

Lemma utf8_bytes_length_pos cp : (1 <= length (Tokenize.utf8_bytes cp))%nat.
Proof. unfold Tokenize.utf8_bytes. repeat case_match; cbn; lia. Qed.

(** What the loop sees after a character: the next character of the text,
    or nothing at its end. *)
Lemma decode_next pre rest :
  forallb plain_cp rest = true ->
  match Tokenize.decode_utf8_next (pre ++ bytes_of_cps rest) (length pre) with
  | Some (_, nx) => (true, nx)
  | None => (false, 0)
  end = match head rest with Some nx => (true, nx) | None => (false, 0) end.
Proof.
  destruct rest as [|nx rest]; intros H.
  - cbn [bytes_of_cps map concat head]. rewrite app_nil_r.
    unfold Tokenize.decode_utf8_next. now rewrite Nat.leb_refl.
  - cbn [forallb] in H. apply andb_true_iff in H as [H _].
    unfold bytes_of_cps. cbn [map concat head]. now rewrite decode_plain.
Qed.

Lemma not_alnum_lower cp :
  Tokenize.is_alnum cp = false -> Tokenize.to_lower_cp cp = cp.
Proof.
  intros H. unfold Tokenize.is_alnum in H. apply orb_false_iff in H as [H _].
  unfold Tokenize.to_lower_cp, Tokenize.is_ascii_upper.
  unfold Tokenize.is_letter, Tokenize.is_cyr_lower, Tokenize.is_cyr_upper in H.
  destruct ((65 <=? cp) && (cp <=? 90)).
  { rewrite orb_true_r in H. discriminate H. }
  rewrite orb_false_r in H.
  destruct ((97 <=? cp) && (cp <=? 122)); [discriminate H|].
  destruct ((1040 <=? cp) && (cp <=? 1071)).
  { rewrite orb_true_r in H. discriminate H. }
  destruct (cp =? 1025); [|reflexivity].
  rewrite !orb_true_r in H. discriminate H.
Qed.

Lemma bytes_of_cps_cons cp rest :
  bytes_of_cps (cp :: rest) = Tokenize.utf8_bytes cp ++ bytes_of_cps rest.
Proof. reflexivity. Qed.

Lemma bytes_of_cps_snoc cps cp :
  bytes_of_cps (cps ++ [cp]) = bytes_of_cps cps ++ Tokenize.utf8_bytes cp.
Proof. unfold bytes_of_cps. rewrite map_app, concat_app. cbn. now rewrite app_nil_r. Qed.

(** One iteration of the codepoint-level loop on a character of the
    text. *)
Lemma cp_iter f pre cp rest tok em :
  plain_cp cp = true -> forallb plain_cp rest = true ->
  Tokenize.tokenize_loop (S f) (pre ++ bytes_of_cps (cp :: rest)) (length pre) tok em
  = if cp_joins cp tok (head rest)
    then Tokenize.tokenize_loop f (pre ++ bytes_of_cps (cp :: rest))
           (length pre + length (Tokenize.utf8_bytes cp))
           (Tokenize.append_utf8 tok (Tokenize.to_lower_cp cp)) em
    else let '(tok', em') := Tokenize.flush tok em in
         Tokenize.tokenize_loop f (pre ++ bytes_of_cps (cp :: rest))
           (length pre + length (Tokenize.utf8_bytes cp)) tok' em'.
Proof.
  intros Hcp Hrest. cbn [Tokenize.tokenize_loop]. rewrite bytes_of_cps_cons.
  pose proof (utf8_bytes_length_pos cp) as Hpos.
  destruct (Nat.leb_spec (length (pre ++ Tokenize.utf8_bytes cp ++ bytes_of_cps rest))
              (length pre)) as [Hl|Hl]; [rewrite !length_app in Hl; lia|].
  rewrite decode_plain by assumption.
  pose proof (decode_next (pre ++ Tokenize.utf8_bytes cp) rest Hrest) as Hn.
  rewrite <- app_assoc, length_app in Hn. rewrite Hn. clear Hn.
  unfold cp_joins.
  destruct (Tokenize.is_alnum cp) eqn:Ea; [now destruct (head rest)|].
  rewrite (not_alnum_lower cp Ea).
  destruct (head rest) as [nx|];
    [change (default 0 (Some nx)) with nx | change (default 0 (@None Z)) with 0];
    cbn [orb].
  - destruct (Tokenize.is_hyphen cp && negb (Tokenize.is_empty tok) && true
              && Tokenize.is_alnum nx); [reflexivity|].
    destruct ((cp =? 43) && negb (Tokenize.is_empty tok) && true
              && Tokenize.is_alnum nx); [reflexivity|].
    destruct ((cp =? 46)
              && (negb (Tokenize.is_empty tok)
                  && Tokenize.is_ascii_digit (Tokenize.back tok))
              && (true && Tokenize.is_ascii_digit nx)); [reflexivity|].
    reflexivity.
  - rewrite !andb_false_r. cbn [andb orb]. reflexivity.
Qed.

(** *** The pending tokens *)

Lemma plain_nonneg cp : plain_cp cp = true -> 0 <= cp.
Proof. intros [?|?]%plain_cases; lia. Qed.

Lemma plain_lower cp : plain_cp cp = true -> plain_cp (Tokenize.to_lower_cp cp) = true.
Proof.
  intros H%plain_cases. unfold Tokenize.to_lower_cp, Tokenize.is_ascii_upper.
  unfold plain_cp, Tokenize.is_cyr_lower, Tokenize.is_cyr_upper.
  destruct (Z.leb_spec 65 cp), (Z.leb_spec cp 90); cbn [andb].
  all: try (destruct (Z.leb_spec 1040 cp), (Z.leb_spec cp 1071); cbn [andb]).
  all: try (destruct (Z.eqb_spec cp 1025)).
  all: rewrite !orb_true_iff, !andb_true_iff, !Z.leb_le, !Z.ltb_lt, !Z.eqb_eq; lia.
Qed.

Lemma same_pending_nil : same_pending [] [].
Proof. exists []. repeat split. Qed.

Lemma same_pending_snoc tok cur cp :
  same_pending tok cur -> plain_cp cp = true ->
  same_pending (Tokenize.append_utf8 tok (Tokenize.to_lower_cp cp))
               (cur ++ Tokenize.utf8_bytes cp).
Proof.
  intros (cps & Hp & -> & ->) Hcp. exists (cps ++ [cp]). split; [|split].
  - rewrite forallb_app, Hp. cbn. now rewrite Hcp.
  - unfold Tokenize.append_utf8. rewrite map_app. cbn [map]. now rewrite bytes_of_cps_snoc.
  - now rewrite bytes_of_cps_snoc.
Qed.

Lemma bytes_of_cps_nil cps : bytes_of_cps cps = [] -> cps = [].
Proof.
  destruct cps as [|cp cps]; [reflexivity|]. rewrite bytes_of_cps_cons.
  intros H. apply app_eq_nil in H as [H _].
  pose proof (utf8_bytes_length_pos cp) as Hl. rewrite H in Hl. cbn in Hl. lia.
Qed.

Lemma same_pending_empty tok cur :
  same_pending tok cur -> Tokenize.is_empty tok = BoolIndex.is_empty cur.
Proof.
  intros (cps & _ & -> & ->). destruct cps as [|cp cps]; [reflexivity|].
  destruct (bytes_of_cps (map Tokenize.to_lower_cp (cp :: cps))) eqn:E1;
    [apply bytes_of_cps_nil in E1; discriminate|].
  destruct (bytes_of_cps (cp :: cps)) eqn:E2;
    [apply bytes_of_cps_nil in E2; discriminate|]. reflexivity.
Qed.

(** Folding the raw token gives the folded token. *)
Lemma same_pending_lower tok cur :
  same_pending tok cur -> BoolIndex.lowercase_inplace cur = tok.
Proof.
  intros (cps & Hp & -> & ->). unfold BoolIndex.lowercase_inplace, bytes_of_cps.
  induction cps as [|cp cps IH]; [reflexivity|].
  cbn [forallb] in Hp. apply andb_true_iff in Hp as [Hcp Hp].
  cbn [map concat]. rewrite map_app, fold_one_codepoint by now apply plain_nonneg.
  now rewrite IH.
Qed.

Lemma last_bytes_of_cps cps cp :
  last (bytes_of_cps (cps ++ [cp])) = last (Tokenize.utf8_bytes cp).
Proof.
  rewrite bytes_of_cps_snoc. pose proof (utf8_bytes_length_pos cp) as Hl.
  destruct (Tokenize.utf8_bytes cp) as [|b u] using rev_ind; [cbn in Hl; lia|].
  now rewrite app_assoc, !last_snoc.
Qed.

Lemma last_byte_digit cp :
  plain_cp cp = true ->
  BoolIndex.is_ascii_digit (default 0 (last (Tokenize.utf8_bytes cp)))
  = Tokenize.is_ascii_digit cp.
Proof.
  intros [Ha|Hc]%plain_cases.
  - rewrite utf8_bytes_1 by lia. reflexivity.
  - destruct (cyr_bytes cp Hc) as (b0 & b1 & -> & _ & H1 & _).
    destruct (cyr_is_letter cp Hc) as (_ & _ & ->). cbn.
    unfold BoolIndex.is_ascii_digit.
    destruct (Z.leb_spec 48 b1), (Z.leb_spec b1 57); cbn [andb]; try reflexivity; lia.
Qed.

Lemma digit_to_lower cp :
  Tokenize.is_ascii_digit (Tokenize.to_lower_cp cp) = Tokenize.is_ascii_digit cp.
Proof.
  unfold Tokenize.to_lower_cp, Tokenize.is_ascii_upper, Tokenize.is_ascii_digit.
  destruct (Z.leb_spec 65 cp), (Z.leb_spec cp 90); cbn [andb].
  all: try (destruct (Z.leb_spec 1040 cp), (Z.leb_spec cp 1071); cbn [andb]).
  all: try (destruct (Z.eqb_spec cp 1025)).
  all: try reflexivity.
  all: repeat match goal with
       | |- context [?a <=? ?b] => destruct (Z.leb_spec a b)
       end; cbn [andb]; try reflexivity; lia.
Qed.

Lemma same_pending_back tok cur :
  same_pending tok cur ->
  Tokenize.is_ascii_digit (Tokenize.back tok)
  = BoolIndex.is_ascii_digit (BoolIndex.back cur).
Proof.
  intros (cps & Hp & -> & ->). unfold Tokenize.back, BoolIndex.back.
  destruct cps as [|cp cps _] using rev_ind; [reflexivity|].
  rewrite forallb_app in Hp. apply andb_true_iff in Hp as [_ Hp].
  cbn [forallb] in Hp. rewrite andb_true_r in Hp.
  rewrite map_app. cbn [map]. rewrite !last_bytes_of_cps.
  rewrite (last_byte_digit cp Hp).
  change Tokenize.is_ascii_digit with BoolIndex.is_ascii_digit.
  rewrite (last_byte_digit _ (plain_lower cp Hp)). apply digit_to_lower.
Qed.

(** *** The byte-level loop on a character of the text *)

Lemma cyr2_ascii pre c post :
  0 <= c < 0x80 -> BoolIndex.is_cyr2_start (pre ++ c :: post) (length pre) = false.
Proof.
  intros H. unfold BoolIndex.is_cyr2_start.
  destruct (length (pre ++ c :: post) <=? length pre + 1)%nat; [reflexivity|].
  rewrite byte_at_pre0.
  destruct (Z.eqb_spec c 208); [lia|]. destruct (Z.eqb_spec c 209); [lia|]. reflexivity.
Qed.

Lemma cyr_piece_ok b0 b1 :
  (b0 = 0xD0 \/ b0 = 0xD1) -> 0x80 <= b1 <= 0xBF ->
  TokenShape.piece_ok (TokenShape.Cyr b0 b1) = true.
Proof.
  intros H0 H1. cbn [TokenShape.piece_ok].
  rewrite andb_true_iff, orb_true_iff, andb_true_iff, !Z.eqb_eq, !Z.leb_le. lia.
Qed.

Lemma tok_start_next pre rest :
  forallb plain_cp rest = true ->
  BoolIndex.is_tok_start (pre ++ bytes_of_cps rest) (length pre)
  = match head rest with Some nx => Tokenize.is_alnum nx | None => false end.
Proof.
  destruct rest as [|nx rest]; intros H.
  - cbn [bytes_of_cps map concat head]. rewrite app_nil_r.
    unfold BoolIndex.is_tok_start. now rewrite Nat.leb_refl.
  - cbn [forallb] in H. apply andb_true_iff in H as [H _].
    rewrite bytes_of_cps_cons. cbn [head]. unfold BoolIndex.is_tok_start.
    pose proof (utf8_bytes_length_pos nx) as Hpos.
    destruct (Nat.leb_spec (length (pre ++ Tokenize.utf8_bytes nx ++ bytes_of_cps rest))
                (length pre)) as [Hl|Hl]; [rewrite !length_app in Hl; lia|].
    destruct (plain_cases nx H) as [Ha|Hc].
    + rewrite utf8_bytes_1 by lia. cbn [app]. rewrite byte_at_pre0.
      rewrite (cyr2_ascii pre nx _ Ha), orb_false_r. symmetry. now apply ascii_alnum.
    + destruct (cyr_bytes nx Hc) as (b0 & b1 & -> & H0 & H1 & _).
      destruct (cyr_is_letter nx Hc) as (_ & -> & _). cbn [app].
      rewrite (is_cyr2_start_pre pre b0 b1 _ (cyr_piece_ok b0 b1 H0 H1)).
      apply orb_true_r.
Qed.

Lemma digit_next pre rest :
  forallb plain_cp rest = true ->
  (length pre <? length (pre ++ bytes_of_cps rest))%nat
  && BoolIndex.is_ascii_digit (byte_at (pre ++ bytes_of_cps rest) (length pre))
  = match head rest with Some nx => Tokenize.is_ascii_digit nx | None => false end.
Proof.
  destruct rest as [|nx rest]; intros H.
  - cbn [bytes_of_cps map concat head]. rewrite app_nil_r. now rewrite Nat.ltb_irrefl.
  - cbn [forallb] in H. apply andb_true_iff in H as [H _].
    rewrite bytes_of_cps_cons. cbn [head].
    pose proof (utf8_bytes_length_pos nx) as Hpos.
    destruct (Nat.ltb_spec (length pre)
                (length (pre ++ Tokenize.utf8_bytes nx ++ bytes_of_cps rest))) as [Hl|Hl];
      [|rewrite !length_app in Hl; lia].
    cbn [andb]. destruct (plain_cases nx H) as [Ha|Hc].
    + rewrite utf8_bytes_1 by lia. cbn [app]. now rewrite byte_at_pre0.
    + destruct (cyr_bytes nx Hc) as (b0 & b1 & -> & H0 & H1 & _).
      destruct (cyr_is_letter nx Hc) as (_ & _ & ->). cbn [app].
      rewrite byte_at_pre0. destruct H0 as [-> | ->]; reflexivity.
Qed.

Lemma ascii_marks cp :
  0 <= cp < 0x80 ->
  Tokenize.is_hyphen cp = (cp =? 45) /\ Tokenize.is_apostrophe cp = (cp =? 39).
Proof.
  intros H. unfold Tokenize.is_hyphen, Tokenize.is_apostrophe.
  destruct (Z.eqb_spec cp 8208), (Z.eqb_spec cp 8209), (Z.eqb_spec cp 8210),
    (Z.eqb_spec cp 8722), (Z.eqb_spec cp 8217); try lia;
    now rewrite !orb_false_r.
Qed.

Lemma byte_iter f pre cp rest tok cur out :
  plain_cp cp = true -> forallb plain_cp rest = true ->
  apostrophe_safe (cp :: rest) = true -> same_pending tok cur ->
  BoolIndex.tokenize_loop (S f) (pre ++ bytes_of_cps (cp :: rest)) (length pre) cur out
  = if cp_joins cp tok (head rest)
    then BoolIndex.tokenize_loop f (pre ++ bytes_of_cps (cp :: rest))
           (length pre + length (Tokenize.utf8_bytes cp))
           (cur ++ Tokenize.utf8_bytes cp) out
    else let '(cur', out') := BoolIndex.flush cur out in
         BoolIndex.tokenize_loop f (pre ++ bytes_of_cps (cp :: rest))
           (length pre + length (Tokenize.utf8_bytes cp)) cur' out'.
Proof.
  intros Hcp Hrest Hsafe Hsp. cbn [BoolIndex.tokenize_loop]. rewrite bytes_of_cps_cons.
  pose proof (utf8_bytes_length_pos cp) as Hpos.
  destruct (Nat.leb_spec (length (pre ++ Tokenize.utf8_bytes cp ++ bytes_of_cps rest))
              (length pre)) as [Hl|Hl]; [rewrite !length_app in Hl; lia|].
  clear Hl. unfold cp_joins.
  destruct (plain_cases cp Hcp) as [Ha|Hc].
  - rewrite utf8_bytes_1 by lia. cbn [app length]. rewrite byte_at_pre0.
    rewrite <- (ascii_alnum cp Ha).
    destruct (Tokenize.is_alnum cp) eqn:Ea; [reflexivity|]. cbn [orb].
    rewrite (cyr2_ascii pre cp _ Ha).
    pose proof (tok_start_next (pre ++ [cp]) rest Hrest) as Ht.
    pose proof (digit_next (pre ++ [cp]) rest Hrest) as Hd.
    rewrite <- app_assoc, length_app in Ht, Hd. cbn [app length] in Ht, Hd.
    rewrite <- !andb_assoc. rewrite Hd, Ht. clear Ht Hd.
    rewrite (same_pending_empty tok cur Hsp), (same_pending_back tok cur Hsp).
    destruct (ascii_marks cp Ha) as [-> ->].
    assert (Hq : cp = 39 -> match head rest with
                            | Some nx => Tokenize.is_alnum nx = Tokenize.is_letter nx
                            | None => True end).
    { intros ->. destruct rest as [|nx rest']; [exact I|]. cbn [head].
      cbn [apostrophe_safe] in Hsafe. apply andb_true_iff in Hsafe as [Hs _].
      change (39 =? 39) with true in Hs. cbn [andb negb] in Hs.
      unfold Tokenize.is_alnum. destruct (Tokenize.is_ascii_digit nx); [discriminate|].
      apply orb_false_r. }
    destruct (Z.eqb_spec cp 45) as [->|N45]; [|destruct (Z.eqb_spec cp 43) as [->|N43];
      [|destruct (Z.eqb_spec cp 39) as [->|N39]; [|destruct (Z.eqb_spec cp 46) as [->|N46]]]].
    + clear Hq. cbn [Z.eqb Pos.eqb orb andb].
      destruct (head rest) as [nx|];
        [change (default 0 (Some nx)) with nx | change (default 0 (@None Z)) with 0];
        destruct (BoolIndex.is_empty cur); cbn [negb andb orb];
        try destruct (Tokenize.is_alnum nx); reflexivity.
    + clear Hq. cbn [Z.eqb Pos.eqb orb andb].
      destruct (head rest) as [nx|];
        [change (default 0 (Some nx)) with nx | change (default 0 (@None Z)) with 0];
        destruct (BoolIndex.is_empty cur); cbn [negb andb orb];
        try destruct (Tokenize.is_alnum nx); reflexivity.
    + specialize (Hq eq_refl). cbn [Z.eqb Pos.eqb orb andb].
      destruct (head rest) as [nx|];
        [change (default 0 (Some nx)) with nx; rewrite <- Hq
        | change (default 0 (@None Z)) with 0];
        destruct (BoolIndex.is_empty cur); cbn [negb andb orb];
        try destruct (Tokenize.is_alnum nx); reflexivity.
    + clear Hq. cbn [Z.eqb Pos.eqb orb andb].
      destruct (head rest) as [nx|];
        [change (default 0 (Some nx)) with nx | change (default 0 (@None Z)) with 0];
        destruct (BoolIndex.is_empty cur); cbn [negb andb orb];
        destruct (BoolIndex.is_ascii_digit (BoolIndex.back cur)); cbn [negb andb orb];
        try (change Tokenize.is_ascii_digit with BoolIndex.is_ascii_digit;
             destruct (BoolIndex.is_ascii_digit nx)); reflexivity.
    + clear Hq. cbn [orb andb]. rewrite !andb_false_r. cbn [orb andb]. reflexivity.
  - destruct (cyr_bytes cp Hc) as (b0 & b1 & -> & H0 & H1 & _).
    destruct (cyr_is_letter cp Hc) as (_ & -> & _). cbn [app length orb].
    rewrite byte_at_pre0, byte_at_pre1.
    assert (Hb : (b0 =? 208) || (b0 =? 209) = true)
      by (rewrite orb_true_iff, !Z.eqb_eq; exact H0).
    rewrite (cyr_not_alnum _ Hb).
    rewrite (is_cyr2_start_pre pre b0 b1 _ (cyr_piece_ok b0 b1 H0 H1)).
    reflexivity.
Qed.

(** *** The two loops in step *)

Lemma apostrophe_safe_tail cp rest :
  apostrophe_safe (cp :: rest) = true -> apostrophe_safe rest = true.
Proof.
  destruct rest as [|nx rest]; [reflexivity|]. cbn [apostrophe_safe].
  intros H. now apply andb_true_iff in H as [_ H].
Qed.

Lemma flush_agree tok cur out :
  same_pending tok cur ->
  snd (Tokenize.flush tok out) = snd (BoolIndex.flush cur out)
  /\ (Tokenize.is_empty tok = false ->
      Tokenize.flush tok out = ([], out ++ [tok])
      /\ BoolIndex.flush cur out = ([], out ++ [tok])).
Proof.
  intros Hsp. pose proof (same_pending_empty tok cur Hsp) as He.
  pose proof (same_pending_lower tok cur Hsp) as Hl.
  unfold Tokenize.flush, BoolIndex.flush.
  destruct tok as [|t tok], cur as [|c cur]; try discriminate He.
  - split; [reflexivity|discriminate].
  - rewrite Hl. split; [reflexivity|]. intros _. split; reflexivity.
Qed.

Lemma loops_agree rest : forall pre tok cur out f1 f2,
  forallb plain_cp rest = true -> apostrophe_safe rest = true ->
  same_pending tok cur ->
  (length rest <= f1)%nat -> (length rest <= f2)%nat ->
  (let '(t, e) := Tokenize.tokenize_loop f1 (pre ++ bytes_of_cps rest) (length pre) tok out
   in snd (Tokenize.flush t e))
  = (let '(c, o) := BoolIndex.tokenize_loop f2 (pre ++ bytes_of_cps rest) (length pre) cur out
     in snd (BoolIndex.flush c o)).
Proof.
  induction rest as [|cp rest IH]; intros pre tok cur out f1 f2 Hp Hs Hsp H1 H2.
  - cbn [bytes_of_cps map concat]. rewrite app_nil_r.
    assert (E1 : Tokenize.tokenize_loop f1 pre (length pre) tok out = (tok, out))
      by (destruct f1; cbn [Tokenize.tokenize_loop]; [|rewrite Nat.leb_refl]; reflexivity).
    assert (E2 : BoolIndex.tokenize_loop f2 pre (length pre) cur out = (cur, out))
      by (destruct f2; cbn [BoolIndex.tokenize_loop]; [|rewrite Nat.leb_refl]; reflexivity).
    rewrite E1, E2. apply (flush_agree tok cur out Hsp).
  - destruct f1 as [|f1]; [cbn in H1; lia|]. destruct f2 as [|f2]; [cbn in H2; lia|].
    cbn [forallb] in Hp. apply andb_true_iff in Hp as [Hcp Hp].
    pose proof (apostrophe_safe_tail cp rest Hs) as Hs'.
    rewrite (cp_iter f1 pre cp rest tok out Hcp Hp).
    rewrite (byte_iter f2 pre cp rest tok cur out Hcp Hp Hs Hsp).
    rewrite bytes_of_cps_cons, app_assoc, <- length_app.
    cbn [length] in H1, H2.
    destruct (cp_joins cp tok (head rest)).
    + apply IH; try assumption; try lia. now apply same_pending_snoc.
    + destruct (Tokenize.is_empty tok) eqn:Ee.
      * assert (tok = []) by (now destruct tok). subst tok.
        pose proof (same_pending_empty [] cur Hsp) as Hc.
        assert (cur = []) by (destruct cur; [reflexivity|discriminate Hc]). subst cur.
        cbn [Tokenize.flush BoolIndex.flush].
        apply IH; try assumption; lia.
      * destruct (flush_agree tok cur out Hsp) as [_ Hf].
        destruct (Hf Ee) as [-> ->].
        apply IH; try assumption; try lia. apply same_pending_nil.
Qed.

(** C7 (as amended): on a line of ASCII characters and letters of the
    Russian alphabet (U+0410..U+044F, U+0401, U+0451) in which no
    apostrophe is directly followed by a digit, the codepoint-level
    tokenizer of [tokenize.cpp] and the byte-level tokenizer of
    [bool_index.cpp] emit the same tokens. *)
Theorem tokenizers_agree (cps : list Z) :
  forallb plain_cp cps = true -> apostrophe_safe cps = true ->
  Tokenize.tokenize_line (bytes_of_cps cps) = BoolIndex.tokenize_line (bytes_of_cps cps).
Proof.
  intros Hp Hs. unfold Tokenize.tokenize_line, BoolIndex.tokenize_line.
  assert (Hlen : (length cps <= length (bytes_of_cps cps))%nat).
  { clear. induction cps as [|cp cps IH]; [cbn; lia|].
    rewrite bytes_of_cps_cons, length_app. cbn [length].
    pose proof (utf8_bytes_length_pos cp). lia. }
  apply (loops_agree cps [] [] [] [] _ _ Hp Hs same_pending_nil Hlen Hlen).
Qed.

Lemma tokenizers_agree_witness :
  Tokenize.tokenize_line (bytes_of_cps [0x41; 0x2D; 0x431; 0x20; 0x6F; 0x27; 0x6B; 0x2E])
  = [str "a-" ++ [0xD0; 0xB1]; str "o'k"]
  /\ BoolIndex.tokenize_line (bytes_of_cps [0x41; 0x2D; 0x431; 0x20; 0x6F; 0x27; 0x6B; 0x2E])
     = [str "a-" ++ [0xD0; 0xB1]; str "o'k"].
Proof.
  rewrite <- (tokenizers_agree [0x41; 0x2D; 0x431; 0x20; 0x6F; 0x27; 0x6B; 0x2E]);
    [split; vm_compute; reflexivity | reflexivity | reflexivity].
Defined.

(** C7 as stated fails twice.  On the ASCII line [a'1] the byte-level
    tokenizer keeps the apostrophe before the digit and emits one token,
    the codepoint-level one emits two.  On the Cyrillic letter U+0456, which
    is not in the alphabet [is_letter] knows, the byte-level tokenizer emits
    a token and the codepoint-level one emits none. *)
Lemma tokenizers_disagree :
  (str "a'1" = bytes_of_cps [97; 39; 49]
   /\ Tokenize.tokenize_line (str "a'1") = [str "a"; str "1"]
   /\ BoolIndex.tokenize_line (str "a'1") = [str "a'1"]
   /\ Tokenize.tokenize_line (str "a'1") <> BoolIndex.tokenize_line (str "a'1"))
  /\ ([0xD1; 0x96] = bytes_of_cps [0x456]
      /\ Tokenize.tokenize_line [0xD1; 0x96] = []
      /\ BoolIndex.tokenize_line [0xD1; 0x96] = [[0xD1; 0x96]]
      /\ Tokenize.tokenize_line [0xD1; 0x96] <> BoolIndex.tokenize_line [0xD1; 0x96]).
Proof.
  repeat split; try (vm_compute; reflexivity); vm_compute; discriminate.
Qed.

End TokenizerAgreementFacts.

(** ** The dictionary a build leaves *)

Module DictionaryFacts.
Import Bytes BoolIndex BuildInv SeenMarks BoolIndexFacts BuildFacts SeenMarksFacts.

(** *** The length of a posting list *)

Lemma counts_ok_mono n m tt : (n <= m)%nat -> counts_ok n tt -> counts_ok m tt.
Proof.
  intros Hnm H. eapply Forall_impl; [exact H|]. intros e He. cbv beta in *. lia.
Qed.

Section Counts.
Variable addr : nat -> Z.

(** A document makes no posting list longer by more than one. *)
Lemma index_body_counts docid s body n :
  counts_ok n (tt s) -> counts_ok (S n) (tt (index_body addr docid s body)).
Proof.
  intros Hc. unfold index_body.
  assert (H0 : once_inv addr docid (tt s)
                 (mkBuildState (tt s) (seen_reset (seen s)) (st s))).
  { split; cbn [tt seen]; [lia|]. intros j e Hj. unfold before. rewrite Hj. cbn. auto. }
  destruct (index_lines_once addr docid (tt s) body _ H0) as [_ Hinv].
  apply Forall_forall. intros e1 He1.
  apply list_elem_of_lookup_1 in He1 as [k Hk].
  destruct (Hinv k e1 Hk) as [_ Hp].
  assert (Hb : (length (before (tt s) k) <= n)%nat).
  { unfold before. destruct (tt s !! k) as [e0|] eqn:E0; cbn; [|lia].
    unfold counts_ok in Hc. rewrite Forall_forall in Hc.
    apply Hc. eapply list_elem_of_lookup_2, E0. }
  destruct Hp as [-> | ->]; [lia|]. rewrite length_app. cbn. lia.
Qed.

Lemma index_files_counts files : forall acc,
  counts_ok (length (snd acc)) (tt (fst acc)) ->
  let r := foldl (index_file addr) acc files in
  counts_ok (length (snd r)) (tt (fst r))
  /\ (length (snd r) <= length (snd acc) + length files)%nat.
Proof.
  induction files as [|f files IH]; intros acc Hc; cbn [foldl].
  - split; [exact Hc | lia].
  - assert (Hstep : counts_ok (length (snd (index_file addr acc f)))
                              (tt (fst (index_file addr acc f)))
                    /\ (length (snd (index_file addr acc f)) <= S (length (snd acc)))%nat).
    { unfold index_file. destruct (content f) as [text|]; [|split; [exact Hc | lia]].
      unfold index_document. destruct (parse_header (getlines text)) as [title url].
      cbn [fst snd tt]. rewrite length_app. cbn [length].
      split; [|lia]. replace (length (snd acc) + 1)%nat with (S (length (snd acc))) by lia.
      now apply index_body_counts. }
    destruct Hstep as [H1 H2]. destruct (IH _ H1) as [H3 H4].
    split; [exact H3|]. cbn [length]. lia.
Qed.

End Counts.

(** C1: after a build that runs to completion, every line of [terms.tsv]
    has [post_len = df * 4], and reading [post_len] bytes at [post_off] of
    [postings.bin] gives a strictly ascending array of [df] 32-bit values.
    The number of files is below [2^31], so that the length of a posting
    list and the doubling of its capacity stay within 32 bits. *)
Theorem build_index_entries_ok (addr : nat -> Z) (out : OutDir)
        (files : list SrcFile) (limit : Z) (o : BuildOutput) :
  Z.of_nat (length files) < 2 ^ 31 ->
  build_index addr out files limit = Done o ->
  forall l, l ∈ terms_tsv (index_files o) -> line_ok (postings_bin (index_files o)) l.
Proof.
  intros Hn Hb. unfold build_index in Hb.
  destruct (negb (dir_ok out)); [discriminate|].
  destruct (bool_decide (files = [])); [discriminate|].
  set (fs := if negb (limit =? 0) && (limit <? Z.of_nat (length files))
             then take (Z.to_nat limit) files else files) in Hb.
  assert (Hfs : Z.of_nat (length fs) < 2 ^ 31).
  { unfold fs. destruct (negb (limit =? 0) && (limit <? Z.of_nat (length files)));
      [rewrite length_take|]; lia. }
  destruct (negb (docs_ok out)); [discriminate|].
  set (s0 := mkBuildState tt_init (seen_init (2 ^ 15)) (mkBuildStats 0 0 0 0)) in Hb.
  destruct (index_files_ok addr fs (s0, [])) as [Hok Htot].
  { split; [constructor|constructor]. }
  { cbn. lia. }
  destruct (index_files_counts addr fs (s0, [])) as [Hcnt Hdocs].
  { constructor. }
  destruct (foldl (index_file addr) (s0, []) fs) as [s docs].
  cbn [fst snd length] in Hok, Htot, Hcnt, Hdocs.
  destruct (negb (postings_ok out)); [discriminate|].
  destruct (negb (terms_ok out)); [discriminate|].
  injection Hb as <-. cbn [index_files].
  change (total_postings (tt s0)) with 0 in Htot.
  change (cap (seen s0)) with (2 ^ 15) in Htot.
  destruct Hok as [_ Hall].
  set (arr := qsort_terms (tt s)).
  assert (Hperm : arr ≡ₚ tt s) by apply merge_sort_Permutation.
  apply write_index_lines_ok.
  - apply Forall_forall. intros e He. rewrite Hperm in He. split.
    + rewrite Forall_forall in Hall.
      eapply Forall_impl; [exact (Hall e He)|]. now intros d [_ ?].
    + unfold counts_ok in Hcnt. rewrite Forall_forall in Hcnt.
      specialize (Hcnt e He). cbv beta in Hcnt. lia.
  - rewrite (total_postings_perm _ _ Hperm).
    change (2 ^ 64) with (4 * (2 ^ 31 * 2 ^ 15) * 2 ^ 16). nia.
Qed.

Lemma build_index_entries_ok_witness :
  match build_index (fun e => Z.of_nat e * 64) demo_out demo_files 0 with
  | Done o =>
      map tl_term (terms_tsv (index_files o)) = [str "ant"; str "fox"; str "red"]
      /\ forall l, l ∈ terms_tsv (index_files o) ->
           line_ok (postings_bin (index_files o)) l
  | _ => False
  end.
Proof.
  pose proof (build_index_entries_ok (fun e => Z.of_nat e * 64) demo_out demo_files 0) as H.
  destruct (build_index (fun e => Z.of_nat e * 64) demo_out demo_files 0) as [msg| |o] eqn:E.
  - vm_compute in E. discriminate E.
  - vm_compute in E. discriminate E.
  - split; [|apply H; [cbn; lia | reflexivity]].
    vm_compute in E. injection E as <-. reflexivity.
Defined.

End DictionaryFacts.

(** ** The [lookup] command *)

Module LookupFacts.
Import Bytes Tokenize BoolIndex CaseFold CaseFoldFacts.




(** [Fox] and [FOX] find what [fox] finds. *)
Example lookup_mixed_case :
  let terms := str "fox" ++ [9] ++ str "2" ++ [9] ++ str "0" ++ [9] ++ str "8" ++ [10] in
  let posts := u32_array_bytes [7; 9] in
  lookup_command (str "idx") (Some terms) (Some posts) (str "Fox")
    = Some (Done (Found (str "fox") 2 [7; 9] 0))
  /\ lookup_command (str "idx") (Some terms) (Some posts) (str "FOX")
     = lookup_command (str "idx") (Some terms) (Some posts) (str "fox").
Proof. split; vm_compute; reflexivity. Qed.

End LookupFacts.
